(** * Resolution cache and project graph of the TypeScript language server

    A shallow embedding of [createResolutionCache] (compiler/resolutionCache.ts)
    and of the version and change bookkeeping of [Project] (server/project.ts),
    with the properties their specification states about them. *)

From Stdlib Require Import ZArith Lia Ascii.
From stdpp Require Import strings gmap list.

Local Open Scope Z_scope.
Local Open Scope nat_scope.

(** ** JavaScript strings *)

Module Js.

Definition directorySeparator : ascii := "/"%char.

(** [startsWith(str, prefix)] of core.ts. *)
Definition startsWith (str pre : string) : bool := String.prefix pre str.

(** [endsWith(str, suffix)] of core.ts: [suffix] is a final segment of [str]. *)
Fixpoint endsWith (str suffix : string) : bool :=
  String.eqb str suffix ||
  match str with
  | EmptyString => false
  | String _ rest => endsWith rest suffix
  end.

(** [str.indexOf(sub) !== -1]. *)
Fixpoint includes (str sub : string) : bool :=
  String.prefix sub str ||
  match str with
  | EmptyString => false
  | String _ rest => includes rest sub
  end.

(** [str[i] === c]; out of range the index expression is [undefined]. *)
Definition charAtIs (str : string) (i : nat) (c : ascii) : bool :=
  match String.get i str with
  | Some c' => Ascii.eqb c' c
  | None => false
  end.

End Js.

(** A [Path] is a canonical file name, a branded string in the source. *)
Abbreviation Path := string.

(** ** The compiler's own helpers and the host

    [core.ts] and [types.ts] are not part of the sources at hand: the helpers
    of theirs that the cache calls are taken as an interface. *)

(** The members of [Extension] that [failedLookupDefaultExtensions] lists. *)
Inductive Extension := Ts | Tsx | Js | Jsx | Json.

Class CoreLibrary := {
  getDirectoryPath : string -> string;
  (** [getNormalizedAbsolutePath(fileName, currentDirectory)] *)
  getNormalizedAbsolutePath : string -> string -> string;
  removeTrailingDirectorySeparator : string -> string;
  fileExtensionIsOneOf : Path -> list Extension -> bool;
  isExternalModuleNameRelative : string -> bool
}.

(** [ResolutionWithResolvedFileName]. *)
Record ResolvedFile := {
  resolvedFileName : option string;
  (** [extensionIsTypeScript(resolvedModule.extension)] *)
  hasTypeScriptExtension : bool
}.

(** What the external per-name resolution primitive returns:
    [{ resolvedModule?, failedLookupLocations }]. *)
Record LoaderResult := {
  loadedFile : option ResolvedFile;
  loadedFailedLookupLocations : list string
}.

(** [ResolutionCacheHost], with the resolution primitives of the compiler that
    probe the file system through it ([ts.resolveModuleName],
    [loadModuleFromGlobalCache], [ts.resolveTypeReferenceDirective]); the
    compiler options and the host they receive are fixed per instance. *)
Class ResolutionCacheHost := {
  toPath : string -> Path;
  getCurrentDirectory : string;
  (** optional member: [None] is a host without [getGlobalCache], [Some None]
      one whose [getGlobalCache()] returns [undefined] *)
  getGlobalCache : option (option string);
  (** optional member *)
  maxNumberOfFilesToIterateForInvalidation : option Z;
  (** [getCompilationSettings().types] is set *)
  compilationSettingsListTypes : bool;
  (** [getEffectiveTypeRoots(options, ...)] for the compilation settings *)
  effectiveTypeRoots : option (list string);
  tsResolveModuleName : string -> string -> LoaderResult;
  loadModuleFromGlobalCache : string -> string -> LoaderResult;
  resolveTypeReferenceDirective : string -> string -> LoaderResult
}.

(** ** Where a failed lookup location is watched *)

Record DirectoryOfFailedLookupWatch := {
  dir : string;
  dirPath : Path
}.

Definition isInDirectoryPath (d : option Path) (file : Path) : bool :=
  match d with
  | None => false
  | Some d =>
      if String.length file <=? String.length d then false
      else Js.startsWith file d && Js.charAtIs file (String.length d) Js.directorySeparator
  end.

Definition isNodeModulesDirectory (p : Path) : bool :=
  Js.endsWith p "/node_modules".

Section WatchPlacement.
Context `{!CoreLibrary} `{!ResolutionCacheHost}.

(** [rootDir] and [rootPath] of the cache: both [undefined] when it was
    created without a root directory for resolution, both strings
    otherwise. *)
Variable root : option (string * Path).

(** [while (!isNodeModulesDirectory(dirPath)) { dir = ...; dirPath = ... }];
    [None] when the loop is still running after [fuel] iterations. *)
Fixpoint walkToNodeModules (fuel : nat) (d : string) (p : Path)
  : option DirectoryOfFailedLookupWatch :=
  if isNodeModulesDirectory p then Some {| dir := d; dirPath := p |}
  else match fuel with
       | O => None
       | S fuel' => walkToNodeModules fuel' (getDirectoryPath d) (getDirectoryPath p)
       end.

(** [while (!isInDirectoryPath(dirPath, rootPath)) { ... break ... }]. *)
Fixpoint walkToAncestorOfRoot (fuel : nat) (rp : Path) (d : string) (p : Path)
  : option DirectoryOfFailedLookupWatch :=
  if isInDirectoryPath (Some p) rp then Some {| dir := d; dirPath := p |}
  else
    let parentPath := getDirectoryPath p in
    if String.eqb parentPath p then Some {| dir := d; dirPath := p |}
    else match fuel with
         | O => None
         | S fuel' => walkToAncestorOfRoot fuel' rp (getDirectoryPath d) parentPath
         end.

Definition getDirectoryToWatchFailedLookupLocation
    (failedLookupLocation : string) (failedLookupLocationPath : Path)
  : option DirectoryOfFailedLookupWatch :=
  let underRoot :=
    match root with
    | Some (rd, rp) =>
        if isInDirectoryPath (Some rp) failedLookupLocationPath
        then Some {| dir := rd; dirPath := rp |} else None
    | None => None
    end in
  match underRoot with
  | Some w => Some w
  | None =>
      let d := getDirectoryPath
                 (getNormalizedAbsolutePath failedLookupLocation getCurrentDirectory) in
      let p := getDirectoryPath failedLookupLocationPath in
      (* If the directory is node_modules use it to watch *)
      if isNodeModulesDirectory p then Some {| dir := d; dirPath := p |}
      (* If directory path contains node module, get the node_modules directory *)
      else if Js.includes p "/node_modules/" then walkToNodeModules (String.length p) d p
      (* Use some ancestor of the root directory *)
      else match root with
           | Some (_, rp) => walkToAncestorOfRoot (String.length p) rp d p
           | None => Some {| dir := d; dirPath := p |}
           end
  end.

End WatchPlacement.

(** ** JavaScript maps

    [createMap<T>()]: string keys, iterated in insertion order. *)

Module JsMap.

Abbreviation t V := (list (string * V)).

Section Ops.
Context {V : Type}.

Fixpoint get (k : string) (m : t V) : option V :=
  match m with
  | [] => None
  | (k', v) :: m' => if String.eqb k' k then Some v else get k m'
  end.

Definition has (k : string) (m : t V) : bool :=
  match get k m with Some _ => true | None => false end.

(** An existing key keeps its place, a new one goes last. *)
Fixpoint set (k : string) (v : V) (m : t V) : t V :=
  match m with
  | [] => [(k, v)]
  | (k', v') :: m' =>
      if String.eqb k' k then (k, v) :: m' else (k', v') :: set k v m'
  end.

Definition delete (k : string) (m : t V) : t V :=
  filter (fun kv => negb (String.eqb (fst kv) k)) m.

Definition size (m : t V) : nat := length m.

Definition keys (m : t V) : list string := map fst m.
End Ops.

End JsMap.

(** ** The state of one resolution cache *)

(** A resolution object ([ResolutionWithFailedLookupLocations]).  Its
    [failedLookupLocations] and resolved file never change once the loader has
    returned it; [identity] tells the objects apart, and the one mutable member,
    [isInvalidated], is kept per identity in the cache state, so that every
    alias of an object sees the flag. *)
Record Resolution := {
  identity : nat;
  failedLookupLocations : list string;
  resolvedFile : option ResolvedFile
}.

(** The handle that the host returns for a directory watch. *)
Record FileWatcher := {
  watcherId : nat;
  watchedPath : string
}.

Record DirectoryWatchesOfFailedLookup := {
  (** watcher for the directory of failed lookup *)
  watcher : FileWatcher;
  (** ref count keeping this directory watch alive *)
  refCount : Z
}.

Inductive ResolutionKind := ModuleName | TypeReferenceDirective.

Record ResolutionCache := {
  rootOfResolution : option (string * Path);
  filesWithChangedSetOfUnresolvedImports : option (list Path);
  filesWithInvalidatedResolutions : option (gset Path);
  allFilesHaveInvalidatedResolution : bool;
  resolvedModuleNames : JsMap.t (JsMap.t Resolution);
  perDirectoryResolvedModuleNames : JsMap.t (JsMap.t Resolution);
  resolvedTypeReferenceDirectives : JsMap.t (JsMap.t Resolution);
  perDirectoryResolvedTypeReferenceDirectives : JsMap.t (JsMap.t Resolution);
  customFailedLookupPaths : gmap Path Z;
  directoryWatchesOfFailedLookups : gmap Path DirectoryWatchesOfFailedLookup;
  typeRootsWatches : gmap Path FileWatcher;
  (** the [isInvalidated] members of the resolution objects *)
  isInvalidated : gset nat;
  (** identity of the next object that a loader returns *)
  nextResolution : nat;
  (** host side: the next watcher handle, the handles closed so far, and the
      number of [onInvalidatedResolution()] notifications *)
  nextWatcher : nat;
  closedWatchers : list FileWatcher;
  invalidatedResolutionNotifications : nat
}.

Definition withChangedFiles v (c : ResolutionCache) : ResolutionCache :=
  {| rootOfResolution := rootOfResolution c;
     filesWithChangedSetOfUnresolvedImports := v;
     filesWithInvalidatedResolutions := filesWithInvalidatedResolutions c;
     allFilesHaveInvalidatedResolution := allFilesHaveInvalidatedResolution c;
     resolvedModuleNames := resolvedModuleNames c;
     perDirectoryResolvedModuleNames := perDirectoryResolvedModuleNames c;
     resolvedTypeReferenceDirectives := resolvedTypeReferenceDirectives c;
     perDirectoryResolvedTypeReferenceDirectives := perDirectoryResolvedTypeReferenceDirectives c;
     customFailedLookupPaths := customFailedLookupPaths c;
     directoryWatchesOfFailedLookups := directoryWatchesOfFailedLookups c;
     typeRootsWatches := typeRootsWatches c;
     isInvalidated := isInvalidated c;
     nextResolution := nextResolution c;
     nextWatcher := nextWatcher c;
     closedWatchers := closedWatchers c;
     invalidatedResolutionNotifications := invalidatedResolutionNotifications c |}.

Definition withInvalidatedFiles v (c : ResolutionCache) : ResolutionCache :=
  {| rootOfResolution := rootOfResolution c;
     filesWithChangedSetOfUnresolvedImports := filesWithChangedSetOfUnresolvedImports c;
     filesWithInvalidatedResolutions := v;
     allFilesHaveInvalidatedResolution := allFilesHaveInvalidatedResolution c;
     resolvedModuleNames := resolvedModuleNames c;
     perDirectoryResolvedModuleNames := perDirectoryResolvedModuleNames c;
     resolvedTypeReferenceDirectives := resolvedTypeReferenceDirectives c;
     perDirectoryResolvedTypeReferenceDirectives := perDirectoryResolvedTypeReferenceDirectives c;
     customFailedLookupPaths := customFailedLookupPaths c;
     directoryWatchesOfFailedLookups := directoryWatchesOfFailedLookups c;
     typeRootsWatches := typeRootsWatches c;
     isInvalidated := isInvalidated c;
     nextResolution := nextResolution c;
     nextWatcher := nextWatcher c;
     closedWatchers := closedWatchers c;
     invalidatedResolutionNotifications := invalidatedResolutionNotifications c |}.

Definition withAllFilesInvalidated v (c : ResolutionCache) : ResolutionCache :=
  {| rootOfResolution := rootOfResolution c;
     filesWithChangedSetOfUnresolvedImports := filesWithChangedSetOfUnresolvedImports c;
     filesWithInvalidatedResolutions := filesWithInvalidatedResolutions c;
     allFilesHaveInvalidatedResolution := v;
     resolvedModuleNames := resolvedModuleNames c;
     perDirectoryResolvedModuleNames := perDirectoryResolvedModuleNames c;
     resolvedTypeReferenceDirectives := resolvedTypeReferenceDirectives c;
     perDirectoryResolvedTypeReferenceDirectives := perDirectoryResolvedTypeReferenceDirectives c;
     customFailedLookupPaths := customFailedLookupPaths c;
     directoryWatchesOfFailedLookups := directoryWatchesOfFailedLookups c;
     typeRootsWatches := typeRootsWatches c;
     isInvalidated := isInvalidated c;
     nextResolution := nextResolution c;
     nextWatcher := nextWatcher c;
     closedWatchers := closedWatchers c;
     invalidatedResolutionNotifications := invalidatedResolutionNotifications c |}.

(** The four maps of resolutions, by kind of name. *)
Definition withPerFile (k : ResolutionKind) v (c : ResolutionCache) : ResolutionCache :=
  {| rootOfResolution := rootOfResolution c;
     filesWithChangedSetOfUnresolvedImports := filesWithChangedSetOfUnresolvedImports c;
     filesWithInvalidatedResolutions := filesWithInvalidatedResolutions c;
     allFilesHaveInvalidatedResolution := allFilesHaveInvalidatedResolution c;
     resolvedModuleNames :=
       match k with ModuleName => v | _ => resolvedModuleNames c end;
     perDirectoryResolvedModuleNames := perDirectoryResolvedModuleNames c;
     resolvedTypeReferenceDirectives :=
       match k with TypeReferenceDirective => v | _ => resolvedTypeReferenceDirectives c end;
     perDirectoryResolvedTypeReferenceDirectives := perDirectoryResolvedTypeReferenceDirectives c;
     customFailedLookupPaths := customFailedLookupPaths c;
     directoryWatchesOfFailedLookups := directoryWatchesOfFailedLookups c;
     typeRootsWatches := typeRootsWatches c;
     isInvalidated := isInvalidated c;
     nextResolution := nextResolution c;
     nextWatcher := nextWatcher c;
     closedWatchers := closedWatchers c;
     invalidatedResolutionNotifications := invalidatedResolutionNotifications c |}.

Definition withPerDirectory (k : ResolutionKind) v (c : ResolutionCache) : ResolutionCache :=
  {| rootOfResolution := rootOfResolution c;
     filesWithChangedSetOfUnresolvedImports := filesWithChangedSetOfUnresolvedImports c;
     filesWithInvalidatedResolutions := filesWithInvalidatedResolutions c;
     allFilesHaveInvalidatedResolution := allFilesHaveInvalidatedResolution c;
     resolvedModuleNames := resolvedModuleNames c;
     perDirectoryResolvedModuleNames :=
       match k with ModuleName => v | _ => perDirectoryResolvedModuleNames c end;
     resolvedTypeReferenceDirectives := resolvedTypeReferenceDirectives c;
     perDirectoryResolvedTypeReferenceDirectives :=
       match k with
       | TypeReferenceDirective => v
       | _ => perDirectoryResolvedTypeReferenceDirectives c
       end;
     customFailedLookupPaths := customFailedLookupPaths c;
     directoryWatchesOfFailedLookups := directoryWatchesOfFailedLookups c;
     typeRootsWatches := typeRootsWatches c;
     isInvalidated := isInvalidated c;
     nextResolution := nextResolution c;
     nextWatcher := nextWatcher c;
     closedWatchers := closedWatchers c;
     invalidatedResolutionNotifications := invalidatedResolutionNotifications c |}.

Definition perFile (k : ResolutionKind) (c : ResolutionCache) :=
  match k with
  | ModuleName => resolvedModuleNames c
  | TypeReferenceDirective => resolvedTypeReferenceDirectives c
  end.

Definition perDirectory (k : ResolutionKind) (c : ResolutionCache) :=
  match k with
  | ModuleName => perDirectoryResolvedModuleNames c
  | TypeReferenceDirective => perDirectoryResolvedTypeReferenceDirectives c
  end.

(** The watch tables and the host's watcher handles. *)
Definition withWatches custom watches next closed (c : ResolutionCache) : ResolutionCache :=
  {| rootOfResolution := rootOfResolution c;
     filesWithChangedSetOfUnresolvedImports := filesWithChangedSetOfUnresolvedImports c;
     filesWithInvalidatedResolutions := filesWithInvalidatedResolutions c;
     allFilesHaveInvalidatedResolution := allFilesHaveInvalidatedResolution c;
     resolvedModuleNames := resolvedModuleNames c;
     perDirectoryResolvedModuleNames := perDirectoryResolvedModuleNames c;
     resolvedTypeReferenceDirectives := resolvedTypeReferenceDirectives c;
     perDirectoryResolvedTypeReferenceDirectives := perDirectoryResolvedTypeReferenceDirectives c;
     customFailedLookupPaths := custom;
     directoryWatchesOfFailedLookups := watches;
     typeRootsWatches := typeRootsWatches c;
     isInvalidated := isInvalidated c;
     nextResolution := nextResolution c;
     nextWatcher := next;
     closedWatchers := closed;
     invalidatedResolutionNotifications := invalidatedResolutionNotifications c |}.

Definition withTypeRootsWatches v closed (c : ResolutionCache) : ResolutionCache :=
  {| rootOfResolution := rootOfResolution c;
     filesWithChangedSetOfUnresolvedImports := filesWithChangedSetOfUnresolvedImports c;
     filesWithInvalidatedResolutions := filesWithInvalidatedResolutions c;
     allFilesHaveInvalidatedResolution := allFilesHaveInvalidatedResolution c;
     resolvedModuleNames := resolvedModuleNames c;
     perDirectoryResolvedModuleNames := perDirectoryResolvedModuleNames c;
     resolvedTypeReferenceDirectives := resolvedTypeReferenceDirectives c;
     perDirectoryResolvedTypeReferenceDirectives := perDirectoryResolvedTypeReferenceDirectives c;
     customFailedLookupPaths := customFailedLookupPaths c;
     directoryWatchesOfFailedLookups := directoryWatchesOfFailedLookups c;
     typeRootsWatches := v;
     isInvalidated := isInvalidated c;
     nextResolution := nextResolution c;
     nextWatcher := nextWatcher c;
     closedWatchers := closed;
     invalidatedResolutionNotifications := invalidatedResolutionNotifications c |}.

Definition withIsInvalidated v next (c : ResolutionCache) : ResolutionCache :=
  {| rootOfResolution := rootOfResolution c;
     filesWithChangedSetOfUnresolvedImports := filesWithChangedSetOfUnresolvedImports c;
     filesWithInvalidatedResolutions := filesWithInvalidatedResolutions c;
     allFilesHaveInvalidatedResolution := allFilesHaveInvalidatedResolution c;
     resolvedModuleNames := resolvedModuleNames c;
     perDirectoryResolvedModuleNames := perDirectoryResolvedModuleNames c;
     resolvedTypeReferenceDirectives := resolvedTypeReferenceDirectives c;
     perDirectoryResolvedTypeReferenceDirectives := perDirectoryResolvedTypeReferenceDirectives c;
     customFailedLookupPaths := customFailedLookupPaths c;
     directoryWatchesOfFailedLookups := directoryWatchesOfFailedLookups c;
     typeRootsWatches := typeRootsWatches c;
     isInvalidated := v;
     nextResolution := next;
     nextWatcher := nextWatcher c;
     closedWatchers := closedWatchers c;
     invalidatedResolutionNotifications := invalidatedResolutionNotifications c |}.

Definition withNotifications v (c : ResolutionCache) : ResolutionCache :=
  {| rootOfResolution := rootOfResolution c;
     filesWithChangedSetOfUnresolvedImports := filesWithChangedSetOfUnresolvedImports c;
     filesWithInvalidatedResolutions := filesWithInvalidatedResolutions c;
     allFilesHaveInvalidatedResolution := allFilesHaveInvalidatedResolution c;
     resolvedModuleNames := resolvedModuleNames c;
     perDirectoryResolvedModuleNames := perDirectoryResolvedModuleNames c;
     resolvedTypeReferenceDirectives := resolvedTypeReferenceDirectives c;
     perDirectoryResolvedTypeReferenceDirectives := perDirectoryResolvedTypeReferenceDirectives c;
     customFailedLookupPaths := customFailedLookupPaths c;
     directoryWatchesOfFailedLookups := directoryWatchesOfFailedLookups c;
     typeRootsWatches := typeRootsWatches c;
     isInvalidated := isInvalidated c;
     nextResolution := nextResolution c;
     nextWatcher := nextWatcher c;
     closedWatchers := closedWatchers c;
     invalidatedResolutionNotifications := v |}.

(** ** Calls that may throw

    A call either returns a value or throws; in both cases the mutations it
    made so far stay. *)

Inductive Exception :=
  | TypeError        (* a member of [undefined] was read *)
  | AssertionFailure (* [Debug.assert] *)
  | Unterminated.    (* a [while] loop did not end *)

Inductive Outcome (S A : Type) :=
  | Returns (a : A) (s : S)
  | Throws (e : Exception) (s : S).
Arguments Returns {S A} a s.
Arguments Throws {S A} e s.

Definition stateAfter {S A} (o : Outcome S A) : S :=
  match o with Returns _ s => s | Throws _ s => s end.

(** A call on an object with state [S]. *)
Definition CallOn (S A : Type) : Type := S -> Outcome S A.

#[global] Instance CallOn_ret {S} : MRet (CallOn S) := fun A a s => Returns a s.
#[global] Instance CallOn_bind {S} : MBind (CallOn S) := fun A B f m s =>
  match m s with
  | Returns a s' => f a s'
  | Throws e s' => Throws e s'
  end.

Definition throw {S A} (e : Exception) : CallOn S A := fun s => Throws e s.
Definition read {S A} (f : S -> A) : CallOn S A := fun s => Returns (f s) s.
Definition update {S} (f : S -> S) : CallOn S unit := fun s => Returns tt (f s).
Definition assert {S} (b : bool) : CallOn S unit :=
  if b then mret tt else throw AssertionFailure.

(** A call on the resolution cache. *)
Abbreviation Call := (CallOn ResolutionCache).

Fixpoint forEach {S A} (f : A -> CallOn S unit) (l : list A) : CallOn S unit :=
  match l with
  | [] => mret tt
  | x :: l' => f x ;; forEach f l'
  end.

(** ** The resolution cache: [createResolutionCache] *)

Section Operations.
Context `{!CoreLibrary} `{!ResolutionCacheHost}.

(** The default of [maxNumberOfFilesToIterateForInvalidation]. *)
Definition defaultMaxNumberOfFilesToIterateForInvalidation : Z := 256.

Definition failedLookupDefaultExtensions : list Extension := [Ts; Tsx; Js; Jsx; Json].

Definition createResolutionCache (rootDirForResolution : option string) : ResolutionCache :=
  (* rootDir = rootDirForResolution && removeTrailingDirectorySeparator(...) *)
  let rootDir :=
    match rootDirForResolution with
    | Some r =>
        if String.eqb r "" then Some r
        else Some (removeTrailingDirectorySeparator
                     (getNormalizedAbsolutePath r getCurrentDirectory))
    | None => None
    end in
  (* rootPath = rootDir && resolutionHost.toPath(rootDir) *)
  let root :=
    match rootDir with
    | Some d => Some (d, if String.eqb d "" then d else toPath d)
    | None => None
    end in
  {| rootOfResolution := root;
     filesWithChangedSetOfUnresolvedImports := None;
     filesWithInvalidatedResolutions := None;
     allFilesHaveInvalidatedResolution := false;
     resolvedModuleNames := [];
     perDirectoryResolvedModuleNames := [];
     resolvedTypeReferenceDirectives := [];
     perDirectoryResolvedTypeReferenceDirectives := [];
     customFailedLookupPaths := ∅;
     directoryWatchesOfFailedLookups := ∅;
     typeRootsWatches := ∅;
     isInvalidated := ∅;
     nextResolution := 0;
     nextWatcher := 0;
     closedWatchers := [];
     invalidatedResolutionNotifications := 0 |}.

(** [resolution.isInvalidated] *)
Definition invalidatedIn (c : ResolutionCache) (r : Resolution) : bool :=
  bool_decide (identity r ∈ isInvalidated c).

Definition closeTypeRootsWatch : Call unit :=
  update (fun c =>
    withTypeRootsWatches ∅ (closedWatchers c ++ (map_to_list (typeRootsWatches c)).*2) c).

(** [mutateMap(typeRootsWatches, arrayToMap(typeRoots, toPath), ...)]: the
    watches of the roots that are gone are closed, the new roots get one. *)
Definition createTypeRootsWatch (c : ResolutionCache) (typeRoot : string) : ResolutionCache :=
  match typeRootsWatches c !! toPath typeRoot with
  | Some _ => c
  | None =>
      withWatches (customFailedLookupPaths c) (directoryWatchesOfFailedLookups c)
        (S (nextWatcher c)) (closedWatchers c)
        (withTypeRootsWatches
           (<[toPath typeRoot := {| watcherId := nextWatcher c;
                                    watchedPath := typeRoot |}]> (typeRootsWatches c))
           (closedWatchers c) c)
  end.

Definition updateTypeRootsWatch : Call unit :=
  if compilationSettingsListTypes then
    (* No need to do any watch since resolution cache is going to handle
       the failed lookups for the types added by this *)
    closeTypeRootsWatch
  else
    match effectiveTypeRoots with
    | Some typeRoots =>
        update (fun c =>
          let kept (kv : Path * FileWatcher) := bool_decide (kv.1 ∈ map toPath typeRoots) in
          withTypeRootsWatches (filter (fun kv => kept kv = true) (typeRootsWatches c))
            (closedWatchers c ++
               (map_to_list (filter (fun kv => kept kv = false) (typeRootsWatches c))).*2) c) ;;
        update (fun c => foldl createTypeRootsWatch c typeRoots)
    | None => closeTypeRootsWatch
    end.

Definition clear : Call unit :=
  (* clearMap(directoryWatchesOfFailedLookups, closeFileWatcherOf);
     customFailedLookupPaths.clear(); *)
  update (fun c =>
    withWatches ∅ ∅ (nextWatcher c)
      (closedWatchers c ++
         map watcher (map_to_list (directoryWatchesOfFailedLookups c)).*2) c) ;;
  closeTypeRootsWatch ;;
  update (withPerFile ModuleName []) ;;
  update (withPerFile TypeReferenceDirective []) ;;
  update (withAllFilesInvalidated false) ;;
  c ← read id;
  assert ((JsMap.size (perDirectoryResolvedModuleNames c) =? 0) &&
          (JsMap.size (perDirectoryResolvedTypeReferenceDirectives c) =? 0)).

Definition startRecordingFilesWithChangedResolutions : Call unit :=
  update (withChangedFiles (Some [])).

Definition finishRecordingFilesWithChangedResolutions : Call (option (list Path)) :=
  collected ← read filesWithChangedSetOfUnresolvedImports;
  update (withChangedFiles None) ;;
  mret collected.

Definition createHasInvalidatedResolution : Call (Path -> bool) :=
  allFiles ← read allFilesHaveInvalidatedResolution;
  if allFiles : bool then
    (* Any file asked would have invalidated resolution *)
    update (withInvalidatedFiles None) ;;
    mret (fun _ => true)
  else
    collected ← read filesWithInvalidatedResolutions;
    update (withInvalidatedFiles None) ;;
    mret (fun path =>
            match collected with
            | Some files => bool_decide (path ∈ files)
            | None => false
            end).

Definition startCachingPerDirectoryResolution : Call unit :=
  c ← read id;
  assert ((JsMap.size (perDirectoryResolvedModuleNames c) =? 0) &&
          (JsMap.size (perDirectoryResolvedTypeReferenceDirectives c) =? 0)).

Definition finishCachingPerDirectoryResolution : Call unit :=
  update (withAllFilesInvalidated false) ;;
  update (fun c =>
    let watches := directoryWatchesOfFailedLookups c in
    withWatches (customFailedLookupPaths c)
      (filter (fun kv => refCount kv.2 ≠ 0%Z) watches)
      (nextWatcher c)
      (closedWatchers c ++
         map watcher (map_to_list (filter (fun kv => refCount kv.2 = 0%Z) watches)).*2)
      c) ;;
  update (withPerDirectory ModuleName []) ;;
  update (withPerDirectory TypeReferenceDirective []).

Definition resolveModuleName (moduleName containingFile : string) : LoaderResult :=
  let primaryResult := tsResolveModuleName moduleName containingFile in
  match getGlobalCache with
  | None => primaryResult
  | Some globalCache =>
      (* otherwise try to load typings from @types *)
      match globalCache with
      | Some location =>
          if negb (isExternalModuleNameRelative moduleName) &&
             negb (match loadedFile primaryResult with
                   | Some f => hasTypeScriptExtension f
                   | None => false
                   end)
          then
            let second := loadModuleFromGlobalCache moduleName location in
            match loadedFile second with
            | Some f =>
                {| loadedFile := Some f;
                   loadedFailedLookupLocations :=
                     loadedFailedLookupLocations primaryResult ++
                     loadedFailedLookupLocations second |}
            | None => primaryResult
            end
          else primaryResult
      | None => primaryResult
      end
  end.

Definition loader (k : ResolutionKind) : string -> string -> LoaderResult :=
  match k with
  | ModuleName => resolveModuleName
  | TypeReferenceDirective => resolveTypeReferenceDirective
  end.

(** A call of the loader returns a new object. *)
Definition load (k : ResolutionKind) (name containingFile : string) : Call Resolution :=
  fun c =>
    let result := loader k name containingFile in
    Returns {| identity := nextResolution c;
               failedLookupLocations := loadedFailedLookupLocations result;
               resolvedFile := loadedFile result |}
            (withIsInvalidated (isInvalidated c) (S (nextResolution c)) c).

Definition isPathWithDefaultFailedLookupExtension (path : Path) : bool :=
  fileExtensionIsOneOf path failedLookupDefaultExtensions.

(** The directory to watch for a location; a loop of
    [getDirectoryToWatchFailedLookupLocation] that does not end never
    returns. *)
Definition directoryToWatch (failedLookupLocation : string) (failedLookupLocationPath : Path)
  : Call DirectoryOfFailedLookupWatch :=
  root ← read rootOfResolution;
  match getDirectoryToWatchFailedLookupLocation root
          failedLookupLocation failedLookupLocationPath with
  | Some w => mret w
  | None => throw Unterminated
  end.

(** [createDirectoryWatcher]: the host hands out a new handle. *)
Definition createDirectoryWatcher (directory : string) : Call FileWatcher :=
  fun c =>
    Returns {| watcherId := nextWatcher c; watchedPath := directory |}
            (withWatches (customFailedLookupPaths c) (directoryWatchesOfFailedLookups c)
               (S (nextWatcher c)) (closedWatchers c) c).

Definition setCustomFailedLookupPaths (v : gmap Path Z) : Call unit :=
  update (fun c =>
    withWatches v (directoryWatchesOfFailedLookups c) (nextWatcher c) (closedWatchers c) c).

Definition setDirectoryWatches (v : gmap Path DirectoryWatchesOfFailedLookup) : Call unit :=
  update (fun c =>
    withWatches (customFailedLookupPaths c) v (nextWatcher c) (closedWatchers c) c).

(** One turn of the loop of [watchFailedLookupLocationOfResolution]. *)
Definition watchFailedLookupLocation (failedLookupLocation : string) : Call unit :=
  let failedLookupLocationPath := toPath failedLookupLocation in
  (* If the failed lookup location path is not one of the supported
     extensions, store it in the custom path *)
  (if negb (isPathWithDefaultFailedLookupExtension failedLookupLocationPath) then
     custom ← read customFailedLookupPaths;
     let count := default 0%Z (custom !! failedLookupLocationPath) in
     setCustomFailedLookupPaths (<[failedLookupLocationPath := (count + 1)%Z]> custom)
   else mret tt) ;;
  w ← directoryToWatch failedLookupLocation failedLookupLocationPath;
  watches ← read directoryWatchesOfFailedLookups;
  match watches !! dirPath w with
  | Some dirWatcher =>
      setDirectoryWatches
        (<[dirPath w := {| watcher := watcher dirWatcher;
                           refCount := (refCount dirWatcher + 1)%Z |}]> watches)
  | None =>
      handle ← createDirectoryWatcher (dir w);
      setDirectoryWatches (<[dirPath w := {| watcher := handle; refCount := 1%Z |}]> watches)
  end.

Definition watchFailedLookupLocationOfResolution (r : Resolution) (startIndex : nat)
  : Call unit :=
  forEach watchFailedLookupLocation (drop startIndex (failedLookupLocations r)).

(** One turn of the loop of [stopWatchFailedLookupLocationOfResolutionFrom]. *)
Definition stopWatchFailedLookupLocation (failedLookupLocation : string) : Call unit :=
  let failedLookupLocationPath := toPath failedLookupLocation in
  custom ← read customFailedLookupPaths;
  match custom !! failedLookupLocationPath with
  | Some count =>
      if (count =? 0)%Z then mret tt
      else if (count =? 1)%Z then
        setCustomFailedLookupPaths (delete failedLookupLocationPath custom)
      else
        assert (1 <? count)%Z ;;
        setCustomFailedLookupPaths (<[failedLookupLocationPath := (count - 1)%Z]> custom)
  | None => mret tt
  end ;;
  w ← directoryToWatch failedLookupLocation failedLookupLocationPath;
  watches ← read directoryWatchesOfFailedLookups;
  match watches !! dirPath w with
  | Some dirWatcher =>
      (* Do not close the watcher yet since it might be needed by other
         failed lookup locations. *)
      setDirectoryWatches
        (<[dirPath w := {| watcher := watcher dirWatcher;
                           refCount := (refCount dirWatcher - 1)%Z |}]> watches)
  | None => throw TypeError
  end.

Definition stopWatchFailedLookupLocationOfResolutionFrom (r : Resolution) (startIndex : nat)
  : Call unit :=
  forEach stopWatchFailedLookupLocation (drop startIndex (failedLookupLocations r)).

(** [failedLookupLocations] is an array, and an array is never falsy. *)
Definition stopWatchFailedLookupLocationOfResolution (r : Resolution) : Call unit :=
  stopWatchFailedLookupLocationOfResolutionFrom r 0.

(** How the loop of [watchAndStopWatchDiffFailedLookupLocations] ends. *)
Inductive LocationsDiff :=
  | AdditionalFrom (index : nat)  (* index === existingFailedLookupLocations.length *)
  | DifferentFrom (index : nat)   (* the locations at [index] differ *)
  | AllWatched.                   (* the loop ran to failedLookupLocations.length *)

Fixpoint diffFailedLookupLocations (index : nat) (locations existing : list string)
  : LocationsDiff :=
  match locations with
  | [] => AllWatched
  | l :: locations' =>
      match existing with
      | [] => AdditionalFrom index
      | e :: existing' =>
          if String.eqb l e then diffFailedLookupLocations (S index) locations' existing'
          else DifferentFrom index
      end
  end.

Definition watchAndStopWatchDiffFailedLookupLocations (r existing : Resolution) : Call unit :=
  match diffFailedLookupLocations 0 (failedLookupLocations r) (failedLookupLocations existing) with
  | AdditionalFrom index =>
      (* Additional failed lookup locations, watch from this index *)
      watchFailedLookupLocationOfResolution r index
  | DifferentFrom index =>
      (* Watch new resolution failed lookup locations from this index and
         stop watching existing resolutions from this index *)
      watchFailedLookupLocationOfResolution r index ;;
      stopWatchFailedLookupLocationOfResolutionFrom existing index
  | AllWatched =>
      (* All new failed lookup locations are already watched (and are same) *)
      stopWatchFailedLookupLocationOfResolutionFrom existing
        (length (failedLookupLocations r))
  end.


(** *** Resolving the names of a file *)

(** [resolutionIsEqualTo], local to [resolveNamesWithLocalCache]. *)
Definition resolutionIsEqualTo (c : ResolutionCache)
    (oldResolution : option Resolution) (newResolution : Resolution) : bool :=
  match oldResolution with
  | None => false
  | Some old =>
      if identity old =? identity newResolution then true
      else if invalidatedIn c old then false
      else
        match resolvedFile old, resolvedFile newResolution with
        | None, None => true
        | Some oldResult, Some newResult =>
            bool_decide (resolvedFileName oldResult = resolvedFileName newResult)
        | _, _ => false
        end
  end.

(** [cache.get(path)], a map that [resolveNamesWithLocalCache] has made sure
    exists. *)
Definition resolutionsOf (m : JsMap.t (JsMap.t Resolution)) (key : string)
  : JsMap.t Resolution :=
  default [] (JsMap.get key m).

Definition setResolutionInFile (k : ResolutionKind) (path : Path) (name : string)
    (r : Resolution) : Call unit :=
  update (fun c =>
    withPerFile k
      (JsMap.set path (JsMap.set name r (resolutionsOf (perFile k c) path)) (perFile k c)) c).

Definition deleteResolutionInFile (k : ResolutionKind) (path : Path) (name : string)
  : Call unit :=
  update (fun c =>
    withPerFile k
      (JsMap.set path (JsMap.delete name (resolutionsOf (perFile k c) path)) (perFile k c)) c).

Definition setResolutionInDirectory (k : ResolutionKind) (dirPath : Path) (name : string)
    (r : Resolution) : Call unit :=
  update (fun c =>
    withPerDirectory k
      (JsMap.set dirPath (JsMap.set name r (resolutionsOf (perDirectory k c) dirPath))
         (perDirectory k c)) c).

(** The variables of the loop over [names]. *)
Record NamesLoop := {
  seenNamesInFile : list string;
  logChangesNow : bool;
  resolvedModules : list (option ResolvedFile)
}.

(** The body of [for (const name of names)]. *)
Definition resolveName (k : ResolutionKind) (containingFile : string) (path dirPath : Path)
    (loop : NamesLoop) (name : string) : Call NamesLoop :=
  c ← read id;
  let cached := JsMap.get name (resolutionsOf (perFile k c) path) in
  let seen := bool_decide (name ∈ seenNamesInFile loop) in
  (* Resolution is valid if it is present and not invalidated *)
  '(resolution, logChanges) ←
    (if negb seen && allFilesHaveInvalidatedResolution c ||
        match cached with None => true | Some r => invalidatedIn c r end
     then
       let existingResolution := cached in
       resolution ←
         match JsMap.get name (resolutionsOf (perDirectory k c) dirPath) with
         | Some resolutionInDirectory => mret resolutionInDirectory
         | None =>
             r ← load k name containingFile;
             setResolutionInDirectory k dirPath name r ;;
             mret r
         end;
       setResolutionInFile k path name resolution ;;
       match existingResolution with
       | Some existing => watchAndStopWatchDiffFailedLookupLocations resolution existing
       | None => watchFailedLookupLocationOfResolution resolution 0
       end ;;
       c' ← read id;
       if logChangesNow loop &&
          match filesWithChangedSetOfUnresolvedImports c' with
          | Some _ => true
          | None => false
          end &&
          negb (resolutionIsEqualTo c' existingResolution resolution)
       then
         update (fun c =>
           withChangedFiles
             ((fun files => files ++ [path]) <$> filesWithChangedSetOfUnresolvedImports c) c) ;;
         (* reset log changes to avoid recording the same file multiple times *)
         mret (Some resolution, false)
       else mret (Some resolution, logChangesNow loop)
     else mret (cached, logChangesNow loop));
  c'' ← read id;
  match resolution with
  | Some r =>
      assert (negb (invalidatedIn c'' r)) ;;
      mret {| seenNamesInFile := seenNamesInFile loop ++ [name];
              logChangesNow := logChanges;
              resolvedModules := resolvedModules loop ++ [resolvedFile r] |}
  | None => throw AssertionFailure
  end.

Fixpoint resolveEachName (k : ResolutionKind) (containingFile : string) (path dirPath : Path)
    (loop : NamesLoop) (names : list string) : Call NamesLoop :=
  match names with
  | [] => mret loop
  | name :: names' =>
      loop' ← resolveName k containingFile path dirPath loop name;
      resolveEachName k containingFile path dirPath loop' names'
  end.

(** [contains(reusedNames, name)] *)
Definition contains (array : option (list string)) (value : string) : bool :=
  match array with
  | Some l => bool_decide (value ∈ l)
  | None => false
  end.

Definition resolveNamesWithLocalCache (k : ResolutionKind) (names : list string)
    (containingFile : string) (reusedNames : option (list string)) (logChanges : bool)
  : Call (list (option ResolvedFile)) :=
  let path := toPath containingFile in
  (* cache.get(path) || cache.set(path, createMap()).get(path) *)
  update (fun c =>
    match JsMap.get path (perFile k c) with
    | Some _ => c
    | None => withPerFile k (JsMap.set path [] (perFile k c)) c
    end) ;;
  let dirPath := getDirectoryPath path in
  update (fun c =>
    match JsMap.get dirPath (perDirectory k c) with
    | Some _ => c
    | None => withPerDirectory k (JsMap.set dirPath [] (perDirectory k c)) c
    end) ;;
  loop ← resolveEachName k containingFile path dirPath
           {| seenNamesInFile := []; logChangesNow := logChanges; resolvedModules := [] |}
           names;
  (* Stop watching and remove the unused name *)
  c ← read id;
  forEach (fun '(name, resolution) =>
             if negb (bool_decide (name ∈ seenNamesInFile loop)) &&
                negb (contains reusedNames name)
             then
               stopWatchFailedLookupLocationOfResolution resolution ;;
               deleteResolutionInFile k path name
             else mret tt)
          (resolutionsOf (perFile k c) path) ;;
  mret (resolvedModules loop).

Definition resolveTypeReferenceDirectives (typeDirectiveNames : list string)
    (containingFile : string) : Call (list (option ResolvedFile)) :=
  resolveNamesWithLocalCache TypeReferenceDirective typeDirectiveNames containingFile
    None false.

Definition resolveModuleNames (moduleNames : list string) (containingFile : string)
    (reusedNames : option (list string)) (logChanges : bool)
  : Call (list (option ResolvedFile)) :=
  resolveNamesWithLocalCache ModuleName moduleNames containingFile reusedNames logChanges.

(** *** Removing and invalidating resolutions *)

Definition removeResolutionsOfFileFromCache (k : ResolutionKind) (filePath : Path)
  : Call unit :=
  (* Deleted file, stop watching failed lookups for all the resolutions in the file *)
  c ← read id;
  match JsMap.get filePath (perFile k c) with
  | Some resolutions =>
      forEach (fun '(_, r) => stopWatchFailedLookupLocationOfResolution r) resolutions ;;
      update (fun c => withPerFile k (JsMap.delete filePath (perFile k c)) c)
  | None => mret tt
  end.

Definition removeResolutionsOfFile (filePath : Path) : Call unit :=
  removeResolutionsOfFileFromCache ModuleName filePath ;;
  removeResolutionsOfFileFromCache TypeReferenceDirective filePath.

(** The body of the inner [resolutions.forEach] of [invalidateResolutionCache];
    [seen] holds the pairs of a directory and a name that the scan has met. *)
Definition invalidateResolutionOfName (isInvalidatedResolution : Resolution -> bool)
    (containingFilePath dirPath : Path)
    (acc : gset (Path * string) * ResolutionCache) (entry : string * Resolution)
  : gset (Path * string) * ResolutionCache :=
  let '(seen, c) := acc in
  let '(name, resolution) := entry in
  if bool_decide ((dirPath, name) ∈ seen) then (seen, c)
  else
    let seen' := {[ (dirPath, name) ]} ∪ seen in
    if negb (invalidatedIn c resolution) && isInvalidatedResolution resolution then
      (* Mark the file as needing re-evaluation of module resolution
         instead of using it blindly. *)
      (seen',
       withInvalidatedFiles
         (Some ({[ containingFilePath ]} ∪ default ∅ (filesWithInvalidatedResolutions c)))
         (withIsInvalidated ({[ identity resolution ]} ∪ isInvalidated c)
            (nextResolution c) c))
    else (seen', c).

Definition invalidateResolutionsOfContainingFile
    (isInvalidatedResolution : Resolution -> bool)
    (acc : gset (Path * string) * ResolutionCache)
    (entry : Path * JsMap.t Resolution)
  : gset (Path * string) * ResolutionCache :=
  let '(containingFilePath, resolutions) := entry in
  let dirPath := getDirectoryPath containingFilePath in
  foldl (invalidateResolutionOfName isInvalidatedResolution containingFilePath dirPath)
        acc resolutions.

Definition invalidateResolutionCache (k : ResolutionKind)
    (isInvalidatedResolution : Resolution -> bool) : Call unit :=
  update (fun c =>
    snd (foldl (invalidateResolutionsOfContainingFile isInvalidatedResolution)
               (∅, c) (perFile k c))).

(** [resolutionHost.maxNumberOfFilesToIterateForInvalidation ||
    maxNumberOfFilesToIterateForInvalidation] *)
Definition maxSize : Z :=
  match maxNumberOfFilesToIterateForInvalidation with
  | Some n => if (n =? 0)%Z then defaultMaxNumberOfFilesToIterateForInvalidation else n
  | None => defaultMaxNumberOfFilesToIterateForInvalidation
  end.

Definition hasReachedResolutionIterationLimit (c : ResolutionCache) : bool :=
  (maxSize <? Z.of_nat (JsMap.size (resolvedModuleNames c)))%Z ||
  (maxSize <? Z.of_nat (JsMap.size (resolvedTypeReferenceDirectives c)))%Z.

Definition invalidateResolutions (isInvalidatedResolution : Resolution -> bool)
  : Call unit :=
  c ← read id;
  (* If more than maxNumberOfFilesToIterateForInvalidation present, just
     invalidated all files and recalculate the resolutions for files instead *)
  if hasReachedResolutionIterationLimit c then
    update (withAllFilesInvalidated true)
  else
    invalidateResolutionCache ModuleName isInvalidatedResolution ;;
    invalidateResolutionCache TypeReferenceDirective isInvalidatedResolution.

(** Resolution is invalidated if the resulting file name is same as the
    deleted file path.  [toPath] is applied to a file name only: a result
    without one matches no path. *)
Definition resolvesTo (filePath : Path) (r : Resolution) : bool :=
  match resolvedFile r with
  | Some result =>
      match resolvedFileName result with
      | Some fileName => String.eqb (toPath fileName) filePath
      | None => false
      end
  | None => false
  end.

Definition invalidateResolutionOfFile (filePath : Path) : Call unit :=
  removeResolutionsOfFile filePath ;;
  invalidateResolutions (resolvesTo filePath).

Definition invalidateResolutionOfFailedLookupLocation
    (fileOrDirectoryPath : Path) (isCreatingWatchedDirectory : bool) : Call bool :=
  c ← read id;
  let scan (isChangedFailedLookupLocation : string -> bool) : Call bool :=
    let hasChangedFailedLookupLocation (r : Resolution) :=
      existsb isChangedFailedLookupLocation (failedLookupLocations r) in
    let invalidatedFilesCount := size <$> filesWithInvalidatedResolutions c in
    invalidateResolutions hasChangedFailedLookupLocation ;;
    c' ← read id;
    mret (allFilesHaveInvalidatedResolution c' ||
          match filesWithInvalidatedResolutions c' with
          | Some files => negb (bool_decide (Some (size files) = invalidatedFilesCount))
          | None => false
          end) in
  if isCreatingWatchedDirectory then
    (* Watching directory is created: invalidate any resolution has failed
       lookup in this directory *)
    scan (fun location => isInDirectoryPath (Some fileOrDirectoryPath) (toPath location))
  else if negb (isPathWithDefaultFailedLookupExtension fileOrDirectoryPath) &&
          negb (bool_decide (is_Some (customFailedLookupPaths c !! fileOrDirectoryPath)))
  then mret false
  else
    (* Resolution need to be invalidated if failed lookup location is same
       as the file or directory getting created *)
    scan (fun location => String.eqb (toPath location) fileOrDirectoryPath).

(** The callback that [createDirectoryWatcher] registers for [dirPath],
    run by the host with the file or directory that changed. *)
Definition onDirectoryOfFailedLookupChanged (dirPath : Path) (fileOrDirectory : string)
  : Call unit :=
  let fileOrDirectoryPath := toPath fileOrDirectory in
  c ← read id;
  (* If the files are added to project root or node_modules directory,
     always run through the invalidation process *)
  if negb (allFilesHaveInvalidatedResolution c) &&
     bool_decide (Some dirPath = snd <$> rootOfResolution c) ||
     isNodeModulesDirectory dirPath ||
     String.eqb (getDirectoryPath fileOrDirectoryPath) dirPath
  then
    invalidated ← invalidateResolutionOfFailedLookupLocation fileOrDirectoryPath
                    (String.eqb dirPath fileOrDirectoryPath);
    if invalidated : bool then
      update (fun c => withNotifications (S (invalidatedResolutionNotifications c)) c)
    else mret tt
  else mret tt.

End Operations.

(** ** The project: [Project] of server/project.ts *)

Record ScriptInfo := {
  scriptInfoFileName : string;
  scriptInfoPath : Path;
  isScriptOpen : bool
}.

#[global] Instance ScriptInfo_eq_dec : EqDecision ScriptInfo.
Proof. solve_decision. Defined.

(** The project root can be script info - if root is present, or it could be
    just normalized path if root wasnt present on the host. *)
Inductive ProjectRoot :=
  | RootScriptInfo (info : ScriptInfo)
  | RootMissingOnHost (fileName : string).

Inductive StructureIsReused := Not | SafeModules | Completely.

Record SourceFile := {
  sourceFileName : string;
  sourceFilePath : Path
}.

(** What the project reads of a [Program]. *)
Record Program := {
  programIdentity : nat;
  getSourceFiles : list SourceFile;
  getMissingFilePaths : list Path;
  (** [getCompilerOptions().configFile]: its file name and its
      [extendedSourceFiles] *)
  configFile : option (string * list string)
}.

(** A request that the program builder makes to its host while it builds. *)
Inductive ResolutionRequest :=
  | RequestModuleNames (moduleNames : list string) (containingFile : string)
      (reusedNames : option (list string))
  | RequestTypeReferenceDirectives (typeDirectiveNames : list string) (containingFile : string).

(** One run of [languageService.getProgram()], the external program builder:
    the names it asks the project to resolve, the program it returns, and what
    it leaves in [oldProgram.structureIsReused]. *)
Record ProgramBuild := {
  requests : list ResolutionRequest;
  builtProgram : Program;
  oldStructureIsReused : StructureIsReused
}.

(** What the collaborators of the project answer during one [updateGraph]. *)
Record GraphUpdate := {
  firstBuild : ProgramBuild;
  (** [typingsCache.getTypingsForProject(...)] *)
  cachedTypings : list string;
  (** the build of the second [updateGraphWorker], run when the typings changed *)
  secondBuild : ProgramBuild
}.

Inductive FileWatcherEventKind := Created | Changed | Deleted.

(** The protocol answer of [getChangesSinceVersion]. *)
Record ProjectChanges := {
  added : list string;
  removed : list string;
  updated : list string
}.

Record ProjectFilesWithTSDiagnostics := {
  infoVersion : Z;
  infoLanguageServiceDisabled : bool;
  files : option (list string);
  changes : option ProjectChanges
}.

Record Project := MkProject {
  rootFiles : option (list ScriptInfo);
  rootFilesMap : option (JsMap.t ProjectRoot);
  program : option Program;
  missingFilesMap : option (gmap Path FileWatcher);
  languageServiceEnabled : bool;
  hasInvalidatedResolution : option (Path -> bool);
  resolutionCache : option ResolutionCache;
  (** Set of files names that were updated since the last call to
      getChangesSinceVersion. *)
  updatedFileNames : option (JsMap.t unit);
  (** Set of files that was returned from the last call to
      getChangesSinceVersion. *)
  lastReportedFileNames : option (JsMap.t unit);
  (** Last version that was reported. *)
  lastReportedVersion : Z;
  (** Current project structure version. *)
  projectStructureVersion : Z;
  (** Current version of the project state. *)
  projectStateVersion : Z;
  hasChangedAutomaticTypeDirectiveNames : bool;
  typingFiles : option (list string);
  (** host side: the [fileExists] calls that reached the directory structure
      host, the handles of the missing file watches, and the number of delayed
      graph updates that were scheduled *)
  fileSystemProbes : list string;
  nextFileWatcher : nat;
  closedFileWatchers : list FileWatcher;
  scheduledGraphUpdates : nat
}.

Definition withRoots v w '(MkProject _ _ c d e f g h i j k l m n o p q r) :=
  MkProject v w c d e f g h i j k l m n o p q r.
Definition withProgram v '(MkProject a b _ d e f g h i j k l m n o p q r) :=
  MkProject a b v d e f g h i j k l m n o p q r.
Definition withMissingFiles v next closed '(MkProject a b c _ e f g h i j k l m n o _ _ r) :=
  MkProject a b c v e f g h i j k l m n o next closed r.
Definition withLanguageServiceEnabled v '(MkProject a b c d _ f g h i j k l m n o p q r) :=
  MkProject a b c d v f g h i j k l m n o p q r.
Definition withHasInvalidatedResolution v '(MkProject a b c d e _ g h i j k l m n o p q r) :=
  MkProject a b c d e v g h i j k l m n o p q r.
Definition withResolutionCache v '(MkProject a b c d e f _ h i j k l m n o p q r) :=
  MkProject a b c d e f v h i j k l m n o p q r.
Definition withUpdatedFileNames v '(MkProject a b c d e f g _ i j k l m n o p q r) :=
  MkProject a b c d e f g v i j k l m n o p q r.
Definition withLastReported names version '(MkProject a b c d e f g h _ _ k l m n o p q r) :=
  MkProject a b c d e f g h names version k l m n o p q r.
Definition withProjectStructureVersion v '(MkProject a b c d e f g h i j _ l m n o p q r) :=
  MkProject a b c d e f g h i j v l m n o p q r.
Definition withProjectStateVersion v '(MkProject a b c d e f g h i j k _ m n o p q r) :=
  MkProject a b c d e f g h i j k v m n o p q r.
Definition withChangedTypeDirectiveNames v '(MkProject a b c d e f g h i j k l _ n o p q r) :=
  MkProject a b c d e f g h i j k l v n o p q r.
Definition withTypingFiles v '(MkProject a b c d e f g h i j k l m _ o p q r) :=
  MkProject a b c d e f g h i j k l m v o p q r.
Definition withFileSystemProbes v '(MkProject a b c d e f g h i j k l m n _ p q r) :=
  MkProject a b c d e f g h i j k l m n v p q r.
Definition withScheduledGraphUpdates v '(MkProject a b c d e f g h i j k l m n o p q _) :=
  MkProject a b c d e f g h i j k l m n o p q v.

Inductive ProjectKind := Inferred | Configured | External.

(** What the project asks of the project service and of its server host. *)
Class ProjectService := {
  projectKind : ProjectKind;
  (** [projectService.getScriptInfo(fileName)] *)
  getScriptInfo : string -> option ScriptInfo;
  (** [directoryStructureHost.fileExists(file)] *)
  hostFileExists : string -> bool;
  (** [getDefaultLibFilePath(compilerOptions)] *)
  defaultLibFilePath : option string
}.

Section ProjectOperations.
Context `{!CoreLibrary} `{!ResolutionCacheHost} `{!ProjectService}.

(** A member of [this.x] where [this.x] may be [undefined]. *)
Definition defined {S A} (o : option A) : CallOn S A :=
  match o with
  | Some a => mret a
  | None => throw TypeError
  end.

(** A call on [this.resolutionCache]. *)
Definition onResolutionCache {A} (m : Call A) : CallOn Project A :=
  fun p =>
    match resolutionCache p with
    | Some c =>
        match m c with
        | Returns a c' => Returns a (withResolutionCache (Some c') p)
        | Throws e c' => Throws e (withResolutionCache (Some c') p)
        end
    | None => Throws TypeError p
    end.

(** The project when its constructor returns. *)
Definition newProject (languageServiceEnabled : bool)
    (rootDirectoryForResolution : option string) : Project :=
  {| rootFiles := Some [];
     rootFilesMap := Some [];
     program := None;
     missingFilesMap := None;
     languageServiceEnabled := languageServiceEnabled;
     hasInvalidatedResolution := None;
     resolutionCache := Some (createResolutionCache rootDirectoryForResolution);
     updatedFileNames := None;
     lastReportedFileNames := None;
     lastReportedVersion := 0;
     projectStructureVersion := 0;
     (* this.markAsDirty() *)
     projectStateVersion := 1;
     hasChangedAutomaticTypeDirectiveNames := false;
     typingFiles := None;
     fileSystemProbes := [];
     nextFileWatcher := 0;
     closedFileWatchers := [];
     scheduledGraphUpdates := 0 |}.

Definition markAsDirty : CallOn Project unit :=
  update (fun p => withProjectStateVersion (projectStateVersion p + 1)%Z p).

(** [projectService.delayUpdateProjectGraphAndInferredProjectsRefresh(this)] *)
Definition delayUpdateProjectGraph : CallOn Project unit :=
  update (fun p => withScheduledGraphUpdates (S (scheduledGraphUpdates p)) p).

Definition isWatchedMissingFile (path : Path) : CallOn Project bool :=
  read (fun p =>
    match missingFilesMap p with
    | Some watches => bool_decide (is_Some (watches !! path))
    | None => false
    end).

Definition fileExists (file : string) : CallOn Project bool :=
  (* As an optimization, don't hit the disks for files we already know
     don't exist (because we're watching for their creation). *)
  let path := toPath file in
  watched ← isWatchedMissingFile path;
  if watched : bool then mret false
  else
    update (fun p => withFileSystemProbes (fileSystemProbes p ++ [file]) p) ;;
    mret (hostFileExists file).

Definition projectResolveModuleNames (moduleNames : list string) (containingFile : string)
    (reusedNames : option (list string)) : CallOn Project (list (option ResolvedFile)) :=
  onResolutionCache (resolveModuleNames moduleNames containingFile reusedNames true).

Definition projectResolveTypeReferenceDirectives (typeDirectiveNames : list string)
    (containingFile : string) : CallOn Project (list (option ResolvedFile)) :=
  onResolutionCache (resolveTypeReferenceDirectives typeDirectiveNames containingFile).

Definition onInvalidatedResolution : CallOn Project unit :=
  delayUpdateProjectGraph.

Definition onChangedAutomaticTypeDirectiveNames : CallOn Project unit :=
  update (withChangedTypeDirectiveNames true) ;;
  delayUpdateProjectGraph.

Definition enableLanguageService : CallOn Project unit :=
  enabled ← read languageServiceEnabled;
  if enabled : bool then mret tt
  else update (withLanguageServiceEnabled true).

Definition disableLanguageService : CallOn Project unit :=
  enabled ← read languageServiceEnabled;
  if enabled : bool then
    update (withLanguageServiceEnabled false) ;;
    onResolutionCache closeTypeRootsWatch
  else mret tt.

Definition close : CallOn Project unit :=
  update (withRoots None None) ;;
  update (withProgram None) ;;
  onResolutionCache clear ;;
  update (withResolutionCache None) ;;
  (* Clean up file watchers waiting for missing files *)
  update (fun p =>
    match missingFilesMap p with
    | Some watches =>
        withMissingFiles None (nextFileWatcher p)
          (closedFileWatchers p ++ (map_to_list watches).*2) p
    | None => p
    end).

Definition isClosed (p : Project) : bool :=
  match rootFiles p with None => true | Some _ => false end.

Definition getRootFiles (p : Project) : option (list string) :=
  map scriptInfoFileName <$> rootFiles p.

Definition getFileNames (p : Project) : list string :=
  match program p with
  | None => []
  | Some prog =>
      if negb (languageServiceEnabled p) then
        (* if language service is disabled assume that all files in program
           are root files + default library *)
        default [] (getRootFiles p) ++
        match defaultLibFilePath with Some lib => [lib] | None => [] end
      else
        map sourceFileName (getSourceFiles prog) ++
        match configFile prog with
        | Some (fileName, extendedSourceFiles) => fileName :: extendedSourceFiles
        | None => []
        end
  end.

(** [getExternalFiles()] of the base class. *)
Definition getExternalFiles : list string := [].

Definition isRoot (p : Project) (info : ScriptInfo) : bool :=
  match rootFilesMap p with
  | Some roots =>
      match JsMap.get (scriptInfoPath info) roots with
      | Some (RootScriptInfo info') => bool_decide (info' = info)
      | _ => false
      end
  | None => false
  end.

Definition addRoot (info : ScriptInfo) : CallOn Project unit :=
  p ← read id;
  assert (negb (isRoot p info)) ;;
  roots ← defined (rootFiles p);
  rootsMap ← defined (rootFilesMap p);
  update (withRoots (Some (roots ++ [info]))
            (Some (JsMap.set (scriptInfoPath info) (RootScriptInfo info) rootsMap))) ;;
  markAsDirty.

Definition addMissingFileRoot (fileName : string) : CallOn Project unit :=
  let path := toPath fileName in
  p ← read id;
  rootsMap ← defined (rootFilesMap p);
  update (withRoots (rootFiles p)
            (Some (JsMap.set path (RootMissingOnHost fileName) rootsMap))) ;;
  markAsDirty.

(** [orderedRemoveItem(array, item)] *)
Fixpoint orderedRemoveItem (array : list ScriptInfo) (item : ScriptInfo) : list ScriptInfo :=
  match array with
  | [] => []
  | x :: rest => if bool_decide (x = item) then rest else x :: orderedRemoveItem rest item
  end.

Definition removeRoot (info : ScriptInfo) : CallOn Project unit :=
  p ← read id;
  roots ← defined (rootFiles p);
  rootsMap ← defined (rootFilesMap p);
  update (withRoots (Some (orderedRemoveItem roots info))
            (Some (JsMap.delete (scriptInfoPath info) rootsMap))).

Definition removeFile (info : ScriptInfo) (fileExists detachFromProject : bool)
  : CallOn Project unit :=
  p ← read id;
  (if isRoot p info then removeRoot info else mret tt) ;;
  (if fileExists then
     (* If file is present, just remove the resolutions for the file *)
     onResolutionCache (removeResolutionsOfFile (scriptInfoPath info))
   else onResolutionCache (invalidateResolutionOfFile (scriptInfoPath info))) ;;
  markAsDirty.

Definition registerFileUpdate (fileName : string) : CallOn Project unit :=
  update (fun p =>
    withUpdatedFileNames (Some (JsMap.set fileName tt (default [] (updatedFileNames p)))) p).

(** [arrayIsEqualTo(this.typingFiles, typings)] *)
Definition setTypings (typings : list string) : CallOn Project bool :=
  p ← read id;
  if bool_decide (typingFiles p = Some typings) then mret false
  else
    update (withTypingFiles (Some typings)) ;;
    markAsDirty ;;
    mret true.

Definition detachScriptInfoFromProject (uncheckedFileName : string) : CallOn Project unit :=
  match getScriptInfo uncheckedFileName with
  | Some scriptInfoToDetach =>
      onResolutionCache (removeResolutionsOfFile (scriptInfoPath scriptInfoToDetach))
  | None => mret tt
  end.

(** [addMissingFileWatcher]: the host hands out a new handle. *)
Definition addMissingFileWatcher (watches : gmap Path FileWatcher) (next : nat)
    (missingFilePath : Path) : gmap Path FileWatcher * nat :=
  (<[missingFilePath := {| watcherId := next; watchedPath := missingFilePath |}]> watches,
   S next).

(** Modelled from the spec: [updateMissingFilePathsWatch] of
    watchUtilities.ts, which "reconciles missing-file watches (watch
    referenced-but-absent paths ...)": the watches of the paths that the
    program no longer misses are closed, the other missing paths keep their
    watch or get a new one. *)
Definition updateMissingFilePathsWatch (prog : Program) : CallOn Project unit :=
  update (fun p =>
    let watches := default ∅ (missingFilesMap p) in
    let missing (kv : Path * FileWatcher) := bool_decide (kv.1 ∈ getMissingFilePaths prog) in
    let kept := filter (fun kv => missing kv = true) watches in
    let closed := (map_to_list (filter (fun kv => missing kv = false) watches)).*2 in
    let '(watches', next) :=
      foldl (fun '(w, next) path =>
               match w !! path with
               | Some _ => (w, next)
               | None => addMissingFileWatcher w next path
               end)
            (kept, nextFileWatcher p) (getMissingFilePaths prog) in
    withMissingFiles (Some watches') next (closedFileWatchers p ++ closed) p).

(** The callback that [addMissingFileWatcher] registers for
    [missingFilePath], run by the host with the kind of the event. *)
Definition onMissingFileChanged (missingFilePath : Path) (eventKind : FileWatcherEventKind)
  : CallOn Project unit :=
  match eventKind with
  | Created =>
      p ← read id;
      watches ← defined (missingFilesMap p);
      match watches !! missingFilePath with
      | Some fileWatcher =>
          update (withMissingFiles (Some (delete missingFilePath watches))
                    (nextFileWatcher p) (closedFileWatchers p ++ [fileWatcher])) ;;
          (* When a missing file is created, we should update the graph. *)
          delayUpdateProjectGraph
      | None => mret tt
      end
  | _ => mret tt
  end.

Definition request (r : ResolutionRequest) : CallOn Project unit :=
  match r with
  | RequestModuleNames moduleNames containingFile reusedNames =>
      projectResolveModuleNames moduleNames containingFile reusedNames ;; mret tt
  | RequestTypeReferenceDirectives typeDirectiveNames containingFile =>
      projectResolveTypeReferenceDirectives typeDirectiveNames containingFile ;; mret tt
  end.

(** [!oldProgram || (this.program !== oldProgram &&
     !(oldProgram.structureIsReused & StructureIsReused.Completely))] *)
Definition structureChanged (oldProgram : option Program) (build : ProgramBuild) : bool :=
  match oldProgram with
  | None => true
  | Some old =>
      negb (programIdentity (builtProgram build) =? programIdentity old) &&
      negb (match oldStructureIsReused build with Completely => true | _ => false end)
  end.

Definition updateGraphWorker (build : ProgramBuild) : CallOn Project bool :=
  oldProgram ← read program;
  onResolutionCache startCachingPerDirectoryResolution ;;
  (* this.program = this.languageService.getProgram() *)
  forEach request (requests build) ;;
  update (withProgram (Some (builtProgram build))) ;;
  onResolutionCache finishCachingPerDirectoryResolution ;;
  (* bump up the version if
     - oldProgram is not set - this is a first time updateGraph is called
     - newProgram is different from the old program and structure of the
       old program was not reused. *)
  let hasChanges := structureChanged oldProgram build in
  update (withChangedTypeDirectiveNames false) ;;
  (if hasChanges then
     match oldProgram with
     | Some old =>
         forEach (fun f =>
                    if bool_decide (sourceFilePath f ∈
                                      map sourceFilePath (getSourceFiles (builtProgram build)))
                    then mret tt
                    else
                      (* new program does not contain this file - detach it
                         from the project *)
                      detachScriptInfoFromProject (sourceFileName f))
                 (getSourceFiles old)
     | None => mret tt
     end ;;
     (* Update the missing file paths watcher *)
     updateMissingFilePathsWatch (builtProgram build) ;;
     (* Watch the type locations that would be added to program as part of
        automatic type resolutions *)
     enabled ← read languageServiceEnabled;
     if enabled : bool then onResolutionCache updateTypeRootsWatch else mret tt
   else mret tt) ;;
  (* the external files of the base class are always empty *)
  mret hasChanges.

(** Updates set of files that contribute to this project.
    Returns true if set of files in the project stays the same and false -
    otherwise.  The cached unresolved imports, which only feed the typings
    cache, and the builder are left out. *)
Definition updateGraph (u : GraphUpdate) : CallOn Project bool :=
  onResolutionCache startRecordingFilesWithChangedResolutions ;;
  hasInvalidated ← onResolutionCache createHasInvalidatedResolution;
  update (withHasInvalidatedResolution (Some hasInvalidated)) ;;
  hasChanges ← updateGraphWorker (firstBuild u);
  _ ← onResolutionCache finishRecordingFilesWithChangedResolutions;
  enabled ← read languageServiceEnabled;
  hasChanges ←
    (if enabled : bool then
       typingsChanged ← setTypings (cachedTypings u);
       if typingsChanged : bool then
         again ← updateGraphWorker (secondBuild u);
         mret (again || hasChanges)
       else mret hasChanges
     else mret hasChanges);
  (if hasChanges : bool then
     update (fun p => withProjectStructureVersion (projectStructureVersion p + 1)%Z p)
   else mret tt) ;;
  mret (negb hasChanges).

(** [setCompilerOptions(compilerOptions)].  [None] is a call without
    options, which does nothing; for options that are given,
    [affectsModuleResolution] is what
    [changesAffectModuleResolution(oldOptions, compilerOptions)] answers.
    The options themselves and the cached unresolved imports are members of
    [InferredProject.t] below. *)
Definition setCompilerOptions (compilerOptions : option bool) : CallOn Project unit :=
  match compilerOptions with
  | Some affectsModuleResolution =>
      (if affectsModuleResolution then onResolutionCache clear else mret tt) ;;
      markAsDirty
  | None => mret tt
  end.

(** [arrayToSet(array)] *)
Definition arrayToSet (array : list string) : JsMap.t unit :=
  foldl (fun m key => JsMap.set key tt m) [] array.

Definition getChangesSinceVersion (u : GraphUpdate) (lastKnownVersion : option Z)
  : CallOn Project ProjectFilesWithTSDiagnostics :=
  updateGraph u ;;
  p ← read id;
  let info files changes :=
    {| infoVersion := projectStructureVersion p;
       infoLanguageServiceDisabled := negb (languageServiceEnabled p);
       files := files;
       changes := changes |} in
  let updatedFileNames := updatedFileNames p in
  update (withUpdatedFileNames None) ;;
  (* check if requested version is the same that we have reported last time *)
  match lastReportedFileNames p with
  | Some lastReportedFileNames =>
      if bool_decide (lastKnownVersion = Some (lastReportedVersion p)) then
        (* if current structure version is the same - return info without
           any changes *)
        if (projectStructureVersion p =? lastReportedVersion p)%Z &&
           match updatedFileNames with None => true | Some _ => false end
        then mret (info None None)
        else
          (* compute and return the difference *)
          let currentFiles := arrayToSet (getFileNames p ++ getExternalFiles) in
          let added :=
            filter (fun id => JsMap.has id lastReportedFileNames = false)
                   (JsMap.keys currentFiles) in
          let removed :=
            filter (fun id => JsMap.has id currentFiles = false)
                   (JsMap.keys lastReportedFileNames) in
          let updated := default [] (JsMap.keys <$> updatedFileNames) in
          update (withLastReported (Some currentFiles) (projectStructureVersion p)) ;;
          mret (info None (Some {| added := added; removed := removed; updated := updated |}))
      else
        (* unknown version - return everything *)
        let allFiles := getFileNames p ++ getExternalFiles in
        update (withLastReported (Some (arrayToSet allFiles)) (projectStructureVersion p)) ;;
        mret (info (Some allFiles) None)
  | None =>
      let allFiles := getFileNames p ++ getExternalFiles in
      update (withLastReported (Some (arrayToSet allFiles)) (projectStructureVersion p)) ;;
      mret (info (Some allFiles) None)
  end.

(** The public operations of a project, with what its collaborators answer. *)
Inductive ProjectOperation :=
  | UpdateGraph (u : GraphUpdate)
  | GetChangesSinceVersion (u : GraphUpdate) (lastKnownVersion : option Z)
  | MarkAsDirty
  | AddRoot (info : ScriptInfo)
  | AddMissingFileRoot (fileName : string)
  | RemoveFile (info : ScriptInfo) (fileExists detachFromProject : bool)
  | RegisterFileUpdate (fileName : string)
  | SetCompilerOptions (compilerOptions : option bool)
  | EnableLanguageService
  | DisableLanguageService
  | FileExists (file : string)
  | ResolveModuleNames (moduleNames : list string) (containingFile : string)
      (reusedNames : option (list string))
  | ResolveTypeReferenceDirectives (typeDirectiveNames : list string) (containingFile : string)
  | OnInvalidatedResolution
  | OnChangedAutomaticTypeDirectiveNames
  | MissingFileChanged (missingFilePath : Path) (eventKind : FileWatcherEventKind)
  | DirectoryOfFailedLookupChanged (dirPath : Path) (fileOrDirectory : string)
  | Close.

Definition perform (op : ProjectOperation) : CallOn Project unit :=
  match op with
  | UpdateGraph u => updateGraph u ;; mret tt
  | GetChangesSinceVersion u v => getChangesSinceVersion u v ;; mret tt
  | MarkAsDirty => markAsDirty
  | AddRoot info => addRoot info
  | AddMissingFileRoot fileName => addMissingFileRoot fileName
  | RemoveFile info fileExists detachFromProject => removeFile info fileExists detachFromProject
  | RegisterFileUpdate fileName => registerFileUpdate fileName
  | SetCompilerOptions compilerOptions => setCompilerOptions compilerOptions
  | EnableLanguageService => enableLanguageService
  | DisableLanguageService => disableLanguageService
  | FileExists file => fileExists file ;; mret tt
  | ResolveModuleNames names file reused => projectResolveModuleNames names file reused ;; mret tt
  | ResolveTypeReferenceDirectives names file =>
      projectResolveTypeReferenceDirectives names file ;; mret tt
  | OnInvalidatedResolution => onInvalidatedResolution
  | OnChangedAutomaticTypeDirectiveNames => onChangedAutomaticTypeDirectiveNames
  | MissingFileChanged path kind => onMissingFileChanged path kind
  | DirectoryOfFailedLookupChanged dirPath fileOrDirectory =>
      onResolutionCache (onDirectoryOfFailedLookupChanged dirPath fileOrDirectory)
  | Close => close
  end.

(** The project after a sequence of operations; an operation that throws
    leaves the project as it was when it threw. *)
Definition performAll (ops : list ProjectOperation) (p : Project) : Project :=
  foldl (fun p op => stateAfter (perform op p)) p ops.

End ProjectOperations.

(** ** The unresolved imports of a project: [UnresolvedImportsMap] and
      [extractUnresolvedImportsFromSourceFile] of server/project.ts *)

(** [String.prototype.trim] of the JavaScript runtime. *)
Class JavaScriptRuntime := {
  trim : string -> string
}.

Module JsString.

(** [str.indexOf(c, fromIndex)] for a search string of one character;
    [None] is [-1]. *)
Fixpoint indexOf (str : string) (c : ascii) (fromIndex : nat) : option nat :=
  match str with
  | EmptyString => None
  | String x rest =>
      match fromIndex with
      | 0 => if Ascii.eqb x c then Some 0 else S <$> indexOf rest c 0
      | S fromIndex' => S <$> indexOf rest c fromIndex'
      end
  end.

(** [str.substr(start, length)] *)
Definition substr (str : string) (start length : nat) : string :=
  String.substring start length str.

End JsString.

(** [class UnresolvedImportsMap] *)
Module UnresolvedImportsMap.

Record t := {
  perFileMap : JsMap.t (list string);
  version : Z
}.

(** The map when its field initialisers have run. *)
Definition create : t := {| perFileMap := []; version := 0 |}.

Definition clear : CallOn t unit :=
  update (fun _ => {| perFileMap := []; version := 0 |}).

Definition getVersion : CallOn t Z := read version.

Definition remove (path : Path) : CallOn t unit :=
  update (fun m => {| perFileMap := JsMap.delete path (perFileMap m);
                      version := (version m + 1)%Z |}).

Definition get (path : Path) : CallOn t (option (list string)) :=
  read (fun m => JsMap.get path (perFileMap m)).

Definition set (path : Path) (value : list string) : CallOn t unit :=
  update (fun m => {| perFileMap := JsMap.set path value (perFileMap m);
                      version := (version m + 1)%Z |}).

End UnresolvedImportsMap.

(** What [extractUnresolvedImportsFromSourceFile] reads of a source file:
    its path and its [resolvedModules], the resolved module ([None] for
    [undefined]) of every module name of the file. *)
Module ImportingFile.
Record t := {
  path : Path;
  resolvedModules : option (JsMap.t (option ResolvedFile))
}.
End ImportingFile.

Section UnresolvedImports.
Context `{!CoreLibrary} `{!JavaScriptRuntime}.

(** The name that is recorded for an unresolved module name: for non-scoped
    names the part up to the first slash, for scoped names the part up to
    the second slash. *)
Definition packageNameOf (name : string) : string :=
  let trimmed := trim name in
  let i := JsString.indexOf trimmed "/" 0 in
  let i :=
    match i with
    | Some first =>
        if Js.charAtIs trimmed 0 "@" then JsString.indexOf trimmed "/" (first + 1)
        else Some first
    | None => None
    end in
  match i with
  | Some i => JsString.substr trimmed 0 i
  | None => trimmed
  end.

(** The names that a file without cached result contributes: the package
    names of its unresolved non-relative module names, in their order. *)
Definition unresolvedImportsOf (file : ImportingFile.t) : list string :=
  match ImportingFile.resolvedModules file with
  | Some modules =>
      omap (fun entry : string * option ResolvedFile =>
              match entry.2 with
              | None =>
                  if isExternalModuleNameRelative entry.1 then None
                  else Some (packageNameOf entry.1)
              | Some _ => None
              end) modules
  | None => []
  end.

(** [extractUnresolvedImportsFromSourceFile(file, result)]; the call
    returns what it pushes to [result]. *)
Definition extractUnresolvedImportsFromSourceFile (file : ImportingFile.t)
  : CallOn UnresolvedImportsMap.t (list string) :=
  cached ← UnresolvedImportsMap.get (ImportingFile.path file);
  match cached with
  | Some cached =>
      (* found cached result - use it and return *)
      mret cached
  | None =>
      let unresolvedImports := unresolvedImportsOf file in
      UnresolvedImportsMap.set (ImportingFile.path file) unresolvedImports ;;
      mret unresolvedImports
  end.

End UnresolvedImports.

(** ** The kinds of the files of a project: [countEachFileTypes] and its
      callers of server/project.ts *)

(** [ScriptKind] of types.ts. *)
Module ScriptKind.
Inductive t := Unknown | JS | JSX | TS | TSX | External | JSON.
End ScriptKind.

(** What the project reads of a script info besides its names, and the
    helper of core.ts that it calls on them. *)
Class ScriptInfoMembers := {
  scriptKind : ScriptInfo -> ScriptKind.t;
  (** [info.isJavaScript()] *)
  isJavaScript : ScriptInfo -> bool;
  (** [fileExtensionIs(fileName, Extension.Dts)] *)
  isDeclarationFileName : string -> bool
}.

(** [FileStats] *)
Module FileStats.
Record t := { js : nat; jsx : nat; ts : nat; tsx : nat; dts : nat }.
End FileStats.

Section FileTypes.
Context `{!ScriptInfoMembers}.
Import FileStats.

(** The body of the loop of [countEachFileTypes]. *)
Definition countFileType (result : FileStats.t) (info : ScriptInfo) : FileStats.t :=
  match scriptKind info with
  | ScriptKind.JS =>
      {| js := js result + 1; jsx := jsx result; ts := ts result; tsx := tsx result;
         dts := dts result |}
  | ScriptKind.JSX =>
      {| js := js result; jsx := jsx result + 1; ts := ts result; tsx := tsx result;
         dts := dts result |}
  | ScriptKind.TS =>
      if isDeclarationFileName (scriptInfoFileName info)
      then {| js := js result; jsx := jsx result; ts := ts result; tsx := tsx result;
              dts := dts result + 1 |}
      else {| js := js result; jsx := jsx result; ts := ts result + 1; tsx := tsx result;
              dts := dts result |}
  | ScriptKind.TSX =>
      {| js := js result; jsx := jsx result; ts := ts result; tsx := tsx result + 1;
         dts := dts result |}
  | _ => result
  end.

Definition countEachFileTypes (infos : list ScriptInfo) : FileStats.t :=
  foldl countFileType {| js := 0; jsx := 0; ts := 0; tsx := 0; dts := 0 |} infos.

(** [allRootFilesAreJsOrDts(project)]; [project.getRootScriptInfos()] is
    [this.rootFiles], which is [undefined] once the project is closed. *)
Definition allRootFilesAreJsOrDts : CallOn Project bool :=
  p ← read id;
  match rootFiles p with
  | Some infos =>
      let counts := countEachFileTypes infos in
      mret ((ts counts =? 0) && (tsx counts =? 0))
  | None => throw TypeError
  end.

End FileTypes.

(** ** The inferred project: [InferredProject] of server/project.ts *)

(** The compiler options that an inferred project reads or writes; the
    other options are carried along. *)
Record CompilerOptions := {
  maxNodeModuleJsDepth : option Z;
  allowJs : option bool;
  allowNonTsExtensions : option bool;
  noEmitForJsFiles : option bool;
  otherOptions : list (string * string)
}.

Class CompilerOptionsHelpers := {
  getDefaultCompilerOptions : CompilerOptions;
  (** [changesAffectModuleResolution(oldOptions, newOptions)] *)
  changesAffectModuleResolution : CompilerOptions -> CompilerOptions -> bool
}.

(** The calls that an inferred project makes on the project service for
    its roots. *)
Inductive ConfigFileWatchCall :=
  | StartWatchingConfigFilesForInferredProjectRoot (info : ScriptInfo)
  | StopWatchingConfigFilesForInferredProjectRoot (info : ScriptInfo).

Module InferredProject.

Record t := MkInferredProject {
  (** the members of the base class that [Project] holds *)
  asProject : Project;
  compilerOptions : CompilerOptions;
  cachedUnresolvedImportsPerFile : UnresolvedImportsMap.t;
  lastCachedUnresolvedImportsList : option (list string);
  _isJsInferredProject : bool;
  (** project service side *)
  configFileWatchCalls : list ConfigFileWatchCall
}.

Definition withProject v '(MkInferredProject _ b c d e f) := MkInferredProject v b c d e f.
Definition withCompilerOptions v '(MkInferredProject a _ c d e f) :=
  MkInferredProject a v c d e f.
Definition withUnresolvedImports v w '(MkInferredProject a b _ _ e f) :=
  MkInferredProject a b v w e f.
Definition withIsJsInferredProject v '(MkInferredProject a b c d _ f) :=
  MkInferredProject a b c d v f.
Definition withConfigFileWatchCalls v '(MkInferredProject a b c d e _) :=
  MkInferredProject a b c d e v.

Definition withAllowNonTsExtensions v (o : CompilerOptions) : CompilerOptions :=
  {| maxNodeModuleJsDepth := maxNodeModuleJsDepth o; allowJs := allowJs o;
     allowNonTsExtensions := v; noEmitForJsFiles := noEmitForJsFiles o;
     otherOptions := otherOptions o |}.
Definition withAllowJs v (o : CompilerOptions) : CompilerOptions :=
  {| maxNodeModuleJsDepth := maxNodeModuleJsDepth o; allowJs := v;
     allowNonTsExtensions := allowNonTsExtensions o;
     noEmitForJsFiles := noEmitForJsFiles o; otherOptions := otherOptions o |}.
Definition withNoEmitForJsFiles v (o : CompilerOptions) : CompilerOptions :=
  {| maxNodeModuleJsDepth := maxNodeModuleJsDepth o; allowJs := allowJs o;
     allowNonTsExtensions := allowNonTsExtensions o; noEmitForJsFiles := v;
     otherOptions := otherOptions o |}.
Definition withMaxNodeModuleJsDepth v (o : CompilerOptions) : CompilerOptions :=
  {| maxNodeModuleJsDepth := v; allowJs := allowJs o;
     allowNonTsExtensions := allowNonTsExtensions o;
     noEmitForJsFiles := noEmitForJsFiles o; otherOptions := otherOptions o |}.

Section Operations.
Context `{!CoreLibrary} `{!ResolutionCacheHost} `{!ProjectService}
  `{!ScriptInfoMembers} `{!CompilerOptionsHelpers}.

(** A method of the base class on the members that [Project] holds. *)
Definition onProject {A} (m : CallOn Project A) : CallOn t A :=
  fun ip =>
    match m (asProject ip) with
    | Returns a p' => Returns a (withProject p' ip)
    | Throws e p' => Throws e (withProject p' ip)
    end.

(** The inferred project when its constructor returns: no explicit list of
    files, the language service enabled. *)
Definition create (compilerOptions : option CompilerOptions)
    (rootDirectoryForResolution : option string) : t :=
  let options :=
    match compilerOptions with
    | None => withAllowJs (Some true) (withAllowNonTsExtensions (Some true)
                                         getDefaultCompilerOptions)
    | Some options =>
        (* If files are listed explicitly or allowJs is specified, allow all
           extensions *)
        if default false (allowJs options)
        then withAllowNonTsExtensions (Some true) options
        else options
    end in
  {| asProject := newProject true rootDirectoryForResolution;
     (* this.setInternalCompilerOptionsForEmittingJsFiles() *)
     compilerOptions := withNoEmitForJsFiles (Some true) options;
     cachedUnresolvedImportsPerFile := UnresolvedImportsMap.create;
     lastCachedUnresolvedImportsList := None;
     _isJsInferredProject := false;
     configFileWatchCalls := [] |}.

(** [setCompilerOptions(compilerOptions)] of the base class with options
    that are given.  [inPlace] tells that they are the options object of the
    project itself, which is then compared with itself. *)
Definition setCompilerOptionsOfProject (inPlace : bool) (compilerOptions : CompilerOptions)
  : CallOn t unit :=
  ip ← read id;
  let options := withAllowNonTsExtensions (Some true) compilerOptions in
  (if changesAffectModuleResolution
        (if inPlace then options else InferredProject.compilerOptions ip) options
   then
     (* reset cached unresolved imports if changes in compiler options
        affected module resolution *)
     update (withUnresolvedImports UnresolvedImportsMap.create None)
   else mret tt) ;;
  (* this.compilerOptions = compilerOptions;
     this.setInternalCompilerOptionsForEmittingJsFiles() *)
  let options := withNoEmitForJsFiles (Some true) options in
  update (withCompilerOptions options) ;;
  onProject (setCompilerOptions
               (Some (changesAffectModuleResolution
                        (if inPlace then options else InferredProject.compilerOptions ip)
                        options))).

(** [setCompilerOptions(options?)]; the options of a project are never
    [undefined]. *)
Definition setCompilerOptions (options : option CompilerOptions) : CallOn t unit :=
  ip ← read id;
  (* Avoid manipulating the given options directly *)
  let newOptions := default (compilerOptions ip) options in
  let newOptions :=
    if _isJsInferredProject ip &&
       negb (bool_decide (is_Some (maxNodeModuleJsDepth newOptions)))
    then withMaxNodeModuleJsDepth (Some 2%Z) newOptions
    else if negb (_isJsInferredProject ip)
         then withMaxNodeModuleJsDepth None newOptions
         else newOptions in
  let newOptions := withAllowJs (Some true) newOptions in
  setCompilerOptionsOfProject
    (match options with Some _ => false | None => true end) newOptions.

Definition toggleJsInferredProject (isJsInferredProject : bool) : CallOn t unit :=
  ip ← read id;
  if negb (Bool.eqb isJsInferredProject (_isJsInferredProject ip)) then
    update (withIsJsInferredProject isJsInferredProject) ;;
    setCompilerOptions None
  else mret tt.

Definition addRoot (info : ScriptInfo) : CallOn t unit :=
  update (fun ip =>
    withConfigFileWatchCalls
      (configFileWatchCalls ip ++ [StartWatchingConfigFilesForInferredProjectRoot info]) ip) ;;
  ip ← read id;
  (if negb (_isJsInferredProject ip) && isJavaScript info
   then toggleJsInferredProject true
   else mret tt) ;;
  onProject (addRoot info).

Definition removeRoot (info : ScriptInfo) : CallOn t unit :=
  update (fun ip =>
    withConfigFileWatchCalls
      (configFileWatchCalls ip ++ [StopWatchingConfigFilesForInferredProjectRoot info]) ip) ;;
  onProject (removeRoot info) ;;
  ip ← read id;
  if _isJsInferredProject ip && isJavaScript info then
    (* every(this.getRootScriptInfos(), rootInfo => !rootInfo.isJavaScript()) *)
    if forallb (fun rootInfo => negb (isJavaScript rootInfo))
         (default [] (rootFiles (asProject ip)))
    then toggleJsInferredProject false
    else mret tt
  else mret tt.

(** [removeFile] of the base class, which calls [this.removeRoot] and
    removes the cached unresolved imports of the file;
    [info.detachFromProject(this)] writes to the script info only. *)
Definition removeFile (info : ScriptInfo) (fileExists detachFromProject : bool)
  : CallOn t unit :=
  ip ← read id;
  (if isRoot (asProject ip) info then removeRoot info else mret tt) ;;
  (if fileExists then
     (* If file is present, just remove the resolutions for the file *)
     onProject (onResolutionCache (removeResolutionsOfFile (scriptInfoPath info)))
   else onProject (onResolutionCache (invalidateResolutionOfFile (scriptInfoPath info)))) ;;
  update (fun ip =>
    withUnresolvedImports
      (stateAfter (UnresolvedImportsMap.remove (scriptInfoPath info)
                     (cachedUnresolvedImportsPerFile ip)))
      (lastCachedUnresolvedImportsList ip) ip) ;;
  onProject markAsDirty.

(** [getTypeAcquisition().enable] *)
Definition typeAcquisitionIsEnabled : CallOn t bool :=
  onProject allRootFilesAreJsOrDts.

End Operations.

End InferredProject.

(** ** A host with POSIX paths

    The instance that the examples run on: absolute, normalized, case-sensitive
    file names, so that [toPath] is the identity and the directory of a path is
    what precedes its last separator. *)

Module Posix.

(** What precedes the last separator of [s], if it has one. *)
Fixpoint beforeLastSeparator (s : string) : option string :=
  match s with
  | EmptyString => None
  | String c rest =>
      match beforeLastSeparator rest with
      | Some d => Some (String c d)
      | None => if Ascii.eqb c Js.directorySeparator then Some EmptyString else None
      end
  end.

Definition directoryPath (p : string) : string :=
  match beforeLastSeparator p with
  | Some EmptyString => "/"
  | Some d => d
  | None => ""
  end.

Definition extensionText (e : Extension) : string :=
  match e with
  | Ts => ".ts" | Tsx => ".tsx" | Js => ".js" | Jsx => ".jsx" | Json => ".json"
  end.

Definition hasExtension (path : Path) (e : Extension) : bool :=
  (String.length (extensionText e) <? String.length path) &&
  Js.endsWith path (extensionText e).

#[export] Instance core : CoreLibrary := {|
  getDirectoryPath := directoryPath;
  getNormalizedAbsolutePath fileName _ := fileName;
  removeTrailingDirectorySeparator d :=
    if Js.endsWith d "/" then String.substring 0 (String.length d - 1) d else d;
  fileExtensionIsOneOf path extensions := existsb (hasExtension path) extensions;
  isExternalModuleNameRelative name :=
    Js.startsWith name "./" || Js.startsWith name "../"
|}.

(** A host over a file system given by the list of its files: a relative
    module name resolves to the sibling [.ts] file when it exists, and fails
    with that one probed location otherwise; no global cache. *)
Definition resolveAmong (files : list Path) (name containingFile : string) : LoaderResult :=
  let candidate :=
    (if String.eqb (directoryPath containingFile) "/" then ""
     else directoryPath containingFile)
    +:+ String.substring 1 (String.length name - 1) name +:+ ".ts" in
  if bool_decide (candidate ∈ files) then
    {| loadedFile := Some {| resolvedFileName := Some candidate;
                             hasTypeScriptExtension := true |};
       loadedFailedLookupLocations := [] |}
  else
    {| loadedFile := None; loadedFailedLookupLocations := [candidate] |}.

Definition host (files : list Path) (maxFiles : option Z) : ResolutionCacheHost := {|
  toPath fileName := fileName;
  getCurrentDirectory := "/";
  getGlobalCache := None;
  maxNumberOfFilesToIterateForInvalidation := maxFiles;
  compilationSettingsListTypes := false;
  effectiveTypeRoots := None;
  tsResolveModuleName := resolveAmong files;
  loadModuleFromGlobalCache _ _ := {| loadedFile := None; loadedFailedLookupLocations := [] |};
  resolveTypeReferenceDirective := resolveAmong files
|}.

End Posix.

(** * Properties *)

(** ** Strings *)

Module StringFacts.

Lemma app_nil_l (s : string) : "" +:+ s = s.
Proof. reflexivity. Qed.

Lemma app_cons (c : ascii) (a b : string) : String c a +:+ b = String c (a +:+ b).
Proof. reflexivity. Qed.

Lemma app_nil_r (s : string) : s +:+ "" = s.
Proof. induction s as [|c s IH]; [reflexivity|]. rewrite app_cons, IH. reflexivity. Qed.

Lemma app_assoc (a b c : string) : (a +:+ b) +:+ c = a +:+ (b +:+ c).
Proof.
  induction a as [|x a IH]; [reflexivity|].
  rewrite !app_cons, IH. reflexivity.
Qed.

Lemma length_app (a b : string) :
  String.length (a +:+ b) = String.length a + String.length b.
Proof.
  induction a as [|x a IH]; [reflexivity|].
  rewrite app_cons. simpl. rewrite IH. reflexivity.
Qed.

Lemma prefix_nil (s : string) : String.prefix "" s = true.
Proof. destruct s; reflexivity. Qed.

Lemma prefix_spec (a b : string) :
  String.prefix a b = true <-> exists y, b = a +:+ y.
Proof.
  revert b. induction a as [|x a IH]; intros b.
  - split; [intros _; exists b; reflexivity | intros _; apply prefix_nil].
  - destruct b as [|y b]; simpl.
    + split; [discriminate | intros [z Hz]; rewrite app_cons in Hz; discriminate].
    + destruct (ascii_dec x y) as [->|Hne].
      * rewrite IH. split; intros [z Hz]; exists z.
        -- rewrite app_cons, Hz. reflexivity.
        -- rewrite app_cons in Hz. congruence.
      * split; [discriminate|].
        intros [z Hz]. rewrite app_cons in Hz. congruence.
Qed.

Lemma prefix_length (a b : string) :
  String.prefix a b = true -> String.length a <= String.length b.
Proof. intros [y ->]%prefix_spec. rewrite length_app. lia. Qed.

Lemma prefix_same_length (a b : string) :
  String.prefix a b = true -> String.length a = String.length b -> a = b.
Proof.
  intros [y ->]%prefix_spec. rewrite length_app. intros Hlen.
  destruct y; [symmetry; apply app_nil_r | simpl in Hlen; lia].
Qed.

Lemma endsWith_spec (s suffix : string) :
  Js.endsWith s suffix = true <-> exists x, s = x +:+ suffix.
Proof.
  induction s as [|c s IH]; cbn [Js.endsWith].
  - rewrite orb_false_r, String.eqb_eq. split.
    + intros <-. exists "". reflexivity.
    + intros [[|? ?] Hx]; [exact Hx | rewrite app_cons in Hx; discriminate].
  - rewrite orb_true_iff, String.eqb_eq, IH. split.
    + intros [<- | [x ->]]; [exists ""; reflexivity | exists (String c x); reflexivity].
    + intros [[|c' x] Hx].
      * left. exact Hx.
      * right. rewrite app_cons in Hx. exists x. congruence.
Qed.

Lemma includes_spec (s sub : string) :
  Js.includes s sub = true <-> exists x y, s = x +:+ sub +:+ y.
Proof.
  induction s as [|c s IH].
  - cbn [Js.includes]. rewrite orb_false_r, prefix_spec. split.
    + intros [y Hy]. exists "", y. exact Hy.
    + intros [[|? ?] [y Hy]]; [exists y; exact Hy | rewrite app_cons in Hy; discriminate].
  - cbn [Js.includes]. rewrite orb_true_iff, prefix_spec, IH. split.
    + intros [[y Hy] | (x & y & ->)].
      * exists "", y. exact Hy.
      * exists (String c x), y. reflexivity.
    + intros ([|c' x] & y & Hxy).
      * left. exists y. exact Hxy.
      * right. rewrite app_cons in Hxy. exists x, y. congruence.
Qed.

(** A string has no separator, or splits at its last one. *)
Lemma split_last_separator (s : string) :
  Js.includes s "/" = false \/
  exists before segment,
    s = before +:+ "/" +:+ segment /\ Js.includes segment "/" = false.
Proof.
  induction s as [|c s IH]; [left; reflexivity|].
  destruct IH as [Hno | (before & segment & -> & Hseg)].
  - destruct (ascii_dec c "/"%char) as [->|Hc].
    + right. exists "", s. split; [reflexivity | exact Hno].
    + left. cbn [Js.includes]. rewrite Hno, orb_false_r.
      cbn [String.prefix].
      destruct (ascii_dec "/"%char c) as [E|_]; [congruence | reflexivity].
  - right. exists (String c before), segment. split; [reflexivity | exact Hseg].
Qed.

End StringFacts.

(** ** Where a failed lookup location is watched *)

Section WatchPlacementFacts.
Context `{!CoreLibrary} `{!ResolutionCacheHost}.
Import StringFacts.

(** What the loops of [getDirectoryToWatchFailedLookupLocation] rely on:
    the directory of a path is an initial part of it, and the directory of
    [d/segment] is [d]. *)
Hypothesis getDirectoryPath_prefix :
  forall p, String.prefix (getDirectoryPath p) p = true.
Hypothesis getDirectoryPath_segment :
  forall d segment,
    d <> "" -> Js.includes segment "/" = false ->
    getDirectoryPath (d +:+ "/" +:+ segment) = d.

(** The [k]-th ancestor of a path. *)
Definition ancestor (k : nat) (p : string) : string := Nat.iter k getDirectoryPath p.

Lemma ancestor_S (k : nat) (p : string) :
  ancestor (S k) p = ancestor k (getDirectoryPath p).
Proof. apply Nat.iter_succ_r. Qed.

Lemma getDirectoryPath_shorter (p : string) :
  getDirectoryPath p <> p -> String.length (getDirectoryPath p) < String.length p.
Proof.
  intros Hne. pose proof (getDirectoryPath_prefix p) as Hp.
  pose proof (prefix_length _ _ Hp) as Hle.
  destruct (decide (String.length (getDirectoryPath p) = String.length p)) as [E|]; [|lia].
  destruct Hne. apply prefix_same_length; assumption.
Qed.

(** A directory with a [node_modules] segment. *)
Definition traversesNodeModules (p : Path) : bool :=
  isNodeModulesDirectory p || Js.includes p "/node_modules/".

Lemma traversesNodeModules_parent (p : Path) :
  isNodeModulesDirectory p = false ->
  Js.includes p "/node_modules/" = true ->
  traversesNodeModules (getDirectoryPath p) = true /\
  String.length (getDirectoryPath p) < String.length p.
Proof.
  intros Hnm (x & y & ->)%includes_spec.
  destruct (split_last_separator y) as [Hno | (before & segment & -> & Hseg)].
  - assert (E : x +:+ "/node_modules/" +:+ y = (x +:+ "/node_modules") +:+ "/" +:+ y).
    { rewrite app_assoc. reflexivity. }
    assert (Hd : x +:+ "/node_modules" <> "") by (destruct x; discriminate).
    rewrite E, (getDirectoryPath_segment _ _ Hd Hno).
    split.
    + unfold traversesNodeModules, isNodeModulesDirectory.
      apply orb_true_iff. left. apply endsWith_spec. exists x. reflexivity.
    + rewrite !length_app. simpl. lia.
  - assert (E : x +:+ "/node_modules/" +:+ before +:+ "/" +:+ segment
                = (x +:+ "/node_modules/" +:+ before) +:+ "/" +:+ segment).
    { rewrite !app_assoc. reflexivity. }
    assert (Hd : x +:+ "/node_modules/" +:+ before <> "") by (destruct x; discriminate).
    rewrite E, (getDirectoryPath_segment _ _ Hd Hseg).
    split.
    + unfold traversesNodeModules. apply orb_true_iff. right.
      apply includes_spec. exists x, before. reflexivity.
    + rewrite !length_app. simpl. lia.
Qed.

Lemma walkToNodeModules_nearest (fuel : nat) (d : string) (p : Path) :
  String.length p <= fuel ->
  traversesNodeModules p = true ->
  exists k,
    walkToNodeModules fuel d p = Some {| dir := ancestor k d; dirPath := ancestor k p |} /\
    isNodeModulesDirectory (ancestor k p) = true /\
    forall j, j < k -> isNodeModulesDirectory (ancestor j p) = false.
Proof.
  revert d p. induction fuel as [|fuel IH]; intros d p Hlen Htr.
  - destruct (isNodeModulesDirectory p) eqn:Hnm.
    + exists 0. split; [simpl; rewrite Hnm; reflexivity | split; [exact Hnm | lia]].
    + unfold traversesNodeModules in Htr. rewrite Hnm in Htr. simpl in Htr.
      destruct (traversesNodeModules_parent p Hnm Htr) as [_ Hlt]. lia.
  - destruct (isNodeModulesDirectory p) eqn:Hnm.
    + exists 0. split; [simpl; rewrite Hnm; reflexivity | split; [exact Hnm | lia]].
    + unfold traversesNodeModules in Htr. rewrite Hnm in Htr. simpl in Htr.
      destruct (traversesNodeModules_parent p Hnm Htr) as [Htr' Hlt].
      destruct (IH (getDirectoryPath d) (getDirectoryPath p)) as (k & Hw & Hk & Hmin);
        [lia | exact Htr' |].
      exists (S k). rewrite !ancestor_S. simpl. rewrite Hnm.
      split; [exact Hw | split; [exact Hk |]].
      intros [|j] Hj; [exact Hnm | rewrite ancestor_S; apply Hmin; lia].
Qed.

(** The walk towards the root stops at [p] when the root lies in [p] or [p]
    has no parent but itself. *)
Definition stopsWalk (rp p : Path) : Prop :=
  isInDirectoryPath (Some p) rp = true \/ getDirectoryPath p = p.

Lemma walkToAncestorOfRoot_first (fuel : nat) (rp : Path) (d : string) (p : Path) :
  String.length p <= fuel ->
  exists k,
    walkToAncestorOfRoot fuel rp d p
      = Some {| dir := ancestor k d; dirPath := ancestor k p |} /\
    stopsWalk rp (ancestor k p) /\
    forall j, j < k -> ~ stopsWalk rp (ancestor j p).
Proof.
  revert d p. induction fuel as [|fuel IH]; intros d p Hlen;
    cbn [walkToAncestorOfRoot];
    (destruct (isInDirectoryPath (Some p) rp) eqn:Hin;
     [exists 0; split; [reflexivity | split; [left; exact Hin | lia]] |]);
    (destruct (String.eqb_spec (getDirectoryPath p) p) as [E|Hne];
     [exists 0; split; [reflexivity | split; [right; exact E | lia]] |]);
    pose proof (getDirectoryPath_shorter p Hne) as Hlt; [lia|].
  destruct (IH (getDirectoryPath d) (getDirectoryPath p)) as (k & Hw & Hk & Hmin); [lia|].
  exists (S k). rewrite !ancestor_S.
  split; [exact Hw | split; [exact Hk |]].
  intros [|j] Hj.
  - intros [Hs | Hs];
      [change (isInDirectoryPath (Some p) rp = true) in Hs; congruence | exact (Hne Hs)].
  - rewrite ancestor_S. apply Hmin. lia.
Qed.

(** C6.  The directory that is watched for a failed lookup location, by
    priority: the root directory of the project when the location lies under
    it; otherwise, when the directory of the location has a [node_modules]
    segment, its nearest ancestor (itself included) that is a [node_modules]
    directory; otherwise the first ancestor of that directory in which the
    root lies or which is its own parent, the top of the file system.  A
    cache without root directory watches the directory of the location
    itself in the last case. *)
Theorem getDirectoryToWatchFailedLookupLocation_priority
    (root : option (string * Path)) (location : string) (path : Path) :
  let d := getDirectoryPath (getNormalizedAbsolutePath location getCurrentDirectory) in
  let p := getDirectoryPath path in
  let chosen := getDirectoryToWatchFailedLookupLocation root location path in
  (forall rd rp, root = Some (rd, rp) ->
     isInDirectoryPath (Some rp) path = true ->
     chosen = Some {| dir := rd; dirPath := rp |}) /\
  (isInDirectoryPath (snd <$> root) path = false ->
   traversesNodeModules p = true ->
   exists k,
     chosen = Some {| dir := ancestor k d; dirPath := ancestor k p |} /\
     isNodeModulesDirectory (ancestor k p) = true /\
     forall j, j < k -> isNodeModulesDirectory (ancestor j p) = false) /\
  (isInDirectoryPath (snd <$> root) path = false ->
   traversesNodeModules p = false ->
   match root with
   | Some (_, rp) =>
       exists k,
         chosen = Some {| dir := ancestor k d; dirPath := ancestor k p |} /\
         stopsWalk rp (ancestor k p) /\
         forall j, j < k -> ~ stopsWalk rp (ancestor j p)
   | None => chosen = Some {| dir := d; dirPath := p |}
   end).
Proof.
  intros d p chosen. subst chosen. unfold getDirectoryToWatchFailedLookupLocation.
  fold d p. split; [|split].
  - intros rd rp -> Hin. rewrite Hin. reflexivity.
  - intros Hout Htr.
    assert (Hskip :
      match root with
      | Some (rd, rp) =>
          if isInDirectoryPath (Some rp) path
          then Some {| dir := rd; dirPath := rp |} else None
      | None => None
      end = None).
    { destruct root as [[rd rp]|]; [|reflexivity].
      change (isInDirectoryPath (Some rp) path = false) in Hout.
      rewrite Hout. reflexivity. }
    rewrite Hskip. destruct (isNodeModulesDirectory p) eqn:Hnm.
    + exists 0. split; [reflexivity | split; [exact Hnm | lia]].
    + unfold traversesNodeModules in Htr. rewrite Hnm in Htr. simpl in Htr. rewrite Htr.
      apply walkToNodeModules_nearest; [lia|].
      unfold traversesNodeModules. rewrite Htr. apply orb_true_r.
  - intros Hout Htr.
    apply orb_false_iff in Htr as [Hnm Hinc].
    destruct root as [[rd rp]|].
    + change (isInDirectoryPath (Some rp) path = false) in Hout.
      rewrite Hout, Hnm, Hinc. apply walkToAncestorOfRoot_first. lia.
    + rewrite Hnm, Hinc. reflexivity.
Qed.

(** The placement loops always end on such hosts. *)
Lemma getDirectoryToWatchFailedLookupLocation_total
    (root : option (string * Path)) (location : string) (path : Path) :
  is_Some (getDirectoryToWatchFailedLookupLocation root location path).
Proof.
  unfold getDirectoryToWatchFailedLookupLocation.
  set (d := getDirectoryPath (getNormalizedAbsolutePath location getCurrentDirectory)).
  set (p := getDirectoryPath path).
  destruct (match root with
            | Some (rd, rp) =>
                if isInDirectoryPath (Some rp) path
                then Some {| dir := rd; dirPath := rp |} else None
            | None => None
            end) as [w|]; [eauto|].
  destruct (isNodeModulesDirectory p) eqn:Hnm; [eauto|].
  destruct (Js.includes p "/node_modules/") eqn:Hinc.
  - destruct (walkToNodeModules_nearest (String.length p) d p) as (k & -> & _);
      [lia | unfold traversesNodeModules; rewrite Hinc; apply orb_true_r | eauto].
  - destruct root as [[rd rp]|]; [|eauto].
    destruct (walkToAncestorOfRoot_first (String.length p) rp d p) as (k & -> & _);
      [lia | eauto].
Qed.

End WatchPlacementFacts.

(** ** Calls *)

Section CallFacts.
Context {S : Type}.

Lemma bind_Returns {A B} (m : CallOn S A) (f : A -> CallOn S B) s a s' :
  m s = Returns a s' -> (m ≫= f) s = f a s'.
Proof. unfold mbind, CallOn_bind. intros ->. reflexivity. Qed.

Lemma bind_Throws {A B} (m : CallOn S A) (f : A -> CallOn S B) s e s' :
  m s = Throws e s' -> (m ≫= f) s = Throws e s'.
Proof. unfold mbind, CallOn_bind. intros ->. reflexivity. Qed.

Lemma bind_Returns_inv {A B} (m : CallOn S A) (f : A -> CallOn S B) s b s'' :
  (m ≫= f) s = Returns b s'' ->
  exists a s', m s = Returns a s' /\ f a s' = Returns b s''.
Proof.
  unfold mbind, CallOn_bind. destruct (m s) as [a s'|e s']; [eauto | discriminate].
Qed.

(** [R] relates the state before every call of [m] to the state after it,
    whether the call returns or throws. *)
Definition always {A} (R : relation S) (m : CallOn S A) : Prop :=
  forall s, R s (stateAfter (m s)).

Section Always.
Context (R : relation S) `{!PreOrder R}.

Lemma always_ret {A} (a : A) : always R (mret a : CallOn S A).
Proof. intros s. reflexivity. Qed.

Lemma always_throw {A} (e : Exception) : always R (throw e : CallOn S A).
Proof. intros s. reflexivity. Qed.

Lemma always_read {A} (f : S -> A) : always R (read f).
Proof. intros s. reflexivity. Qed.

Lemma always_assert (b : bool) : always R (assert b : CallOn S unit).
Proof. destruct b; [apply always_ret | apply always_throw]. Qed.

Lemma always_update (f : S -> S) : (forall s, R s (f s)) -> always R (update f).
Proof. intros Hf s. apply Hf. Qed.

Lemma always_bind {A B} (m : CallOn S A) (f : A -> CallOn S B) :
  always R m -> (forall a, always R (f a)) -> always R (m ≫= f).
Proof.
  intros Hm Hf s. specialize (Hm s). unfold mbind, CallOn_bind.
  destruct (m s) as [a s'|e s']; [|exact Hm].
  etrans; [exact Hm | apply Hf].
Qed.

Lemma always_forEach {A} (f : A -> CallOn S unit) (l : list A) :
  (forall x, always R (f x)) -> always R (forEach f l).
Proof.
  intros Hf. induction l as [|x l IH]; [apply always_ret|].
  cbn [forEach]. apply always_bind; [apply Hf | intros _; exact IH].
Qed.
End Always.

End CallFacts.

(** Breaks a call down to its [update]s. *)
Ltac always_step :=
  first
    [ apply always_ret | apply always_throw | apply always_read | apply always_assert
    | apply always_bind; [|intros ?]
    | apply always_forEach; intros ? ].

(** ** The end of a pass: [finishCachingPerDirectoryResolution] *)

Section PassFacts.
Context `{!CoreLibrary} `{!ResolutionCacheHost}.

(** No directory watch is kept without a reference. *)
Definition noWatchWithoutReference (c : ResolutionCache) : Prop :=
  forall directory w,
    directoryWatchesOfFailedLookups c !! directory = Some w -> refCount w <> 0%Z.

Lemma finishCachingPerDirectoryResolution_result (c : ResolutionCache) :
  finishCachingPerDirectoryResolution c =
  Returns tt
    (withPerDirectory TypeReferenceDirective []
       (withPerDirectory ModuleName []
          (withWatches (customFailedLookupPaths c)
             (filter (fun kv => refCount kv.2 ≠ 0%Z) (directoryWatchesOfFailedLookups c))
             (nextWatcher c)
             (closedWatchers c ++
                map watcher
                  (map_to_list
                     (filter (fun kv => refCount kv.2 = 0%Z)
                        (directoryWatchesOfFailedLookups c))).*2)
             (withAllFilesInvalidated false c)))).
Proof. reflexivity. Qed.

(** C5.  [finishCachingPerDirectoryResolution()] returns, and after it both
    per-directory maps are empty, no directory watch has the reference count
    0, every watch that had the count 0 is gone from the map and its watcher
    is closed, and every other watch is kept as it was. *)
Theorem finishCachingPerDirectoryResolution_prunes (c : ResolutionCache) :
  exists c',
    finishCachingPerDirectoryResolution c = Returns tt c' /\
    perDirectoryResolvedModuleNames c' = [] /\
    perDirectoryResolvedTypeReferenceDirectives c' = [] /\
    noWatchWithoutReference c' /\
    (forall directory w,
       directoryWatchesOfFailedLookups c !! directory = Some w ->
       refCount w = 0%Z ->
       directoryWatchesOfFailedLookups c' !! directory = None /\
       watcher w ∈ closedWatchers c') /\
    (forall directory w,
       directoryWatchesOfFailedLookups c !! directory = Some w ->
       refCount w <> 0%Z ->
       directoryWatchesOfFailedLookups c' !! directory = Some w).
Proof.
  eexists. split; [apply finishCachingPerDirectoryResolution_result|].
  cbn. split; [reflexivity | split; [reflexivity | split; [|split]]].
  - intros directory w [_ Hw]%map_lookup_filter_Some. exact Hw.
  - intros directory w Hw Hzero. split.
    + apply map_lookup_filter_None. right. intros w' Hw'. simpl. congruence.
    + apply elem_of_app. right.
      change (watcher w ∈ watcher <$>
                (map_to_list (filter (fun kv => refCount kv.2 = 0%Z)
                                (directoryWatchesOfFailedLookups c))).*2).
      apply list_elem_of_fmap. exists w. split; [reflexivity|].
      apply list_elem_of_fmap. exists (directory, w). split; [reflexivity|].
      apply elem_of_map_to_list, map_lookup_filter_Some. split; assumption.
  - intros directory w Hw Hne. apply map_lookup_filter_Some. split; assumption.
Qed.

End PassFacts.

(** ** Watching and no longer watching failed lookup locations *)

Section WatchFacts.
Context `{!CoreLibrary} `{!ResolutionCacheHost}.

(** Only the watch tables and the next watcher handle differ. *)
Definition onlyWatchesChange : relation ResolutionCache := fun c c' =>
  c' = withWatches (customFailedLookupPaths c') (directoryWatchesOfFailedLookups c')
         (nextWatcher c') (closedWatchers c) c.

#[export] Instance onlyWatchesChange_preorder : PreOrder onlyWatchesChange.
Proof.
  split.
  - intros []. reflexivity.
  - intros a b c Hab Hbc. unfold onlyWatchesChange in *.
    rewrite Hbc at 1. rewrite Hab at 2. rewrite Hab at 1. reflexivity.
Qed.

(** The custom path table after the first step of
    [watchFailedLookupLocationOfResolution] for a location. *)
Definition customAfterWatch (c : ResolutionCache) (location : string) : gmap Path Z :=
  if negb (isPathWithDefaultFailedLookupExtension (toPath location)) then
    <[toPath location :=
        (default 0%Z (customFailedLookupPaths c !! toPath location) + 1)%Z]>
      (customFailedLookupPaths c)
  else customFailedLookupPaths c.

Lemma watchFailedLookupLocation_outcome (location : string) (c : ResolutionCache) :
  watchFailedLookupLocation location c =
  let custom := customAfterWatch c location in
  match getDirectoryToWatchFailedLookupLocation (rootOfResolution c) location
          (toPath location) with
  | None =>
      Throws Unterminated
        (withWatches custom (directoryWatchesOfFailedLookups c) (nextWatcher c)
           (closedWatchers c) c)
  | Some w =>
      match directoryWatchesOfFailedLookups c !! dirPath w with
      | Some dirWatcher =>
          Returns tt
            (withWatches custom
               (<[dirPath w := {| watcher := watcher dirWatcher;
                                  refCount := (refCount dirWatcher + 1)%Z |}]>
                  (directoryWatchesOfFailedLookups c))
               (nextWatcher c) (closedWatchers c) c)
      | None =>
          Returns tt
            (withWatches custom
               (<[dirPath w := {| watcher := {| watcherId := nextWatcher c;
                                                watchedPath := dir w |};
                                  refCount := 1%Z |}]>
                  (directoryWatchesOfFailedLookups c))
               (S (nextWatcher c)) (closedWatchers c) c)
      end
  end.
Proof.
  unfold watchFailedLookupLocation, customAfterWatch, directoryToWatch,
    setCustomFailedLookupPaths, setDirectoryWatches, createDirectoryWatcher.
  unfold mbind, CallOn_bind, read, update, mret, CallOn_ret, throw.
  destruct c; cbn.
  destruct (negb (isPathWithDefaultFailedLookupExtension (toPath location))); cbn;
    (destruct (getDirectoryToWatchFailedLookupLocation _ _ _) as [w|]; cbn;
     [destruct (_ !! dirPath w) | ]; reflexivity).
Qed.

(** The custom path table after the first step of
    [stopWatchFailedLookupLocationOfResolutionFrom] for a location, when its
    assertion holds. *)
Definition customAfterStop (c : ResolutionCache) (location : string) : gmap Path Z :=
  match customFailedLookupPaths c !! toPath location with
  | Some count =>
      if (count =? 0)%Z then customFailedLookupPaths c
      else if (count =? 1)%Z then delete (toPath location) (customFailedLookupPaths c)
      else <[toPath location := (count - 1)%Z]> (customFailedLookupPaths c)
  | None => customFailedLookupPaths c
  end.

(** The reference count of the custom path of a location is negative, so
    that the assertion of the stop fails. *)
Definition customCountIsNegative (c : ResolutionCache) (location : string) : bool :=
  match customFailedLookupPaths c !! toPath location with
  | Some count => (count <? 0)%Z
  | None => false
  end.

Lemma stopWatchFailedLookupLocation_outcome (location : string) (c : ResolutionCache) :
  stopWatchFailedLookupLocation location c =
  if customCountIsNegative c location then Throws AssertionFailure c
  else
    let custom := customAfterStop c location in
    match getDirectoryToWatchFailedLookupLocation (rootOfResolution c) location
            (toPath location) with
    | None =>
        Throws Unterminated
          (withWatches custom (directoryWatchesOfFailedLookups c) (nextWatcher c)
             (closedWatchers c) c)
    | Some w =>
        match directoryWatchesOfFailedLookups c !! dirPath w with
        | Some dirWatcher =>
            Returns tt
              (withWatches custom
                 (<[dirPath w := {| watcher := watcher dirWatcher;
                                    refCount := (refCount dirWatcher - 1)%Z |}]>
                    (directoryWatchesOfFailedLookups c))
                 (nextWatcher c) (closedWatchers c) c)
        | None =>
            Throws TypeError
              (withWatches custom (directoryWatchesOfFailedLookups c) (nextWatcher c)
                 (closedWatchers c) c)
        end
    end.
Proof.
  unfold stopWatchFailedLookupLocation, customAfterStop, customCountIsNegative,
    directoryToWatch, setCustomFailedLookupPaths, setDirectoryWatches.
  unfold mbind, CallOn_bind, read, update, mret, CallOn_ret, throw, assert.
  destruct c; cbn in *.
  destruct (_ !! toPath location) as [count|]; cbn.
  - destruct (count <? 0)%Z eqn:Eneg.
    + assert ((count =? 0)%Z = false) as -> by lia.
      assert ((count =? 1)%Z = false) as -> by lia.
      assert ((1 <? count)%Z = false) as -> by lia. reflexivity.
    + destruct (count =? 0)%Z eqn:E0; cbn;
        [|destruct (count =? 1)%Z eqn:E1; cbn;
          [|assert ((1 <? count)%Z = true) as -> by lia; cbn]];
        (destruct (getDirectoryToWatchFailedLookupLocation _ _ _) as [w|]; cbn;
         [destruct (_ !! dirPath w) | ]; reflexivity).
  - destruct (getDirectoryToWatchFailedLookupLocation _ _ _) as [w|]; cbn;
      [destruct (_ !! dirPath w) | ]; reflexivity.
Qed.

(** Watching adds directory watches and closes none; stopping keeps the
    directory watches that there are. *)
Definition watchesGrow : relation ResolutionCache := fun c c' =>
  onlyWatchesChange c c' /\
  dom (directoryWatchesOfFailedLookups c) ⊆ dom (directoryWatchesOfFailedLookups c').

Definition watchesStay : relation ResolutionCache := fun c c' =>
  onlyWatchesChange c c' /\
  dom (directoryWatchesOfFailedLookups c') = dom (directoryWatchesOfFailedLookups c).

#[export] Instance watchesGrow_preorder : PreOrder watchesGrow.
Proof.
  split.
  - intros c. split; reflexivity.
  - intros a b c [H1 H2] [H3 H4]. split; [etrans; eassumption | set_solver].
Qed.

#[export] Instance watchesStay_preorder : PreOrder watchesStay.
Proof.
  split.
  - intros c. split; reflexivity.
  - intros a b c [H1 H2] [H3 H4]. split; [etrans; eassumption | congruence].
Qed.

Lemma watchesStay_grow (c c' : ResolutionCache) : watchesStay c c' -> watchesGrow c c'.
Proof. intros [H1 H2]. split; [exact H1 | rewrite H2; reflexivity]. Qed.

Lemma onlyWatchesChange_withWatches custom watches next (c : ResolutionCache) :
  onlyWatchesChange c (withWatches custom watches next (closedWatchers c) c).
Proof. destruct c. reflexivity. Qed.

Lemma watchFailedLookupLocation_grows (location : string) :
  always watchesGrow (watchFailedLookupLocation location).
Proof.
  intros c. rewrite watchFailedLookupLocation_outcome. cbv zeta.
  destruct (getDirectoryToWatchFailedLookupLocation _ _ _) as [w|];
    [destruct (_ !! dirPath w)|];
    (split; [apply onlyWatchesChange_withWatches|]); destruct c; cbn;
    rewrite ?dom_insert_L; set_solver.
Qed.

Lemma stopWatchFailedLookupLocation_stays (location : string) :
  always watchesStay (stopWatchFailedLookupLocation location).
Proof.
  intros c. rewrite stopWatchFailedLookupLocation_outcome.
  destruct (customCountIsNegative c location); [reflexivity|]. cbv zeta.
  destruct (getDirectoryToWatchFailedLookupLocation _ _ _) as [w|];
    [destruct (_ !! dirPath w) eqn:Hw|];
    (split; [apply onlyWatchesChange_withWatches|]); destruct c; cbn in *;
    try reflexivity.
  apply dom_insert_lookup_L. eauto.
Qed.

Lemma stopWatchFailedLookupLocationOfResolutionFrom_stays (r : Resolution) (index : nat) :
  always watchesStay (stopWatchFailedLookupLocationOfResolutionFrom r index).
Proof.
  apply always_forEach; [apply _|]. intros location.
  apply stopWatchFailedLookupLocation_stays.
Qed.

Lemma watchFailedLookupLocationOfResolution_grows (r : Resolution) (index : nat) :
  always watchesGrow (watchFailedLookupLocationOfResolution r index).
Proof.
  apply always_forEach; [apply _|]. intros location.
  apply watchFailedLookupLocation_grows.
Qed.

Lemma always_weaken {S A} (R R' : relation S) (m : CallOn S A) :
  (forall s s', R s s' -> R' s s') -> always R m -> always R' m.
Proof. intros HR Hm s. apply HR, Hm. Qed.

Lemma watchAndStopWatchDiffFailedLookupLocations_grows (r existing : Resolution) :
  always watchesGrow (watchAndStopWatchDiffFailedLookupLocations r existing).
Proof.
  unfold watchAndStopWatchDiffFailedLookupLocations.
  destruct (diffFailedLookupLocations _ _ _).
  - apply watchFailedLookupLocationOfResolution_grows.
  - apply always_bind; [apply _ | apply watchFailedLookupLocationOfResolution_grows |].
    intros _. eapply always_weaken; [apply watchesStay_grow|].
    apply stopWatchFailedLookupLocationOfResolutionFrom_stays.
  - eapply always_weaken; [apply watchesStay_grow|].
    apply stopWatchFailedLookupLocationOfResolutionFrom_stays.
Qed.

(** No directory watch leaves the table and no watcher is closed. *)
Definition keepsDirectoryWatches : relation ResolutionCache := fun c c' =>
  dom (directoryWatchesOfFailedLookups c) ⊆ dom (directoryWatchesOfFailedLookups c') /\
  closedWatchers c' = closedWatchers c.

#[export] Instance keepsDirectoryWatches_preorder : PreOrder keepsDirectoryWatches.
Proof.
  split.
  - intros c. split; reflexivity.
  - intros a b c [H1 H2] [H3 H4]. split; [set_solver | congruence].
Qed.

Lemma watchesGrow_keeps (c c' : ResolutionCache) :
  watchesGrow c c' -> keepsDirectoryWatches c c'.
Proof. intros [H1 H2]. split; [exact H2 | rewrite H1; destruct c; reflexivity]. Qed.

Lemma keepsDirectoryWatches_same (c c' : ResolutionCache) :
  directoryWatchesOfFailedLookups c' = directoryWatchesOfFailedLookups c ->
  closedWatchers c' = closedWatchers c ->
  keepsDirectoryWatches c c'.
Proof. intros H1 H2. split; [rewrite H1; reflexivity | exact H2]. Qed.

(** What a scan of [invalidateResolutionCache] changes: the invalidated flags
    and the set of the files with invalidated resolutions. *)
Lemma invalidateResolutionOfName_changes isInvalidatedResolution file directory acc entry :
  exists files flags,
    (invalidateResolutionOfName isInvalidatedResolution file directory acc entry).2 =
    withInvalidatedFiles files (withIsInvalidated flags (nextResolution acc.2) acc.2).
Proof.
  destruct acc as [seen c], entry as [name r]. cbn [invalidateResolutionOfName snd].
  destruct (bool_decide _);
    [|destruct (negb (invalidatedIn c r) && isInvalidatedResolution r)]; cbn [snd].
  1,3: exists (filesWithInvalidatedResolutions c), (isInvalidated c); destruct c; reflexivity.
  eexists _, _. destruct c; reflexivity.
Qed.

Lemma withInvalidatedFiles_twice files flags files' flags' next (c : ResolutionCache) :
  withInvalidatedFiles files'
    (withIsInvalidated flags' next
       (withInvalidatedFiles files (withIsInvalidated flags next c))) =
  withInvalidatedFiles files' (withIsInvalidated flags' next c).
Proof. reflexivity. Qed.

Lemma invalidateResolutionsOfNames_changes isInvalidatedResolution file directory
    (resolutions : list (string * Resolution)) acc :
  exists files flags,
    (foldl (invalidateResolutionOfName isInvalidatedResolution file directory)
           acc resolutions).2 =
    withInvalidatedFiles files (withIsInvalidated flags (nextResolution acc.2) acc.2).
Proof.
  revert acc. induction resolutions as [|entry resolutions IH]; intros acc.
  - exists (filesWithInvalidatedResolutions acc.2), (isInvalidated acc.2).
    destruct acc as [seen []]. reflexivity.
  - cbn [foldl].
    destruct (invalidateResolutionOfName_changes isInvalidatedResolution file directory
                acc entry) as (files & flags & E).
    destruct (IH (invalidateResolutionOfName isInvalidatedResolution file directory
                    acc entry)) as (files' & flags' & E').
    exists files', flags'. rewrite E', E. reflexivity.
Qed.

Lemma invalidateResolutionsOfFiles_changes isInvalidatedResolution
    (cache : list (Path * JsMap.t Resolution)) acc :
  exists files flags,
    (foldl (invalidateResolutionsOfContainingFile isInvalidatedResolution) acc cache).2 =
    withInvalidatedFiles files (withIsInvalidated flags (nextResolution acc.2) acc.2).
Proof.
  revert acc. induction cache as [|[file resolutions] cache IH]; intros acc.
  - exists (filesWithInvalidatedResolutions acc.2), (isInvalidated acc.2).
    destruct acc as [seen []]. reflexivity.
  - cbn [foldl invalidateResolutionsOfContainingFile].
    destruct (invalidateResolutionsOfNames_changes isInvalidatedResolution file
                (getDirectoryPath file) resolutions acc) as (files & flags & E).
    destruct (IH (foldl (invalidateResolutionOfName isInvalidatedResolution file
                           (getDirectoryPath file)) acc resolutions))
      as (files' & flags' & E').
    exists files', flags'. rewrite E', E. reflexivity.
Qed.

Lemma invalidateResolutionCache_changes (k : ResolutionKind) isInvalidatedResolution
    (c : ResolutionCache) :
  exists files flags,
    invalidateResolutionCache k isInvalidatedResolution c =
    Returns tt (withInvalidatedFiles files (withIsInvalidated flags (nextResolution c) c)).
Proof.
  destruct (invalidateResolutionsOfFiles_changes isInvalidatedResolution (perFile k c) (∅, c))
    as (files & flags & E).
  exists files, flags. unfold invalidateResolutionCache, update. rewrite E. reflexivity.
Qed.

Lemma invalidateResolutions_changes isInvalidatedResolution (c : ResolutionCache) :
  exists files flags all,
    invalidateResolutions isInvalidatedResolution c =
    Returns tt
      (withAllFilesInvalidated all
         (withInvalidatedFiles files (withIsInvalidated flags (nextResolution c) c))).
Proof.
  unfold invalidateResolutions.
  erewrite bind_Returns by reflexivity. unfold id.
  destruct (hasReachedResolutionIterationLimit c).
  - exists (filesWithInvalidatedResolutions c), (isInvalidated c), true.
    destruct c; reflexivity.
  - destruct (invalidateResolutionCache_changes ModuleName isInvalidatedResolution c)
      as (files & flags & E).
    erewrite bind_Returns by exact E.
    destruct (invalidateResolutionCache_changes TypeReferenceDirective
                isInvalidatedResolution
                (withInvalidatedFiles files (withIsInvalidated flags (nextResolution c) c)))
      as (files' & flags' & ->).
    exists files', flags', (allFilesHaveInvalidatedResolution c).
    destruct c; reflexivity.
Qed.

End WatchFacts.

(** Breaks an [always] goal down along the structure of the call; [base]
    closes the calls that are left. *)
Ltac always_go base :=
  repeat first
    [ progress intros
    | match goal with |- PreOrder _ => apply _ end
    | base
    | apply always_ret
    | apply always_throw
    | apply always_read
    | apply always_assert
    | apply always_bind
    | apply always_forEach
    | match goal with
      | |- always _ (match ?x with _ => _ end) => destruct x
      end ].

(** ** The removal paths and the directory watches *)

Section RemovalFacts.
Context `{!CoreLibrary} `{!ResolutionCacheHost}.

Lemma keeps_update (f : ResolutionCache -> ResolutionCache) :
  (forall c, directoryWatchesOfFailedLookups (f c) = directoryWatchesOfFailedLookups c) ->
  (forall c, closedWatchers (f c) = closedWatchers c) ->
  always keepsDirectoryWatches (update f).
Proof. intros H1 H2. apply always_update. intros c. apply keepsDirectoryWatches_same; auto. Qed.

Lemma stopWatchFailedLookupLocationOfResolution_keeps (r : Resolution) :
  always keepsDirectoryWatches (stopWatchFailedLookupLocationOfResolution r).
Proof.
  eapply always_weaken; [|apply stopWatchFailedLookupLocationOfResolutionFrom_stays].
  intros c c' Hs. apply watchesGrow_keeps, watchesStay_grow, Hs.
Qed.

Lemma removeResolutionsOfFileFromCache_keeps (k : ResolutionKind) (filePath : Path) :
  always keepsDirectoryWatches (removeResolutionsOfFileFromCache k filePath).
Proof.
  unfold removeResolutionsOfFileFromCache.
  always_go ltac:(first [ apply stopWatchFailedLookupLocationOfResolution_keeps
                        | apply keeps_update; intros []; destruct k; reflexivity ]).
Qed.

Lemma removeResolutionsOfFile_keeps (filePath : Path) :
  always keepsDirectoryWatches (removeResolutionsOfFile filePath).
Proof.
  unfold removeResolutionsOfFile.
  always_go ltac:(apply removeResolutionsOfFileFromCache_keeps).
Qed.

Lemma invalidateResolutions_keeps isInvalidatedResolution :
  always keepsDirectoryWatches (invalidateResolutions isInvalidatedResolution).
Proof.
  intros c.
  destruct (invalidateResolutions_changes isInvalidatedResolution c)
    as (files & flags & all & ->).
  apply keepsDirectoryWatches_same; destruct c; reflexivity.
Qed.

Lemma invalidateResolutionOfFile_keeps (filePath : Path) :
  always keepsDirectoryWatches (invalidateResolutionOfFile filePath).
Proof.
  unfold invalidateResolutionOfFile.
  always_go ltac:(first [ apply removeResolutionsOfFile_keeps
                        | apply invalidateResolutions_keeps ]).
Qed.

Lemma load_keeps (k : ResolutionKind) (name containingFile : string) :
  always keepsDirectoryWatches (load k name containingFile).
Proof. intros c. apply keepsDirectoryWatches_same; destruct c; reflexivity. Qed.

Lemma resolveName_keeps k containingFile path directory loop name :
  always keepsDirectoryWatches (resolveName k containingFile path directory loop name).
Proof.
  unfold resolveName, setResolutionInFile, setResolutionInDirectory.
  always_go ltac:(first
    [ apply load_keeps
    | eapply always_weaken;
        [apply watchesGrow_keeps | apply watchAndStopWatchDiffFailedLookupLocations_grows]
    | eapply always_weaken;
        [apply watchesGrow_keeps | apply watchFailedLookupLocationOfResolution_grows]
    | apply keeps_update; intros []; destruct k; reflexivity ]).
Qed.

Lemma resolveEachName_keeps k containingFile path directory loop names :
  always keepsDirectoryWatches (resolveEachName k containingFile path directory loop names).
Proof.
  revert loop. induction names as [|name names IH]; intros loop; cbn [resolveEachName].
  - apply always_ret. apply _.
  - apply always_bind; [apply _ | apply resolveName_keeps | intros loop'; apply IH].
Qed.

Lemma resolveNamesWithLocalCache_keeps k names containingFile reusedNames logChanges :
  always keepsDirectoryWatches
    (resolveNamesWithLocalCache k names containingFile reusedNames logChanges).
Proof.
  unfold resolveNamesWithLocalCache, deleteResolutionInFile.
  always_go ltac:(first
    [ apply resolveEachName_keeps
    | apply stopWatchFailedLookupLocationOfResolution_keeps
    | apply keeps_update; intros c;
      repeat match goal with |- context [match ?x with _ => _ end] => destruct x end;
      destruct c, k; reflexivity ]).
Qed.

(** C4, as the code has it.  The directory watches without reference are
    pruned when a pass finishes, and when the cache is cleared: right after
    [finishCachingPerDirectoryResolution()] or [clear()] no watch has the
    reference count 0.  A removal path ([removeResolutionsOfFile],
    [invalidateResolutionOfFile], the eviction of names in a resolve call)
    takes no watch out of the table and closes no watcher, whatever the
    counts become. *)
Theorem directoryWatches_pruned_at_finish_only :
  (forall c, noWatchWithoutReference (stateAfter (finishCachingPerDirectoryResolution c))) /\
  (forall c, noWatchWithoutReference (stateAfter (clear c))) /\
  (forall filePath, always keepsDirectoryWatches (removeResolutionsOfFile filePath)) /\
  (forall filePath, always keepsDirectoryWatches (invalidateResolutionOfFile filePath)) /\
  (forall k names containingFile reusedNames logChanges,
     always keepsDirectoryWatches
       (resolveNamesWithLocalCache k names containingFile reusedNames logChanges)).
Proof.
  split; [|split; [|split; [|split]]].
  - intros c. rewrite finishCachingPerDirectoryResolution_result. cbn.
    intros directory w [_ Hw]%map_lookup_filter_Some. exact Hw.
  - intros c directory w.
    assert (E : directoryWatchesOfFailedLookups (stateAfter (clear c)) = ∅).
    { unfold clear, closeTypeRootsWatch, mbind, CallOn_bind, update, read, assert. cbn.
      destruct (_ && _); reflexivity. }
    rewrite E, lookup_empty. discriminate.
  - apply removeResolutionsOfFile_keeps.
  - apply invalidateResolutionOfFile_keeps.
  - apply resolveNamesWithLocalCache_keeps.
Qed.

End RemovalFacts.

(** ** The host with POSIX paths *)

Module PosixFacts.
Import StringFacts Posix.

Lemma beforeLastSeparator_none (s : string) :
  Js.includes s "/" = false -> beforeLastSeparator s = None.
Proof.
  induction s as [|c s IH]; [reflexivity|].
  cbn [Js.includes String.prefix beforeLastSeparator].
  intros [Hc Hs]%orb_false_iff. rewrite (IH Hs).
  destruct (ascii_dec "/"%char c) as [<-|Hne].
  - rewrite prefix_nil in Hc. discriminate.
  - unfold Js.directorySeparator.
    destruct (Ascii.eqb_spec c "/"%char) as [->|_]; [congruence | reflexivity].
Qed.

Lemma beforeLastSeparator_segment (d segment : string) :
  Js.includes segment "/" = false ->
  beforeLastSeparator (d +:+ "/" +:+ segment) = Some d.
Proof.
  intros Hseg. induction d as [|c d IH].
  - rewrite app_nil_l. change ("/" +:+ segment) with (String "/"%char segment).
    cbn [beforeLastSeparator]. rewrite (beforeLastSeparator_none _ Hseg). reflexivity.
  - rewrite app_cons. cbn [beforeLastSeparator]. rewrite IH. reflexivity.
Qed.

Lemma beforeLastSeparator_split (s d : string) :
  beforeLastSeparator s = Some d -> exists segment, s = d +:+ "/" +:+ segment.
Proof.
  revert d. induction s as [|c s IH]; intros d; [discriminate|].
  cbn [beforeLastSeparator].
  destruct (beforeLastSeparator s) as [d'|].
  - intros [= <-]. destruct (IH d' eq_refl) as [segment ->].
    exists segment. reflexivity.
  - unfold Js.directorySeparator.
    destruct (Ascii.eqb_spec c "/"%char) as [->|_]; [|discriminate].
    intros [= <-]. exists s. reflexivity.
Qed.

Lemma directoryPath_prefix (p : string) : String.prefix (directoryPath p) p = true.
Proof.
  unfold directoryPath. destruct (beforeLastSeparator p) as [d|] eqn:E.
  - destruct (beforeLastSeparator_split _ _ E) as [segment ->].
    destruct d as [|c d]; apply prefix_spec.
    + exists segment. reflexivity.
    + exists ("/" +:+ segment). reflexivity.
  - apply prefix_nil.
Qed.

Lemma directoryPath_segment (d segment : string) :
  d <> "" -> Js.includes segment "/" = false ->
  directoryPath (d +:+ "/" +:+ segment) = d.
Proof.
  intros Hd Hseg. unfold directoryPath.
  rewrite (beforeLastSeparator_segment _ _ Hseg).
  destruct d; [contradiction | reflexivity].
Qed.

End PosixFacts.

(** ** Calls with a precondition *)

Section HoareFacts.
Context {S : Type}.

(** From a state in [P], the call [m] returns a value and a state in [Q], or
    throws in a state in [E]. *)
Definition hoare {A} (P : S -> Prop) (m : CallOn S A) (Q : A -> S -> Prop) (E : S -> Prop)
  : Prop :=
  forall s, P s ->
    match m s with
    | Returns a s' => Q a s'
    | Throws _ s' => E s'
    end.

Lemma hoare_ret {A} (P : S -> Prop) (a : A) (Q : A -> S -> Prop) E :
  (forall s, P s -> Q a s) -> hoare P (mret a) Q E.
Proof. intros H s Hs. apply H, Hs. Qed.

Lemma hoare_throw {A} (P : S -> Prop) e (Q : A -> S -> Prop) (E : S -> Prop) :
  (forall s, P s -> E s) -> hoare P (throw e) Q E.
Proof. intros H s Hs. apply H, Hs. Qed.

Lemma hoare_bind {A B} (P : S -> Prop) (m : CallOn S A) (f : A -> CallOn S B)
    (Q' : A -> S -> Prop) (Q : B -> S -> Prop) E :
  hoare P m Q' E -> (forall a, hoare (Q' a) (f a) Q E) -> hoare P (m ≫= f) Q E.
Proof.
  intros Hm Hf s Hs. specialize (Hm s Hs). unfold mbind, CallOn_bind.
  destruct (m s) as [a s'|e s']; [apply Hf, Hm | exact Hm].
Qed.

Lemma hoare_read {A} (P : S -> Prop) (f : S -> A) (Q : A -> S -> Prop) E :
  (forall s, P s -> Q (f s) s) -> hoare P (read f) Q E.
Proof. intros H s Hs. apply H, Hs. Qed.

Lemma hoare_update (P : S -> Prop) (f : S -> S) (Q : unit -> S -> Prop) E :
  (forall s, P s -> Q tt (f s)) -> hoare P (update f) Q E.
Proof. intros H s Hs. apply H, Hs. Qed.

Lemma hoare_assert (P : S -> Prop) (b : bool) (Q : unit -> S -> Prop) (E : S -> Prop) :
  (forall s, P s -> if b then Q tt s else E s) -> hoare P (assert b) Q E.
Proof. intros H s Hs. specialize (H s Hs). destruct b; exact H. Qed.

Lemma hoare_weaken {A} (P P' : S -> Prop) (m : CallOn S A) (Q Q' : A -> S -> Prop)
    (E E' : S -> Prop) :
  hoare P' m Q' E' ->
  (forall s, P s -> P' s) -> (forall a s, Q' a s -> Q a s) -> (forall s, E' s -> E s) ->
  hoare P m Q E.
Proof.
  intros Hm HP HQ HE s Hs. specialize (Hm s (HP s Hs)).
  destruct (m s); [apply HQ | apply HE]; exact Hm.
Qed.

(** A call that keeps [R] takes a state related to [s0] to such a state. *)
Lemma hoare_always {A} (R : relation S) `{!PreOrder R} (m : CallOn S A) (s0 : S) :
  always R m -> hoare (R s0) m (fun _ => R s0) (R s0).
Proof.
  intros Hm s Hs. specialize (Hm s).
  destruct (m s); cbn in Hm; etrans; eassumption.
Qed.

Lemma hoare_forEach {A} (I : S -> Prop) (f : A -> CallOn S unit) (l : list A) E :
  (forall x, x ∈ l -> hoare I (f x) (fun _ => I) E) ->
  hoare I (forEach f l) (fun _ => I) E.
Proof.
  induction l as [|x l IH]; intros Hf.
  - apply hoare_ret. auto.
  - cbn [forEach]. eapply hoare_bind.
    + apply Hf. left.
    + intros ?. apply IH. intros y Hy. apply Hf. right. exact Hy.
Qed.

(** A member kept by every call. *)
Definition unchanged {B} (f : S -> B) : relation S := fun s s' => f s' = f s.

#[export] Instance unchanged_preorder {B} (f : S -> B) : PreOrder (unchanged f).
Proof. split; [intros s; reflexivity | intros a b c H1 H2; unfold unchanged in *; congruence]. Qed.

End HoareFacts.

Lemma hoare_frame {S A B} (f : S -> B) (m : CallOn S A) (x : B) (E : S -> Prop) :
  always (unchanged f) m ->
  (forall s, f s = x -> E s) ->
  hoare (fun s => f s = x) m (fun _ s => f s = x) E.
Proof.
  intros Hm HE s Hs. specialize (Hm s). unfold unchanged in Hm.
  destruct (m s); cbn in Hm; [|apply HE]; congruence.
Qed.

Lemma hoare_pure {S A} (fact : Prop) (P : S -> Prop) (m : CallOn S A) Q E :
  (fact -> hoare P m Q E) -> hoare (fun s => fact /\ P s) m Q E.
Proof. intros H s [Hfact Hs]. apply (H Hfact), Hs. Qed.

(** ** The project *)

Section ProjectFacts.
Context `{!CoreLibrary} `{!ResolutionCacheHost} `{!ProjectService}.

Lemma always_onResolutionCache {A B} (f : Project -> B) (m : Call A) :
  (forall p c, f (withResolutionCache c p) = f p) ->
  always (unchanged f) (onResolutionCache m).
Proof.
  intros Hf p. unfold onResolutionCache, unchanged.
  destruct (resolutionCache p) as [c|]; [|reflexivity].
  destruct (m c); cbn; apply Hf.
Qed.

(** Closes the goals on calls that leave a member of the project alone. *)
Ltac project_frame :=
  always_go ltac:(first
    [ apply always_onResolutionCache; intros [] ?; reflexivity
    | apply always_update;
        [.. | intros []; unfold unchanged; cbn; repeat case_match; reflexivity] ]).

(** The members of the project that decide its structure version. *)
Definition graphMembers (p : Project) :=
  (projectStructureVersion p, languageServiceEnabled p, typingFiles p, program p).

Lemma request_frame {B} (f : Project -> B) (r : ResolutionRequest) :
  (forall p c, f (withResolutionCache c p) = f p) ->
  always (unchanged f) (request r).
Proof.
  intros Hf. unfold request, projectResolveModuleNames, projectResolveTypeReferenceDirectives.
  always_go ltac:(apply always_onResolutionCache; exact Hf).
Qed.

Lemma detachScriptInfoFromProject_frame {B} (f : Project -> B) (fileName : string) :
  (forall p c, f (withResolutionCache c p) = f p) ->
  always (unchanged f) (detachScriptInfoFromProject fileName).
Proof.
  intros Hf. unfold detachScriptInfoFromProject.
  always_go ltac:(apply always_onResolutionCache; exact Hf).
Qed.

Lemma updateGraphWorker_outcome (build : ProgramBuild) (p0 : Project) :
  hoare (fun p => graphMembers p = graphMembers p0)
    (updateGraphWorker build)
    (fun hasChanges p =>
       hasChanges = structureChanged (program p0) build /\
       graphMembers p =
         (projectStructureVersion p0, languageServiceEnabled p0, typingFiles p0,
          Some (builtProgram build)))
    (fun p => projectStructureVersion p = projectStructureVersion p0).
Proof.
  unfold updateGraphWorker.
  set (E := fun p => projectStructureVersion p = projectStructureVersion p0).
  assert (HE : forall x, x.1.1.1 = projectStructureVersion p0 ->
                         forall p, graphMembers p = x -> E p).
  { intros x Hx p Hp. unfold E. rewrite <- Hx, <- Hp. reflexivity. }
  eapply hoare_bind.
  { apply (hoare_read _ _ (fun o p => o = program p0 /\ graphMembers p = graphMembers p0)).
    intros p Hp. split; [|exact Hp]. unfold graphMembers in Hp. congruence. }
  intros oldProgram. apply hoare_pure. intros ->.
  eapply hoare_bind.
  { apply hoare_frame; [|apply HE; reflexivity]. project_frame. }
  intros ?; cbv beta. eapply hoare_bind.
  { apply hoare_frame; [|apply HE; reflexivity].
    apply always_forEach; [apply _|]. intros r. apply request_frame.
    intros [] ?; reflexivity. }
  intros ?; cbv beta. eapply hoare_bind.
  { apply (hoare_update _ _
             (fun _ p => graphMembers p =
                (projectStructureVersion p0, languageServiceEnabled p0, typingFiles p0,
                 Some (builtProgram build)))).
    intros [] Hp. unfold graphMembers in *. cbn in *. congruence. }
  intros ?; cbv beta. eapply hoare_bind.
  { apply hoare_frame; [|apply HE; reflexivity]. project_frame. }
  intros ?; cbv beta. eapply hoare_bind.
  { apply hoare_frame; [|apply HE; reflexivity]. project_frame. }
  intros ?; cbv beta. eapply hoare_bind.
  { apply hoare_frame; [|apply HE; reflexivity].
    always_go ltac:(first
      [ apply detachScriptInfoFromProject_frame; intros [] ?; reflexivity
      | apply always_onResolutionCache; intros [] ?; reflexivity
      | apply always_update;
          [.. | intros []; unfold unchanged; cbn; repeat case_match; reflexivity] ]). }
  intros ?; cbv beta. apply hoare_ret. intros p Hp. split; [reflexivity | exact Hp].
Qed.

Lemma setTypings_outcome (typings : list string) (x : Z * bool * option (list string) * option Program) :
  hoare (fun p => graphMembers p = x)
    (setTypings typings)
    (fun changed p =>
       changed = negb (bool_decide (x.1.2 = Some typings)) /\
       graphMembers p =
         (x.1.1.1, x.1.1.2, (if changed then Some typings else x.1.2), x.2))
    (fun p => projectStructureVersion p = x.1.1.1).
Proof.
  intros p Hp. unfold setTypings, markAsDirty, mbind, CallOn_bind, read, update, mret,
    CallOn_ret. cbn.
  destruct x as [[[v e] t] g]. unfold graphMembers in Hp. injection Hp as Hv He Ht Hg.
  cbn. rewrite Ht. destruct (bool_decide (t = Some typings)); cbn.
  - split; [reflexivity|]. unfold graphMembers. congruence.
  - split; [reflexivity|]. destruct p; unfold graphMembers; cbn in *. congruence.
Qed.

(** Whether [updateGraph] finds that the structure of the project changed:
    the first build did not reuse the structure of the old program, or the
    typings changed and the second build did not reuse that of the first. *)
Definition graphChanges (p : Project) (u : GraphUpdate) : bool :=
  structureChanged (program p) (firstBuild u) ||
  languageServiceEnabled p &&
  negb (bool_decide (typingFiles p = Some (cachedTypings u))) &&
  structureChanged (Some (builtProgram (firstBuild u))) (secondBuild u).

Lemma updateGraph_outcome (u : GraphUpdate) (p0 : Project) :
  hoare (fun p => graphMembers p = graphMembers p0)
    (updateGraph u)
    (fun unchanged p =>
       unchanged = negb (graphChanges p0 u) /\
       projectStructureVersion p =
         (projectStructureVersion p0 + if graphChanges p0 u then 1 else 0)%Z)
    (fun p => projectStructureVersion p = projectStructureVersion p0).
Proof.
  unfold updateGraph.
  set (E := fun p => projectStructureVersion p = projectStructureVersion p0).
  assert (HE : forall x, x.1.1.1 = projectStructureVersion p0 ->
                         forall p, graphMembers p = x -> E p).
  { intros x Hx p Hp. unfold E. rewrite <- Hx, <- Hp. reflexivity. }
  eapply hoare_bind.
  { apply hoare_frame; [|apply HE; reflexivity]. project_frame. }
  intros ?; cbv beta. eapply hoare_bind.
  { apply hoare_frame; [|apply HE; reflexivity]. project_frame. }
  intros ?; cbv beta. eapply hoare_bind.
  { apply hoare_frame; [|apply HE; reflexivity]. project_frame. }
  intros ?; cbv beta. eapply hoare_bind.
  { apply updateGraphWorker_outcome. }
  intros h1; cbv beta. apply hoare_pure. intros ->.
  eapply hoare_bind.
  { apply hoare_frame; [|apply HE; reflexivity]. project_frame. }
  intros ?; cbv beta. eapply hoare_bind.
  { apply (hoare_read _ _
             (fun e p => e = languageServiceEnabled p0 /\
                graphMembers p =
                  (projectStructureVersion p0, languageServiceEnabled p0, typingFiles p0,
                   Some (builtProgram (firstBuild u))))).
    intros p Hp. split; [|exact Hp]. unfold graphMembers in Hp. congruence. }
  intros enabled; cbv beta. apply hoare_pure. intros ->.
  eapply (hoare_bind _ _ _
            (fun h p => h = graphChanges p0 u /\ E p)).
  - unfold graphChanges.
    destruct (languageServiceEnabled p0) eqn:He; cbn [andb].
    + eapply hoare_bind; [apply setTypings_outcome|].
      intros changed; cbv beta. apply hoare_pure. intros ->. cbn [fst snd].
      destruct (bool_decide (typingFiles p0 = Some (cachedTypings u))); cbn [negb andb].
      * apply hoare_ret. intros p Hp. split; [rewrite orb_false_r; reflexivity|].
        eapply HE; [|exact Hp]. reflexivity.
      * eapply hoare_bind.
        { eapply hoare_weaken;
            [apply (updateGraphWorker_outcome (secondBuild u)
                      (withTypingFiles (Some (cachedTypings u))
                         (withProgram (Some (builtProgram (firstBuild u))) p0)))
            | | intros r s Hs; exact Hs
            | intros s Hs; unfold E; rewrite Hs; destruct p0; reflexivity].
          intros s Hs. etrans; [exact Hs|].
          destruct p0; cbn in He; subst; reflexivity. }
        intros again; cbv beta. apply hoare_ret. intros p [-> Hp].
        split; [destruct p0; cbn; apply orb_comm|].
        unfold E. unfold graphMembers in Hp. destruct p0; cbn in *. congruence.
    + apply hoare_ret. intros p Hp. split; [rewrite orb_false_r; reflexivity|].
      eapply HE; [|exact Hp]. reflexivity.
  - intros h; cbv beta. apply hoare_pure. intros ->.
    intros p Hp. unfold E in Hp. unfold mbind, CallOn_bind, update, mret, CallOn_ret.
    destruct (graphChanges p0 u); cbn.
    + split; [reflexivity|]. destruct p; cbn in *. lia.
    + split; [reflexivity|]. lia.
Qed.

(** *** The structure version *)

Ltac version_frame :=
  always_go ltac:(first
    [ apply always_onResolutionCache; intros [] ?; reflexivity
    | apply always_update;
        [.. | intros []; unfold unchanged; cbn; repeat case_match; reflexivity] ]).

Lemma updateGraph_version (u : GraphUpdate) (p : Project) :
  projectStructureVersion (stateAfter (updateGraph u p)) =
  (projectStructureVersion p + if graphChanges p u then 1 else 0)%Z \/
  projectStructureVersion (stateAfter (updateGraph u p)) = projectStructureVersion p.
Proof.
  pose proof (updateGraph_outcome u p p eq_refl) as Hu.
  destruct (updateGraph u p); cbn; [left; apply Hu | right; exact Hu].
Qed.

(** What follows the graph update in [getChangesSinceVersion]. *)
Lemma getChangesSinceVersion_version (u : GraphUpdate) (lastKnownVersion : option Z)
    (p : Project) :
  projectStructureVersion (stateAfter (getChangesSinceVersion u lastKnownVersion p)) =
  projectStructureVersion (stateAfter (updateGraph u p)).
Proof.
  unfold getChangesSinceVersion. unfold mbind at 1. unfold CallOn_bind.
  destruct (updateGraph u p) as [b p1|e p1]; [|reflexivity].
  cbn [stateAfter].
  match goal with
  | |- projectStructureVersion (stateAfter (?m p1)) = _ =>
      assert (Hm : always (unchanged projectStructureVersion) m)
  end.
  { version_frame. }
  apply Hm.
Qed.

Lemma perform_version (op : ProjectOperation) (p : Project) :
  projectStructureVersion (stateAfter (perform op p)) = projectStructureVersion p \/
  exists u,
    (op = UpdateGraph u \/ exists v, op = GetChangesSinceVersion u v) /\
    graphChanges p u = true /\
    projectStructureVersion (stateAfter (perform op p)) = (projectStructureVersion p + 1)%Z.
Proof.
  assert (Hbind : forall {A} (m : CallOn Project A) q,
             stateAfter ((m ;; mret tt) q) = stateAfter (m q)).
  { intros A m q. unfold mbind, CallOn_bind. destruct (m q); reflexivity. }
  destruct op; cbn [perform];
    try (left;
         match goal with
         | |- projectStructureVersion (stateAfter (?m p)) = _ =>
             assert (Hm : always (unchanged projectStructureVersion) m);
             [|exact (Hm p)]
         end;
         unfold markAsDirty, addRoot, addMissingFileRoot, removeFile, removeRoot,
           registerFileUpdate, setCompilerOptions, enableLanguageService,
           disableLanguageService, fileExists, isWatchedMissingFile,
           projectResolveModuleNames, projectResolveTypeReferenceDirectives,
           onInvalidatedResolution, onChangedAutomaticTypeDirectiveNames,
           delayUpdateProjectGraph, onMissingFileChanged, close, markAsDirty, defined;
         version_frame; fail).
  - rewrite Hbind. destruct (updateGraph_version u p) as [Hv|Hv]; [|left; exact Hv].
    destruct (graphChanges p u) eqn:Hg; [right | left; lia].
    exists u. eauto.
  - rewrite Hbind, getChangesSinceVersion_version.
    destruct (updateGraph_version u p) as [Hv|Hv]; [|left; exact Hv].
    destruct (graphChanges p u) eqn:Hg; [right | left; lia].
    exists u. eauto.
Qed.

(** C9, amended.  The structure version of a project never decreases over
    a sequence of operations, and one [updateGraph()] leaves it as it is or
    adds one to it.  It adds one exactly when it finds the structure of the
    program changed, which is not the same as a change of the set of files:
    the first build had no old program, or returned another program object
    without reusing the structure of the old one completely; or the typings
    changed and the second build did so.  No other operation changes the
    version. *)
Theorem projectStructureVersion_never_decreases :
  (forall ops p,
     (projectStructureVersion p <= projectStructureVersion (performAll ops p))%Z) /\
  (forall u p,
     projectStructureVersion (stateAfter (updateGraph u p)) = projectStructureVersion p \/
     projectStructureVersion (stateAfter (updateGraph u p))
       = (projectStructureVersion p + 1)%Z) /\
  (forall u p unchanged p',
     updateGraph u p = Returns unchanged p' ->
     unchanged = negb (graphChanges p u) /\
     projectStructureVersion p' =
       (projectStructureVersion p + if graphChanges p u then 1 else 0)%Z) /\
  (forall u p,
     graphChanges p u = true <->
     structureChanged (program p) (firstBuild u) = true \/
     (languageServiceEnabled p = true /\ typingFiles p <> Some (cachedTypings u) /\
      structureChanged (Some (builtProgram (firstBuild u))) (secondBuild u) = true)) /\
  (forall old build,
     structureChanged old build = true <->
     old = None \/
     exists oldProgram,
       old = Some oldProgram /\
       programIdentity (builtProgram build) <> programIdentity oldProgram /\
       oldStructureIsReused build <> Completely) /\
  (forall op p,
     projectStructureVersion (stateAfter (perform op p)) <> projectStructureVersion p ->
     exists u,
       (op = UpdateGraph u \/ exists v, op = GetChangesSinceVersion u v) /\
       graphChanges p u = true).
Proof.
  split; [|split; [|split; [|split; [|split]]]].
  - intros ops. unfold performAll.
    induction ops as [|op ops IH]; intros p; [reflexivity|].
    cbn [foldl]. etrans; [|apply IH].
    destruct (perform_version op p) as [Hv | (u & _ & _ & Hv)]; lia.
  - intros u p. destruct (updateGraph_version u p) as [Hv|Hv]; [|left; exact Hv].
    destruct (graphChanges p u); [right; exact Hv | left; lia].
  - intros u p unchanged p' Hcall.
    pose proof (updateGraph_outcome u p p eq_refl) as Hu. rewrite Hcall in Hu. exact Hu.
  - intros u p. unfold graphChanges.
    rewrite orb_true_iff, !andb_true_iff, negb_true_iff, bool_decide_eq_false.
    tauto.
  - intros old build. unfold structureChanged. destruct old as [oldProgram|].
    + rewrite andb_true_iff, !negb_true_iff, Nat.eqb_neq. split.
      * intros [Hid Hreused]. right. exists oldProgram. split; [reflexivity|].
        split; [exact Hid|]. intros Hc. rewrite Hc in Hreused. discriminate.
      * intros [[=]|(o & [= <-] & Hid & Hreused)]. split; [exact Hid|].
        destruct (oldStructureIsReused build); congruence.
    + split; [auto|reflexivity].
  - intros op p Hne.
    destruct (perform_version op p) as [Hv | (u & Hop & Hg & _)]; [contradiction|].
    exists u. split; assumption.
Qed.

End ProjectFacts.

(** ** JavaScript maps *)

Module JsMapFacts.
Section Facts.
Context {V : Type}.
Implicit Types (m : JsMap.t V) (k : string) (v : V).



Lemma get_set_eq k v m : JsMap.get k (JsMap.set k v m) = Some v.
Proof.
  induction m as [|[k0 v0] m IH]; cbn [JsMap.set JsMap.get].
  - rewrite String.eqb_refl. reflexivity.
  - destruct (String.eqb_spec k0 k) as [->|Hne]; cbn [JsMap.get].
    + rewrite String.eqb_refl. reflexivity.
    + destruct (String.eqb_spec k0 k); [contradiction | exact IH].
Qed.

Lemma get_set_ne k k' v m : k <> k' -> JsMap.get k' (JsMap.set k v m) = JsMap.get k' m.
Proof.
  intros Hne. induction m as [|[k0 v0] m IH]; cbn [JsMap.set JsMap.get].
  - destruct (String.eqb_spec k k'); [contradiction | reflexivity].
  - destruct (String.eqb_spec k0 k) as [->|Hne0]; cbn [JsMap.get].
    + destruct (String.eqb_spec k k'); [contradiction | reflexivity].
    + rewrite IH. reflexivity.
Qed.

Lemma get_delete_ne k k' m : k <> k' -> JsMap.get k' (JsMap.delete k m) = JsMap.get k' m.
Proof.
  intros Hne. unfold JsMap.delete.
  induction m as [|[k0 v0] m IH]; [reflexivity|].
  rewrite filter_cons. cbn [fst JsMap.get].
  destruct (String.eqb_spec k0 k) as [->|Hne0]; cbn [negb].
  - rewrite decide_False by (cbn; tauto). rewrite IH.
    destruct (String.eqb_spec k k'); [contradiction | reflexivity].
  - rewrite decide_True by exact I. cbn [JsMap.get].
    destruct (String.eqb_spec k0 k'); [reflexivity | exact IH].
Qed.

Lemma elem_of_set (e : string * V) k v m :
  e ∈ JsMap.set k v m -> e = (k, v) \/ e ∈ m.
Proof.
  induction m as [|[k0 v0] m IH]; cbn [JsMap.set].
  - intros ->%list_elem_of_singleton. left. reflexivity.
  - destruct (String.eqb_spec k0 k) as [->|Hne]; rewrite !elem_of_cons.
    + intros [->|He]; [left; reflexivity | right; right; exact He].
    + intros [->|He]; [right; left; reflexivity|].
      destruct (IH He) as [->|He']; [left; reflexivity | right; right; exact He'].
Qed.

Lemma elem_of_delete (e : string * V) k m : e ∈ JsMap.delete k m <-> e ∈ m /\ e.1 <> k.
Proof.
  unfold JsMap.delete. rewrite list_elem_of_filter.
  destruct (String.eqb_spec e.1 k) as [->|Hne]; cbn; split.
  - intros [[] _].
  - intros [_ []]. reflexivity.
  - intros [_ He]. split; assumption.
  - intros [He _]. split; [exact I | exact He].
Qed.

Lemma get_elem_of k v m : JsMap.get k m = Some v -> (k, v) ∈ m.
Proof.
  induction m as [|[k0 v0] m IH]; cbn [JsMap.get]; [discriminate|].
  destruct (String.eqb_spec k0 k) as [->|Hne].
  - intros [= ->]. left.
  - intros Hg. right. apply IH, Hg.
Qed.
End Facts.


End JsMapFacts.

(** ** What the project answers *)

Section ProjectAnswers.
Context `{!CoreLibrary} `{!ResolutionCacheHost} `{!ProjectService}.
Import JsMapFacts.

(** C10.  For a path that has a missing file watch, [fileExists] returns
    false and does not ask the host: the project, with the record of the
    host's file system probes, is as before, whatever the host would have
    answered.  Once the callback of the watch has run for the creation of
    the file, the path is off the map and [fileExists] asks the host. *)
Theorem fileExists_of_watched_missing_file
    (p : Project) (file : string) (watches : gmap Path FileWatcher) :
  missingFilesMap p = Some watches ->
  is_Some (watches !! toPath file) ->
  fileExists file p = Returns false p /\
  exists p',
    onMissingFileChanged (toPath file) Created p = Returns tt p' /\
    missingFilesMap p' = Some (delete (toPath file) watches) /\
    fileExists file p' =
      Returns (hostFileExists file)
              (withFileSystemProbes (fileSystemProbes p' ++ [file]) p').
Proof.
  intros Hmap [w Hw]. split.
  - unfold fileExists, isWatchedMissingFile, mbind, CallOn_bind, read. cbn.
    rewrite Hmap, bool_decide_eq_true_2 by eauto. reflexivity.
  - unfold onMissingFileChanged, defined, delayUpdateProjectGraph,
      mbind, CallOn_bind, read, update, mret, CallOn_ret. cbn.
    rewrite Hmap. cbn. rewrite Hw. cbn.
    eexists. split; [reflexivity|]. split; [destruct p; reflexivity|].
    unfold fileExists, isWatchedMissingFile, mbind, CallOn_bind, read, update, mret,
      CallOn_ret.
    destruct p; cbn.
    rewrite bool_decide_eq_false_2; [reflexivity|].
    rewrite lookup_delete_eq. intros [? ?]. discriminate.
Qed.

(** *** [getChangesSinceVersion] *)




(** The current files of the project, as [getChangesSinceVersion] lists them. *)
Definition currentFiles (p : Project) : list string := getFileNames p ++ getExternalFiles.






End ProjectAnswers.

(** ** Resolving the names of a file *)

Section WatchedFacts.
Context `{!CoreLibrary} `{!ResolutionCacheHost}.

(** The directory in which a location is to be watched has a watch. *)
Definition watched (c : ResolutionCache) (location : string) : Prop :=
  exists w,
    getDirectoryToWatchFailedLookupLocation (rootOfResolution c) location (toPath location)
      = Some w /\
    is_Some (directoryWatchesOfFailedLookups c !! dirPath w).

(** The loops that place a watch end for every location. *)
Definition placementTerminates (c : ResolutionCache) : Prop :=
  forall location,
    is_Some (getDirectoryToWatchFailedLookupLocation (rootOfResolution c) location
               (toPath location)).

(** No custom failed lookup path has a negative reference count. *)
Definition customCountsAreNatural (c : ResolutionCache) : Prop :=
  forall path count, customFailedLookupPaths c !! path = Some count -> (0 <= count)%Z.

Lemma onlyWatchesChange_root (c c' : ResolutionCache) :
  onlyWatchesChange c c' -> rootOfResolution c' = rootOfResolution c.
Proof. intros ->. destruct c; reflexivity. Qed.

Lemma watched_grow (c c' : ResolutionCache) (location : string) :
  watchesGrow c c' -> watched c location -> watched c' location.
Proof.
  intros [Hframe Hdom] (w & Hw & Hin). exists w.
  rewrite (onlyWatchesChange_root _ _ Hframe). split; [exact Hw|].
  apply elem_of_dom, Hdom, elem_of_dom, Hin.
Qed.

Lemma placementTerminates_grow (c c' : ResolutionCache) :
  watchesGrow c c' -> placementTerminates c -> placementTerminates c'.
Proof.
  intros [Hframe _] Hc location. rewrite (onlyWatchesChange_root _ _ Hframe). apply Hc.
Qed.

(** One more watched location. *)
Lemma watchFailedLookupLocation_returns (location : string) (c : ResolutionCache) :
  placementTerminates c -> customCountsAreNatural c ->
  exists c',
    watchFailedLookupLocation location c = Returns tt c' /\
    watchesGrow c c' /\ watched c' location /\ customCountsAreNatural c'.
Proof.
  intros Hterm Hnat.
  pose proof (watchFailedLookupLocation_grows location c) as Hgrow.
  rewrite watchFailedLookupLocation_outcome in Hgrow |- *. cbv zeta in *.
  assert (Hnat' : forall watches next closed,
             customCountsAreNatural
               (withWatches (customAfterWatch c location) watches next closed c)).
  { intros watches next closed path count. destruct c; cbn. unfold customAfterWatch. cbn.
    destruct (negb _); [|apply Hnat].
    destruct (decide (toPath location = path)) as [<-|Hne].
    - rewrite lookup_insert_eq. intros [= <-].
      destruct (_ !! toPath location) as [z|] eqn:Hz; cbn; [|lia].
      specialize (Hnat _ _ Hz). lia.
    - rewrite lookup_insert_ne by exact Hne. apply Hnat. }
  destruct (Hterm location) as [w Hw]. rewrite Hw in Hgrow |- *.
  destruct (directoryWatchesOfFailedLookups c !! dirPath w) as [dw|] eqn:Hdw;
    (eexists; split; [reflexivity|]; split; [exact Hgrow|]; split; [|apply Hnat']);
    exists w; (split; [destruct c; exact Hw|]); destruct c; cbn;
    rewrite lookup_insert_eq; eauto.
Qed.

Lemma stopWatchFailedLookupLocation_returns (location : string) (c : ResolutionCache) :
  watched c location -> customCountsAreNatural c ->
  exists c',
    stopWatchFailedLookupLocation location c = Returns tt c' /\
    watchesStay c c' /\ customCountsAreNatural c'.
Proof.
  intros (w & Hw & [dw Hdw]) Hnat.
  pose proof (stopWatchFailedLookupLocation_stays location c) as Hstay.
  rewrite stopWatchFailedLookupLocation_outcome in Hstay |- *.
  assert (Hneg : customCountIsNegative c location = false).
  { unfold customCountIsNegative.
    destruct (_ !! toPath location) as [z|] eqn:Hz; [|reflexivity].
    specialize (Hnat _ _ Hz). lia. }
  rewrite Hneg in Hstay |- *. cbv zeta in *. rewrite Hw, Hdw in Hstay |- *.
  eexists. split; [reflexivity|]. split; [exact Hstay|].
  intros path count. destruct c; cbn in *. unfold customAfterStop. cbn.
  destruct (_ !! toPath location) as [z|] eqn:Hz; [|apply Hnat].
  destruct (z =? 0)%Z eqn:E0; [apply Hnat|].
  destruct (z =? 1)%Z eqn:E1.
  - intros Hd. apply lookup_delete_Some in Hd as [_ Hd]. exact (Hnat _ _ Hd).
  - destruct (decide (toPath location = path)) as [<-|Hne].
    + rewrite lookup_insert_eq. intros [= <-]. specialize (Hnat _ _ Hz). lia.
    + rewrite lookup_insert_ne by exact Hne. apply Hnat.
Qed.

Lemma watchLocations_returns (locations : list string) (c : ResolutionCache) :
  placementTerminates c -> customCountsAreNatural c ->
  exists c',
    forEach watchFailedLookupLocation locations c = Returns tt c' /\
    watchesGrow c c' /\ Forall (watched c') locations /\ customCountsAreNatural c'.
Proof.
  revert c. induction locations as [|location locations IH]; intros c Hterm Hnat.
  - exists c. split; [reflexivity|]. split; [reflexivity|]. split; [constructor | exact Hnat].
  - destruct (watchFailedLookupLocation_returns location c Hterm Hnat)
      as (c1 & Hc1 & Hgrow1 & Hw1 & Hnat1).
    destruct (IH c1 (placementTerminates_grow _ _ Hgrow1 Hterm) Hnat1)
      as (c2 & Hc2 & Hgrow2 & Hw2 & Hnat2).
    exists c2. cbn [forEach]. erewrite bind_Returns by exact Hc1.
    split; [exact Hc2|]. split; [etrans; eassumption|]. split; [|exact Hnat2].
    constructor; [eapply watched_grow; eassumption | exact Hw2].
Qed.

Lemma stopLocations_returns (locations : list string) (c : ResolutionCache) :
  Forall (watched c) locations -> customCountsAreNatural c ->
  exists c',
    forEach stopWatchFailedLookupLocation locations c = Returns tt c' /\
    watchesStay c c' /\ customCountsAreNatural c'.
Proof.
  revert c. induction locations as [|location locations IH]; intros c Hw Hnat.
  - exists c. split; [reflexivity|]. split; [reflexivity | exact Hnat].
  - apply Forall_cons in Hw as [Hw Hws].
    destruct (stopWatchFailedLookupLocation_returns location c Hw Hnat)
      as (c1 & Hc1 & Hstay1 & Hnat1).
    destruct (IH c1) as (c2 & Hc2 & Hstay2 & Hnat2).
    { eapply Forall_impl; [exact Hws|]. intros l Hl.
      eapply watched_grow; [apply watchesStay_grow|]; eassumption. }
    { exact Hnat1. }
    exists c2. cbn [forEach]. erewrite bind_Returns by exact Hc1.
    split; [exact Hc2|]. split; [etrans; eassumption | exact Hnat2].
Qed.

(** Where [watchAndStopWatchDiffFailedLookupLocations] stops comparing, the
    locations before are the same in both lists. *)
Lemma diffFailedLookupLocations_prefix (index : nat) (locations existing : list string) :
  match diffFailedLookupLocations index locations existing with
  | AdditionalFrom i =>
      exists j, i = index + j /\ j = length existing /\ take j locations = existing
  | DifferentFrom i =>
      exists j, i = index + j /\ take j locations = take j existing
  | AllWatched => take (length locations) existing = locations
  end.
Proof.
  revert index existing.
  induction locations as [|l locations IH]; intros index existing; cbn.
  - destruct existing; reflexivity.
  - destruct existing as [|e existing].
    + exists 0. split; [lia|]. split; reflexivity.
    + destruct (String.eqb_spec l e) as [->|Hne].
      * specialize (IH (S index) existing).
        destruct (diffFailedLookupLocations (S index) locations existing).
        -- destruct IH as (j & -> & Hj & Ht). exists (S j).
           split; [lia|]. split; [cbn; lia|]. cbn. rewrite Ht. reflexivity.
        -- destruct IH as (j & -> & Ht). exists (S j).
           split; [lia|]. cbn. rewrite Ht. reflexivity.
        -- cbn. rewrite IH. reflexivity.
      * exists 0. split; [lia | reflexivity].
Qed.

Lemma Forall_watched_grow (c c' : ResolutionCache) (locations : list string) :
  watchesGrow c c' -> Forall (watched c) locations -> Forall (watched c') locations.
Proof.
  intros Hgrow Hall. eapply Forall_impl; [exact Hall|].
  intros l. apply watched_grow, Hgrow.
Qed.

Lemma watchAndStopWatchDiffFailedLookupLocations_returns (r existing : Resolution)
    (c : ResolutionCache) :
  placementTerminates c -> customCountsAreNatural c ->
  Forall (watched c) (failedLookupLocations existing) ->
  exists c',
    watchAndStopWatchDiffFailedLookupLocations r existing c = Returns tt c' /\
    watchesGrow c c' /\
    Forall (watched c') (failedLookupLocations r) /\
    customCountsAreNatural c'.
Proof.
  intros Hterm Hnat Hold. unfold watchAndStopWatchDiffFailedLookupLocations.
  pose proof (diffFailedLookupLocations_prefix 0 (failedLookupLocations r)
                (failedLookupLocations existing)) as Hdiff.
  destruct (diffFailedLookupLocations 0 _ _) as [i|i|].
  - destruct Hdiff as (j & -> & Hj & Ht). cbn [Nat.add].
    unfold watchFailedLookupLocationOfResolution.
    destruct (watchLocations_returns (drop j (failedLookupLocations r)) c Hterm Hnat)
      as (c' & Hc' & Hgrow & Hw & Hnat').
    exists c'. split; [exact Hc'|]. split; [exact Hgrow|]. split; [|exact Hnat'].
    rewrite <- (take_drop j (failedLookupLocations r)). apply Forall_app. split; [|exact Hw].
    rewrite Ht. eapply Forall_watched_grow; eassumption.
  - destruct Hdiff as (j & -> & Ht). cbn [Nat.add].
    unfold watchFailedLookupLocationOfResolution,
      stopWatchFailedLookupLocationOfResolutionFrom.
    destruct (watchLocations_returns (drop j (failedLookupLocations r)) c Hterm Hnat)
      as (c1 & Hc1 & Hgrow1 & Hw & Hnat1).
    destruct (stopLocations_returns (drop j (failedLookupLocations existing)) c1)
      as (c2 & Hc2 & Hstay2 & Hnat2).
    { eapply Forall_watched_grow; [exact Hgrow1|].
      rewrite <- (take_drop j (failedLookupLocations existing)) in Hold.
      apply Forall_app in Hold as [_ Hold]. exact Hold. }
    { exact Hnat1. }
    exists c2. erewrite bind_Returns by exact Hc1.
    split; [exact Hc2|].
    pose proof (watchesStay_grow _ _ Hstay2) as Hgrow2.
    split; [etrans; eassumption|]. split; [|exact Hnat2].
    eapply Forall_watched_grow; [exact Hgrow2|].
    rewrite <- (take_drop j (failedLookupLocations r)). apply Forall_app. split; [|exact Hw].
    rewrite Ht. eapply Forall_watched_grow; [exact Hgrow1|].
    rewrite <- (take_drop j (failedLookupLocations existing)) in Hold.
    apply Forall_app in Hold as [Hold _]. exact Hold.
  - unfold stopWatchFailedLookupLocationOfResolutionFrom.
    destruct (stopLocations_returns
                (drop (length (failedLookupLocations r)) (failedLookupLocations existing)) c)
      as (c' & Hc' & Hstay & Hnat').
    { rewrite <- (take_drop (length (failedLookupLocations r))
                    (failedLookupLocations existing)) in Hold.
      apply Forall_app in Hold as [_ Hold]. exact Hold. }
    { exact Hnat. }
    exists c'. split; [exact Hc'|].
    pose proof (watchesStay_grow _ _ Hstay) as Hgrow.
    split; [exact Hgrow|]. split; [|exact Hnat'].
    eapply Forall_watched_grow; [exact Hgrow|].
    rewrite <- Hdiff.
    rewrite <- (take_drop (length (failedLookupLocations r))
                  (failedLookupLocations existing)) in Hold.
    apply Forall_app in Hold as [Hold _]. exact Hold.
Qed.

End WatchedFacts.

Section ResolveFacts.
Context `{!CoreLibrary} `{!ResolutionCacheHost}.
Import JsMapFacts.

Variable k : ResolutionKind.
Variable containingFile : string.

(** The resolutions of the containing file and of its directory. *)
Definition entries (c : ResolutionCache) : JsMap.t Resolution :=
  resolutionsOf (perFile k c) (toPath containingFile).

Definition inDirectory (c : ResolutionCache) : JsMap.t Resolution :=
  resolutionsOf (perDirectory k c) (getDirectoryPath (toPath containingFile)).

(** What a resolve call relies on: the placement loops end, no custom count
    is negative, the failed lookup locations of the resolutions of the file
    are watched, the resolutions of the directory made in this pass are not
    invalidated, and no flag is set for an object that is yet to be made. *)
Definition ready (c : ResolutionCache) : Prop :=
  placementTerminates c /\
  customCountsAreNatural c /\
  (forall name r, (name, r) ∈ entries c -> Forall (watched c) (failedLookupLocations r)) /\
  (forall name r, (name, r) ∈ inDirectory c -> invalidatedIn c r = false) /\
  (forall i, nextResolution c <= i -> i ∉ isInvalidated c).

(** The names resolved so far have a resolution in the map of the file that
    is not invalidated, and their results are in the order of the names. *)
Definition resolvedSoFar (loop : NamesLoop) (c : ResolutionCache) : Prop :=
  Forall2 (fun name result =>
             exists r,
               JsMap.get name (entries c) = Some r /\
               result = resolvedFile r /\
               invalidatedIn c r = false)
          (seenNamesInFile loop) (resolvedModules loop).

Lemma resolutionsOf_set (m : JsMap.t (JsMap.t Resolution)) key v :
  resolutionsOf (JsMap.set key v m) key = v.
Proof. unfold resolutionsOf. rewrite get_set_eq. reflexivity. Qed.

Lemma perFile_withPerFile v (c : ResolutionCache) : perFile k (withPerFile k v c) = v.
Proof. destruct k; reflexivity. Qed.

Lemma perDirectory_withPerDirectory v (c : ResolutionCache) :
  perDirectory k (withPerDirectory k v c) = v.
Proof. destruct k; reflexivity. Qed.

(** What the members of the cache are after a change of the watches only. *)
Lemma onlyWatchesChange_members (c c' : ResolutionCache) :
  onlyWatchesChange c c' ->
  perFile k c' = perFile k c /\ perDirectory k c' = perDirectory k c /\
  isInvalidated c' = isInvalidated c /\ nextResolution c' = nextResolution c /\
  filesWithChangedSetOfUnresolvedImports c' = filesWithChangedSetOfUnresolvedImports c /\
  allFilesHaveInvalidatedResolution c' = allFilesHaveInvalidatedResolution c.
Proof. intros ->. destruct c, k; cbn; repeat split; reflexivity. Qed.

Lemma placementTerminates_ext (c c' : ResolutionCache) :
  rootOfResolution c' = rootOfResolution c -> placementTerminates c -> placementTerminates c'.
Proof. intros Hroot Hc location. rewrite Hroot. apply Hc. Qed.

Lemma customCountsAreNatural_ext (c c' : ResolutionCache) :
  customFailedLookupPaths c' = customFailedLookupPaths c ->
  customCountsAreNatural c -> customCountsAreNatural c'.
Proof. intros Hcustom Hc path count. rewrite Hcustom. apply Hc. Qed.

Lemma watched_ext (c c' : ResolutionCache) (location : string) :
  rootOfResolution c' = rootOfResolution c ->
  directoryWatchesOfFailedLookups c' = directoryWatchesOfFailedLookups c ->
  watched c location -> watched c' location.
Proof. intros Hroot Hwatches (w & Hw & Hin). exists w. rewrite Hroot, Hwatches. tauto. Qed.

Lemma invalidatedIn_ext (c c' : ResolutionCache) (r : Resolution) :
  isInvalidated c' = isInvalidated c -> invalidatedIn c' r = invalidatedIn c r.
Proof. unfold invalidatedIn. intros ->. reflexivity. Qed.

(** [ready] looks at these members only. *)
Lemma ready_ext (c c' : ResolutionCache) :
  rootOfResolution c' = rootOfResolution c ->
  customFailedLookupPaths c' = customFailedLookupPaths c ->
  directoryWatchesOfFailedLookups c' = directoryWatchesOfFailedLookups c ->
  entries c' = entries c ->
  inDirectory c' = inDirectory c ->
  isInvalidated c' = isInvalidated c ->
  nextResolution c <= nextResolution c' ->
  ready c -> ready c'.
Proof.
  intros Hroot Hcustom Hwatches Hentries Hdir Hflags Hnext
    (Hterm & Hnat & Hwatched & Hvalid & Hfresh).
  split; [|split; [|split; [|split]]].
  - eapply placementTerminates_ext; eassumption.
  - eapply customCountsAreNatural_ext; eassumption.
  - intros name r. rewrite Hentries. intros Hin.
    eapply Forall_impl; [apply (Hwatched name r Hin)|].
    intros l. apply watched_ext; assumption.
  - intros name r. rewrite Hdir, (invalidatedIn_ext c c' r Hflags). apply Hvalid.
  - intros i Hi. rewrite Hflags. apply Hfresh. lia.
Qed.

(** The resolution to use for a name that has no valid one in the file. *)
Definition obtainResolution (name : string) (c : ResolutionCache) : Call Resolution :=
  match JsMap.get name (resolutionsOf (perDirectory k c)
                          (getDirectoryPath (toPath containingFile))) with
  | Some resolutionInDirectory => mret resolutionInDirectory
  | None =>
      r ← load k name containingFile;
      setResolutionInDirectory k (getDirectoryPath (toPath containingFile)) name r ;;
      mret r
  end.

(** What [obtainResolution] leaves as it is. *)
Definition sameButDirectory (c c' : ResolutionCache) : Prop :=
  rootOfResolution c' = rootOfResolution c /\
  customFailedLookupPaths c' = customFailedLookupPaths c /\
  directoryWatchesOfFailedLookups c' = directoryWatchesOfFailedLookups c /\
  perFile k c' = perFile k c /\
  isInvalidated c' = isInvalidated c /\
  nextResolution c <= nextResolution c' /\
  filesWithChangedSetOfUnresolvedImports c' = filesWithChangedSetOfUnresolvedImports c /\
  allFilesHaveInvalidatedResolution c' = allFilesHaveInvalidatedResolution c.

Lemma obtainResolution_returns (name : string) (c : ResolutionCache) :
  ready c ->
  exists r c',
    obtainResolution name c c = Returns r c' /\
    sameButDirectory c c' /\
    invalidatedIn c r = false /\
    JsMap.get name (inDirectory c') = Some r /\
    (forall n r', (n, r') ∈ inDirectory c' -> (n, r') = (name, r) \/ (n, r') ∈ inDirectory c).
Proof.
  intros (Hterm & Hnat & Hwatched & Hvalid & Hfresh).
  unfold obtainResolution. fold (inDirectory c).
  destruct (JsMap.get name (inDirectory c)) as [rd|] eqn:Hget.
  - exists rd, c. split; [reflexivity|].
    split; [repeat split; reflexivity|].
    split; [eapply Hvalid, get_elem_of, Hget|]. split; [exact Hget|]. auto.
  - unfold load, setResolutionInDirectory, mbind, CallOn_bind, update, mret, CallOn_ret.
    eexists _, _. split; [reflexivity|].
    set (r := {| identity := nextResolution c;
                 failedLookupLocations :=
                   loadedFailedLookupLocations (loader k name containingFile);
                 resolvedFile := loadedFile (loader k name containingFile) |}).
    match goal with |- sameButDirectory c ?c1 /\ _ => set (c' := c1) end.
    assert (Hin : inDirectory c' = JsMap.set name r (inDirectory c)).
    { unfold inDirectory, c'. rewrite perDirectory_withPerDirectory, resolutionsOf_set.
      destruct k; reflexivity. }
    split; [|split; [|split]].
    + unfold sameButDirectory, c'.
      repeat split; try reflexivity; try (destruct k; reflexivity); cbn; lia.
    + unfold invalidatedIn. apply bool_decide_eq_false_2. apply Hfresh. cbn. lia.
    + rewrite Hin. apply get_set_eq.
    + intros n r'. rewrite Hin. apply elem_of_set.
Qed.

Lemma resolvedSoFar_ext (loop : NamesLoop) (c c' : ResolutionCache) :
  (forall n, n ∈ seenNamesInFile loop ->
             JsMap.get n (entries c') = JsMap.get n (entries c)) ->
  isInvalidated c' = isInvalidated c ->
  resolvedSoFar loop c -> resolvedSoFar loop c'.
Proof.
  unfold resolvedSoFar. intros Hget Hflags Hloop.
  induction Hloop as [|n result ns results (r & Hr & Hres & Hv) Hloop IH]; [constructor|].
  constructor.
  - exists r. rewrite Hget by left. rewrite (invalidatedIn_ext c c' r Hflags). auto.
  - apply IH. intros n' Hn'. apply Hget. right. exact Hn'.
Qed.

Lemma resolvedSoFar_seen (loop : NamesLoop) (c : ResolutionCache) (name : string) :
  resolvedSoFar loop c -> name ∈ seenNamesInFile loop ->
  exists r, JsMap.get name (entries c) = Some r /\ invalidatedIn c r = false.
Proof.
  unfold resolvedSoFar. intros Hloop Hin.
  induction Hloop as [|n result ns results (r & Hr & _ & Hv) Hloop IH];
    [inversion Hin|].
  apply elem_of_cons in Hin as [->|Hin]; [eauto | apply IH, Hin].
Qed.

Lemma resolveName_returns (loop : NamesLoop) (name : string) (c : ResolutionCache) :
  ready c -> resolvedSoFar loop c ->
  exists loop' c',
    resolveName k containingFile (toPath containingFile)
      (getDirectoryPath (toPath containingFile)) loop name c = Returns loop' c' /\
    ready c' /\ resolvedSoFar loop' c' /\
    seenNamesInFile loop' = seenNamesInFile loop ++ [name].
Proof.
  intros Hready Hloop. unfold resolveName.
  erewrite bind_Returns by reflexivity. unfold id. fold (entries c).
  destruct (negb (bool_decide (name ∈ seenNamesInFile loop)) &&
            allFilesHaveInvalidatedResolution c
            || match JsMap.get name (entries c) with
               | Some r => invalidatedIn c r
               | None => true
               end) eqn:Hcond.
  - (* the name is resolved again *)
    assert (Hnew : name ∉ seenNamesInFile loop).
    { intros Hin. destruct (resolvedSoFar_seen _ _ _ Hloop Hin) as (r & Hr & Hv).
      rewrite Hr, Hv, bool_decide_eq_true_2 in Hcond by exact Hin. discriminate. }
    change (match JsMap.get name (resolutionsOf (perDirectory k c)
                                    (getDirectoryPath (toPath containingFile))) with
            | Some resolutionInDirectory => mret resolutionInDirectory
            | None =>
                r ← load k name containingFile;
                setResolutionInDirectory k (getDirectoryPath (toPath containingFile))
                  name r ;;
                mret r
            end) with (obtainResolution name c).
    destruct (obtainResolution_returns name c Hready)
      as (r & c1 & Hc1 & Hsame1 & Hvalid & Hget1 & Hdir1).
    destruct Hsame1 as (Hroot1 & Hcustom1 & Hwatches1 & Hfile1 & Hflags1 & Hnext1 & Hchg1 &
                        Hall1).
    destruct Hready as (Hterm & Hnat & Hwatched & Hdirvalid & Hfresh).
    (* resolutionsInFile.set(name, resolution) *)
    set (c2 := withPerFile k
                 (JsMap.set (toPath containingFile)
                    (JsMap.set name r (resolutionsOf (perFile k c1) (toPath containingFile)))
                    (perFile k c1)) c1).
    assert (Hentries2 : entries c2 = JsMap.set name r (entries c)).
    { unfold entries, c2. rewrite perFile_withPerFile, resolutionsOf_set, Hfile1.
      reflexivity. }
    assert (Hterm2 : placementTerminates c2).
    { eapply placementTerminates_ext; [|exact Hterm]. rewrite <- Hroot1. reflexivity. }
    assert (Hnat2 : customCountsAreNatural c2).
    { eapply customCountsAreNatural_ext; [|exact Hnat]. rewrite <- Hcustom1. reflexivity. }
    assert (Hw2 : forall l, watched c l -> watched c2 l).
    { intros l. apply watched_ext; [rewrite <- Hroot1 | rewrite <- Hwatches1]; reflexivity. }
    (* the watches of the new and of the existing resolution *)
    assert (Hwatch : exists c3,
               match JsMap.get name (entries c) with
               | Some existing => watchAndStopWatchDiffFailedLookupLocations r existing
               | None => watchFailedLookupLocationOfResolution r 0
               end c2 = Returns tt c3 /\
               watchesGrow c2 c3 /\
               Forall (watched c3) (failedLookupLocations r) /\
               customCountsAreNatural c3).
    { destruct (JsMap.get name (entries c)) as [existing|] eqn:Hcached.
      - apply watchAndStopWatchDiffFailedLookupLocations_returns; try assumption.
        eapply Forall_impl; [apply (Hwatched name existing), get_elem_of, Hcached|].
        exact Hw2.
      - apply watchLocations_returns; assumption. }
    destruct Hwatch as (c3 & Hc3 & Hgrow3 & Hwr3 & Hnat3).
    destruct (onlyWatchesChange_members _ _ (proj1 Hgrow3))
      as (Hfile3 & Hdir3 & Hflags3 & Hnext3 & Hchg3 & Hall3).
    pose proof (onlyWatchesChange_root _ _ (proj1 Hgrow3)) as Hroot3.
    (* the record of the change *)
    set (record := logChangesNow loop &&
                   match filesWithChangedSetOfUnresolvedImports c3 with
                   | Some _ => true
                   | None => false
                   end &&
                   negb (resolutionIsEqualTo c3 (JsMap.get name (entries c)) r)).
    set (c4 := if record
               then withChangedFiles
                      ((fun files => files ++ [toPath containingFile]) <$>
                         filesWithChangedSetOfUnresolvedImports c3) c3
               else c3).
    assert (Hc4 : rootOfResolution c4 = rootOfResolution c3 /\
                  customFailedLookupPaths c4 = customFailedLookupPaths c3 /\
                  directoryWatchesOfFailedLookups c4 = directoryWatchesOfFailedLookups c3 /\
                  perFile k c4 = perFile k c3 /\ perDirectory k c4 = perDirectory k c3 /\
                  isInvalidated c4 = isInvalidated c3 /\
                  nextResolution c4 = nextResolution c3).
    { unfold c4. destruct record; repeat split; try reflexivity; destruct k; reflexivity. }
    destruct Hc4 as (Hroot4 & Hcustom4 & Hwatches4 & Hfile4 & Hdir4 & Hflags4 & Hnext4).
    assert (Hflags : isInvalidated c4 = isInvalidated c).
    { rewrite Hflags4, Hflags3. unfold c2. rewrite <- Hflags1. destruct k; reflexivity. }
    assert (Hentries4 : entries c4 = JsMap.set name r (entries c)).
    { unfold entries. rewrite Hfile4, Hfile3. exact Hentries2. }
    assert (Hdir : inDirectory c4 = inDirectory c1).
    { unfold inDirectory. rewrite Hdir4, Hdir3. unfold c2. destruct k; reflexivity. }
    assert (Hvalid4 : invalidatedIn c4 r = false).
    { rewrite (invalidatedIn_ext c c4 r Hflags). exact Hvalid. }
    eexists {| seenNamesInFile := seenNamesInFile loop ++ [name];
               logChangesNow := if record then false else logChangesNow loop;
               resolvedModules := resolvedModules loop ++ [resolvedFile r] |}, c4.
    split; [|split; [|split; [|reflexivity]]].
    + erewrite bind_Returns; cycle 1.
      { erewrite bind_Returns by exact Hc1.
        unfold setResolutionInFile. erewrite bind_Returns by reflexivity.
        fold c2. erewrite bind_Returns by exact Hc3.
        erewrite bind_Returns by reflexivity. unfold id. fold record.
        instantiate (1 := c4). instantiate (1 := (Some r, if record then false else logChangesNow loop)).
        unfold c4. destruct record; reflexivity. }
      cbn beta iota. erewrite bind_Returns by reflexivity. unfold id.
      unfold assert. rewrite Hvalid4. reflexivity.
    + split; [|split; [|split; [|split]]].
      * eapply placementTerminates_ext; [|exact Hterm2]. rewrite Hroot4, Hroot3. reflexivity.
      * eapply customCountsAreNatural_ext; [|exact Hnat3]. exact Hcustom4.
      * intros n r'. rewrite Hentries4. intros [[= -> ->]|Hin]%elem_of_set.
        -- eapply Forall_impl; [exact Hwr3|]. intros l.
           apply watched_ext; assumption.
        -- eapply Forall_impl; [apply (Hwatched n r' Hin)|]. intros l Hl.
           eapply watched_ext; [exact Hroot4 | exact Hwatches4 |].
           eapply watched_grow; [exact Hgrow3 | apply Hw2, Hl].
      * intros n r'. rewrite Hdir, (invalidatedIn_ext c c4 r' Hflags).
        intros [[= -> ->]|Hin]%Hdir1; [exact Hvalid | apply (Hdirvalid n r' Hin)].
      * intros i Hi. rewrite Hflags. apply Hfresh.
        rewrite Hnext4, Hnext3 in Hi. unfold c2 in Hi.
        assert (nextResolution (withPerFile k
                  (JsMap.set (toPath containingFile)
                     (JsMap.set name r (resolutionsOf (perFile k c1) (toPath containingFile)))
                     (perFile k c1)) c1) = nextResolution c1) as Hn by reflexivity.
        lia.
    + unfold resolvedSoFar. cbn [seenNamesInFile resolvedModules].
      apply Forall2_app.
      * apply (resolvedSoFar_ext loop c c4); [|exact Hflags|exact Hloop].
        intros n Hn. rewrite Hentries4. apply get_set_ne. intros ->. contradiction.
      * constructor; [|constructor]. exists r. rewrite Hentries4, get_set_eq. auto.
  - (* the cached resolution is valid *)
    apply orb_false_iff in Hcond as [_ Hcached].
    destruct (JsMap.get name (entries c)) as [r|] eqn:Hget; [|discriminate].
    eexists {| seenNamesInFile := seenNamesInFile loop ++ [name];
               logChangesNow := logChangesNow loop;
               resolvedModules := resolvedModules loop ++ [resolvedFile r] |}, c.
    split; [|split; [exact Hready | split; [|reflexivity]]].
    + erewrite bind_Returns by reflexivity. cbn beta iota.
      erewrite bind_Returns by reflexivity. unfold id, assert. rewrite Hcached. reflexivity.
    + unfold resolvedSoFar. cbn [seenNamesInFile resolvedModules].
      apply Forall2_app; [exact Hloop|].
      constructor; [|constructor]. exists r. auto.
Qed.

Lemma resolveEachName_returns (names : list string) (loop : NamesLoop)
    (c : ResolutionCache) :
  ready c -> resolvedSoFar loop c ->
  exists loop' c',
    resolveEachName k containingFile (toPath containingFile)
      (getDirectoryPath (toPath containingFile)) loop names c = Returns loop' c' /\
    ready c' /\ resolvedSoFar loop' c' /\
    seenNamesInFile loop' = seenNamesInFile loop ++ names.
Proof.
  revert loop c. induction names as [|name names IH]; intros loop c Hready Hloop.
  - exists loop, c. split; [reflexivity|]. rewrite app_nil_r. auto.
  - destruct (resolveName_returns loop name c Hready Hloop)
      as (loop1 & c1 & Hc1 & Hready1 & Hloop1 & Hseen1).
    destruct (IH loop1 c1 Hready1 Hloop1) as (loop2 & c2 & Hc2 & Hready2 & Hloop2 & Hseen2).
    exists loop2, c2. cbn [resolveEachName]. erewrite bind_Returns by exact Hc1.
    split; [exact Hc2|]. split; [exact Hready2|]. split; [exact Hloop2|].
    rewrite Hseen2, Hseen1, <- app_assoc. reflexivity.
Qed.

(** The eviction of the names that were not asked for. *)
Definition evict (seen : list string) (reusedNames : option (list string))
    (entry : string * Resolution) : Call unit :=
  let '(name, resolution) := entry in
  if negb (bool_decide (name ∈ seen)) && negb (contains reusedNames name)
  then
    stopWatchFailedLookupLocationOfResolution resolution ;;
    deleteResolutionInFile k (toPath containingFile) name
  else mret tt.

Lemma evict_returns (seen : list string) (reusedNames : option (list string))
    (snapshot : list (string * Resolution)) (c : ResolutionCache) :
  placementTerminates c -> customCountsAreNatural c ->
  (forall n r, (n, r) ∈ snapshot -> Forall (watched c) (failedLookupLocations r)) ->
  exists c',
    forEach (evict seen reusedNames) snapshot c = Returns tt c' /\
    isInvalidated c' = isInvalidated c /\
    (forall n, n ∈ seen -> JsMap.get n (entries c') = JsMap.get n (entries c)).
Proof.
  revert c. induction snapshot as [|[name r] snapshot IH]; intros c Hterm Hnat Hwatched.
  - exists c. split; [reflexivity|]. auto.
  - cbn [forEach].
    destruct (negb (bool_decide (name ∈ seen)) && negb (contains reusedNames name))
      eqn:Hcond.
    + pose proof Hcond as Hboth. apply andb_true_iff in Hboth as [Hseen _].
      apply negb_true_iff, bool_decide_eq_false in Hseen.
      destruct (stopLocations_returns (drop 0 (failedLookupLocations r)) c)
        as (c1 & Hc1 & Hstay1 & Hnat1); [apply (Hwatched name r); left | exact Hnat |].
      destruct (onlyWatchesChange_members _ _ (proj1 Hstay1))
        as (Hfile1 & Hdir1 & Hflags1 & Hnext1 & Hchg1 & Hall1).
      pose proof (onlyWatchesChange_root _ _ (proj1 Hstay1)) as Hroot1.
      set (c2 := withPerFile k
                   (JsMap.set (toPath containingFile)
                      (JsMap.delete name
                         (resolutionsOf (perFile k c1) (toPath containingFile)))
                      (perFile k c1)) c1).
      assert (Hentries2 : entries c2 = JsMap.delete name (entries c)).
      { unfold entries, c2. rewrite perFile_withPerFile, resolutionsOf_set, Hfile1.
        reflexivity. }
      destruct (IH c2) as (c3 & Hc3 & Hflags3 & Hget3).
      { eapply placementTerminates_ext; [|exact Hterm]. rewrite <- Hroot1. reflexivity. }
      { eapply customCountsAreNatural_ext; [|exact Hnat1]. reflexivity. }
      { intros n r' Hin. eapply Forall_impl; [apply (Hwatched n r'); right; exact Hin|].
        intros l Hl. eapply watched_ext; [| |eapply watched_grow;
                                               [apply watchesStay_grow, Hstay1 | exact Hl]];
          reflexivity. }
      exists c3. split.
      * erewrite bind_Returns; [exact Hc3|].
        unfold evict. rewrite Hcond.
        unfold stopWatchFailedLookupLocationOfResolution,
          stopWatchFailedLookupLocationOfResolutionFrom.
        erewrite bind_Returns by exact Hc1. reflexivity.
      * split.
        -- rewrite Hflags3. unfold c2. rewrite <- Hflags1. destruct k; reflexivity.
        -- intros n Hn. rewrite (Hget3 n Hn), Hentries2.
           apply get_delete_ne. intros ->. contradiction.
    + destruct (IH c Hterm Hnat) as (c' & Hc' & Hflags' & Hget').
      { intros n r' Hin. apply (Hwatched n r'). right. exact Hin. }
      exists c'. split; [|auto]. erewrite bind_Returns; [exact Hc'|].
      unfold evict. rewrite Hcond. reflexivity.
Qed.

Lemma resolutionsOf_ensure (m : JsMap.t (JsMap.t Resolution)) (key key' : string) :
  resolutionsOf (match JsMap.get key m with
                 | Some _ => m
                 | None => JsMap.set key [] m
                 end) key' = resolutionsOf m key'.
Proof.
  destruct (JsMap.get key m) eqn:Hget; [reflexivity|].
  unfold resolutionsOf. destruct (decide (key = key')) as [<-|Hne].
  - rewrite get_set_eq, Hget. reflexivity.
  - rewrite get_set_ne by exact Hne. reflexivity.
Qed.

Lemma resolveNamesWithLocalCache_returns (names : list string)
    (reusedNames : option (list string)) (logChanges : bool) (c : ResolutionCache) :
  ready c ->
  exists results c',
    resolveNamesWithLocalCache k names containingFile reusedNames logChanges c
      = Returns results c' /\
    Forall2 (fun name result =>
               exists r,
                 JsMap.get name (entries c') = Some r /\
                 result = resolvedFile r /\
                 invalidatedIn c' r = false)
            names results.
Proof.
  intros Hready. unfold resolveNamesWithLocalCache. cbv zeta.
  erewrite bind_Returns by reflexivity.
  erewrite bind_Returns by reflexivity.
  match goal with
  | |- context [resolveEachName _ _ _ _ _ _ ≫= _] => idtac
  end.
  match goal with
  | |- exists results c', (_ ≫= _) ?c0 = _ /\ _ => set (c1 := c0)
  end.
  assert (Hready1 : ready c1).
  { eapply ready_ext; [..|exact Hready]; unfold c1.
    - destruct (JsMap.get _ (perFile k c)), (JsMap.get _ (perDirectory k _));
        reflexivity.
    - destruct (JsMap.get _ (perFile k c)), (JsMap.get _ (perDirectory k _));
        reflexivity.
    - destruct (JsMap.get _ (perFile k c)), (JsMap.get _ (perDirectory k _));
        reflexivity.
    - unfold entries.
      transitivity (resolutionsOf
                      (match JsMap.get (toPath containingFile) (perFile k c) with
                       | Some _ => perFile k c
                       | None => JsMap.set (toPath containingFile) [] (perFile k c)
                       end) (toPath containingFile)); [|apply resolutionsOf_ensure].
      f_equal.
      destruct (JsMap.get (toPath containingFile) (perFile k c)) eqn:E1;
        [destruct (JsMap.get _ (perDirectory k c))
        |destruct (JsMap.get _ (perDirectory k (withPerFile k _ c)))];
        destruct k; reflexivity.
    - unfold inDirectory.
      transitivity (resolutionsOf
                      (match JsMap.get (getDirectoryPath (toPath containingFile))
                               (perDirectory k c) with
                       | Some _ => perDirectory k c
                       | None => JsMap.set (getDirectoryPath (toPath containingFile)) []
                                   (perDirectory k c)
                       end) (getDirectoryPath (toPath containingFile)));
        [|apply resolutionsOf_ensure].
      f_equal.
      destruct (JsMap.get (toPath containingFile) (perFile k c)) eqn:E1.
      + destruct (JsMap.get _ (perDirectory k c)); destruct k; reflexivity.
      + assert (perDirectory k
                  (withPerFile k (JsMap.set (toPath containingFile) [] (perFile k c)) c)
                = perDirectory k c) as -> by (destruct k; reflexivity).
        destruct (JsMap.get _ (perDirectory k c)); destruct k; reflexivity.
    - destruct (JsMap.get _ (perFile k c)), (JsMap.get _ (perDirectory k _));
        reflexivity.
    - destruct (JsMap.get _ (perFile k c)), (JsMap.get _ (perDirectory k _));
        reflexivity. }
  destruct (resolveEachName_returns names
              {| seenNamesInFile := []; logChangesNow := logChanges; resolvedModules := [] |}
              c1 Hready1) as (loop & c2 & Hc2 & Hready2 & Hloop2 & Hseen2);
    [constructor|].
  cbn [seenNamesInFile app] in Hseen2.
  destruct Hready2 as (Hterm2 & Hnat2 & Hwatched2 & _).
  destruct (evict_returns (seenNamesInFile loop) reusedNames (entries c2) c2 Hterm2 Hnat2
              Hwatched2) as (c3 & Hc3 & Hflags3 & Hget3).
  exists (resolvedModules loop), c3. split.
  - erewrite bind_Returns by exact Hc2.
    erewrite bind_Returns by reflexivity. unfold id.
    erewrite bind_Returns; [reflexivity|]. exact Hc3.
  - rewrite <- Hseen2.
    apply (resolvedSoFar_ext loop c2 c3); [exact Hget3 | exact Hflags3 | exact Hloop2].
Qed.

End ResolveFacts.


(** ** Resolving the names of a file again *)

Section ResolveAgain.
Context `{!CoreLibrary} `{!ResolutionCacheHost}.
Import JsMapFacts.

Variable k : ResolutionKind.
Variable containingFile : string.

(** The comparison of resolved file names that [resolutionIsEqualTo] ends
    with. *)
Definition equalByResolvedPath (oldResult newResult : option ResolvedFile) : bool :=
  match oldResult, newResult with
  | None, None => true
  | Some o, Some n => bool_decide (resolvedFileName o = resolvedFileName n)
  | _, _ => false
  end.

Lemma resolutionIsEqualTo_valid (c : ResolutionCache) (old new : Resolution) :
  invalidatedIn c old = false ->
  resolutionIsEqualTo c (Some old) new =
    (identity old =? identity new) ||
    equalByResolvedPath (resolvedFile old) (resolvedFile new).
Proof.
  intros Hvalid. unfold resolutionIsEqualTo, equalByResolvedPath. rewrite Hvalid.
  destruct (identity old =? identity new); [reflexivity|].
  destruct (resolvedFile old), (resolvedFile new); reflexivity.
Qed.

(** No flag is set for an object that is yet to be made. *)
Definition fresh (c : ResolutionCache) : Prop :=
  forall i, nextResolution c <= i -> i ∉ isInvalidated c.

(** What the directory holds for [name] compares equal to the resolution [r]
    of the file; when it holds nothing, what the host answers does. *)
Definition agreesInDirectory (c : ResolutionCache) (name : string) (r : Resolution) : Prop :=
  match JsMap.get name (inDirectory k containingFile c) with
  | Some inDir =>
      identity r = identity inDir \/
      (invalidatedIn c inDir = false /\
       equalByResolvedPath (resolvedFile r) (resolvedFile inDir) = true)
  | None =>
      equalByResolvedPath (resolvedFile r) (loadedFile (loader k name containingFile)) = true
  end.

(** Every known name has a resolution in the file that is not invalidated,
    and that the directory agrees with when every file counts as
    invalidated. *)
Definition settled (known : string -> Prop) (c : ResolutionCache) : Prop :=
  forall name, known name ->
    exists r,
      JsMap.get name (entries k containingFile c) = Some r /\
      invalidatedIn c r = false /\
      (allFilesHaveInvalidatedResolution c = true -> agreesInDirectory c name r).

(** The invariant of a resolve call: when [track] holds, the changed files
    are still [X]. *)
Definition undisturbed (known : string -> Prop) (track : Prop) (X : option (list Path))
    (c : ResolutionCache) : Prop :=
  fresh c /\ settled known c /\
  (track -> filesWithChangedSetOfUnresolvedImports c = X).

Lemma settled_ext (known known' : string -> Prop) (c c' : ResolutionCache) :
  (forall n, known' n -> known n) ->
  (forall n, known' n ->
     JsMap.get n (entries k containingFile c') = JsMap.get n (entries k containingFile c)) ->
  (forall n, known' n ->
     JsMap.get n (inDirectory k containingFile c')
     = JsMap.get n (inDirectory k containingFile c)) ->
  isInvalidated c' = isInvalidated c ->
  allFilesHaveInvalidatedResolution c' = allFilesHaveInvalidatedResolution c ->
  settled known c -> settled known' c'.
Proof.
  intros Hknown Hentries Hdir Hflags Hall Hset n Hn.
  destruct (Hset n (Hknown n Hn)) as (r & Hget & Hvalid & Hagree).
  exists r. rewrite (Hentries n Hn). split; [exact Hget|].
  split; [rewrite (invalidatedIn_ext c c') by exact Hflags; exact Hvalid|].
  rewrite Hall. intros Ha. specialize (Hagree Ha). unfold agreesInDirectory in *.
  rewrite (Hdir n Hn). destruct (JsMap.get n (inDirectory k containingFile c)); [|exact Hagree].
  rewrite (invalidatedIn_ext c c') by exact Hflags. exact Hagree.
Qed.

Lemma settled_set (known : string -> Prop) (c c' : ResolutionCache)
    (name : string) (r : Resolution) :
  settled known c ->
  entries k containingFile c' = JsMap.set name r (entries k containingFile c) ->
  JsMap.get name (inDirectory k containingFile c') = Some r ->
  (forall n, n <> name ->
     JsMap.get n (inDirectory k containingFile c')
     = JsMap.get n (inDirectory k containingFile c)) ->
  isInvalidated c' = isInvalidated c ->
  allFilesHaveInvalidatedResolution c' = allFilesHaveInvalidatedResolution c ->
  invalidatedIn c' r = false ->
  settled (fun n => n = name \/ known n) c'.
Proof.
  intros Hset Hentries Hdir Hother Hflags Hall Hvalid n Hn.
  destruct (decide (n = name)) as [->|Hne].
  - exists r. rewrite Hentries, get_set_eq. split; [reflexivity|]. split; [exact Hvalid|].
    intros _. unfold agreesInDirectory. rewrite Hdir. left. reflexivity.
  - destruct Hn as [?|Hn]; [contradiction|].
    destruct (Hset n Hn) as (r0 & Hget & Hv & Hagree).
    exists r0. rewrite Hentries, get_set_ne by congruence. split; [exact Hget|].
    split; [rewrite (invalidatedIn_ext c c') by exact Hflags; exact Hv|].
    rewrite Hall. intros Ha. specialize (Hagree Ha). unfold agreesInDirectory in *.
    rewrite (Hother n Hne).
    destruct (JsMap.get n (inDirectory k containingFile c)); [|exact Hagree].
    rewrite (invalidatedIn_ext c c') by exact Hflags. exact Hagree.
Qed.

Lemma undisturbed_watches (known : string -> Prop) (track : Prop) (X : option (list Path))
    (c c' : ResolutionCache) :
  onlyWatchesChange c c' -> undisturbed known track X c -> undisturbed known track X c'.
Proof.
  intros Hw (Hfresh & Hset & Hchg).
  destruct (onlyWatchesChange_members k _ _ Hw) as (Hfile & Hdir & Hflags & Hnext & Hch & Hall).
  split; [|split].
  - intros i Hi. rewrite Hflags. apply Hfresh. lia.
  - eapply settled_ext; [| | |exact Hflags|exact Hall|exact Hset]; [auto|..];
      intros n _; unfold entries, inDirectory; rewrite ?Hfile, ?Hdir; reflexivity.
  - rewrite Hch. exact Hchg.
Qed.

Lemma hoare_watches {A} (known : string -> Prop) (track : Prop) (X : option (list Path))
    (m : Call A) :
  always onlyWatchesChange m ->
  hoare (undisturbed known track X) m (fun _ => undisturbed known track X)
    (fun c => track -> filesWithChangedSetOfUnresolvedImports c = X).
Proof.
  intros Hm c Hc. specialize (Hm c).
  pose proof (undisturbed_watches known track X _ _ Hm Hc) as Hafter.
  destruct (m c); cbn in Hafter; [exact Hafter | apply Hafter].
Qed.

Lemma obtainResolution_outcome (name : string) (c : ResolutionCache) :
  exists r c1,
    obtainResolution k containingFile name c c = Returns r c1 /\
    sameButDirectory k c c1 /\
    JsMap.get name (inDirectory k containingFile c1) = Some r /\
    (forall n, n <> name ->
       JsMap.get n (inDirectory k containingFile c1)
       = JsMap.get n (inDirectory k containingFile c)) /\
    match JsMap.get name (inDirectory k containingFile c) with
    | Some inDir => r = inDir
    | None => resolvedFile r = loadedFile (loader k name containingFile)
    end.
Proof.
  unfold obtainResolution. fold (inDirectory k containingFile c).
  destruct (JsMap.get name (inDirectory k containingFile c)) as [rd|] eqn:Hget.
  - exists rd, c. split; [reflexivity|]. split; [repeat split; reflexivity|]. auto.
  - unfold load, setResolutionInDirectory, mbind, CallOn_bind, update, mret, CallOn_ret.
    eexists _, _. split; [reflexivity|].
    set (r := {| identity := nextResolution c;
                 failedLookupLocations :=
                   loadedFailedLookupLocations (loader k name containingFile);
                 resolvedFile := loadedFile (loader k name containingFile) |}).
    match goal with |- sameButDirectory k c ?c1 /\ _ => set (c' := c1) end.
    assert (Hin : inDirectory k containingFile c'
                  = JsMap.set name r (inDirectory k containingFile c)).
    { unfold inDirectory, c'. rewrite perDirectory_withPerDirectory, resolutionsOf_set.
      destruct k; reflexivity. }
    split; [|split; [|split]].
    + unfold sameButDirectory, c'.
      repeat split; try reflexivity; try (destruct k; reflexivity); cbn; lia.
    + rewrite Hin. apply get_set_eq.
    + intros n Hn. rewrite Hin. apply get_set_ne. congruence.
    + reflexivity.
Qed.

Lemma resolveName_settles (known : string -> Prop) (track : Prop) (X : option (list Path))
    (loop : NamesLoop) (name : string) :
  (track -> known name) ->
  hoare (fun c => undisturbed known track X c /\
                  forall n, n ∈ seenNamesInFile loop -> known n)
    (resolveName k containingFile (toPath containingFile)
       (getDirectoryPath (toPath containingFile)) loop name)
    (fun loop' c' =>
       undisturbed (fun n => n = name \/ known n) track X c' /\
       seenNamesInFile loop' = seenNamesInFile loop ++ [name])
    (fun c' => track -> filesWithChangedSetOfUnresolvedImports c' = X).
Proof.
  intros Hname c ((Hfresh & Hset & Hchg) & Hseen). unfold resolveName.
  erewrite bind_Returns by reflexivity. unfold id. fold (entries k containingFile c).
  destruct (negb (bool_decide (name ∈ seenNamesInFile loop)) &&
            allFilesHaveInvalidatedResolution c
            || match JsMap.get name (entries k containingFile c) with
               | Some r => invalidatedIn c r
               | None => true
               end) eqn:Hcond.
  - (* the name is resolved again *)
    change (match JsMap.get name (resolutionsOf (perDirectory k c)
                                    (getDirectoryPath (toPath containingFile))) with
            | Some resolutionInDirectory => mret resolutionInDirectory
            | None =>
                r ← load k name containingFile;
                setResolutionInDirectory k (getDirectoryPath (toPath containingFile))
                  name r ;;
                mret r
            end) with (obtainResolution k containingFile name c).
    destruct (obtainResolution_outcome name c)
      as (r & c1 & Hc1 & Hsame1 & Hget1 & Hother1 & Hcase).
    destruct Hsame1 as (Hroot1 & Hcustom1 & Hwatches1 & Hfile1 & Hflags1 & Hnext1 & Hchg1 &
                        Hall1).
    set (c2 := withPerFile k
                 (JsMap.set (toPath containingFile)
                    (JsMap.set name r (resolutionsOf (perFile k c1) (toPath containingFile)))
                    (perFile k c1)) c1).
    assert (Hentries2 : entries k containingFile c2
                        = JsMap.set name r (entries k containingFile c)).
    { unfold entries, c2. rewrite perFile_withPerFile, resolutionsOf_set, Hfile1.
      reflexivity. }
    set (watches := match JsMap.get name (entries k containingFile c) with
                    | Some existing => watchAndStopWatchDiffFailedLookupLocations r existing
                    | None => watchFailedLookupLocationOfResolution r 0
                    end).
    assert (Hwatches : onlyWatchesChange c2 (stateAfter (watches c2))).
    { unfold watches. destruct (JsMap.get name (entries k containingFile c)).
      - apply watchAndStopWatchDiffFailedLookupLocations_grows.
      - apply watchFailedLookupLocationOfResolution_grows. }
    destruct (watches c2) as [[] c3|e c3] eqn:Hc3; cbn [stateAfter] in Hwatches.
    + destruct (onlyWatchesChange_members k _ _ Hwatches)
        as (Hfile3 & Hdir3 & Hflags3 & Hnext3 & Hchg3 & Hall3).
      set (record := logChangesNow loop &&
                     match filesWithChangedSetOfUnresolvedImports c3 with
                     | Some _ => true
                     | None => false
                     end &&
                     negb (resolutionIsEqualTo c3 (JsMap.get name (entries k containingFile c))
                             r)).
      set (c4 := if record
                 then withChangedFiles
                        ((fun files => files ++ [toPath containingFile]) <$>
                           filesWithChangedSetOfUnresolvedImports c3) c3
                 else c3).
      assert (Hc4 : perFile k c4 = perFile k c3 /\ perDirectory k c4 = perDirectory k c3 /\
                    isInvalidated c4 = isInvalidated c3 /\
                    nextResolution c4 = nextResolution c3 /\
                    allFilesHaveInvalidatedResolution c4
                    = allFilesHaveInvalidatedResolution c3).
      { unfold c4. destruct record; repeat split; try reflexivity; destruct k; reflexivity. }
      destruct Hc4 as (Hfile4 & Hdir4 & Hflags4 & Hnext4 & Hall4).
      assert (Hflags : isInvalidated c4 = isInvalidated c).
      { rewrite Hflags4, Hflags3. unfold c2. rewrite <- Hflags1. destruct k; reflexivity. }
      assert (Hall : allFilesHaveInvalidatedResolution c4
                     = allFilesHaveInvalidatedResolution c).
      { rewrite Hall4, Hall3. unfold c2. rewrite <- Hall1. destruct k; reflexivity. }
      assert (Hentries4 : entries k containingFile c4
                          = JsMap.set name r (entries k containingFile c)).
      { unfold entries. rewrite Hfile4, Hfile3. exact Hentries2. }
      assert (Hdir : inDirectory k containingFile c4 = inDirectory k containingFile c1).
      { unfold inDirectory. rewrite Hdir4, Hdir3. unfold c2. destruct k; reflexivity. }
      assert (Hnext : nextResolution c <= nextResolution c4).
      { rewrite Hnext4, Hnext3. unfold c2.
        assert (nextResolution (withPerFile k
                  (JsMap.set (toPath containingFile)
                     (JsMap.set name r (resolutionsOf (perFile k c1) (toPath containingFile)))
                     (perFile k c1)) c1) = nextResolution c1) as -> by (destruct k; reflexivity).
        exact Hnext1. }
      assert (Hsilent : track -> record = false).
      { intros Htrack. destruct (Hset name (Hname Htrack)) as (r0 & Hr0 & Hv0 & Hagree).
        unfold record. rewrite Hr0.
        rewrite Hr0, Hv0, orb_false_r in Hcond. apply andb_true_iff in Hcond as [_ Ha].
        specialize (Hagree Ha). unfold agreesInDirectory in Hagree.
        assert (Hv3 : invalidatedIn c3 r0 = false).
        { rewrite (invalidatedIn_ext c c3); [exact Hv0|].
          rewrite Hflags3. unfold c2. rewrite <- Hflags1. destruct k; reflexivity. }
        rewrite (resolutionIsEqualTo_valid c3 r0 r Hv3).
        destruct (JsMap.get name (inDirectory k containingFile c)) as [inDir|].
        - subst r. destruct Hagree as [Hid|[_ Heq]].
          + rewrite Hid, Nat.eqb_refl. cbn. apply andb_false_r.
          + rewrite Heq, orb_true_r. cbn. apply andb_false_r.
        - rewrite Hcase, Hagree, orb_true_r. cbn. apply andb_false_r. }
      assert (Hchanged : track -> filesWithChangedSetOfUnresolvedImports c4 = X).
      { intros Htrack. unfold c4. rewrite (Hsilent Htrack), Hchg3. unfold c2.
        rewrite <- (Hchg Htrack), <- Hchg1. destruct k; reflexivity. }
      erewrite bind_Returns; cycle 1.
      { erewrite bind_Returns by exact Hc1.
        unfold setResolutionInFile. erewrite bind_Returns by reflexivity.
        fold c2. fold watches. erewrite bind_Returns by exact Hc3.
        erewrite bind_Returns by reflexivity. unfold id. fold record.
        instantiate (1 := c4).
        instantiate (1 := (Some r, if record then false else logChangesNow loop)).
        unfold c4. destruct record; reflexivity. }
      cbn beta iota. erewrite bind_Returns by reflexivity. unfold id.
      unfold assert. destruct (invalidatedIn c4 r) eqn:Hvalid4; cbn [negb].
      * erewrite bind_Throws by reflexivity. exact Hchanged.
      * erewrite bind_Returns by reflexivity. split; [|reflexivity].
        split; [|split; [|exact Hchanged]].
        -- intros i Hi. rewrite Hflags. apply Hfresh. lia.
        -- eapply (settled_set known c c4 name r); try eassumption.
           ++ rewrite Hdir. exact Hget1.
           ++ intros n Hn. rewrite Hdir. apply Hother1, Hn.
    + (* a watch could not be placed *)
      destruct (onlyWatchesChange_members k _ _ Hwatches)
        as (Hfile3 & Hdir3 & Hflags3 & Hnext3 & Hchg3 & Hall3).
      erewrite bind_Throws; cycle 1.
      { erewrite bind_Returns by exact Hc1.
        unfold setResolutionInFile. erewrite bind_Returns by reflexivity.
        fold c2. fold watches. erewrite bind_Throws by exact Hc3. reflexivity. }
      intros Htrack. rewrite Hchg3. unfold c2.
      rewrite <- (Hchg Htrack), <- Hchg1. destruct k; reflexivity.
  - (* the resolution of the file is valid *)
    apply orb_false_iff in Hcond as [Hfirst Hcached].
    destruct (JsMap.get name (entries k containingFile c)) as [r0|] eqn:Hr0; [|discriminate].
    erewrite bind_Returns by reflexivity. cbn beta iota.
    erewrite bind_Returns by reflexivity. unfold id.
    unfold assert. rewrite Hcached. cbn [negb].
    erewrite bind_Returns by reflexivity. split; [|reflexivity].
    split; [exact Hfresh|]. split; [|exact Hchg].
    intros n [->|Hn]; [|apply Hset, Hn].
    exists r0. split; [exact Hr0|]. split; [exact Hcached|].
    intros Ha. rewrite Ha, andb_true_r in Hfirst.
    apply negb_false_iff, bool_decide_eq_true in Hfirst.
    destruct (Hset name (Hseen name Hfirst)) as (r1 & Hr1 & _ & Hagree).
    rewrite Hr0 in Hr1. injection Hr1 as <-. apply Hagree, Ha.
Qed.

Lemma hoare_pure' {S A} (fact : Prop) (P : S -> Prop) (m : CallOn S A) Q E :
  (fact -> hoare P m Q E) -> hoare (fun s => P s /\ fact) m Q E.
Proof. intros Hm s [Hs Hfact]. apply Hm; assumption. Qed.

Lemma undisturbed_known (known known' : string -> Prop) (track : Prop)
    (X : option (list Path)) (c : ResolutionCache) :
  (forall n, known' n -> known n) ->
  undisturbed known track X c -> undisturbed known' track X c.
Proof.
  intros Hknown (Hfresh & Hset & Hchg). split; [exact Hfresh|]. split; [|exact Hchg].
  eapply settled_ext; [exact Hknown| | | | |exact Hset]; reflexivity.
Qed.

Lemma resolveName_settles_seen (known : string -> Prop) (track : Prop)
    (X : option (list Path)) (loop : NamesLoop) (name : string) :
  (track -> known name) ->
  hoare (fun c => undisturbed known track X c /\
                  forall n, n ∈ seenNamesInFile loop -> known n)
    (resolveName k containingFile (toPath containingFile)
       (getDirectoryPath (toPath containingFile)) loop name)
    (fun loop' c' =>
       (undisturbed (fun n => n = name \/ known n) track X c' /\
        forall n, n ∈ seenNamesInFile loop' -> n = name \/ known n) /\
       seenNamesInFile loop' = seenNamesInFile loop ++ [name])
    (fun c' => track -> filesWithChangedSetOfUnresolvedImports c' = X).
Proof.
  intros Hname c [Hc Hseen].
  pose proof (resolveName_settles known track X loop name Hname c (conj Hc Hseen)) as Hstep.
  destruct (resolveName k containingFile _ _ loop name c) as [loop' c'|e c']; [|exact Hstep].
  destruct Hstep as [Hc' Hseen']. split; [|exact Hseen']. split; [exact Hc'|].
  intros n. rewrite Hseen'.
  intros [Hn| ->%list_elem_of_singleton]%elem_of_app; [right|left]; auto.
Qed.

Lemma resolveEachName_settles (names : list string) (known : string -> Prop) (track : Prop)
    (X : option (list Path)) (loop : NamesLoop) :
  (track -> forall n, n ∈ names -> known n) ->
  hoare (fun c => undisturbed known track X c /\
                  forall n, n ∈ seenNamesInFile loop -> known n)
    (resolveEachName k containingFile (toPath containingFile)
       (getDirectoryPath (toPath containingFile)) loop names)
    (fun loop' c' =>
       undisturbed (fun n => n ∈ names \/ known n) track X c' /\
       seenNamesInFile loop' = seenNamesInFile loop ++ names)
    (fun c' => track -> filesWithChangedSetOfUnresolvedImports c' = X).
Proof.
  revert known loop. induction names as [|name names IH]; intros known loop Hnames.
  - cbn [resolveEachName]. apply hoare_ret. intros c [Hc _]. rewrite app_nil_r.
    split; [|reflexivity]. eapply undisturbed_known; [|exact Hc].
    intros n [Hn|Hn]; [inversion Hn | exact Hn].
  - cbn [resolveEachName]. eapply hoare_bind.
    + apply resolveName_settles_seen. intros Htrack. apply Hnames; [exact Htrack | left].
    + intros loop1. cbv beta. apply hoare_pure'. intros Hseen1.
      eapply hoare_weaken;
        [apply (IH (fun n => n = name \/ known n) loop1) | | | auto].
      * intros Htrack n Hn. right. apply Hnames; [exact Htrack | right; exact Hn].
      * auto.
      * intros loop2 c [Hc Hseen2]. split.
        -- eapply undisturbed_known; [|exact Hc]. intros n [Hn|Hn]; [|auto].
           apply elem_of_cons in Hn as [->|Hn]; auto.
        -- rewrite Hseen2, Hseen1, <- app_assoc. reflexivity.
Qed.

(** The end of [resolveNamesWithLocalCache] leaves the names that were asked
    for as they are. *)
Lemma evict_settles (seen : list string) (reusedNames : option (list string))
    (track : Prop) (X : option (list Path)) (snapshot : list (string * Resolution)) :
  hoare (undisturbed (fun n => n ∈ seen) track X)
    (forEach (evict k containingFile seen reusedNames) snapshot)
    (fun _ => undisturbed (fun n => n ∈ seen) track X)
    (fun c => track -> filesWithChangedSetOfUnresolvedImports c = X).
Proof.
  apply hoare_forEach. intros [name r] _. unfold evict.
  destruct (negb (bool_decide (name ∈ seen)) && negb (contains reusedNames name)) eqn:Hcond.
  - apply andb_true_iff in Hcond as [Hnew _].
    apply negb_true_iff, bool_decide_eq_false in Hnew.
    eapply hoare_bind.
    + apply hoare_watches. eapply always_weaken; [|apply
        (stopWatchFailedLookupLocationOfResolutionFrom_stays r 0)].
      intros c c' [Hw _]. exact Hw.
    + intros ?. cbv beta. apply hoare_update. intros c (Hfresh & Hset & Hchg).
      split; [|split].
      * intros i Hi. assert (isInvalidated (withPerFile k
                  (JsMap.set (toPath containingFile)
                     (JsMap.delete name (resolutionsOf (perFile k c) (toPath containingFile)))
                     (perFile k c)) c) = isInvalidated c) as -> by (destruct k; reflexivity).
        apply Hfresh. destruct k; exact Hi.
      * eapply settled_ext; [| | | | |exact Hset]; [auto|..];
          try (destruct k; reflexivity).
        -- intros n Hn. unfold entries. rewrite perFile_withPerFile, resolutionsOf_set.
           apply get_delete_ne. intros ->. contradiction.
      * intros Htrack. rewrite <- (Hchg Htrack). destruct k; reflexivity.
  - apply hoare_ret. auto.
Qed.

Lemma undisturbed_ext (known : string -> Prop) (track : Prop) (X : option (list Path))
    (c c' : ResolutionCache) :
  entries k containingFile c' = entries k containingFile c ->
  inDirectory k containingFile c' = inDirectory k containingFile c ->
  isInvalidated c' = isInvalidated c ->
  nextResolution c' = nextResolution c ->
  allFilesHaveInvalidatedResolution c' = allFilesHaveInvalidatedResolution c ->
  filesWithChangedSetOfUnresolvedImports c' = filesWithChangedSetOfUnresolvedImports c ->
  undisturbed known track X c -> undisturbed known track X c'.
Proof.
  intros Hentries Hdir Hflags Hnext Hall Hch (Hfresh & Hset & Hchg). split; [|split].
  - intros i Hi. rewrite Hflags. apply Hfresh. lia.
  - eapply settled_ext; [| | |exact Hflags|exact Hall|exact Hset]; [auto|..];
      intros n _; rewrite ?Hentries, ?Hdir; reflexivity.
  - rewrite Hch. exact Hchg.
Qed.

Lemma entries_ensure (c : ResolutionCache) :
  entries k containingFile
    (match JsMap.get (toPath containingFile) (perFile k c) with
     | Some _ => c
     | None => withPerFile k (JsMap.set (toPath containingFile) [] (perFile k c)) c
     end) = entries k containingFile c.
Proof.
  unfold entries. destruct (JsMap.get _ (perFile k c)) eqn:Hget; [reflexivity|].
  rewrite perFile_withPerFile, resolutionsOf_set. unfold resolutionsOf.
  rewrite Hget. reflexivity.
Qed.

Lemma inDirectory_ensure (c : ResolutionCache) :
  inDirectory k containingFile
    (match JsMap.get (getDirectoryPath (toPath containingFile)) (perDirectory k c) with
     | Some _ => c
     | None =>
         withPerDirectory k
           (JsMap.set (getDirectoryPath (toPath containingFile)) [] (perDirectory k c)) c
     end) = inDirectory k containingFile c.
Proof.
  unfold inDirectory. destruct (JsMap.get _ (perDirectory k c)) eqn:Hget; [reflexivity|].
  rewrite perDirectory_withPerDirectory, resolutionsOf_set. unfold resolutionsOf.
  rewrite Hget. reflexivity.
Qed.

Lemma resolveNamesWithLocalCache_settles (names : list string)
    (reusedNames : option (list string)) (logChanges : bool)
    (known : string -> Prop) (track : Prop) (X : option (list Path)) :
  (track -> forall n, n ∈ names -> known n) ->
  hoare (undisturbed known track X)
    (resolveNamesWithLocalCache k names containingFile reusedNames logChanges)
    (fun _ => undisturbed (fun n => n ∈ names) track X)
    (fun c => track -> filesWithChangedSetOfUnresolvedImports c = X).
Proof.
  intros Hnames. unfold resolveNamesWithLocalCache. cbv zeta.
  eapply hoare_bind with (Q' := fun _ => undisturbed known track X).
  { apply hoare_update. intros c. apply undisturbed_ext; try (case_match; destruct k; reflexivity).
    apply entries_ensure. }
  intros ?. cbv beta.
  eapply hoare_bind with (Q' := fun _ => undisturbed known track X).
  { apply hoare_update. intros c. apply undisturbed_ext; try (case_match; destruct k; reflexivity).
    apply inDirectory_ensure. }
  intros ?. cbv beta.
  eapply hoare_bind.
  { eapply hoare_weaken; [apply (resolveEachName_settles names known track X) | | |];
      [exact Hnames | | intros loop c Hc; exact Hc | auto].
    intros c Hc. split; [exact Hc|]. intros n Hn. inversion Hn. }
  intros loop. cbv beta. apply hoare_pure'. cbn [seenNamesInFile app]. intros Hseen.
  intros c Hc. erewrite bind_Returns by reflexivity. unfold id.
  change (forEach _ (resolutionsOf (perFile k c) (toPath containingFile)))
    with (forEach (evict k containingFile (seenNamesInFile loop) reusedNames)
            (resolutionsOf (perFile k c) (toPath containingFile))).
  assert (Hc' : undisturbed (fun n => n ∈ seenNamesInFile loop) track X c).
  { eapply undisturbed_known; [|exact Hc]. intros n Hn. left. rewrite <- Hseen. exact Hn. }
  pose proof (evict_settles (seenNamesInFile loop) reusedNames track X
                (resolutionsOf (perFile k c) (toPath containingFile)) c Hc') as Hevict.
  destruct (forEach _ _ c) as [[] c'|e c'] eqn:Hrun.
  - erewrite bind_Returns by exact Hrun. cbn.
    eapply undisturbed_known; [|exact Hevict]. intros n Hn. rewrite Hseen. exact Hn.
  - erewrite bind_Throws by exact Hrun. exact Hevict.
Qed.

(** Between two resolve calls for the file nothing happened to its
    resolutions: the map of the file is the same and no flag was set; and
    where every file now counts as invalidated, what the directory holds for
    each name, or else what the host answers, compares equal to the
    resolution of the file. *)
Definition quietBetween (names : list string) (c1 c2 : ResolutionCache) : Prop :=
  entries k containingFile c2 = entries k containingFile c1 /\
  isInvalidated c2 = isInvalidated c1 /\
  nextResolution c1 <= nextResolution c2 /\
  (allFilesHaveInvalidatedResolution c2 = true ->
   forall name r,
     name ∈ names -> JsMap.get name (entries k containingFile c1) = Some r ->
     agreesInDirectory c2 name r).

Lemma quietBetween_same (names : list string) (c1 : ResolutionCache) :
  settled (fun n => n ∈ names) c1 -> quietBetween names c1 c1.
Proof.
  intros Hset. split; [reflexivity|]. split; [reflexivity|]. split; [lia|].
  intros Ha name r Hname Hr. destruct (Hset name Hname) as (r' & Hr' & _ & Hagree).
  rewrite Hr in Hr'. injection Hr' as <-. apply Hagree, Ha.
Qed.

Lemma resolveNamesWithLocalCache_silent (names : list string)
    (reusedNames : option (list string)) (c1 c2 : ResolutionCache) :
  fresh c1 -> settled (fun n => n ∈ names) c1 -> quietBetween names c1 c2 ->
  filesWithChangedSetOfUnresolvedImports
    (stateAfter (resolveNamesWithLocalCache k names containingFile reusedNames true c2))
  = filesWithChangedSetOfUnresolvedImports c2.
Proof.
  intros Hfresh Hset (Hentries & Hflags & Hnext & Hagree).
  assert (Hc2 : undisturbed (fun n => n ∈ names) True
                  (filesWithChangedSetOfUnresolvedImports c2) c2).
  { split; [|split; [|reflexivity]].
    - intros i Hi. rewrite Hflags. apply Hfresh. lia.
    - intros name Hname. destruct (Hset name Hname) as (r & Hr & Hvalid & _).
      exists r. rewrite Hentries. split; [exact Hr|].
      split; [rewrite (invalidatedIn_ext c1 c2) by exact Hflags; exact Hvalid|].
      intros Ha. apply (Hagree Ha name r Hname Hr). }
  pose proof (resolveNamesWithLocalCache_settles names reusedNames true
                (fun n => n ∈ names) True (filesWithChangedSetOfUnresolvedImports c2)
                (fun _ n Hn => Hn) c2 Hc2) as Hrun.
  destruct (resolveNamesWithLocalCache k names containingFile reusedNames true c2);
    cbn [stateAfter]; [apply Hrun | apply Hrun]; exact I.
Qed.

Lemma resolveNamesWithLocalCache_settled (names : list string)
    (reusedNames : option (list string)) (logChanges : bool)
    (c c1 : ResolutionCache) (results : list (option ResolvedFile)) :
  fresh c ->
  resolveNamesWithLocalCache k names containingFile reusedNames logChanges c
    = Returns results c1 ->
  fresh c1 /\ settled (fun n => n ∈ names) c1.
Proof.
  intros Hfresh Hcall.
  assert (Hc : undisturbed (fun _ => False) False None c).
  { split; [exact Hfresh|]. split; [intros n []|intros []]. }
  pose proof (resolveNamesWithLocalCache_settles names reusedNames logChanges
                (fun _ => False) False None (fun F => False_ind _ F) c Hc) as Hrun.
  rewrite Hcall in Hrun. destruct Hrun as (Hfresh1 & Hset1 & _). auto.
Qed.

End ResolveAgain.

Section ResolveTwice.
Context `{!CoreLibrary} `{!ResolutionCacheHost}.

(** C7. After [resolveModuleNames] has resolved the names of a file,
    resolving them again with [logChanges] set leaves the files with a changed
    set of unresolved imports as they are, whatever is being recorded: at
    once, and also later, when nothing happened to the resolutions of the
    file in between.  The second call uses the resolution of the file where
    it is valid; where it resolves the name again, [resolutionIsEqualTo] finds
    the new resolution equal to the one of the file, and for a resolution
    that is not invalidated it does so for the same object and for another
    object with the same resolved file name. *)
Theorem resolving_again_records_no_change
    (names : list string) (containingFile : string)
    (reusedNames reusedAgain : option (list string)) (logChanges : bool)
    (c c1 : ResolutionCache) (results : list (option ResolvedFile)) :
  fresh c ->
  resolveModuleNames names containingFile reusedNames logChanges c = Returns results c1 ->
  filesWithChangedSetOfUnresolvedImports
    (stateAfter (resolveModuleNames names containingFile reusedAgain true c1))
  = filesWithChangedSetOfUnresolvedImports c1 /\
  (forall c2,
     quietBetween ModuleName containingFile names c1 c2 ->
     filesWithChangedSetOfUnresolvedImports
       (stateAfter (resolveModuleNames names containingFile reusedAgain true c2))
     = filesWithChangedSetOfUnresolvedImports c2) /\
  (forall c' old new,
     invalidatedIn c' old = false ->
     resolutionIsEqualTo c' (Some old) new =
       (identity old =? identity new) ||
       equalByResolvedPath (resolvedFile old) (resolvedFile new)).
Proof.
  intros Hfresh Hcall. unfold resolveModuleNames in *.
  destruct (resolveNamesWithLocalCache_settled ModuleName containingFile names reusedNames
              logChanges c c1 results Hfresh Hcall) as [Hfresh1 Hset1].
  split; [|split].
  - apply (resolveNamesWithLocalCache_silent ModuleName containingFile names reusedAgain
             c1 c1 Hfresh1 Hset1).
    apply quietBetween_same, Hset1.
  - intros c2. apply resolveNamesWithLocalCache_silent; assumption.
  - intros c' old new. apply resolutionIsEqualTo_valid.
Qed.

End ResolveTwice.

(** ** The results of a resolve call *)

Section ResolveResults.
Context `{!CoreLibrary} `{!ResolutionCacheHost}.
Import JsMapFacts.

Variable k : ResolutionKind.
Variable containingFile : string.

Lemma resolveName_results (loop : NamesLoop) (name : string) :
  hoare (resolvedSoFar k containingFile loop)
    (resolveName k containingFile (toPath containingFile)
       (getDirectoryPath (toPath containingFile)) loop name)
    (fun loop' c' =>
       resolvedSoFar k containingFile loop' c' /\
       seenNamesInFile loop' = seenNamesInFile loop ++ [name])
    (fun _ => True).
Proof.
  intros c Hloop. unfold resolveName.
  erewrite bind_Returns by reflexivity. unfold id. fold (entries k containingFile c).
  destruct (negb (bool_decide (name ∈ seenNamesInFile loop)) &&
            allFilesHaveInvalidatedResolution c
            || match JsMap.get name (entries k containingFile c) with
               | Some r => invalidatedIn c r
               | None => true
               end) eqn:Hcond.
  - (* the name is resolved again *)
    assert (Hnew : name ∉ seenNamesInFile loop).
    { intros Hin. destruct (resolvedSoFar_seen _ _ _ _ _ Hloop Hin) as (r & Hr & Hv).
      rewrite Hr, Hv, bool_decide_eq_true_2 in Hcond by exact Hin. discriminate. }
    change (match JsMap.get name (resolutionsOf (perDirectory k c)
                                    (getDirectoryPath (toPath containingFile))) with
            | Some resolutionInDirectory => mret resolutionInDirectory
            | None =>
                r ← load k name containingFile;
                setResolutionInDirectory k (getDirectoryPath (toPath containingFile))
                  name r ;;
                mret r
            end) with (obtainResolution k containingFile name c).
    destruct (obtainResolution_outcome k containingFile name c)
      as (r & c1 & Hc1 & Hsame1 & _).
    destruct Hsame1 as (_ & _ & _ & Hfile1 & Hflags1 & _).
    set (c2 := withPerFile k
                 (JsMap.set (toPath containingFile)
                    (JsMap.set name r (resolutionsOf (perFile k c1) (toPath containingFile)))
                    (perFile k c1)) c1).
    assert (Hentries2 : entries k containingFile c2
                        = JsMap.set name r (entries k containingFile c)).
    { unfold entries, c2. rewrite perFile_withPerFile, resolutionsOf_set, Hfile1.
      reflexivity. }
    set (watches := match JsMap.get name (entries k containingFile c) with
                    | Some existing => watchAndStopWatchDiffFailedLookupLocations r existing
                    | None => watchFailedLookupLocationOfResolution r 0
                    end).
    assert (Hwatches : onlyWatchesChange c2 (stateAfter (watches c2))).
    { unfold watches. destruct (JsMap.get name (entries k containingFile c)).
      - apply watchAndStopWatchDiffFailedLookupLocations_grows.
      - apply watchFailedLookupLocationOfResolution_grows. }
    destruct (watches c2) as [[] c3|e c3] eqn:Hc3; cbn [stateAfter] in Hwatches.
    + destruct (onlyWatchesChange_members k _ _ Hwatches) as (Hfile3 & _ & Hflags3 & _).
      set (record := logChangesNow loop &&
                     match filesWithChangedSetOfUnresolvedImports c3 with
                     | Some _ => true
                     | None => false
                     end &&
                     negb (resolutionIsEqualTo c3 (JsMap.get name (entries k containingFile c))
                             r)).
      set (c4 := if record
                 then withChangedFiles
                        ((fun files => files ++ [toPath containingFile]) <$>
                           filesWithChangedSetOfUnresolvedImports c3) c3
                 else c3).
      assert (Hc4 : perFile k c4 = perFile k c3 /\ isInvalidated c4 = isInvalidated c3).
      { unfold c4. destruct record; split; try reflexivity; destruct k; reflexivity. }
      destruct Hc4 as (Hfile4 & Hflags4).
      assert (Hflags : isInvalidated c4 = isInvalidated c).
      { rewrite Hflags4, Hflags3. unfold c2. rewrite <- Hflags1. destruct k; reflexivity. }
      assert (Hentries4 : entries k containingFile c4
                          = JsMap.set name r (entries k containingFile c)).
      { unfold entries. rewrite Hfile4, Hfile3. exact Hentries2. }
      erewrite bind_Returns; cycle 1.
      { erewrite bind_Returns by exact Hc1.
        unfold setResolutionInFile. erewrite bind_Returns by reflexivity.
        fold c2. fold watches. erewrite bind_Returns by exact Hc3.
        erewrite bind_Returns by reflexivity. unfold id. fold record.
        instantiate (1 := c4).
        instantiate (1 := (Some r, if record then false else logChangesNow loop)).
        unfold c4. destruct record; reflexivity. }
      cbn beta iota. erewrite bind_Returns by reflexivity. unfold id.
      unfold assert. destruct (invalidatedIn c4 r) eqn:Hvalid4; cbn [negb].
      * erewrite bind_Throws by reflexivity. exact I.
      * erewrite bind_Returns by reflexivity. split; [|reflexivity].
        unfold resolvedSoFar. cbn [seenNamesInFile resolvedModules].
        apply Forall2_app.
        -- apply (resolvedSoFar_ext k containingFile loop c c4); [|exact Hflags|exact Hloop].
           intros n Hn. rewrite Hentries4. apply get_set_ne. intros ->. contradiction.
        -- constructor; [|constructor]. exists r. rewrite Hentries4, get_set_eq. auto.
    + erewrite bind_Throws; [exact I|].
      erewrite bind_Returns by exact Hc1.
      unfold setResolutionInFile. erewrite bind_Returns by reflexivity.
      fold c2. fold watches. erewrite bind_Throws by exact Hc3. reflexivity.
  - (* the resolution of the file is valid *)
    apply orb_false_iff in Hcond as [_ Hcached].
    destruct (JsMap.get name (entries k containingFile c)) as [r0|] eqn:Hr0; [|discriminate].
    erewrite bind_Returns by reflexivity. cbn beta iota.
    erewrite bind_Returns by reflexivity. unfold id.
    unfold assert. rewrite Hcached. cbn [negb].
    erewrite bind_Returns by reflexivity. split; [|reflexivity].
    unfold resolvedSoFar. cbn [seenNamesInFile resolvedModules].
    apply Forall2_app; [exact Hloop|]. constructor; [|constructor]. exists r0. auto.
Qed.

Lemma resolveEachName_results (names : list string) (loop : NamesLoop) :
  hoare (resolvedSoFar k containingFile loop)
    (resolveEachName k containingFile (toPath containingFile)
       (getDirectoryPath (toPath containingFile)) loop names)
    (fun loop' c' =>
       resolvedSoFar k containingFile loop' c' /\
       seenNamesInFile loop' = seenNamesInFile loop ++ names)
    (fun _ => True).
Proof.
  revert loop. induction names as [|name names IH]; intros loop; cbn [resolveEachName].
  - apply hoare_ret. intros c Hc. rewrite app_nil_r. auto.
  - eapply hoare_bind; [apply resolveName_results|].
    intros loop1. cbv beta. apply hoare_pure'. intros Hseen1.
    eapply hoare_weaken; [apply (IH loop1) | auto | | auto].
    intros loop2 c [Hc Hseen2]. split; [exact Hc|].
    rewrite Hseen2, Hseen1, <- app_assoc. reflexivity.
Qed.

Lemma evict_results (loop : NamesLoop) (reusedNames : option (list string))
    (snapshot : list (string * Resolution)) :
  hoare (resolvedSoFar k containingFile loop)
    (forEach (evict k containingFile (seenNamesInFile loop) reusedNames) snapshot)
    (fun _ => resolvedSoFar k containingFile loop)
    (fun _ => True).
Proof.
  apply hoare_forEach. intros [name r] _. unfold evict.
  destruct (negb (bool_decide (name ∈ seenNamesInFile loop)) &&
            negb (contains reusedNames name)) eqn:Hcond.
  - apply andb_true_iff in Hcond as [Hnew _].
    apply negb_true_iff, bool_decide_eq_false in Hnew.
    eapply hoare_bind with (Q' := fun _ => resolvedSoFar k containingFile loop).
    + intros c Hc.
      pose proof (stopWatchFailedLookupLocationOfResolutionFrom_stays r 0 c) as [Hw _].
      unfold stopWatchFailedLookupLocationOfResolution.
      destruct (stopWatchFailedLookupLocationOfResolutionFrom r 0 c) as [[] c1|e c1];
        [|exact I]. cbn [stateAfter] in Hw.
      destruct (onlyWatchesChange_members k _ _ Hw) as (Hfile & _ & Hflags & _).
      apply (resolvedSoFar_ext k containingFile loop c c1); [|exact Hflags|exact Hc].
      intros n _. unfold entries. rewrite Hfile. reflexivity.
    + intros ?. cbv beta. apply hoare_update. intros c Hc.
      eapply (resolvedSoFar_ext k containingFile loop c); [| |exact Hc].
      * intros n Hn. unfold entries. rewrite perFile_withPerFile, resolutionsOf_set.
        apply get_delete_ne. intros ->. contradiction.
      * destruct k; reflexivity.
  - apply hoare_ret. auto.
Qed.

Lemma resolveNamesWithLocalCache_results (names : list string)
    (reusedNames : option (list string)) (logChanges : bool) (c : ResolutionCache)
    (results : list (option ResolvedFile)) (c' : ResolutionCache) :
  resolveNamesWithLocalCache k names containingFile reusedNames logChanges c
    = Returns results c' ->
  Forall2 (fun name result =>
             exists r,
               JsMap.get name (entries k containingFile c') = Some r /\
               result = resolvedFile r /\
               invalidatedIn c' r = false)
          names results.
Proof.
  assert (Hrun : hoare (fun _ => True)
                   (resolveNamesWithLocalCache k names containingFile reusedNames logChanges)
                   (fun results c' =>
                      Forall2 (fun name result =>
                                 exists r,
                                   JsMap.get name (entries k containingFile c') = Some r /\
                                   result = resolvedFile r /\
                                   invalidatedIn c' r = false)
                              names results)
                   (fun _ => True)).
  { unfold resolveNamesWithLocalCache. cbv zeta.
    eapply hoare_bind with (Q' := fun _ _ => True); [apply hoare_update; auto|].
    intros ?. cbv beta.
    eapply hoare_bind with (Q' := fun _ _ => True); [apply hoare_update; auto|].
    intros ?. cbv beta.
    eapply hoare_bind.
    { eapply hoare_weaken;
        [apply (resolveEachName_results names
                  {| seenNamesInFile := []; logChangesNow := logChanges;
                     resolvedModules := [] |})
        | | intros loop s Hs; exact Hs | auto].
      intros s _. constructor. }
    intros loop. cbv beta. apply hoare_pure'. cbn [seenNamesInFile app]. intros Hseen.
    intros s Hs. erewrite bind_Returns by reflexivity. unfold id.
    change (forEach _ (resolutionsOf (perFile k s) (toPath containingFile)))
      with (forEach (evict k containingFile (seenNamesInFile loop) reusedNames)
              (resolutionsOf (perFile k s) (toPath containingFile))).
    pose proof (evict_results loop reusedNames
                  (resolutionsOf (perFile k s) (toPath containingFile)) s Hs) as Hevict.
    destruct (forEach _ _ s) as [[] s'|e s'] eqn:Heq.
    - erewrite bind_Returns by exact Heq. cbn. rewrite <- Hseen. exact Hevict.
    - erewrite bind_Throws by exact Heq. exact I. }
  intros Hcall. specialize (Hrun c I). rewrite Hcall in Hrun. exact Hrun.
Qed.

End ResolveResults.

Section ResolveOneResultPerName.
Context `{!CoreLibrary} `{!ResolutionCacheHost}.

(** What the caller of a resolve operation gets for [names]: a list of
    results with one position for every name, in the order of the names,
    where each result is the resolved file of the resolution now cached
    under that name for the containing file ([None] when the name did not
    resolve), and that resolution is not invalidated. *)
Definition oneResultPerName (k : ResolutionKind) (containingFile : string)
    (names : list string) (results : list (option ResolvedFile))
    (c' : ResolutionCache) : Prop :=
  length results = length names /\
  forall i name,
    names !! i = Some name ->
    exists r,
      JsMap.get name (entries k containingFile c') = Some r /\
      results !! i = Some (resolvedFile r) /\
      invalidatedIn c' r = false.

Lemma oneResultPerName_of_Forall2 (k : ResolutionKind) (containingFile : string)
    (names : list string) (results : list (option ResolvedFile))
    (c' : ResolutionCache) :
  Forall2 (fun name result =>
             exists r,
               JsMap.get name (entries k containingFile c') = Some r /\
               result = resolvedFile r /\
               invalidatedIn c' r = false)
          names results ->
  oneResultPerName k containingFile names results c'.
Proof.
  intros Hall. split.
  - symmetry. eapply Forall2_length, Hall.
  - intros i name Hname.
    destruct (Forall2_lookup_l _ _ _ _ _ Hall Hname) as (result & Hresult & r & Hr & -> & Hv).
    exists r. auto.
Qed.

(** C3. The list that [resolveModuleNames] and
    [resolveTypeReferenceDirectives] return has exactly one result per name,
    in the order of the names: the resolved file of the resolution cached
    for the name, which is [None] for a name that does not resolve.  And on
    a cache whose watches are in order the calls do return: no name makes
    them throw, whether it resolves or not. *)
Theorem resolve_returns_one_result_per_name
    (names : list string) (containingFile : string)
    (reusedNames : option (list string)) (logChanges : bool) (c : ResolutionCache) :
  (forall results c',
     resolveModuleNames names containingFile reusedNames logChanges c
       = Returns results c' ->
     oneResultPerName ModuleName containingFile names results c') /\
  (forall results c',
     resolveTypeReferenceDirectives names containingFile c = Returns results c' ->
     oneResultPerName TypeReferenceDirective containingFile names results c') /\
  (ready ModuleName containingFile c ->
   exists results c',
     resolveModuleNames names containingFile reusedNames logChanges c
       = Returns results c') /\
  (ready TypeReferenceDirective containingFile c ->
   exists results c',
     resolveTypeReferenceDirectives names containingFile c = Returns results c').
Proof.
  split; [|split; [|split]].
  - intros results c' Hcall.
    apply oneResultPerName_of_Forall2, (resolveNamesWithLocalCache_results _ _ _ _ _ _ _ _ Hcall).
  - intros results c' Hcall.
    apply oneResultPerName_of_Forall2, (resolveNamesWithLocalCache_results _ _ _ _ _ _ _ _ Hcall).
  - intros Hready.
    destruct (resolveNamesWithLocalCache_returns ModuleName containingFile names
                reusedNames logChanges c Hready) as (results & c' & Hc' & _).
    exists results, c'. exact Hc'.
  - intros Hready.
    destruct (resolveNamesWithLocalCache_returns TypeReferenceDirective containingFile
                names None false c Hready) as (results & c' & Hc' & _).
    exists results, c'. exact Hc'.
Qed.

End ResolveOneResultPerName.


(** ** The ceiling of the invalidation *)

Section CeilingFacts.
Context `{!CoreLibrary} `{!ResolutionCacheHost}.

(** More containing files are cached, for module names or for type reference
    directives, than the ceiling allows. *)
Definition overCeiling (c : ResolutionCache) : Prop :=
  (maxSize < Z.of_nat (JsMap.size (resolvedModuleNames c)))%Z \/
  (maxSize < Z.of_nat (JsMap.size (resolvedTypeReferenceDirectives c)))%Z.

Lemma hasReachedResolutionIterationLimit_spec (c : ResolutionCache) :
  hasReachedResolutionIterationLimit c = true <-> overCeiling c.
Proof.
  unfold hasReachedResolutionIterationLimit, overCeiling.
  rewrite orb_true_iff, !Z.ltb_lt. reflexivity.
Qed.

Lemma invalidateResolutions_over_ceiling (isInvalidatedResolution : Resolution -> bool)
    (c : ResolutionCache) :
  overCeiling c ->
  invalidateResolutions isInvalidatedResolution c
  = Returns tt (withAllFilesInvalidated true c).
Proof.
  intros Hover%hasReachedResolutionIterationLimit_spec. unfold invalidateResolutions.
  erewrite bind_Returns by reflexivity. unfold id. rewrite Hover. reflexivity.
Qed.

Lemma createHasInvalidatedResolution_of_all (c : ResolutionCache) :
  allFilesHaveInvalidatedResolution c = true ->
  createHasInvalidatedResolution c
  = Returns (fun _ => true) (withInvalidatedFiles None c).
Proof.
  intros Hall. unfold createHasInvalidatedResolution.
  erewrite bind_Returns by reflexivity. rewrite Hall. reflexivity.
Qed.

Lemma removeResolutionsOfFileFromCache_flags (k : ResolutionKind) (filePath : Path) :
  always (unchanged isInvalidated) (removeResolutionsOfFileFromCache k filePath).
Proof.
  unfold removeResolutionsOfFileFromCache.
  always_go ltac:(first
    [ eapply always_weaken;
        [|apply (stopWatchFailedLookupLocationOfResolutionFrom_stays _ 0)];
      intros c c' [Hw _]; unfold unchanged;
      apply (onlyWatchesChange_members ModuleName _ _ Hw)
    | apply always_update; [..| intros []; destruct k; reflexivity] ]).
Qed.

Lemma removeResolutionsOfFile_flags (filePath : Path) (c : ResolutionCache) :
  isInvalidated (stateAfter (removeResolutionsOfFile filePath c)) = isInvalidated c.
Proof.
  revert c. change (always (unchanged isInvalidated) (removeResolutionsOfFile filePath)).
  unfold removeResolutionsOfFile.
  always_go ltac:(apply removeResolutionsOfFileFromCache_flags).
Qed.

(** The containing files that have resolutions cached, for module names or
    for type reference directives. *)
Definition cachedContainingFiles (c : ResolutionCache) : gset Path :=
  list_to_set (JsMap.keys (resolvedModuleNames c)) ∪
  list_to_set (JsMap.keys (resolvedTypeReferenceDirectives c)).

Lemma size_keys {V} (m : JsMap.t V) :
  NoDup (JsMap.keys m) -> size (list_to_set (JsMap.keys m) : gset Path) = JsMap.size m.
Proof.
  intros Hnodup. rewrite size_list_to_set by exact Hnodup.
  unfold JsMap.keys, JsMap.size. apply length_map.
Qed.

(** Where one of the two caches has an entry for every containing file, as
    it is for the files of a program, the test of the code counts the
    containing files. *)
Lemma overCeiling_cachedContainingFiles (c : ResolutionCache) :
  NoDup (JsMap.keys (resolvedModuleNames c)) ->
  NoDup (JsMap.keys (resolvedTypeReferenceDirectives c)) ->
  JsMap.keys (resolvedModuleNames c) ⊆ JsMap.keys (resolvedTypeReferenceDirectives c) \/
  JsMap.keys (resolvedTypeReferenceDirectives c) ⊆ JsMap.keys (resolvedModuleNames c) ->
  overCeiling c <-> (maxSize < Z.of_nat (size (cachedContainingFiles c)))%Z.
Proof.
  intros Hmodules Htypes Hcovers. unfold overCeiling, cachedContainingFiles.
  rewrite <- (size_keys _ Hmodules), <- (size_keys _ Htypes).
  set (A := list_to_set (JsMap.keys (resolvedModuleNames c)) : gset Path).
  set (B := list_to_set (JsMap.keys (resolvedTypeReferenceDirectives c)) : gset Path).
  destruct Hcovers as [Hsub|Hsub].
  - assert (HAB : A ⊆ B).
    { intros x. unfold A, B. rewrite !elem_of_list_to_set. apply Hsub. }
    assert (A ∪ B = B) as -> by (apply subseteq_union_1_L, HAB).
    pose proof (subseteq_size A B HAB). lia.
  - assert (HBA : B ⊆ A).
    { intros x. unfold A, B. rewrite !elem_of_list_to_set. apply Hsub. }
    assert (A ∪ B = A) as -> by (rewrite (comm_L (∪)); apply subseteq_union_1_L, HBA).
    pose proof (subseteq_size B A HBA). lia.
Qed.

(** C2. When an invalidation is processed while more containing files are
    cached than the ceiling allows, the host's
    [maxNumberOfFilesToIterateForInvalidation] or else 256, it marks no
    resolution and the next [createHasInvalidatedResolution] returns a
    predicate that is true for every path.  This holds for
    [invalidateResolutions] with any test, and so for the deletion of a file,
    where the ceiling is looked at once the resolutions of the deleted file
    are removed.  The code tests the number of containing files of each of
    the two caches; where one cache has an entry for every containing file,
    that is the number of distinct cached containing files. *)
Theorem over_ceiling_every_file_has_invalidated_resolution (c : ResolutionCache) :
  (NoDup (JsMap.keys (resolvedModuleNames c)) ->
   NoDup (JsMap.keys (resolvedTypeReferenceDirectives c)) ->
   JsMap.keys (resolvedModuleNames c) ⊆ JsMap.keys (resolvedTypeReferenceDirectives c) \/
   JsMap.keys (resolvedTypeReferenceDirectives c) ⊆ JsMap.keys (resolvedModuleNames c) ->
   (maxSize < Z.of_nat (size (cachedContainingFiles c)))%Z ->
   overCeiling c) /\
  (maxNumberOfFilesToIterateForInvalidation = None -> maxSize = 256%Z) /\
  (overCeiling c ->
   (forall isInvalidatedResolution,
      exists c' hasInvalidatedResolution c'',
        invalidateResolutions isInvalidatedResolution c = Returns tt c' /\
        isInvalidated c' = isInvalidated c /\
        createHasInvalidatedResolution c' = Returns hasInvalidatedResolution c'' /\
        forall path, hasInvalidatedResolution path = true) /\
   (forall filePath c0,
      removeResolutionsOfFile filePath c0 = Returns tt c ->
      exists c' hasInvalidatedResolution c'',
        invalidateResolutionOfFile filePath c0 = Returns tt c' /\
        isInvalidated c' = isInvalidated c0 /\
        createHasInvalidatedResolution c' = Returns hasInvalidatedResolution c'' /\
        forall path, hasInvalidatedResolution path = true)).
Proof.
  split; [|split].
  - intros Hmodules Htypes Hcovers.
    apply (overCeiling_cachedContainingFiles c Hmodules Htypes Hcovers).
  - unfold maxSize. intros ->. reflexivity.
  - intros Hover. split.
    + intros isInvalidatedResolution.
      exists (withAllFilesInvalidated true c), (fun _ => true),
        (withInvalidatedFiles None (withAllFilesInvalidated true c)).
      split; [apply invalidateResolutions_over_ceiling, Hover|].
      split; [destruct c; reflexivity|].
      split; [apply createHasInvalidatedResolution_of_all; reflexivity | reflexivity].
    + intros filePath c0 Hremove.
      exists (withAllFilesInvalidated true c), (fun _ => true),
        (withInvalidatedFiles None (withAllFilesInvalidated true c)).
      split; [|split; [|split]].
      * unfold invalidateResolutionOfFile. erewrite bind_Returns by exact Hremove.
        apply invalidateResolutions_over_ceiling, Hover.
      * pose proof (removeResolutionsOfFile_flags filePath c0) as Hflags.
        rewrite Hremove in Hflags. destruct c; exact Hflags.
      * apply createHasInvalidatedResolution_of_all. reflexivity.
      * reflexivity.
Qed.

End CeilingFacts.

(** ** Invalidating the resolutions to a file *)

Section InvalidationFacts.
Context `{!CoreLibrary} `{!ResolutionCacheHost}.
Import JsMapFacts.

(** The resolutions of a cache with their containing file and their name, in
    the order in which [invalidateResolutionCache] meets them. *)
Definition cachedResolutions (cache : JsMap.t (JsMap.t Resolution))
  : list (Path * string * Resolution) :=
  concat ((fun entry : Path * JsMap.t Resolution =>
             (fun named : string * Resolution => (entry.1, named.1, named.2)) <$> entry.2)
            <$> cache).

(** One turn of the inner loop of [invalidateResolutionCache]. *)
Definition visit (isInvalidatedResolution : Resolution -> bool)
    (acc : gset (Path * string) * ResolutionCache) (t : Path * string * Resolution)
  : gset (Path * string) * ResolutionCache :=
  let '(file, name, r) := t in
  invalidateResolutionOfName isInvalidatedResolution file (getDirectoryPath file) acc (name, r).

Lemma foldl_names isInvalidatedResolution (file : Path)
    (resolutions : JsMap.t Resolution) acc :
  foldl (invalidateResolutionOfName isInvalidatedResolution file (getDirectoryPath file))
        acc resolutions
  = foldl (visit isInvalidatedResolution) acc
          ((fun named : string * Resolution => (file, named.1, named.2)) <$> resolutions).
Proof.
  revert acc. induction resolutions as [|[name r] resolutions IH]; intros acc;
    [reflexivity|].
  cbn [foldl fmap list_fmap]. apply IH.
Qed.

Lemma foldl_cachedResolutions isInvalidatedResolution
    (cache : JsMap.t (JsMap.t Resolution)) acc :
  foldl (invalidateResolutionsOfContainingFile isInvalidatedResolution) acc cache
  = foldl (visit isInvalidatedResolution) acc (cachedResolutions cache).
Proof.
  revert acc. induction cache as [|[file resolutions] cache IH]; intros acc; [reflexivity|].
  unfold cachedResolutions. cbn [foldl fmap list_fmap concat].
  rewrite foldl_app. unfold invalidateResolutionsOfContainingFile at 2.
  rewrite foldl_names. apply IH.
Qed.

(** Two containing files of one directory hold the same resolution for a
    name, as they do when they are resolved in one pass. *)
Definition sharedInDirectory (l : list (Path * string * Resolution)) : Prop :=
  forall file1 file2 name r1 r2,
    (file1, name, r1) ∈ l -> (file2, name, r2) ∈ l ->
    getDirectoryPath file1 = getDirectoryPath file2 -> r1 = r2.

Lemma visit_flags isInvalidatedResolution (l : list (Path * string * Resolution)) :
  forall seen c,
    sharedInDirectory l ->
    (forall file name r,
       (file, name, r) ∈ l -> (getDirectoryPath file, name) ∈ seen ->
       isInvalidatedResolution r = true -> identity r ∈ isInvalidated c) ->
    forall i,
      i ∈ isInvalidated (foldl (visit isInvalidatedResolution) (seen, c) l).2 <->
      i ∈ isInvalidated c \/
      exists file name r,
        (file, name, r) ∈ l /\ identity r = i /\ isInvalidatedResolution r = true.
Proof.
  induction l as [|[[file name] r] l IH]; intros seen c Hshared Hseen i.
  - cbn. split; [auto|]. intros [?|(?&?&?&Hin&_)]; [assumption|]. inversion Hin.
  - assert (Hshared' : sharedInDirectory l).
    { intros f1 f2 n r1 r2 H1 H2 Hd.
      apply (Hshared f1 f2 n r1 r2); [right; exact H1 | right; exact H2 | exact Hd]. }
    cbn [foldl visit invalidateResolutionOfName].
    destruct (bool_decide_reflect ((getDirectoryPath file, name) ∈ seen)) as [Hin|Hnot].
    + rewrite IH; [|exact Hshared'|intros f n r' Hl; apply Hseen; right; exact Hl].
      split.
      * intros [?|(f&n&r'&Hl&?&?)]; [auto|]. right. exists f, n, r'.
        split; [right; exact Hl|auto].
      * intros [?|(f&n&r'&Hl&Hid&Hi)]; [auto|].
        apply elem_of_cons in Hl as [[= -> -> ->]|Hl].
        -- left. rewrite <- Hid. apply (Hseen file name r); [left|exact Hin|exact Hi].
        -- right. exists f, n, r'. auto.
    + assert (Hstep : exists c1,
                 (if negb (invalidatedIn c r) && isInvalidatedResolution r
                  then ({[(getDirectoryPath file, name)]} ∪ seen,
                        withInvalidatedFiles
                          (Some ({[file]} ∪ default ∅ (filesWithInvalidatedResolutions c)))
                          (withIsInvalidated ({[identity r]} ∪ isInvalidated c)
                             (nextResolution c) c))
                  else ({[(getDirectoryPath file, name)]} ∪ seen, c))
                 = ({[(getDirectoryPath file, name)]} ∪ seen, c1) /\
                 (forall j, j ∈ isInvalidated c -> j ∈ isInvalidated c1) /\
                 (isInvalidatedResolution r = true -> identity r ∈ isInvalidated c1) /\
                 (forall j, j ∈ isInvalidated c1 ->
                    j ∈ isInvalidated c \/
                    (j = identity r /\ isInvalidatedResolution r = true))).
      { destruct (negb (invalidatedIn c r) && isInvalidatedResolution r) eqn:Hmark.
        - eexists. split; [reflexivity|]. cbn [isInvalidated withInvalidatedFiles
                                                 withIsInvalidated].
          apply andb_true_iff in Hmark as [_ Hr].
          split; [intros j Hj; apply elem_of_union; right; exact Hj|].
          split; [intros _; apply elem_of_union; left; apply elem_of_singleton;
                  reflexivity|].
          intros j [->%elem_of_singleton|Hj]%elem_of_union; auto.
        - exists c. split; [reflexivity|]. split; [auto|]. split; [|auto].
          intros Hr. rewrite Hr, andb_true_r in Hmark.
          apply negb_false_iff in Hmark. unfold invalidatedIn in Hmark.
          apply bool_decide_eq_true in Hmark. exact Hmark. }
      destruct Hstep as (c1 & -> & Hkeep & Hmarked & Hfrom).
      rewrite IH; [|exact Hshared'|].
      * split.
        -- intros [Hi|(f&n&r'&Hl&?&?)].
           ++ destruct (Hfrom i Hi) as [?|[-> Hr]]; [auto|].
              right. exists file, name, r. split; [left|auto].
           ++ right. exists f, n, r'. split; [right; exact Hl|auto].
        -- intros [?|(f&n&r'&Hl&Hid&Hi)]; [auto|].
           apply elem_of_cons in Hl as [[= -> -> ->]|Hl].
           ++ left. rewrite <- Hid. apply Hmarked, Hi.
           ++ right. exists f, n, r'. auto.
      * intros f n r' Hl [Hhere%elem_of_singleton|Hthere]%elem_of_union Hr.
        -- injection Hhere as Hdir ->.
           rewrite (Hshared f file name r' r); [apply Hmarked| right; exact Hl | left |
                                                 exact Hdir].
           rewrite <- (Hshared f file name r' r); [exact Hr | right; exact Hl | left |
                                                   exact Hdir].
        -- apply Hkeep. apply (Hseen f n r'); [right; exact Hl | exact Hthere | exact Hr].
Qed.

Lemma invalidateResolutionCache_marks (k : ResolutionKind) isInvalidatedResolution
    (c : ResolutionCache) :
  sharedInDirectory (cachedResolutions (perFile k c)) ->
  exists files flags,
    invalidateResolutionCache k isInvalidatedResolution c =
    Returns tt (withInvalidatedFiles files (withIsInvalidated flags (nextResolution c) c)) /\
    forall i,
      i ∈ flags <->
      i ∈ isInvalidated c \/
      exists file name r,
        (file, name, r) ∈ cachedResolutions (perFile k c) /\ identity r = i /\
        isInvalidatedResolution r = true.
Proof.
  intros Hshared.
  destruct (invalidateResolutionCache_changes k isInvalidatedResolution c)
    as (files & flags & E).
  exists files, flags. split; [exact E|].
  unfold invalidateResolutionCache, update in E. injection E as E.
  assert (Hflags : flags = isInvalidated
                     (foldl (invalidateResolutionsOfContainingFile isInvalidatedResolution)
                            (∅, c) (perFile k c)).2).
  { rewrite E. reflexivity. }
  rewrite Hflags, foldl_cachedResolutions. apply visit_flags; [exact Hshared|].
  intros file name r _ Hin. set_solver.
Qed.

Lemma elem_of_cachedResolutions (file : Path) (name : string) (r : Resolution)
    (cache : JsMap.t (JsMap.t Resolution)) :
  (file, name, r) ∈ cachedResolutions cache <->
  exists resolutions, (file, resolutions) ∈ cache /\ (name, r) ∈ resolutions.
Proof.
  induction cache as [|[file0 resolutions0] cache IH].
  - split; [intros Hin; inversion Hin | intros (? & Hin & _); inversion Hin].
  - unfold cachedResolutions. cbn [fmap list_fmap concat].
    fold (cachedResolutions cache). rewrite elem_of_app, IH, list_elem_of_fmap. split.
    + intros [([name' r'] & [= -> -> ->] & Hin)|(resolutions & Hfile & Hin)].
      * exists resolutions0. split; [left | exact Hin].
      * exists resolutions. split; [right; exact Hfile | exact Hin].
    + intros (resolutions & [[= -> ->]|Hfile]%elem_of_cons & Hin).
      * left. exists (name, r). split; [reflexivity | exact Hin].
      * right. exists resolutions. split; assumption.
Qed.

Lemma elem_of_cachedResolutions_delete (file : Path) (name : string) (r : Resolution)
    (filePath : Path) (cache : JsMap.t (JsMap.t Resolution)) :
  (file, name, r) ∈ cachedResolutions (JsMap.delete filePath cache) <->
  (file, name, r) ∈ cachedResolutions cache /\ file <> filePath.
Proof.
  rewrite !elem_of_cachedResolutions. split.
  - intros (resolutions & [Hfile Hne]%elem_of_delete & Hin).
    split; [exists resolutions; split; assumption | exact Hne].
  - intros [(resolutions & Hfile & Hin) Hne]. exists resolutions.
    split; [apply elem_of_delete; split; assumption | exact Hin].
Qed.

Lemma delete_absent {V} (key : string) (m : JsMap.t V) :
  JsMap.get key m = None -> JsMap.delete key m = m.
Proof.
  unfold JsMap.delete. induction m as [|[k0 v0] m IH]; [reflexivity|].
  cbn [JsMap.get]. rewrite filter_cons. cbn [fst].
  destruct (String.eqb_spec k0 key) as [->|Hne]; [discriminate|].
  intros Hget. cbn [negb]. rewrite decide_True by exact I. rewrite (IH Hget). reflexivity.
Qed.

(** *** The watches that a removal releases *)

(** The directory whose watch stands for a failed lookup location. *)
Definition placedAt (c : ResolutionCache) (location : string) : option Path :=
  dirPath <$> getDirectoryToWatchFailedLookupLocation (rootOfResolution c) location
                (toPath location).

(** How many of the locations have their watch at the directory [d]. *)
Definition releasedAt (c : ResolutionCache) (locations : list string) (d : Path) : Z :=
  Z.of_nat (length (filter (fun location => placedAt c location = Some d) locations)).

(** The directory watches of [c'] are those of [c], with one reference less
    for every one of the locations; no watcher is closed. *)
Definition released (locations : list string) (c c' : ResolutionCache) : Prop :=
  closedWatchers c' = closedWatchers c /\
  forall d,
    directoryWatchesOfFailedLookups c' !! d =
    (fun w => {| watcher := watcher w;
                 refCount := (refCount w - releasedAt c locations d)%Z |})
      <$> directoryWatchesOfFailedLookups c !! d.

Lemma released_nil (c : ResolutionCache) : released [] c c.
Proof.
  split; [reflexivity|]. intros d.
  destruct (directoryWatchesOfFailedLookups c !! d) as [[w n]|]; [|reflexivity].
  cbn. unfold releasedAt. cbn. rewrite Z.sub_0_r. reflexivity.
Qed.

Lemma released_app (l1 l2 : list string) (c c1 c2 : ResolutionCache) :
  released l1 c c1 -> rootOfResolution c1 = rootOfResolution c -> released l2 c1 c2 ->
  released (l1 ++ l2) c c2.
Proof.
  intros [Hclosed1 Hw1] Hroot [Hclosed2 Hw2]. split; [congruence|].
  intros d. rewrite Hw2, Hw1.
  assert (Hat : releasedAt c1 l2 d = releasedAt c l2 d).
  { unfold releasedAt, placedAt. rewrite Hroot. reflexivity. }
  assert (Hsum : releasedAt c (l1 ++ l2) d = (releasedAt c l1 d + releasedAt c l2 d)%Z).
  { unfold releasedAt. rewrite filter_app, length_app, Nat2Z.inj_add. reflexivity. }
  destruct (directoryWatchesOfFailedLookups c !! d) as [[w n]|]; [|reflexivity].
  cbn. rewrite Hat, Hsum. do 2 f_equal. lia.
Qed.

Lemma released_ext (locations : list string) (c c1 c1' : ResolutionCache) :
  closedWatchers c1' = closedWatchers c1 ->
  directoryWatchesOfFailedLookups c1' = directoryWatchesOfFailedLookups c1 ->
  released locations c c1 -> released locations c c1'.
Proof. intros Hclosed Hwatches [H1 H2]. split; [congruence|]. rewrite Hwatches. exact H2. Qed.

Lemma stopWatchFailedLookupLocation_released (location : string)
    (c c1 : ResolutionCache) :
  stopWatchFailedLookupLocation location c = Returns tt c1 ->
  released [location] c c1 /\ onlyWatchesChange c c1.
Proof.
  intros Hstop. split.
  - rewrite stopWatchFailedLookupLocation_outcome in Hstop.
    destruct (customCountIsNegative c location); [discriminate|]. cbv zeta in Hstop.
    destruct (getDirectoryToWatchFailedLookupLocation (rootOfResolution c) location
                (toPath location)) as [w|] eqn:Hplace; [|discriminate].
    destruct (directoryWatchesOfFailedLookups c !! dirPath w) as [dirWatcher|] eqn:Hd;
      [|discriminate].
    injection Hstop as <-. split; [destruct c; reflexivity|]. intros d.
    assert (directoryWatchesOfFailedLookups
              (withWatches (customAfterStop c location)
                 (<[dirPath w := {| watcher := watcher dirWatcher;
                                    refCount := (refCount dirWatcher - 1)%Z |}]>
                    (directoryWatchesOfFailedLookups c))
                 (nextWatcher c) (closedWatchers c) c)
            = <[dirPath w := {| watcher := watcher dirWatcher;
                                refCount := (refCount dirWatcher - 1)%Z |}]>
                (directoryWatchesOfFailedLookups c)) as -> by (destruct c; reflexivity).
    assert (Hat : placedAt c location = Some (dirPath w)).
    { unfold placedAt. rewrite Hplace. reflexivity. }
    unfold releasedAt. rewrite filter_cons, filter_nil.
    destruct (decide (d = dirPath w)) as [->|Hne].
    + rewrite lookup_insert_eq, Hd, decide_True by exact Hat. reflexivity.
    + rewrite lookup_insert_ne by congruence.
      rewrite decide_False by (rewrite Hat; congruence).
      destruct (directoryWatchesOfFailedLookups c !! d) as [[w' n]|]; [|reflexivity].
      cbn. rewrite Z.sub_0_r. reflexivity.
  - pose proof (stopWatchFailedLookupLocation_stays location c) as [Hw _].
    rewrite Hstop in Hw. exact Hw.
Qed.

Lemma stopLocations_released (locations : list string) (c c1 : ResolutionCache) :
  forEach stopWatchFailedLookupLocation locations c = Returns tt c1 ->
  released locations c c1 /\ onlyWatchesChange c c1.
Proof.
  revert c. induction locations as [|location locations IH]; intros c.
  - intros [= <-]. split; [apply released_nil | reflexivity].
  - cbn [forEach]. intros ([] & cm & Hstop & Hrest)%bind_Returns_inv.
    destruct (stopWatchFailedLookupLocation_released location c cm Hstop) as [Hr1 Hw1].
    destruct (IH cm Hrest) as [Hr2 Hw2]. split; [|etrans; eassumption].
    apply (released_app [location] locations c cm c1 Hr1); [|exact Hr2].
    apply onlyWatchesChange_root, Hw1.
Qed.

(** The failed lookup locations of the resolutions of a file. *)
Definition locationsOf (resolutions : JsMap.t Resolution) : list string :=
  concat ((fun named : string * Resolution => failedLookupLocations named.2) <$> resolutions).

Lemma stopResolutions_released (resolutions : JsMap.t Resolution)
    (c c1 : ResolutionCache) :
  forEach (fun '(_, r) => stopWatchFailedLookupLocationOfResolution r) resolutions c
    = Returns tt c1 ->
  released (locationsOf resolutions) c c1 /\ onlyWatchesChange c c1.
Proof.
  revert c. induction resolutions as [|[name r] resolutions IH]; intros c.
  - intros [= <-]. split; [apply released_nil | reflexivity].
  - cbn [forEach]. intros ([] & cm & Hstop & Hrest)%bind_Returns_inv.
    destruct (stopLocations_released (failedLookupLocations r) c cm Hstop) as [Hr1 Hw1].
    destruct (IH cm Hrest) as [Hr2 Hw2]. split; [|etrans; eassumption].
    apply (released_app (failedLookupLocations r) (locationsOf resolutions) c cm c1 Hr1);
      [|exact Hr2].
    apply onlyWatchesChange_root, Hw1.
Qed.

Lemma removeResolutionsOfFileFromCache_returns (k : ResolutionKind) (filePath : Path)
    (c c1 : ResolutionCache) :
  removeResolutionsOfFileFromCache k filePath c = Returns tt c1 ->
  exists c0,
    released (locationsOf (resolutionsOf (perFile k c) filePath)) c c0 /\
    onlyWatchesChange c c0 /\
    c1 = withPerFile k (JsMap.delete filePath (perFile k c)) c0.
Proof.
  unfold removeResolutionsOfFileFromCache. erewrite bind_Returns by reflexivity. unfold id.
  unfold resolutionsOf.
  destruct (JsMap.get filePath (perFile k c)) as [resolutions|] eqn:Hget; cbn [default].
  - intros ([] & c0 & Hstop & [= <-])%bind_Returns_inv.
    destruct (stopResolutions_released resolutions c c0 Hstop) as [Hr Hw].
    exists c0. split; [exact Hr|]. split; [exact Hw|].
    destruct (onlyWatchesChange_members k _ _ Hw) as (-> & _). reflexivity.
  - intros [= <-]. exists c. split; [apply released_nil|]. split; [reflexivity|].
    rewrite (delete_absent _ _ Hget). destruct c, k; reflexivity.
Qed.

(** The failed lookup locations of the resolutions that the file
    [filePath] holds as a containing file. *)
Definition purgedLocations (filePath : Path) (c : ResolutionCache) : list string :=
  locationsOf (resolutionsOf (resolvedModuleNames c) filePath) ++
  locationsOf (resolutionsOf (resolvedTypeReferenceDirectives c) filePath).

Lemma removeResolutionsOfFile_returns (filePath : Path) (c c1 : ResolutionCache) :
  removeResolutionsOfFile filePath c = Returns tt c1 ->
  released (purgedLocations filePath c) c c1 /\
  (forall k, perFile k c1 = JsMap.delete filePath (perFile k c)) /\
  (forall k, perDirectory k c1 = perDirectory k c) /\
  isInvalidated c1 = isInvalidated c /\
  allFilesHaveInvalidatedResolution c1 = allFilesHaveInvalidatedResolution c /\
  nextResolution c1 = nextResolution c.
Proof.
  unfold removeResolutionsOfFile. intros ([] & cm & Hmodules & Htypes)%bind_Returns_inv.
  destruct (removeResolutionsOfFileFromCache_returns _ _ _ _ Hmodules)
    as (c0 & Hr0 & Hw0 & Hcm).
  destruct (removeResolutionsOfFileFromCache_returns _ _ _ _ Htypes)
    as (c0' & Hr1 & Hw1 & Hc1).
  pose proof (onlyWatchesChange_root _ _ Hw0) as Hroot0.
  pose proof (onlyWatchesChange_root _ _ Hw1) as Hroot1.
  destruct (onlyWatchesChange_members ModuleName _ _ Hw0)
    as (Hm0 & Hdm0 & Hflags0 & Hnext0 & _ & Hall0).
  destruct (onlyWatchesChange_members TypeReferenceDirective _ _ Hw0)
    as (Ht0 & Hdt0 & _).
  destruct (onlyWatchesChange_members ModuleName _ _ Hw1)
    as (Hm1 & Hdm1 & Hflags1 & Hnext1 & _ & Hall1).
  destruct (onlyWatchesChange_members TypeReferenceDirective _ _ Hw1)
    as (Ht1 & Hdt1 & _).
  cbn [perFile perDirectory] in *.
  assert (Htypes_cm : resolvedTypeReferenceDirectives cm
                      = resolvedTypeReferenceDirectives c).
  { rewrite Hcm. cbn. exact Ht0. }
  split; [|split; [|split; [|split; [|split]]]].
  - unfold purgedLocations.
    apply (released_app _ _ c cm c1).
    + eapply released_ext; [| |exact Hr0]; rewrite Hcm; reflexivity.
    + rewrite Hcm. cbn. exact Hroot0.
    + rewrite <- Htypes_cm.
      eapply released_ext; [| |exact Hr1]; rewrite Hc1; reflexivity.
  - intros []; cbn [perFile]; rewrite Hc1; cbn.
    + rewrite Hm1, Hcm. cbn. reflexivity.
    + rewrite Htypes_cm. reflexivity.
  - intros []; cbn [perDirectory]; rewrite Hc1; cbn.
    + rewrite Hdm1, Hcm. cbn. exact Hdm0.
    + rewrite Hdt1, Hcm. cbn. exact Hdt0.
  - rewrite Hc1. cbn. rewrite Hflags1, Hcm. cbn. exact Hflags0.
  - rewrite Hc1. cbn. rewrite Hall1, Hcm. cbn. exact Hall0.
  - rewrite Hc1. cbn. rewrite Hnext1, Hcm. cbn. exact Hnext0.
Qed.

(** *** The scan of the invalidation *)

(** The resolutions that the scan of [invalidateResolutionCache] tests: of
    the resolutions that the containing files of one directory hold for a
    name, the one that the scan meets first; [seen] holds the pairs of a
    directory and a name that were met before. *)
Fixpoint scannedFrom (seen : gset (Path * string)) (l : list (Path * string * Resolution))
  : list (Path * string * Resolution) :=
  match l with
  | [] => []
  | (file, name, r) :: rest =>
      if bool_decide ((getDirectoryPath file, name) ∈ seen) then scannedFrom seen rest
      else (file, name, r) :: scannedFrom ({[ (getDirectoryPath file, name) ]} ∪ seen) rest
  end.

Definition scanned (l : list (Path * string * Resolution))
  : list (Path * string * Resolution) :=
  scannedFrom ∅ l.

Lemma scannedFrom_sublist (l : list (Path * string * Resolution)) :
  forall seen t, t ∈ scannedFrom seen l -> t ∈ l.
Proof.
  induction l as [|[[file name] r] l IH]; intros seen t; cbn [scannedFrom];
    [intros Hin; inversion Hin|].
  destruct (bool_decide ((getDirectoryPath file, name) ∈ seen)).
  - intros Hin. right. exact (IH _ _ Hin).
  - intros [->|Hin]%elem_of_cons; [left | right; exact (IH _ _ Hin)].
Qed.

Lemma visit_scanned isInvalidatedResolution (l : list (Path * string * Resolution)) :
  forall seen c i,
    i ∈ isInvalidated (foldl (visit isInvalidatedResolution) (seen, c) l).2 <->
    i ∈ isInvalidated c \/
    exists file name r,
      (file, name, r) ∈ scannedFrom seen l /\ identity r = i /\
      isInvalidatedResolution r = true.
Proof.
  induction l as [|[[file name] r] l IH]; intros seen c i.
  - cbn. split; [auto|]. intros [?|(?&?&?&Hin&_)]; [assumption|]. inversion Hin.
  - cbn [foldl visit invalidateResolutionOfName scannedFrom].
    destruct (bool_decide ((getDirectoryPath file, name) ∈ seen)); [apply IH|].
    destruct (negb (invalidatedIn c r) && isInvalidatedResolution r) eqn:Hmark.
    + rewrite IH. cbn [isInvalidated withInvalidatedFiles withIsInvalidated].
      apply andb_true_iff in Hmark as [_ Hr]. rewrite elem_of_union, elem_of_singleton.
      split.
      * intros [[->|Hi]|(f & n & r' & Hin & Hid & Hr')]; [| auto |].
        -- right. exists file, name, r. split; [left|auto].
        -- right. exists f, n, r'. split; [right; exact Hin|auto].
      * intros [Hi|(f & n & r' & [[= -> -> ->]|Hin]%elem_of_cons & Hid & Hr')]; [auto| |].
        -- left. left. symmetry. exact Hid.
        -- right. exists f, n, r'. auto.
    + rewrite IH. split.
      * intros [Hi|(f & n & r' & Hin & Hid & Hr')]; [auto|].
        right. exists f, n, r'. split; [right; exact Hin|auto].
      * intros [Hi|(f & n & r' & [[= -> -> ->]|Hin]%elem_of_cons & Hid & Hr')]; [auto| |].
        -- left. rewrite Hr', andb_true_r in Hmark. apply negb_false_iff in Hmark.
           unfold invalidatedIn in Hmark. apply bool_decide_eq_true in Hmark.
           rewrite <- Hid. exact Hmark.
        -- right. exists f, n, r'. auto.
Qed.

Lemma invalidateResolutionCache_scans (k : ResolutionKind) isInvalidatedResolution
    (c : ResolutionCache) :
  exists files flags,
    invalidateResolutionCache k isInvalidatedResolution c =
    Returns tt (withInvalidatedFiles files (withIsInvalidated flags (nextResolution c) c)) /\
    forall i,
      i ∈ flags <->
      i ∈ isInvalidated c \/
      exists file name r,
        (file, name, r) ∈ scanned (cachedResolutions (perFile k c)) /\ identity r = i /\
        isInvalidatedResolution r = true.
Proof.
  destruct (invalidateResolutionCache_changes k isInvalidatedResolution c)
    as (files & flags & E).
  exists files, flags. split; [exact E|].
  unfold invalidateResolutionCache, update in E. injection E as E.
  assert (Hflags : flags = isInvalidated
                     (foldl (invalidateResolutionsOfContainingFile isInvalidatedResolution)
                            (∅, c) (perFile k c)).2).
  { rewrite E. reflexivity. }
  rewrite Hflags, foldl_cachedResolutions. apply visit_scanned.
Qed.


(** C1, amended.  When the resolutions that the file holds as a containing
    file can be released, [invalidateResolutionOfFile] returns; it removes
    the entries of the file from both caches and leaves the other entries
    and the resolutions of the directories as they are; the directory
    watches lose one reference for every failed lookup location of the
    removed resolutions, with no watcher closed; the flags that are set stay
    set, and a flag that it sets is that of a resolution to the file, cached
    for another containing file.  When more containing files stay cached
    than the ceiling allows it sets no flag, and sets
    [allFilesHaveInvalidatedResolution] instead.  Otherwise it sets the flag
    of every resolution to the file that its scan tests, the first
    resolution of a name among the containing files of a directory; these
    are all the resolutions to the file when the containing files of a
    directory share their resolution of a name, as they do when they are
    resolved in one pass. *)
Theorem invalidateResolutionOfFile_marks_resolutions_to_file
    (filePath : Path) (c c1 : ResolutionCache) :
  removeResolutionsOfFile filePath c = Returns tt c1 ->
  exists c',
    invalidateResolutionOfFile filePath c = Returns tt c' /\
    (forall k, perFile k c' = JsMap.delete filePath (perFile k c)) /\
    (forall k, perDirectory k c' = perDirectory k c) /\
    released (purgedLocations filePath c) c c' /\
    (forall i, i ∈ isInvalidated c -> i ∈ isInvalidated c') /\
    (forall i,
       i ∈ isInvalidated c' ->
       i ∈ isInvalidated c \/
       exists k file name r,
         (file, name, r) ∈ cachedResolutions (perFile k c) /\ file <> filePath /\
         identity r = i /\ resolvesTo filePath r = true) /\
    if hasReachedResolutionIterationLimit c1
    then isInvalidated c' = isInvalidated c /\
         allFilesHaveInvalidatedResolution c' = true
    else
      allFilesHaveInvalidatedResolution c' = allFilesHaveInvalidatedResolution c /\
      (forall k file name r,
         (file, name, r) ∈ scanned (cachedResolutions (perFile k c1)) ->
         resolvesTo filePath r = true -> identity r ∈ isInvalidated c') /\
      (sharedInDirectory (cachedResolutions (resolvedModuleNames c1)) ->
       sharedInDirectory (cachedResolutions (resolvedTypeReferenceDirectives c1)) ->
       forall k file name r,
         (file, name, r) ∈ cachedResolutions (perFile k c) -> file <> filePath ->
         resolvesTo filePath r = true -> identity r ∈ isInvalidated c').
Proof.
  intros Hremove.
  destruct (removeResolutionsOfFile_returns filePath c c1 Hremove)
    as (Hreleased & Hfile & Hdir & Hflags & Hall & Hnext).
  destruct (hasReachedResolutionIterationLimit c1) eqn:Hlimit.
  - exists (withAllFilesInvalidated true c1).
    split; [|split; [|split; [|split; [|split; [|split]]]]].
    + unfold invalidateResolutionOfFile. erewrite bind_Returns by exact Hremove.
      apply invalidateResolutions_over_ceiling, hasReachedResolutionIterationLimit_spec.
      exact Hlimit.
    + intros k. rewrite <- Hfile. destruct c1, k; reflexivity.
    + intros k. rewrite <- Hdir. destruct c1, k; reflexivity.
    + eapply released_ext; [| |exact Hreleased]; destruct c1; reflexivity.
    + intros i Hi. rewrite <- Hflags in Hi. destruct c1; exact Hi.
    + intros i Hi. left. rewrite <- Hflags. destruct c1; exact Hi.
    + split; [rewrite <- Hflags|]; destruct c1; reflexivity.
  - destruct (invalidateResolutionCache_scans ModuleName (resolvesTo filePath) c1)
      as (files2 & flags2 & Hc2 & Hmarks2).
    set (c2 := withInvalidatedFiles files2 (withIsInvalidated flags2 (nextResolution c1) c1))
      in *.
    destruct (invalidateResolutionCache_scans TypeReferenceDirective (resolvesTo filePath) c2)
      as (files3 & flags3 & Hc3 & Hmarks3).
    set (c3 := withInvalidatedFiles files3 (withIsInvalidated flags3 (nextResolution c2) c2))
      in *.
    assert (Hscan : forall i,
              i ∈ isInvalidated c3 <->
              i ∈ isInvalidated c \/
              exists k file name r,
                (file, name, r) ∈ scanned (cachedResolutions (perFile k c1)) /\
                identity r = i /\ resolvesTo filePath r = true).
    { intros i. change (isInvalidated c3) with flags3. rewrite Hmarks3.
      change (isInvalidated c2) with flags2. rewrite Hmarks2, Hflags.
      change (perFile TypeReferenceDirective c2) with (perFile TypeReferenceDirective c1).
      split.
      - intros [[Hi|(file & name & r & Hin)]|(file & name & r & Hin)]; [auto| |].
        + right. exists ModuleName, file, name, r. exact Hin.
        + right. exists TypeReferenceDirective, file, name, r. exact Hin.
      - intros [Hi|([] & file & name & r & Hin)]; [auto| |].
        + left. right. exists file, name, r. exact Hin.
        + right. exists file, name, r. exact Hin. }
    exists c3. split; [|split; [|split; [|split; [|split; [|split]]]]].
    + unfold invalidateResolutionOfFile. erewrite bind_Returns by exact Hremove.
      unfold invalidateResolutions. erewrite bind_Returns by reflexivity. unfold id.
      rewrite Hlimit. erewrite bind_Returns by exact Hc2. exact Hc3.
    + intros k. rewrite <- Hfile. destruct k; reflexivity.
    + intros k. rewrite <- Hdir. destruct k; reflexivity.
    + eapply released_ext; [| |exact Hreleased]; reflexivity.
    + intros i Hi. apply Hscan. left. exact Hi.
    + intros i [Hi|(k & file & name & r & Hin & Hid & Hr)]%Hscan; [auto|].
      unfold scanned in Hin. apply scannedFrom_sublist in Hin. rewrite Hfile in Hin.
      apply elem_of_cachedResolutions_delete in Hin as [Hin Hne].
      right. exists k, file, name, r. auto.
    + split; [rewrite <- Hall; reflexivity|]. split.
      { intros k file name r Hin Hr. apply Hscan. right. exists k, file, name, r. auto. }
      intros Hmodules Htypes k file name r Hin Hne Hr.
      destruct (invalidateResolutionCache_marks ModuleName (resolvesTo filePath) c1 Hmodules)
        as (files2' & flags2' & Hc2' & Hall2).
      assert (flags2' = flags2) as ->.
      { rewrite Hc2 in Hc2'. apply (f_equal stateAfter) in Hc2'.
        apply (f_equal isInvalidated) in Hc2'. symmetry. exact Hc2'. }
      destruct (invalidateResolutionCache_marks TypeReferenceDirective (resolvesTo filePath)
                  c2 Htypes) as (files3' & flags3' & Hc3' & Hall3).
      assert (flags3' = flags3) as ->.
      { rewrite Hc3 in Hc3'. apply (f_equal stateAfter) in Hc3'.
        apply (f_equal isInvalidated) in Hc3'. symmetry. exact Hc3'. }
      change (isInvalidated c3) with flags3. apply Hall3.
      change (isInvalidated c2) with flags2.
      change (perFile TypeReferenceDirective c2) with (perFile TypeReferenceDirective c1).
      destruct k.
      * left. apply Hall2. right. exists file, name, r.
        split; [rewrite Hfile; apply elem_of_cachedResolutions_delete; auto | auto].
      * right. exists file, name, r.
        split; [rewrite Hfile; apply elem_of_cachedResolutions_delete; auto | auto].
Qed.

End InvalidationFacts.

(** A test of [sharedInDirectory] that runs. *)

Section SharedInDirectory.
Context `{!CoreLibrary}.

#[global] Instance ResolvedFile_eq_dec : EqDecision ResolvedFile.
Proof. solve_decision. Defined.

#[global] Instance Resolution_eq_dec : EqDecision Resolution.
Proof. solve_decision. Defined.

Definition sharesInDirectory (l : list (Path * string * Resolution)) : bool :=
  forallb (fun t1 =>
    forallb (fun t2 =>
      negb (String.eqb t1.1.2 t2.1.2 &&
            String.eqb (getDirectoryPath t1.1.1) (getDirectoryPath t2.1.1))
      || bool_decide (t1.2 = t2.2)) l) l.

Lemma sharesInDirectory_sound (l : list (Path * string * Resolution)) :
  sharesInDirectory l = true -> sharedInDirectory l.
Proof.
  unfold sharesInDirectory. rewrite forallb_forall.
  intros Hall file1 file2 name r1 r2 H1%list_elem_of_In H2%list_elem_of_In Hdir.
  specialize (Hall _ H1). rewrite forallb_forall in Hall. specialize (Hall _ H2).
  cbn [fst snd] in Hall. rewrite String.eqb_refl, Hdir, String.eqb_refl in Hall.
  cbn in Hall. apply bool_decide_eq_true in Hall. exact Hall.
Qed.

End SharedInDirectory.

(** ** The resolution cache: reference counts, passes and watchers *)

Section MoreJsMapFacts.

Lemma get_delete_eq {V} (key : string) (m : JsMap.t V) :
  JsMap.get key (JsMap.delete key m) = None.
Proof.
  unfold JsMap.delete. induction m as [|[k0 v0] m IH]; [reflexivity|].
  rewrite filter_cons. cbn [fst].
  destruct (String.eqb_spec k0 key) as [->|Hne]; cbn [negb].
  - rewrite decide_False by (cbn; tauto). exact IH.
  - rewrite decide_True by exact I. cbn [JsMap.get].
    destruct (String.eqb_spec k0 key); [contradiction | exact IH].
Qed.

End MoreJsMapFacts.


(** *** The reference counts of the directory watches *)

Section WatchCounts.
Context `{!CoreLibrary} `{!ResolutionCacheHost}.

(** The directory watches of [c'] are those of [c] with one reference more
    for every one of the locations: a directory that had a watch keeps its
    watcher, a directory that had none and has a location gets a watcher
    that was made in between; no watcher is closed. *)
Definition acquired (locations : list string) (c c' : ResolutionCache) : Prop :=
  closedWatchers c' = closedWatchers c /\
  nextWatcher c <= nextWatcher c' /\
  forall d,
    match directoryWatchesOfFailedLookups c !! d with
    | Some w =>
        directoryWatchesOfFailedLookups c' !! d =
        Some {| watcher := watcher w;
                refCount := (refCount w + releasedAt c locations d)%Z |}
    | None =>
        if (releasedAt c locations d =? 0)%Z
        then directoryWatchesOfFailedLookups c' !! d = None
        else exists handle,
               directoryWatchesOfFailedLookups c' !! d =
               Some {| watcher := handle; refCount := releasedAt c locations d |} /\
               nextWatcher c <= watcherId handle < nextWatcher c'
    end.

Lemma releasedAt_nil (c : ResolutionCache) (d : Path) : releasedAt c [] d = 0%Z.
Proof. reflexivity. Qed.

Lemma releasedAt_app (c : ResolutionCache) (l1 l2 : list string) (d : Path) :
  releasedAt c (l1 ++ l2) d = (releasedAt c l1 d + releasedAt c l2 d)%Z.
Proof. unfold releasedAt. rewrite filter_app, length_app, Nat2Z.inj_add. reflexivity. Qed.

Lemma releasedAt_nonneg (c : ResolutionCache) (l : list string) (d : Path) :
  (0 <= releasedAt c l d)%Z.
Proof. unfold releasedAt. lia. Qed.

Lemma releasedAt_root (c c' : ResolutionCache) (l : list string) (d : Path) :
  rootOfResolution c' = rootOfResolution c -> releasedAt c' l d = releasedAt c l d.
Proof. intros Hroot. unfold releasedAt, placedAt. rewrite Hroot. reflexivity. Qed.

Lemma releasedAt_singleton (c : ResolutionCache) (location : string) (d : Path) :
  releasedAt c [location] d = if decide (placedAt c location = Some d) then 1%Z else 0%Z.
Proof.
  unfold releasedAt. rewrite filter_cons, filter_nil.
  destruct (decide (placedAt c location = Some d)); reflexivity.
Qed.

Lemma acquired_nil (c : ResolutionCache) : acquired [] c c.
Proof.
  split; [reflexivity|]. split; [lia|]. intros d.
  destruct (directoryWatchesOfFailedLookups c !! d) as [[w n]|] eqn:Hd; cbn.
  - rewrite Z.add_0_r. reflexivity.
  - reflexivity.
Qed.

Lemma acquired_app (l1 l2 : list string) (c c1 c2 : ResolutionCache) :
  acquired l1 c c1 -> rootOfResolution c1 = rootOfResolution c -> acquired l2 c1 c2 ->
  acquired (l1 ++ l2) c c2.
Proof.
  intros (Hclosed1 & Hnext1 & Hw1) Hroot (Hclosed2 & Hnext2 & Hw2).
  split; [congruence|]. split; [lia|]. intros d.
  specialize (Hw1 d). specialize (Hw2 d).
  rewrite releasedAt_app. rewrite (releasedAt_root c c1 l2 d Hroot) in Hw2.
  pose proof (releasedAt_nonneg c l1 d) as Hn1.
  pose proof (releasedAt_nonneg c l2 d) as Hn2.
  destruct (directoryWatchesOfFailedLookups c !! d) as [w|].
  - rewrite Hw1 in Hw2. cbn in Hw2. rewrite Hw2. do 2 f_equal. lia.
  - destruct (Z.eqb_spec (releasedAt c l1 d) 0) as [Hz1|Hz1].
    + rewrite Hw1 in Hw2. rewrite Hz1, Z.add_0_l.
      destruct (Z.eqb_spec (releasedAt c l2 d) 0); [exact Hw2|].
      destruct Hw2 as (handle & Hd & Hid). exists handle. split; [exact Hd | lia].
    + destruct Hw1 as (handle & Hd & Hid). rewrite Hd in Hw2. cbn in Hw2.
      destruct (Z.eqb_spec (releasedAt c l1 d + releasedAt c l2 d) 0); [lia|].
      exists handle. split; [exact Hw2 | lia].
Qed.

Lemma watchFailedLookupLocation_acquired (location : string) (c c1 : ResolutionCache) :
  watchFailedLookupLocation location c = Returns tt c1 ->
  acquired [location] c c1 /\ onlyWatchesChange c c1.
Proof.
  intros Hwatch. split.
  - rewrite watchFailedLookupLocation_outcome in Hwatch. cbv zeta in Hwatch.
    destruct (getDirectoryToWatchFailedLookupLocation (rootOfResolution c) location
                (toPath location)) as [w|] eqn:Hplace; [|discriminate].
    assert (Hat : placedAt c location = Some (dirPath w)).
    { unfold placedAt. rewrite Hplace. reflexivity. }
    destruct (directoryWatchesOfFailedLookups c !! dirPath w) as [dirWatcher|] eqn:Hd;
      injection Hwatch as <-.
    + split; [destruct c; reflexivity|]. split; [destruct c; cbn; lia|]. intros d.
      assert (directoryWatchesOfFailedLookups
                (withWatches (customAfterWatch c location)
                   (<[dirPath w := {| watcher := watcher dirWatcher;
                                      refCount := (refCount dirWatcher + 1)%Z |}]>
                      (directoryWatchesOfFailedLookups c))
                   (nextWatcher c) (closedWatchers c) c)
              = <[dirPath w := {| watcher := watcher dirWatcher;
                                  refCount := (refCount dirWatcher + 1)%Z |}]>
                  (directoryWatchesOfFailedLookups c)) as -> by (destruct c; reflexivity).
      rewrite releasedAt_singleton.
      destruct (decide (d = dirPath w)) as [->|Hne].
      * rewrite Hd, lookup_insert_eq, decide_True by exact Hat. reflexivity.
      * rewrite lookup_insert_ne by congruence.
        rewrite decide_False by (rewrite Hat; congruence).
        destruct (directoryWatchesOfFailedLookups c !! d) as [[w' n]|]; [|reflexivity].
        cbn. rewrite Z.add_0_r. reflexivity.
    + split; [destruct c; reflexivity|]. split; [destruct c; cbn; lia|]. intros d.
      assert (directoryWatchesOfFailedLookups
                (withWatches (customAfterWatch c location)
                   (<[dirPath w := {| watcher := {| watcherId := nextWatcher c;
                                                    watchedPath := dir w |};
                                      refCount := 1%Z |}]>
                      (directoryWatchesOfFailedLookups c))
                   (S (nextWatcher c)) (closedWatchers c) c)
              = <[dirPath w := {| watcher := {| watcherId := nextWatcher c;
                                                watchedPath := dir w |};
                                  refCount := 1%Z |}]>
                  (directoryWatchesOfFailedLookups c)) as -> by (destruct c; reflexivity).
      assert (nextWatcher
                (withWatches (customAfterWatch c location)
                   (<[dirPath w := {| watcher := {| watcherId := nextWatcher c;
                                                    watchedPath := dir w |};
                                      refCount := 1%Z |}]>
                      (directoryWatchesOfFailedLookups c))
                   (S (nextWatcher c)) (closedWatchers c) c)
              = S (nextWatcher c)) as -> by (destruct c; reflexivity).
      rewrite releasedAt_singleton.
      destruct (decide (d = dirPath w)) as [->|Hne].
      * rewrite Hd, decide_True by exact Hat. cbn.
        eexists. split; [apply lookup_insert_eq|]. cbn. lia.
      * rewrite lookup_insert_ne by congruence.
        rewrite decide_False by (rewrite Hat; congruence).
        destruct (directoryWatchesOfFailedLookups c !! d) as [[w' n]|]; [|reflexivity].
        cbn. rewrite Z.add_0_r. reflexivity.
  - pose proof (watchFailedLookupLocation_grows location c) as [Hw _].
    rewrite Hwatch in Hw. exact Hw.
Qed.

Lemma watchLocations_acquired (locations : list string) (c c1 : ResolutionCache) :
  forEach watchFailedLookupLocation locations c = Returns tt c1 ->
  acquired locations c c1 /\ onlyWatchesChange c c1.
Proof.
  revert c. induction locations as [|location locations IH]; intros c.
  - intros [= <-]. split; [apply acquired_nil | reflexivity].
  - cbn [forEach]. intros ([] & cm & Hwatch & Hrest)%bind_Returns_inv.
    destruct (watchFailedLookupLocation_acquired location c cm Hwatch) as [Ha1 Hw1].
    destruct (IH cm Hrest) as [Ha2 Hw2]. split; [|etrans; eassumption].
    apply (acquired_app [location] locations c cm c1 Ha1); [|exact Ha2].
    apply onlyWatchesChange_root, Hw1.
Qed.

(** *** The custom failed lookup paths *)

(** How many of the locations have the path [p] with an extension that is
    not one of the default ones, and how many have the path [p] at all. *)
Definition customAt (locations : list string) (p : Path) : Z :=
  Z.of_nat (length (filter (fun location =>
                              toPath location = p /\
                              isPathWithDefaultFailedLookupExtension (toPath location) = false)
                           locations)).

Definition stopsAt (locations : list string) (p : Path) : Z :=
  Z.of_nat (length (filter (fun location => toPath location = p) locations)).

Lemma customAt_app (l1 l2 : list string) (p : Path) :
  customAt (l1 ++ l2) p = (customAt l1 p + customAt l2 p)%Z.
Proof. unfold customAt. rewrite filter_app, length_app, Nat2Z.inj_add. reflexivity. Qed.

Lemma stopsAt_app (l1 l2 : list string) (p : Path) :
  stopsAt (l1 ++ l2) p = (stopsAt l1 p + stopsAt l2 p)%Z.
Proof. unfold stopsAt. rewrite filter_app, length_app, Nat2Z.inj_add. reflexivity. Qed.

Lemma customAt_nonneg (l : list string) (p : Path) : (0 <= customAt l p)%Z.
Proof. unfold customAt. lia. Qed.

Lemma stopsAt_nonneg (l : list string) (p : Path) : (0 <= stopsAt l p)%Z.
Proof. unfold stopsAt. lia. Qed.

Lemma customAt_stopsAt (l : list string) (p : Path) :
  customAt l p =
  if isPathWithDefaultFailedLookupExtension p then 0%Z else stopsAt l p.
Proof.
  unfold customAt, stopsAt. induction l as [|location l IH].
  - destruct (isPathWithDefaultFailedLookupExtension p); reflexivity.
  - rewrite !filter_cons.
    destruct (decide (toPath location = p)) as [Hp|Hp].
    + destruct (isPathWithDefaultFailedLookupExtension p) eqn:Hext.
      * rewrite decide_False by (rewrite Hp, Hext; intros [_ ?]; discriminate). exact IH.
      * rewrite decide_True by (rewrite Hp, Hext; auto).
        cbn [length]. rewrite !Nat2Z.inj_succ, IH. reflexivity.
    + rewrite decide_False by tauto. exact IH.
Qed.

(** The custom paths of [c'] are those of [c], with one reference more for
    every one of the locations whose path has no default extension. *)
Definition customAcquired (locations : list string) (c c' : ResolutionCache) : Prop :=
  forall p,
    customFailedLookupPaths c' !! p =
    if (customAt locations p =? 0)%Z then customFailedLookupPaths c !! p
    else Some (default 0%Z (customFailedLookupPaths c !! p) + customAt locations p)%Z.

Lemma customAcquired_app (l1 l2 : list string) (c c1 c2 : ResolutionCache) :
  customAcquired l1 c c1 -> customAcquired l2 c1 c2 -> customAcquired (l1 ++ l2) c c2.
Proof.
  intros H1 H2 p. rewrite (H2 p), (H1 p), customAt_app.
  pose proof (customAt_nonneg l1 p). pose proof (customAt_nonneg l2 p).
  destruct (Z.eqb_spec (customAt l2 p) 0) as [Hz2|Hz2].
  - rewrite Hz2, Z.add_0_r. reflexivity.
  - destruct (Z.eqb_spec (customAt l1 p) 0) as [Hz1|Hz1].
    + rewrite Hz1, Z.add_0_l. destruct (Z.eqb_spec (customAt l2 p) 0); [lia|reflexivity].
    + destruct (Z.eqb_spec (customAt l1 p + customAt l2 p) 0); [lia|].
      cbn. f_equal. lia.
Qed.

Lemma watchFailedLookupLocation_custom (location : string) (c c1 : ResolutionCache) :
  watchFailedLookupLocation location c = Returns tt c1 -> customAcquired [location] c c1.
Proof.
  intros Hwatch p.
  assert (Hcustom : customFailedLookupPaths c1 = customAfterWatch c location).
  { rewrite watchFailedLookupLocation_outcome in Hwatch. cbv zeta in Hwatch.
    destruct (getDirectoryToWatchFailedLookupLocation _ _ _) as [w|]; [|discriminate].
    destruct (directoryWatchesOfFailedLookups c !! dirPath w);
      injection Hwatch as <-; destruct c; reflexivity. }
  rewrite Hcustom. unfold customAfterWatch, customAt. rewrite filter_cons, filter_nil.
  destruct (isPathWithDefaultFailedLookupExtension (toPath location)) eqn:Hext; cbn [negb].
  - rewrite decide_False by (intros [_ ?]; discriminate). reflexivity.
  - destruct (decide (toPath location = p)) as [<-|Hne].
    + rewrite decide_True by auto. cbn. rewrite lookup_insert_eq. reflexivity.
    + rewrite decide_False by tauto. cbn. rewrite lookup_insert_ne by exact Hne.
      reflexivity.
Qed.

Lemma watchLocations_custom (locations : list string) (c c1 : ResolutionCache) :
  forEach watchFailedLookupLocation locations c = Returns tt c1 ->
  customAcquired locations c c1.
Proof.
  revert c. induction locations as [|location locations IH]; intros c.
  - intros [= <-] p. reflexivity.
  - cbn [forEach]. intros ([] & cm & Hwatch & Hrest)%bind_Returns_inv.
    apply (customAcquired_app [location] locations c cm c1);
      [apply watchFailedLookupLocation_custom, Hwatch | apply IH, Hrest].
Qed.

(** The custom paths of [c'] are those of [c], with one reference less for
    every one of the locations with that path, and without the paths that
    have no reference left. *)
Definition customReleased (locations : list string) (c c' : ResolutionCache) : Prop :=
  forall p,
    match customFailedLookupPaths c !! p with
    | None => customFailedLookupPaths c' !! p = None
    | Some k =>
        (0 < k)%Z -> (stopsAt locations p <= k)%Z ->
        customFailedLookupPaths c' !! p =
        if (k - stopsAt locations p =? 0)%Z then None
        else Some (k - stopsAt locations p)%Z
    end.

Lemma stopWatchFailedLookupLocation_custom (location : string) (c c1 : ResolutionCache) :
  stopWatchFailedLookupLocation location c = Returns tt c1 ->
  customFailedLookupPaths c1 = customAfterStop c location.
Proof.
  intros Hstop. rewrite stopWatchFailedLookupLocation_outcome in Hstop.
  destruct (customCountIsNegative c location); [discriminate|]. cbv zeta in Hstop.
  destruct (getDirectoryToWatchFailedLookupLocation _ _ _) as [w|]; [|discriminate].
  destruct (directoryWatchesOfFailedLookups c !! dirPath w); [|discriminate].
  injection Hstop as <-. destruct c; reflexivity.
Qed.

Lemma stopLocations_custom (locations : list string) (c c1 : ResolutionCache) :
  forEach stopWatchFailedLookupLocation locations c = Returns tt c1 ->
  customReleased locations c c1.
Proof.
  revert c. induction locations as [|location locations IH]; intros c.
  - intros [= <-] p. destruct (customFailedLookupPaths c !! p) as [k|]; [|reflexivity].
    intros Hk _. change (stopsAt [] p) with 0%Z. rewrite Z.sub_0_r.
    destruct (Z.eqb_spec k 0); [lia | reflexivity].
  - cbn [forEach]. intros ([] & cm & Hstop & Hrest)%bind_Returns_inv p.
    pose proof (stopWatchFailedLookupLocation_custom location c cm Hstop) as Hcm.
    specialize (IH cm Hrest p). rewrite Hcm in IH. unfold customAfterStop in IH.
    change (location :: locations) with ([location] ++ locations).
    rewrite stopsAt_app. pose proof (stopsAt_nonneg locations p) as Hrestn.
    assert (Hone : stopsAt [location] p = if decide (toPath location = p) then 1%Z else 0%Z).
    { unfold stopsAt. rewrite filter_cons, filter_nil.
      destruct (decide (toPath location = p)); reflexivity. }
    rewrite Hone.
    destruct (decide (toPath location = p)) as [Hp|Hp].
    + rewrite Hp in IH.
      destruct (customFailedLookupPaths c !! p) as [k|] eqn:Hk;
        [|rewrite Hk in IH; exact IH].
      intros Hpos Hle.
      destruct (Z.eqb_spec k 0) as [|_]; [lia|].
      destruct (Z.eqb_spec k 1) as [->|Hk1].
      * rewrite lookup_delete_eq in IH. rewrite IH.
        destruct (Z.eqb_spec (1 - (1 + stopsAt locations p)) 0); [reflexivity | lia].
      * rewrite lookup_insert_eq in IH. rewrite IH by lia.
        replace (k - 1 - stopsAt locations p)%Z with (k - (1 + stopsAt locations p))%Z
          by lia. reflexivity.
    + assert (Hsame : match customFailedLookupPaths c !! toPath location with
                      | Some count =>
                          if (count =? 0)%Z then customFailedLookupPaths c
                          else if (count =? 1)%Z
                               then delete (toPath location) (customFailedLookupPaths c)
                               else <[toPath location := (count - 1)%Z]>
                                      (customFailedLookupPaths c)
                      | None => customFailedLookupPaths c
                      end !! p = customFailedLookupPaths c !! p).
      { destruct (customFailedLookupPaths c !! toPath location) as [count|];
          [|reflexivity].
        destruct (count =? 0)%Z; [reflexivity|].
        destruct (count =? 1)%Z;
          [apply lookup_delete_ne | apply lookup_insert_ne]; exact Hp. }
      rewrite Hsame in IH. rewrite Z.add_0_l. exact IH.
Qed.

End WatchCounts.

(** *** Watching the failed lookup locations of a resolution, and back *)

Section WatchRoundTrip.
Context `{CoreLibrary} `{ResolutionCacheHost}.

(** Every custom failed lookup path has a positive reference count and an
    extension that is not one of the default ones. *)
Definition customPathsInOrder (c : ResolutionCache) : Prop :=
  forall path count,
    customFailedLookupPaths c !! path = Some count ->
    (0 < count)%Z /\ isPathWithDefaultFailedLookupExtension path = false.

Lemma customPathsInOrder_natural (c : ResolutionCache) :
  customPathsInOrder c -> customCountsAreNatural c.
Proof. intros Hc path count Hin. destruct (Hc path count Hin). lia. Qed.

Lemma watchLocations_total (locations : list string) (c : ResolutionCache) :
  placementTerminates c ->
  exists c', forEach watchFailedLookupLocation locations c = Returns tt c'.
Proof.
  revert c. induction locations as [|location locations IH]; intros c Hterm.
  - exists c. reflexivity.
  - assert (Hstep : exists c1, watchFailedLookupLocation location c = Returns tt c1).
    { rewrite watchFailedLookupLocation_outcome. cbv zeta.
      destruct (Hterm location) as [w ->].
      destruct (directoryWatchesOfFailedLookups c !! dirPath w); eauto. }
    destruct Hstep as [c1 Hc1].
    destruct (IH c1) as [c2 Hc2].
    { intros l. destruct (watchFailedLookupLocation_acquired location c c1 Hc1) as [_ Hw].
      rewrite (onlyWatchesChange_root _ _ Hw). apply Hterm. }
    exists c2. cbn [forEach]. erewrite bind_Returns by exact Hc1. exact Hc2.
Qed.

(** X1 - [watchFailedLookupLocationOfResolution] returns whenever the
    search for the directory to watch ends, and it counts references: a
    directory that had a watch keeps its watcher and gains one reference for
    every location from [startIndex] on that is placed at it, a directory
    without a watch gets a new watcher exactly when such a location exists,
    no watcher is closed, and every path whose extension is not a default
    one gains one reference per location in the custom table. *)
Theorem watchFailedLookupLocationOfResolution_counts (r : Resolution) (startIndex : nat)
    (c : ResolutionCache) :
  placementTerminates c ->
  exists c1,
    watchFailedLookupLocationOfResolution r startIndex c = Returns tt c1 /\
    acquired (drop startIndex (failedLookupLocations r)) c c1 /\
    customAcquired (drop startIndex (failedLookupLocations r)) c c1 /\
    onlyWatchesChange c c1.
Proof.
  intros Hterm. unfold watchFailedLookupLocationOfResolution.
  destruct (watchLocations_total (drop startIndex (failedLookupLocations r)) c Hterm)
    as [c1 Hc1].
  exists c1. split; [exact Hc1|].
  destruct (watchLocations_acquired _ _ _ Hc1) as [Hacq Hw].
  split; [exact Hacq|]. split; [|exact Hw].
  apply watchLocations_custom, Hc1.
Qed.

Lemma customPathsInOrder_watch (locations : list string) (c c1 : ResolutionCache) :
  customPathsInOrder c -> customAcquired locations c c1 -> customPathsInOrder c1.
Proof.
  intros Hc Hacq path count. rewrite (Hacq path).
  pose proof (customAt_nonneg locations path) as Hn.
  destruct (Z.eqb_spec (customAt locations path) 0) as [_|Hne]; [apply Hc|].
  intros [= <-]. split.
  - destruct (customFailedLookupPaths c !! path) as [k|] eqn:Hk; cbn; [|lia].
    destruct (Hc path k Hk). lia.
  - rewrite customAt_stopsAt in Hne.
    destruct (isPathWithDefaultFailedLookupExtension path); [lia | reflexivity].
Qed.

Lemma customPathsInOrder_stop (location : string) (c c1 : ResolutionCache) :
  customPathsInOrder c ->
  stopWatchFailedLookupLocation location c = Returns tt c1 -> customPathsInOrder c1.
Proof.
  intros Hc Hstop path count.
  rewrite (stopWatchFailedLookupLocation_custom location c c1 Hstop).
  unfold customAfterStop.
  destruct (customFailedLookupPaths c !! toPath location) as [k|] eqn:Hk; [|apply Hc].
  destruct (Z.eqb_spec k 0) as [_|Hk0]; [apply Hc|].
  destruct (Z.eqb_spec k 1) as [_|Hk1].
  - intros [_ Hin]%lookup_delete_Some. exact (Hc _ _ Hin).
  - destruct (decide (toPath location = path)) as [<-|Hne].
    + rewrite lookup_insert_eq. intros [= <-]. destruct (Hc _ _ Hk). split; [lia | assumption].
    + rewrite lookup_insert_ne by exact Hne. apply Hc.
Qed.

(** X2 - The custom failed lookup paths stay in order: when every path of
    the table has a positive count and an extension that is not a default
    one, the same holds after the locations of a resolution are watched and
    after they are released, from whatever index on.  So the table never
    comes to hold the count zero or a path with a default extension. *)
Theorem customPathsInOrder_kept (r : Resolution) (startIndex : nat)
    (c c1 : ResolutionCache) :
  customPathsInOrder c ->
  (watchFailedLookupLocationOfResolution r startIndex c = Returns tt c1 \/
   stopWatchFailedLookupLocationOfResolutionFrom r startIndex c = Returns tt c1) ->
  customPathsInOrder c1.
Proof.
  intros Hc [Hwatch|Hstop].
  - eapply customPathsInOrder_watch; [exact Hc|].
    apply watchLocations_custom, Hwatch.
  - unfold stopWatchFailedLookupLocationOfResolutionFrom in Hstop.
    revert c Hc Hstop.
    induction (drop startIndex (failedLookupLocations r)) as [|location locations IH];
      intros c Hc.
    + intros [= <-]. exact Hc.
    + cbn [forEach]. intros ([] & cm & Hstop & Hrest)%bind_Returns_inv.
      apply (IH cm); [|exact Hrest].
      eapply customPathsInOrder_stop; eassumption.
Qed.

(** X3 - Watching the failed lookup locations of a resolution and then
    releasing them gives back what was there: both calls return, the custom
    failed lookup paths are the same as before, every directory that had a
    watch has the same watcher with the same reference count, and no watcher
    is closed.  A directory that got its watch in between keeps the new
    watcher, with the count zero. *)
Theorem watch_then_stop_restores (r : Resolution) (c : ResolutionCache) :
  placementTerminates c -> customPathsInOrder c ->
  exists c1 c2,
    watchFailedLookupLocationOfResolution r 0 c = Returns tt c1 /\
    stopWatchFailedLookupLocationOfResolution r c1 = Returns tt c2 /\
    customFailedLookupPaths c2 = customFailedLookupPaths c /\
    closedWatchers c2 = closedWatchers c /\
    forall d,
      match directoryWatchesOfFailedLookups c !! d with
      | Some w => directoryWatchesOfFailedLookups c2 !! d = Some w
      | None =>
          if (releasedAt c (failedLookupLocations r) d =? 0)%Z
          then directoryWatchesOfFailedLookups c2 !! d = None
          else exists handle,
                 directoryWatchesOfFailedLookups c2 !! d =
                 Some {| watcher := handle; refCount := 0 |} /\
                 nextWatcher c <= watcherId handle < nextWatcher c1
      end.
Proof.
  intros Hterm Horder.
  unfold watchFailedLookupLocationOfResolution, stopWatchFailedLookupLocationOfResolution,
    stopWatchFailedLookupLocationOfResolutionFrom. rewrite drop_0.
  set (locations := failedLookupLocations r).
  destruct (watchLocations_returns locations c Hterm
              (customPathsInOrder_natural c Horder))
    as (c1 & Hc1 & Hgrow & Hwatched & Hnat1).
  destruct (stopLocations_returns locations c1 Hwatched Hnat1) as (c2 & Hc2 & _ & _).
  exists c1, c2. split; [exact Hc1|]. split; [exact Hc2|].
  destruct (watchLocations_acquired _ _ _ Hc1) as [(Hclosed1 & Hnext & Hacq) Hw1].
  destruct (stopLocations_released _ _ _ Hc2) as [[Hclosed2 Hrel] _].
  pose proof (watchLocations_custom _ _ _ Hc1) as Hcustom1.
  pose proof (stopLocations_custom _ _ _ Hc2) as Hcustom2.
  assert (Hat : forall d, releasedAt c1 locations d = releasedAt c locations d).
  { intros d. unfold releasedAt, placedAt.
    rewrite (onlyWatchesChange_root _ _ Hw1). reflexivity. }
  split; [|split; [congruence|]].
  - apply map_eq. intros p. specialize (Hcustom1 p). specialize (Hcustom2 p).
    rewrite Hcustom1 in Hcustom2. rewrite customAt_stopsAt in Hcustom2.
    pose proof (stopsAt_nonneg locations p) as Hn.
    destruct (customFailedLookupPaths c !! p) as [k|] eqn:Hk.
    + destruct (Horder p k Hk) as [Hpos Hext]. rewrite Hext in Hcustom2.
      destruct (Z.eqb_spec (stopsAt locations p) 0) as [Hz|Hz].
      * rewrite Hcustom2 by lia. rewrite Hz, Z.sub_0_r.
        destruct (Z.eqb_spec k 0); [lia | reflexivity].
      * cbn in Hcustom2. rewrite Hcustom2 by lia.
        replace (k + stopsAt locations p - stopsAt locations p)%Z with k by lia.
        destruct (Z.eqb_spec k 0); [lia | reflexivity].
    + destruct (isPathWithDefaultFailedLookupExtension p); [exact Hcustom2|].
      destruct (Z.eqb_spec (stopsAt locations p) 0) as [Hz|Hz]; [exact Hcustom2|].
      cbn in Hcustom2. rewrite Hcustom2 by lia.
      rewrite Z.add_0_l, Z.sub_diag. reflexivity.
  - intros d. specialize (Hacq d). rewrite (Hrel d), (Hat d).
    destruct (directoryWatchesOfFailedLookups c !! d) as [[w n]|].
    + rewrite Hacq. cbn. do 2 f_equal. lia.
    + destruct (Z.eqb_spec (releasedAt c locations d) 0) as [Hz|Hz].
      * rewrite Hacq. reflexivity.
      * destruct Hacq as (handle & -> & Hfresh). exists handle. cbn.
        split; [|exact Hfresh]. do 2 f_equal. lia.
Qed.

End WatchRoundTrip.

(** *** Replacing the watched locations of a resolution *)

Section WatchDiff.
Context `{CoreLibrary} `{ResolutionCacheHost}.

(** The directory watches of [c2] are those of [c] with the references of
    the locations [added] more and those of the locations [dropped] less. *)
Definition exchanged (added dropped : list string) (c c2 : ResolutionCache) : Prop :=
  closedWatchers c2 = closedWatchers c /\
  forall d,
    match directoryWatchesOfFailedLookups c !! d with
    | Some w =>
        directoryWatchesOfFailedLookups c2 !! d =
        Some {| watcher := watcher w;
                refCount := (refCount w + releasedAt c added d
                             - releasedAt c dropped d)%Z |}
    | None =>
        directoryWatchesOfFailedLookups c2 !! d = None \/
        exists handle,
          directoryWatchesOfFailedLookups c2 !! d =
          Some {| watcher := handle;
                  refCount := (releasedAt c added d - releasedAt c dropped d)%Z |} /\
          nextWatcher c <= watcherId handle < nextWatcher c2
    end.

Lemma stopLocations_nextWatcher (locations : list string) (c c1 : ResolutionCache) :
  forEach stopWatchFailedLookupLocation locations c = Returns tt c1 ->
  nextWatcher c1 = nextWatcher c.
Proof.
  revert c. induction locations as [|location locations IH]; intros c.
  - intros [= <-]. reflexivity.
  - cbn [forEach]. intros ([] & cm & Hstop & Hrest)%bind_Returns_inv.
    rewrite (IH cm Hrest).
    rewrite stopWatchFailedLookupLocation_outcome in Hstop.
    destruct (customCountIsNegative c location); [discriminate|]. cbv zeta in Hstop.
    destruct (getDirectoryToWatchFailedLookupLocation _ _ _) as [w|]; [|discriminate].
    destruct (directoryWatchesOfFailedLookups c !! dirPath w); [|discriminate].
    injection Hstop as <-. destruct c; reflexivity.
Qed.

Lemma watch_stop_exchanged (shared added dropped : list string)
    (c c1 c2 : ResolutionCache) :
  forEach watchFailedLookupLocation added c = Returns tt c1 ->
  forEach stopWatchFailedLookupLocation dropped c1 = Returns tt c2 ->
  exchanged (shared ++ added) (shared ++ dropped) c c2.
Proof.
  intros Hwatch Hstop.
  destruct (watchLocations_acquired _ _ _ Hwatch) as [(Hclosed1 & Hnext & Hacq) Hw1].
  destruct (stopLocations_released _ _ _ Hstop) as [[Hclosed2 Hrel] _].
  pose proof (stopLocations_nextWatcher _ _ _ Hstop) as Hnext2.
  split; [congruence|]. intros d. specialize (Hacq d). rewrite (Hrel d).
  assert (Hat : releasedAt c1 dropped d = releasedAt c dropped d).
  { unfold releasedAt, placedAt. rewrite (onlyWatchesChange_root _ _ Hw1). reflexivity. }
  rewrite Hat, !releasedAt_app.
  destruct (directoryWatchesOfFailedLookups c !! d) as [[w n]|].
  - rewrite Hacq. cbn. do 2 f_equal. lia.
  - destruct (Z.eqb_spec (releasedAt c added d) 0) as [Hz|Hz].
    + left. rewrite Hacq. reflexivity.
    + right. destruct Hacq as (handle & -> & Hfresh). exists handle. cbn.
      split; [do 2 f_equal; lia | lia].
Qed.

(** X4 - Replacing a resolution by another one watches and releases only
    the locations after the ones the two have in common, and still every
    directory watch ends with the count it would have had with all the new
    locations watched and all the old ones released: the watcher is kept,
    the count gains the new locations placed at the directory and loses the
    old ones, and no watcher is closed. *)
Theorem watchAndStopWatchDiffFailedLookupLocations_exchanges (r existing : Resolution)
    (c c2 : ResolutionCache) :
  watchAndStopWatchDiffFailedLookupLocations r existing c = Returns tt c2 ->
  exchanged (failedLookupLocations r) (failedLookupLocations existing) c c2.
Proof.
  unfold watchAndStopWatchDiffFailedLookupLocations,
    watchFailedLookupLocationOfResolution, stopWatchFailedLookupLocationOfResolutionFrom.
  pose proof (diffFailedLookupLocations_prefix 0 (failedLookupLocations r)
                (failedLookupLocations existing)) as Hdiff.
  destruct (diffFailedLookupLocations 0 _ _) as [i|i|].
  - destruct Hdiff as (j & -> & Hj & Ht). cbn [Nat.add]. intros Hwatch.
    pose proof (watch_stop_exchanged (failedLookupLocations existing)
                  (drop j (failedLookupLocations r)) [] c c2 c2 Hwatch eq_refl) as Hnet.
    rewrite app_nil_r in Hnet. rewrite <- Ht in Hnet at 1.
    rewrite take_drop in Hnet. exact Hnet.
  - destruct Hdiff as (j & -> & Ht). cbn [Nat.add].
    intros ([] & c1 & Hwatch & Hstop)%bind_Returns_inv.
    rewrite <- (take_drop j (failedLookupLocations r)).
    rewrite <- (take_drop j (failedLookupLocations existing)), Ht.
    eapply watch_stop_exchanged; eassumption.
  - intros Hstop.
    pose proof (watch_stop_exchanged (failedLookupLocations r) []
                  (drop (length (failedLookupLocations r))
                     (failedLookupLocations existing)) c c c2 eq_refl Hstop) as Hnet.
    rewrite app_nil_r in Hnet. rewrite <- Hdiff in Hnet at 2.
    rewrite take_drop in Hnet. exact Hnet.
Qed.

End WatchDiff.

(** *** What a resolve call leaves in the cache *)

Section ResolveLeaves.
Context `{!CoreLibrary} `{!ResolutionCacheHost}.
Import JsMapFacts.

Variable k : ResolutionKind.
Variable containingFile : string.

(** The eviction loop keeps, of the resolutions it walks over, the ones
    whose name was asked for or is reused. *)
Lemma evict_forgets (seen : list string) (reusedNames : option (list string))
    (snapshot : list (string * Resolution)) (c c' : ResolutionCache) :
  forEach (evict k containingFile seen reusedNames) snapshot c = Returns tt c' ->
  forall n r,
    (n, r) ∈ entries k containingFile c' ->
    (n, r) ∈ entries k containingFile c /\
    (n ∈ snapshot.*1 -> n ∈ seen \/ contains reusedNames n = true).
Proof.
  revert c. induction snapshot as [|[m r0] snapshot IH]; intros c.
  - intros [= <-] n r Hin. split; [exact Hin|]. intros Hn. inversion Hn.
  - cbn [forEach]. intros ([] & c1 & Hstep & Hrest)%bind_Returns_inv n r Hin.
    destruct (IH c1 Hrest n r Hin) as [Hin1 Hkeep]. unfold evict in Hstep.
    destruct (negb (bool_decide (m ∈ seen)) && negb (contains reusedNames m)) eqn:Hcond.
    + apply bind_Returns_inv in Hstep as ([] & cm & Hstop & Hdelete).
      pose proof (stopWatchFailedLookupLocationOfResolutionFrom_stays r0 0 c) as [Hw _].
      unfold stopWatchFailedLookupLocationOfResolution in Hstop.
      rewrite Hstop in Hw. cbn [stateAfter] in Hw.
      destruct (onlyWatchesChange_members k _ _ Hw) as (Hfile & _).
      injection Hdelete as <-.
      unfold entries in Hin1 |- *.
      rewrite perFile_withPerFile, resolutionsOf_set, Hfile in Hin1.
      apply elem_of_delete in Hin1 as [Hin0 Hne]. cbn in Hne.
      split; [exact Hin0|]. cbn [fmap list_fmap fst].
      intros [->|Hn]%elem_of_cons; [contradiction | apply Hkeep, Hn].
    + injection Hstep as <-. split; [exact Hin1|]. cbn [fmap list_fmap fst].
      intros [->|Hn]%elem_of_cons; [|apply Hkeep, Hn].
      apply andb_false_iff in Hcond as [Hseen|Hreused].
      * left. apply negb_false_iff, bool_decide_eq_true in Hseen. exact Hseen.
      * right. apply negb_false_iff in Hreused. exact Hreused.
Qed.

(** The steps of a resolve call that returned. *)
Lemma resolveNamesWithLocalCache_steps (names : list string)
    (reusedNames : option (list string)) (logChanges : bool)
    (c : ResolutionCache) (results : list (option ResolvedFile)) (c' : ResolutionCache) :
  resolveNamesWithLocalCache k names containingFile reusedNames logChanges c
    = Returns results c' ->
  exists c0 loop c1,
    resolveEachName k containingFile (toPath containingFile)
      (getDirectoryPath (toPath containingFile))
      {| seenNamesInFile := []; logChangesNow := logChanges; resolvedModules := [] |}
      names c0 = Returns loop c1 /\
    is_Some (JsMap.get (toPath containingFile) (perFile k c0)) /\
    is_Some (JsMap.get (getDirectoryPath (toPath containingFile)) (perDirectory k c0)) /\
    forEach (evict k containingFile (seenNamesInFile loop) reusedNames)
      (entries k containingFile c1) c1 = Returns tt c' /\
    seenNamesInFile loop = names /\
    results = resolvedModules loop.
Proof.
  unfold resolveNamesWithLocalCache. cbv zeta.
  intros ([] & ca & [= <-] & Hcall)%bind_Returns_inv.
  apply bind_Returns_inv in Hcall as ([] & cb & [= <-] & Hcall).
  apply bind_Returns_inv in Hcall as (loop & c1 & Heach & Hcall).
  apply bind_Returns_inv in Hcall as (cr & c1' & [= <- <-] & Hcall).
  apply bind_Returns_inv in Hcall as ([] & c2 & Hevict & [= <- <-]).
  eexists _, loop, c1. split; [exact Heach|].
  split; [|split; [|split; [exact Hevict|split; [|reflexivity]]]].
  - match goal with
    | |- is_Some (JsMap.get _ (perFile k (match ?x with _ => _ end))) =>
        destruct x eqn:Hx
    end.
    + destruct (JsMap.get (toPath containingFile) (perFile k c)) eqn:Hy.
      * rewrite Hy. eauto.
      * rewrite perFile_withPerFile, get_set_eq. eauto.
    + assert (Hfile : forall v (c2 : ResolutionCache),
                 perFile k (withPerDirectory k v c2) = perFile k c2)
        by (intros v [] ; destruct k; reflexivity).
      rewrite Hfile.
      destruct (JsMap.get (toPath containingFile) (perFile k c)) eqn:Hy.
      * rewrite Hy. eauto.
      * rewrite perFile_withPerFile, get_set_eq. eauto.
  - match goal with
    | |- is_Some (JsMap.get _ (perDirectory k (match ?x with _ => _ end))) =>
        destruct x eqn:Hx
    end.
    + rewrite Hx. eauto.
    + rewrite perDirectory_withPerDirectory, get_set_eq. eauto.
  - pose proof (resolveEachName_results k containingFile names
                  {| seenNamesInFile := []; logChangesNow := logChanges;
                     resolvedModules := [] |}) as Hrun.
    match type of Heach with ?m ?c0 = _ => specialize (Hrun c0) end.
    rewrite Heach in Hrun. apply Hrun. constructor.
Qed.

(** X5 - A resolve call forgets what it was not asked for: when it
    returns, every name that the containing file still has a resolution for
    is one of the names of the call or one of the reused names. *)
Theorem resolveNamesWithLocalCache_forgets (names : list string)
    (reusedNames : option (list string)) (logChanges : bool)
    (c : ResolutionCache) (results : list (option ResolvedFile)) (c' : ResolutionCache) :
  resolveNamesWithLocalCache k names containingFile reusedNames logChanges c
    = Returns results c' ->
  forall name r,
    (name, r) ∈ entries k containingFile c' ->
    name ∈ names \/ contains reusedNames name = true.
Proof.
  intros (c0 & loop & c1 & _ & _ & _ & Hevict & Hseen & _)%resolveNamesWithLocalCache_steps
    name r Hin.
  destruct (evict_forgets _ _ _ _ _ Hevict name r Hin) as [Hin1 Hkeep].
  rewrite <- Hseen. apply Hkeep. apply list_elem_of_fmap. exists (name, r). auto.
Qed.

(** The maps of the containing file and of its directory stay in the cache. *)
Definition keepsMaps : relation ResolutionCache := fun c c' =>
  (is_Some (JsMap.get (toPath containingFile) (perFile k c)) ->
   is_Some (JsMap.get (toPath containingFile) (perFile k c'))) /\
  (is_Some (JsMap.get (getDirectoryPath (toPath containingFile)) (perDirectory k c)) ->
   is_Some (JsMap.get (getDirectoryPath (toPath containingFile)) (perDirectory k c'))).

#[local] Instance keepsMaps_preorder : PreOrder keepsMaps.
Proof.
  split.
  - intros c. split; auto.
  - intros c1 c2 c3 [H1 H2] [H3 H4]. split; auto.
Qed.

Lemma keepsMaps_same (c c' : ResolutionCache) :
  perFile k c' = perFile k c -> perDirectory k c' = perDirectory k c -> keepsMaps c c'.
Proof. intros Hfile Hdir. unfold keepsMaps. rewrite Hfile, Hdir. auto. Qed.

Lemma keepsMaps_watches (c c' : ResolutionCache) : onlyWatchesChange c c' -> keepsMaps c c'.
Proof.
  intros Hw. destruct (onlyWatchesChange_members k _ _ Hw) as (Hfile & Hdir & _).
  apply keepsMaps_same; assumption.
Qed.

Lemma keepsMaps_grow (c c' : ResolutionCache) : watchesGrow c c' -> keepsMaps c c'.
Proof. intros [Hw _]. apply keepsMaps_watches, Hw. Qed.

Lemma keepsMaps_stay (c c' : ResolutionCache) : watchesStay c c' -> keepsMaps c c'.
Proof. intros [Hw _]. apply keepsMaps_watches, Hw. Qed.

Lemma keepsMaps_file (c : ResolutionCache) (v : JsMap.t Resolution) :
  keepsMaps c (withPerFile k (JsMap.set (toPath containingFile) v (perFile k c)) c).
Proof.
  split.
  - intros _. rewrite perFile_withPerFile, get_set_eq. eauto.
  - assert (perDirectory k (withPerFile k (JsMap.set (toPath containingFile) v (perFile k c)) c)
            = perDirectory k c) as -> by (destruct c, k; reflexivity).
    auto.
Qed.

Lemma keepsMaps_directory (c : ResolutionCache) (v : JsMap.t Resolution) :
  keepsMaps c (withPerDirectory k
                 (JsMap.set (getDirectoryPath (toPath containingFile)) v (perDirectory k c)) c).
Proof.
  split.
  - assert (perFile k (withPerDirectory k
                         (JsMap.set (getDirectoryPath (toPath containingFile)) v
                            (perDirectory k c)) c)
            = perFile k c) as -> by (destruct c, k; reflexivity).
    auto.
  - intros _. rewrite perDirectory_withPerDirectory, get_set_eq. eauto.
Qed.

Lemma resolveName_keepsMaps (loop : NamesLoop) (name : string) :
  always keepsMaps
    (resolveName k containingFile (toPath containingFile)
       (getDirectoryPath (toPath containingFile)) loop name).
Proof.
  unfold resolveName, setResolutionInFile, setResolutionInDirectory.
  always_go ltac:(first
    [ eapply always_weaken; [apply keepsMaps_grow | apply watchAndStopWatchDiffFailedLookupLocations_grows]
    | eapply always_weaken; [apply keepsMaps_grow | apply watchFailedLookupLocationOfResolution_grows]
    | apply always_update; intros c0;
      first [ apply keepsMaps_file | apply keepsMaps_directory
            | apply keepsMaps_same; destruct c0, k; reflexivity ]
    | match goal with
      | |- always _ (load _ _ _) =>
          intros c0; apply keepsMaps_same; destruct c0, k; reflexivity
      end ]).
Qed.

Lemma resolveEachName_keepsMaps (loop : NamesLoop) (names : list string) :
  always keepsMaps
    (resolveEachName k containingFile (toPath containingFile)
       (getDirectoryPath (toPath containingFile)) loop names).
Proof.
  revert loop. induction names as [|name names IH]; intros loop; cbn [resolveEachName].
  - apply always_ret. apply _.
  - apply always_bind; [apply _ | apply resolveName_keepsMaps | intros loop'; apply IH].
Qed.

Lemma evict_keepsMaps (seen : list string) (reusedNames : option (list string))
    (snapshot : list (string * Resolution)) :
  always keepsMaps (forEach (evict k containingFile seen reusedNames) snapshot).
Proof.
  apply always_forEach; [apply _|]. intros [name r]. unfold evict, deleteResolutionInFile.
  always_go ltac:(first
    [ eapply always_weaken;
        [apply keepsMaps_stay | apply stopWatchFailedLookupLocationOfResolutionFrom_stays]
    | apply always_update; intros c0; apply keepsMaps_file ]).
Qed.

(** A resolve call that returns leaves a map for the containing file and
    one for its directory. *)
Lemma resolveNamesWithLocalCache_maps (names : list string)
    (reusedNames : option (list string)) (logChanges : bool)
    (c : ResolutionCache) (results : list (option ResolvedFile)) (c' : ResolutionCache) :
  resolveNamesWithLocalCache k names containingFile reusedNames logChanges c
    = Returns results c' ->
  is_Some (JsMap.get (toPath containingFile) (perFile k c')) /\
  is_Some (JsMap.get (getDirectoryPath (toPath containingFile)) (perDirectory k c')).
Proof.
  intros (c0 & loop & c1 & Heach & Hfile & Hdir & Hevict & _)%resolveNamesWithLocalCache_steps.
  assert (Hmaps : keepsMaps c0 c').
  { pose proof (resolveEachName_keepsMaps
                  {| seenNamesInFile := []; logChangesNow := logChanges;
                     resolvedModules := [] |} names c0) as H1.
    rewrite Heach in H1.
    pose proof (evict_keepsMaps (seenNamesInFile loop) reusedNames
                  (entries k containingFile c1) c1) as H2.
    rewrite Hevict in H2. etrans; [exact H1 | exact H2]. }
  destruct Hmaps as [Hfile' Hdir']. auto.
Qed.

(** A name with a valid resolution in the file is answered from it. *)
Lemma resolveName_cached (loop : NamesLoop) (name : string) (r : Resolution)
    (c : ResolutionCache) :
  allFilesHaveInvalidatedResolution c = false ->
  JsMap.get name (entries k containingFile c) = Some r ->
  invalidatedIn c r = false ->
  resolveName k containingFile (toPath containingFile)
    (getDirectoryPath (toPath containingFile)) loop name c
  = Returns {| seenNamesInFile := seenNamesInFile loop ++ [name];
               logChangesNow := logChangesNow loop;
               resolvedModules := resolvedModules loop ++ [resolvedFile r] |} c.
Proof.
  intros Hall Hget Hvalid. unfold resolveName.
  erewrite bind_Returns by reflexivity. unfold id. fold (entries k containingFile c).
  rewrite Hall, Hget, Hvalid, andb_false_r. cbn [orb].
  erewrite bind_Returns by reflexivity. cbn beta iota.
  erewrite bind_Returns by reflexivity. unfold id.
  unfold assert. rewrite Hvalid. cbn [negb].
  erewrite bind_Returns by reflexivity. reflexivity.
Qed.

Lemma resolveEachName_cached (names : list string) (results : list (option ResolvedFile))
    (loop : NamesLoop) (c : ResolutionCache) :
  allFilesHaveInvalidatedResolution c = false ->
  Forall2 (fun name result =>
             exists r,
               JsMap.get name (entries k containingFile c) = Some r /\
               result = resolvedFile r /\
               invalidatedIn c r = false)
          names results ->
  resolveEachName k containingFile (toPath containingFile)
    (getDirectoryPath (toPath containingFile)) loop names c
  = Returns {| seenNamesInFile := seenNamesInFile loop ++ names;
               logChangesNow := logChangesNow loop;
               resolvedModules := resolvedModules loop ++ results |} c.
Proof.
  intros Hall Hnames. revert loop.
  induction Hnames as [|name result names results (r & Hget & -> & Hvalid) _ IH];
    intros loop; cbn [resolveEachName].
  - rewrite !app_nil_r. destruct loop; reflexivity.
  - erewrite bind_Returns by (apply resolveName_cached; eassumption).
    rewrite IH. cbn [seenNamesInFile logChangesNow resolvedModules].
    rewrite <- !app_assoc. reflexivity.
Qed.

Lemma evict_nothing (seen : list string) (reusedNames : option (list string))
    (snapshot : list (string * Resolution)) (c : ResolutionCache) :
  (forall n, n ∈ snapshot.*1 -> n ∈ seen \/ contains reusedNames n = true) ->
  forEach (evict k containingFile seen reusedNames) snapshot c = Returns tt c.
Proof.
  induction snapshot as [|[n r] snapshot IH]; intros Hkeep; [reflexivity|].
  cbn [forEach].
  assert (Hcond : negb (bool_decide (n ∈ seen)) && negb (contains reusedNames n) = false).
  { destruct (Hkeep n) as [Hseen|Hreused]; [left| |].
    - rewrite bool_decide_eq_true_2 by exact Hseen. reflexivity.
    - rewrite Hreused. apply andb_false_r. }
  assert (Hstep : evict k containingFile seen reusedNames (n, r) c = Returns tt c)
    by (unfold evict; rewrite Hcond; reflexivity).
  erewrite bind_Returns by exact Hstep.
  apply IH. intros m Hm. apply Hkeep. right. exact Hm.
Qed.

(** X6 - A resolve call that is made again right away finds everything in
    place: unless every file counts as invalidated, the same call on the
    cache that the first one left returns the same results and leaves the
    cache exactly as it is, so that no loader runs, no watch is touched and
    no change is recorded. *)
Theorem resolveNamesWithLocalCache_again_same (names : list string)
    (reusedNames : option (list string)) (logChanges logChangesAgain : bool)
    (c : ResolutionCache) (results : list (option ResolvedFile)) (c' : ResolutionCache) :
  resolveNamesWithLocalCache k names containingFile reusedNames logChanges c
    = Returns results c' ->
  allFilesHaveInvalidatedResolution c' = false ->
  resolveNamesWithLocalCache k names containingFile reusedNames logChangesAgain c'
    = Returns results c'.
Proof.
  intros Hcall Hall.
  pose proof (resolveNamesWithLocalCache_results k containingFile names reusedNames
                logChanges c results c' Hcall) as Hresults.
  destruct (resolveNamesWithLocalCache_maps _ _ _ _ _ _ Hcall)
    as [[file Hf] [directory Hd]].
  pose proof Hcall as Hsteps.
  apply resolveNamesWithLocalCache_steps in Hsteps
    as (c0 & loop & c1 & _ & _ & _ & Hevict & Hseen & _).
  unfold resolveNamesWithLocalCache. cbv zeta.
  erewrite bind_Returns by reflexivity. rewrite Hf.
  erewrite bind_Returns by reflexivity. rewrite Hd.
  erewrite bind_Returns by (apply resolveEachName_cached; eassumption).
  erewrite bind_Returns by reflexivity. unfold id.
  cbn [seenNamesInFile resolvedModules app].
  change (forEach _ (resolutionsOf (perFile k c') (toPath containingFile)))
    with (forEach (evict k containingFile names reusedNames)
            (entries k containingFile c')).
  erewrite bind_Returns; [reflexivity|].
  apply evict_nothing. intros n [[n' r] [-> Hin]]%list_elem_of_fmap. cbn.
  destruct (evict_forgets _ _ _ _ _ Hevict n' r Hin) as [Hin1 Hkeep].
  rewrite <- Hseen. apply Hkeep. apply list_elem_of_fmap. exists (n', r). auto.
Qed.

End ResolveLeaves.

(** *** Passes and flags *)

Section PassProtocol.
Context `{!CoreLibrary} `{!ResolutionCacheHost}.
Import JsMapFacts.

(** The invalidated flags that are set stay set, and the objects that the
    loaders have made stay made. *)
Definition flagsStay : relation ResolutionCache := fun c c' =>
  isInvalidated c ⊆ isInvalidated c' /\ nextResolution c <= nextResolution c'.

#[local] Instance flagsStay_preorder : PreOrder flagsStay.
Proof.
  split.
  - intros c. split; [reflexivity | lia].
  - intros c1 c2 c3 [Ha Hb] [Hc Hd]. split; [etrans; eassumption | lia].
Qed.

Lemma flagsStay_same (c c' : ResolutionCache) :
  isInvalidated c' = isInvalidated c -> nextResolution c' = nextResolution c ->
  flagsStay c c'.
Proof. intros Hflags Hnext. unfold flagsStay. rewrite Hflags, Hnext. split; [reflexivity | lia]. Qed.

Lemma flagsStay_watches (c c' : ResolutionCache) : onlyWatchesChange c c' -> flagsStay c c'.
Proof.
  intros Hw. destruct (onlyWatchesChange_members ModuleName _ _ Hw) as (_ & _ & Hf & Hn & _).
  apply flagsStay_same; assumption.
Qed.

Lemma flagsStay_grow (c c' : ResolutionCache) : watchesGrow c c' -> flagsStay c c'.
Proof. intros [Hw _]. apply flagsStay_watches, Hw. Qed.

Lemma flagsStay_stay (c c' : ResolutionCache) : watchesStay c c' -> flagsStay c c'.
Proof. intros [Hw _]. apply flagsStay_watches, Hw. Qed.

Lemma visit_flagsStay (isInvalidatedResolution : Resolution -> bool)
    (l : list (Path * string * Resolution))
    (seen : gset (Path * string)) (c : ResolutionCache) :
  flagsStay c (foldl (visit isInvalidatedResolution) (seen, c) l).2.
Proof.
  revert seen c. induction l as [|[[file name] r] l IH]; intros seen c; [reflexivity|].
  cbn [foldl visit invalidateResolutionOfName].
  destruct (bool_decide _); [apply IH|].
  destruct (negb (invalidatedIn c r) && isInvalidatedResolution r); [|apply IH].
  etrans; [|apply IH]. split; destruct c; cbn; [set_solver | lia].
Qed.

Lemma invalidateResolutionCache_flagsStay (k : ResolutionKind)
    (isInvalidatedResolution : Resolution -> bool) :
  always flagsStay (invalidateResolutionCache k isInvalidatedResolution).
Proof.
  intros c. unfold invalidateResolutionCache, update. cbn [stateAfter].
  rewrite foldl_cachedResolutions. apply visit_flagsStay.
Qed.

Lemma createTypeRootsWatches_flagsStay (typeRoots : list string) (c : ResolutionCache) :
  flagsStay c (foldl createTypeRootsWatch c typeRoots).
Proof.
  induction typeRoots as [|typeRoot typeRoots IH] using rev_ind; [reflexivity|].
  rewrite foldl_app. cbn [foldl]. etrans; [exact IH|].
  unfold createTypeRootsWatch. destruct (typeRootsWatches _ !! _); [reflexivity|].
  apply flagsStay_same; destruct (foldl _ _ _); reflexivity.
Qed.

Ltac flags_step k :=
  first
    [ eapply always_weaken;
        [apply flagsStay_grow | apply watchAndStopWatchDiffFailedLookupLocations_grows]
    | eapply always_weaken;
        [apply flagsStay_grow | apply watchFailedLookupLocationOfResolution_grows]
    | eapply always_weaken;
        [apply flagsStay_stay | apply stopWatchFailedLookupLocationOfResolutionFrom_stays]
    | apply invalidateResolutionCache_flagsStay
    | apply always_update; intros c0;
      repeat match goal with |- context [match ?x with _ => _ end] => destruct x end;
      apply flagsStay_same; destruct c0; try destruct k; reflexivity
    | match goal with
      | |- always _ (load _ _ _) =>
          intros c0; split; destruct c0; cbn; [reflexivity | lia]
      end ].

Lemma resolveNamesWithLocalCache_flagsStay k names containingFile reusedNames logChanges :
  always flagsStay
    (resolveNamesWithLocalCache k names containingFile reusedNames logChanges).
Proof.
  assert (Hname : forall loop name,
             always flagsStay
               (resolveName k containingFile (toPath containingFile)
                  (getDirectoryPath (toPath containingFile)) loop name)).
  { intros loop name.
    unfold resolveName, setResolutionInFile, setResolutionInDirectory.
    always_go ltac:(flags_step k). }
  assert (Heach : forall names loop,
             always flagsStay
               (resolveEachName k containingFile (toPath containingFile)
                  (getDirectoryPath (toPath containingFile)) loop names)).
  { clear names. intros names. induction names as [|name names IH]; intros loop;
      cbn [resolveEachName].
    - apply always_ret. apply _.
    - apply always_bind; [apply _ | apply Hname | intros loop'; apply IH]. }
  unfold resolveNamesWithLocalCache, deleteResolutionInFile,
    stopWatchFailedLookupLocationOfResolution.
  always_go ltac:(first [ apply Heach | flags_step k ]).
Qed.

(** X7 - An invalidated resolution stays invalidated: no operation of the
    cache, whether it returns or throws, clears an invalidated flag or
    forgets an object that a loader has made; the flag of a resolution is
    only ever left behind together with the resolution. *)
Theorem invalidated_flags_stay :
  (forall k names containingFile reusedNames logChanges,
     always flagsStay
       (resolveNamesWithLocalCache k names containingFile reusedNames logChanges)) /\
  (forall filePath, always flagsStay (removeResolutionsOfFile filePath)) /\
  (forall filePath, always flagsStay (invalidateResolutionOfFile filePath)) /\
  (forall directory fileOrDirectory,
     always flagsStay (onDirectoryOfFailedLookupChanged directory fileOrDirectory)) /\
  always flagsStay startCachingPerDirectoryResolution /\
  always flagsStay finishCachingPerDirectoryResolution /\
  always flagsStay createHasInvalidatedResolution /\
  always flagsStay startRecordingFilesWithChangedResolutions /\
  always flagsStay finishRecordingFilesWithChangedResolutions /\
  always flagsStay updateTypeRootsWatch /\
  always flagsStay clear.
Proof.
  assert (Hremove : forall filePath, always flagsStay (removeResolutionsOfFile filePath)).
  { intros filePath.
    unfold removeResolutionsOfFile, removeResolutionsOfFileFromCache,
      stopWatchFailedLookupLocationOfResolution.
    always_go ltac:(first [ flags_step ModuleName | flags_step TypeReferenceDirective ]). }
  split; [exact resolveNamesWithLocalCache_flagsStay|].
  split; [exact Hremove|].
  split.
  { intros filePath. unfold invalidateResolutionOfFile, invalidateResolutions.
    always_go ltac:(first [ apply Hremove | flags_step ModuleName ]). }
  split.
  { intros directory fileOrDirectory.
    unfold onDirectoryOfFailedLookupChanged, invalidateResolutionOfFailedLookupLocation,
      invalidateResolutions.
    always_go ltac:(flags_step ModuleName). }
  split; [unfold startCachingPerDirectoryResolution; always_go ltac:(flags_step ModuleName)|].
  split; [unfold finishCachingPerDirectoryResolution;
          always_go ltac:(flags_step ModuleName)|].
  split; [unfold createHasInvalidatedResolution; always_go ltac:(flags_step ModuleName)|].
  split; [unfold startRecordingFilesWithChangedResolutions;
          always_go ltac:(flags_step ModuleName)|].
  split; [unfold finishRecordingFilesWithChangedResolutions;
          always_go ltac:(flags_step ModuleName)|].
  split.
  { unfold updateTypeRootsWatch, closeTypeRootsWatch.
    always_go ltac:(first
      [ flags_step ModuleName
      | apply always_update; intros c0; apply createTypeRootsWatches_flagsStay ]). }
  unfold clear, closeTypeRootsWatch. always_go ltac:(flags_step ModuleName).
Qed.

(** The maps of the resolutions per directory are empty, as the assertion
    of [startCachingPerDirectoryResolution] and [clear] asks. *)
Definition betweenPasses (c : ResolutionCache) : bool :=
  (JsMap.size (perDirectoryResolvedModuleNames c) =? 0) &&
  (JsMap.size (perDirectoryResolvedTypeReferenceDirectives c) =? 0).

Lemma size_of_get {V} (key : string) (m : JsMap.t V) :
  is_Some (JsMap.get key m) -> JsMap.size m <> 0.
Proof. destruct m; [intros [? ?]; discriminate | discriminate]. Qed.

Lemma clear_outcome (c : ResolutionCache) :
  exists c',
    clear c = (if betweenPasses c then Returns tt c' else Throws AssertionFailure c') /\
    directoryWatchesOfFailedLookups c' = ∅ /\
    customFailedLookupPaths c' = ∅ /\
    typeRootsWatches c' = ∅ /\
    (forall k, perFile k c' = []) /\
    allFilesHaveInvalidatedResolution c' = false.
Proof.
  exists (stateAfter (clear c)).
  unfold clear, closeTypeRootsWatch, betweenPasses.
  unfold mbind, CallOn_bind, update, read, assert, id.
  destruct c as [? ? ? ? ? modules ? types ? ? ? ? ? ? ? ?]; cbn.
  destruct ((length modules =? 0) && (length types =? 0));
    (split; [reflexivity|]; repeat split; try reflexivity; intros []; reflexivity).
Qed.

(** X8 - Resolve calls belong into a pass.  Right after
    [finishCachingPerDirectoryResolution] a new pass can start; after a
    resolve call that returned, the maps of the directories are in use, so
    that until the pass is finished [startCachingPerDirectoryResolution]
    fails its assertion, and so does [clear], which has by then closed the
    watches and dropped the resolutions all the same. *)
Theorem resolve_calls_belong_into_a_pass :
  (forall c,
     exists c',
       finishCachingPerDirectoryResolution c = Returns tt c' /\
       startCachingPerDirectoryResolution c' = Returns tt c') /\
  (forall k names containingFile reusedNames logChanges c results c',
     resolveNamesWithLocalCache k names containingFile reusedNames logChanges c
       = Returns results c' ->
     startCachingPerDirectoryResolution c' = Throws AssertionFailure c' /\
     exists c'',
       clear c' = Throws AssertionFailure c'' /\
       directoryWatchesOfFailedLookups c'' = ∅ /\
       (forall kind, perFile kind c'' = [])).
Proof.
  split.
  - intros c. eexists. split; [reflexivity|].
    unfold startCachingPerDirectoryResolution. destruct c; reflexivity.
  - intros k names containingFile reusedNames logChanges c results c' Hcall.
    destruct (resolveNamesWithLocalCache_maps k containingFile _ _ _ _ _ _ Hcall)
      as [_ Hdir%size_of_get].
    assert (Hbetween : betweenPasses c' = false).
    { unfold betweenPasses. destruct k; cbn [perDirectory] in Hdir.
      - apply andb_false_iff. left. apply Nat.eqb_neq, Hdir.
      - apply andb_false_iff. right. apply Nat.eqb_neq, Hdir. }
    split.
    + unfold startCachingPerDirectoryResolution.
      erewrite bind_Returns by reflexivity. unfold id.
      fold (betweenPasses c'). rewrite Hbetween. reflexivity.
    + destruct (clear_outcome c') as (c'' & Hclear & Hwatches & _ & _ & Hfiles & _).
      rewrite Hbetween in Hclear. exists c''. auto.
Qed.

End PassProtocol.

(** *** Invalidating the resolutions with a changed failed lookup location *)

Section FailedLookupInvalidation.
Context `{!CoreLibrary} `{!ResolutionCacheHost}.

(** Whether a failed lookup location counts as changed when the file or
    directory at [fileOrDirectoryPath] appears. *)
Definition isChangedFailedLookupLocation (fileOrDirectoryPath : Path)
    (isCreatingWatchedDirectory : bool) (location : string) : bool :=
  if isCreatingWatchedDirectory
  then isInDirectoryPath (Some fileOrDirectoryPath) (toPath location)
  else String.eqb (toPath location) fileOrDirectoryPath.

(** Whether the change is looked at: the creation of a watched directory
    always, another path when its extension is a default one or when it is
    a custom failed lookup path. *)
Definition concernsFailedLookups (c : ResolutionCache) (fileOrDirectoryPath : Path)
    (isCreatingWatchedDirectory : bool) : bool :=
  isCreatingWatchedDirectory ||
  isPathWithDefaultFailedLookupExtension fileOrDirectoryPath ||
  bool_decide (is_Some (customFailedLookupPaths c !! fileOrDirectoryPath)).

(** X9 - [invalidateResolutionOfFailedLookupLocation] with no more
    containing files cached than the ceiling allows, and containing files of
    one directory sharing their resolution of a name.  A change that is not
    looked at (no creation of a watched directory, no default extension, no
    custom failed lookup path) gives [false] and leaves the cache as it is.
    Any other change sets the invalidated flag of exactly the cached
    resolutions that have a changed failed lookup location, on top of the
    flags set before, and leaves the cached resolutions where they are. *)
Theorem invalidateResolutionOfFailedLookupLocation_marks
    (fileOrDirectoryPath : Path) (isCreatingWatchedDirectory : bool) (c : ResolutionCache) :
  hasReachedResolutionIterationLimit c = false ->
  sharedInDirectory (cachedResolutions (resolvedModuleNames c)) ->
  sharedInDirectory (cachedResolutions (resolvedTypeReferenceDirectives c)) ->
  exists answer c',
    invalidateResolutionOfFailedLookupLocation fileOrDirectoryPath
      isCreatingWatchedDirectory c = Returns answer c' /\
    (concernsFailedLookups c fileOrDirectoryPath isCreatingWatchedDirectory = false ->
     answer = false /\ c' = c) /\
    (forall i,
       i ∈ isInvalidated c' <->
       i ∈ isInvalidated c \/
       (concernsFailedLookups c fileOrDirectoryPath isCreatingWatchedDirectory = true /\
        exists k file name r,
          (file, name, r) ∈ cachedResolutions (perFile k c) /\ identity r = i /\
          existsb (isChangedFailedLookupLocation fileOrDirectoryPath
                     isCreatingWatchedDirectory) (failedLookupLocations r) = true)) /\
    (forall k, perFile k c' = perFile k c /\ perDirectory k c' = perDirectory k c) /\
    directoryWatchesOfFailedLookups c' = directoryWatchesOfFailedLookups c /\
    allFilesHaveInvalidatedResolution c' = allFilesHaveInvalidatedResolution c.
Proof.
  intros Hlimit Hmodules Htypes.
  set (changed := fun r : Resolution =>
         existsb (isChangedFailedLookupLocation fileOrDirectoryPath
                    isCreatingWatchedDirectory) (failedLookupLocations r)).
  (* the scan *)
  assert (Hscan : exists c',
             invalidateResolutions changed c = Returns tt c' /\
             (forall i,
                i ∈ isInvalidated c' <->
                i ∈ isInvalidated c \/
                exists k file name r,
                  (file, name, r) ∈ cachedResolutions (perFile k c) /\ identity r = i /\
                  changed r = true) /\
             (forall k, perFile k c' = perFile k c /\ perDirectory k c' = perDirectory k c) /\
             directoryWatchesOfFailedLookups c' = directoryWatchesOfFailedLookups c /\
             allFilesHaveInvalidatedResolution c' = allFilesHaveInvalidatedResolution c).
  { destruct (invalidateResolutionCache_marks ModuleName changed c Hmodules)
      as (files2 & flags2 & Hc2 & Hmarks2).
    set (c2 := withInvalidatedFiles files2 (withIsInvalidated flags2 (nextResolution c) c))
      in *.
    assert (Htypes2 : sharedInDirectory (cachedResolutions (perFile TypeReferenceDirective c2)))
      by (destruct c; exact Htypes).
    destruct (invalidateResolutionCache_marks TypeReferenceDirective changed c2 Htypes2)
      as (files3 & flags3 & Hc3 & Hmarks3).
    set (c3 := withInvalidatedFiles files3 (withIsInvalidated flags3 (nextResolution c2) c2))
      in *.
    exists c3. split; [|split; [|split; [|split]]].
    - unfold invalidateResolutions. erewrite bind_Returns by reflexivity. unfold id.
      rewrite Hlimit. erewrite bind_Returns by exact Hc2. exact Hc3.
    - intros i. change (isInvalidated c3) with flags3. rewrite Hmarks3.
      change (isInvalidated c2) with flags2. rewrite Hmarks2.
      assert (perFile TypeReferenceDirective c2 = perFile TypeReferenceDirective c) as ->
        by (destruct c; reflexivity).
      split.
      + intros [[Hi|(file & name & r & Hin & Hid & Hr)]|(file & name & r & Hin & Hid & Hr)].
        * left. exact Hi.
        * right. exists ModuleName, file, name, r. auto.
        * right. exists TypeReferenceDirective, file, name, r. auto.
      + intros [Hi|(k & file & name & r & Hin & Hid & Hr)]; [auto|].
        destruct k; [left; right | right]; exists file, name, r; auto.
    - intros k. destruct c, k; split; reflexivity.
    - destruct c; reflexivity.
    - destruct c; reflexivity. }
  destruct Hscan as (c' & Hc' & Hflags & Hmaps & Hwatches & Hall).
  assert (Hrun : forall isChanged,
             (fun r : Resolution => existsb isChanged (failedLookupLocations r)) = changed ->
             exists answer,
               (let hasChangedFailedLookupLocation (r : Resolution) :=
                  existsb isChanged (failedLookupLocations r) in
                let invalidatedFilesCount := size <$> filesWithInvalidatedResolutions c in
                invalidateResolutions hasChangedFailedLookupLocation ;;
                c' ← read id;
                mret (allFilesHaveInvalidatedResolution c' ||
                      match filesWithInvalidatedResolutions c' with
                      | Some files =>
                          negb (bool_decide (Some (size files) = invalidatedFilesCount))
                      | None => false
                      end)) c = Returns answer c').
  { intros isChanged Heq. cbv zeta. rewrite Heq.
    erewrite bind_Returns by exact Hc'. erewrite bind_Returns by reflexivity.
    eexists. reflexivity. }
  unfold invalidateResolutionOfFailedLookupLocation.
  erewrite bind_Returns by reflexivity. unfold id.
  unfold concernsFailedLookups.
  destruct isCreatingWatchedDirectory; cbn [orb].
  - destruct (Hrun (fun location =>
                      isInDirectoryPath (Some fileOrDirectoryPath) (toPath location)))
      as [answer Hanswer]; [reflexivity|].
    exists answer, c'. split; [exact Hanswer|]. split; [discriminate|].
    split; [|auto]. intros i. rewrite Hflags. split.
    + intros [?|?]; auto.
    + intros [?|[_ ?]]; auto.
  - destruct (isPathWithDefaultFailedLookupExtension fileOrDirectoryPath) eqn:Hext;
      cbn [negb andb orb].
    + destruct (Hrun (fun location => String.eqb (toPath location) fileOrDirectoryPath))
        as [answer Hanswer]; [reflexivity|].
      exists answer, c'. split; [exact Hanswer|]. split; [discriminate|].
      split; [|auto]. intros i. rewrite Hflags. split.
      * intros [?|?]; auto.
      * intros [?|[_ ?]]; auto.
    + destruct (bool_decide (is_Some (customFailedLookupPaths c !! fileOrDirectoryPath)))
        eqn:Hcustom; cbn [negb].
      * destruct (Hrun (fun location => String.eqb (toPath location) fileOrDirectoryPath))
          as [answer Hanswer]; [reflexivity|].
        exists answer, c'. split; [exact Hanswer|]. split; [discriminate|].
        split; [|auto]. intros i. rewrite Hflags. split.
        -- intros [?|?]; auto.
        -- intros [?|[_ ?]]; auto.
      * exists false, c. split; [reflexivity|]. split; [auto|].
        split; [|auto]. intros i. split; [auto|]. intros [?|[? _]]; [auto|discriminate].
Qed.

End FailedLookupInvalidation.

(** *** The watches of the type roots *)

Section TypeRootsWatch.
Context `{!CoreLibrary} `{!ResolutionCacheHost}.

(** The paths of the type roots that are to be watched: none when the
    compilation settings list the types or have no effective type roots. *)
Definition wantedTypeRoots : list Path :=
  if compilationSettingsListTypes then []
  else default [] (map toPath <$> effectiveTypeRoots).

Lemma createTypeRootsWatches_outcome (typeRoots : list string) (c : ResolutionCache) :
  let c' := foldl createTypeRootsWatch c typeRoots in
  (forall p, is_Some (typeRootsWatches c' !! p) <->
             is_Some (typeRootsWatches c !! p) \/ p ∈ map toPath typeRoots) /\
  (forall p w, typeRootsWatches c !! p = Some w -> typeRootsWatches c' !! p = Some w) /\
  (forall p w, typeRootsWatches c !! p = None -> typeRootsWatches c' !! p = Some w ->
               nextWatcher c <= watcherId w < nextWatcher c') /\
  nextWatcher c <= nextWatcher c' /\
  closedWatchers c' = closedWatchers c /\
  directoryWatchesOfFailedLookups c' = directoryWatchesOfFailedLookups c.
Proof.
  revert c. induction typeRoots as [|typeRoot typeRoots IH]; intros c; cbn [foldl map].
  - split; [|split; [|split; [|split; [|split]]]]; try reflexivity; try lia.
    + intros p. split; [auto|]. intros [?|Hin]; [assumption | inversion Hin].
    + auto.
    + intros p w Hnone Hsome. rewrite Hnone in Hsome. discriminate.
  - specialize (IH (createTypeRootsWatch c typeRoot)). cbv zeta in IH.
    destruct IH as (Hdom & Hkeep & Hfresh & Hnext & Hclosed & Hwatches).
    set (c' := foldl createTypeRootsWatch (createTypeRootsWatch c typeRoot) typeRoots) in *.
    unfold createTypeRootsWatch in Hdom, Hkeep, Hfresh, Hnext, Hclosed, Hwatches.
    destruct (typeRootsWatches c !! toPath typeRoot) as [w0|] eqn:Hroot.
    + split; [|split; [|split; [|split; [|split]]]]; try assumption.
      intros p. rewrite Hdom, elem_of_cons. split; [tauto|].
      intros [?|[->|?]]; [tauto | left; eauto | tauto].
    + assert (Hroots1 : forall p,
                 typeRootsWatches
                   (withWatches (customFailedLookupPaths c)
                      (directoryWatchesOfFailedLookups c) (S (nextWatcher c))
                      (closedWatchers c)
                      (withTypeRootsWatches
                         (<[toPath typeRoot := {| watcherId := nextWatcher c;
                                                  watchedPath := typeRoot |}]>
                            (typeRootsWatches c)) (closedWatchers c) c)) !! p
                 = <[toPath typeRoot := {| watcherId := nextWatcher c;
                                           watchedPath := typeRoot |}]>
                     (typeRootsWatches c) !! p) by (intros p; destruct c; reflexivity).
      assert (Hnext1 : nextWatcher
                         (withWatches (customFailedLookupPaths c)
                            (directoryWatchesOfFailedLookups c) (S (nextWatcher c))
                            (closedWatchers c)
                            (withTypeRootsWatches
                               (<[toPath typeRoot := {| watcherId := nextWatcher c;
                                                        watchedPath := typeRoot |}]>
                                  (typeRootsWatches c)) (closedWatchers c) c))
                       = S (nextWatcher c)) by (destruct c; reflexivity).
      rewrite Hnext1 in Hfresh, Hnext.
      split; [|split; [|split; [|split; [|split]]]].
      * intros p. rewrite Hdom, Hroots1, elem_of_cons.
        destruct (decide (toPath typeRoot = p)) as [<-|Hne].
        -- rewrite lookup_insert_eq. split; [auto|]. intros _. left. eauto.
        -- rewrite lookup_insert_ne by exact Hne. split; [tauto|].
           intros [?|[->|?]]; [tauto | contradiction | tauto].
      * intros p w Hp. apply Hkeep. rewrite Hroots1.
        rewrite lookup_insert_ne; [exact Hp|]. intros <-. congruence.
      * intros p w Hnone Hsome.
        destruct (decide (toPath typeRoot = p)) as [<-|Hne].
        -- specialize (Hkeep (toPath typeRoot) {| watcherId := nextWatcher c;
                                                  watchedPath := typeRoot |}).
           rewrite Hroots1, lookup_insert_eq in Hkeep. specialize (Hkeep eq_refl).
           rewrite Hkeep in Hsome. injection Hsome as <-. cbn. lia.
        -- assert (Hstep : nextWatcher c <= S (nextWatcher c)) by lia.
           specialize (Hfresh p w). rewrite Hroots1 in Hfresh.
           rewrite lookup_insert_ne in Hfresh by exact Hne.
           specialize (Hfresh Hnone Hsome). lia.
      * lia.
      * rewrite Hclosed. destruct c; reflexivity.
      * rewrite Hwatches. destruct c; reflexivity.
Qed.

(** X10 - [updateTypeRootsWatch] makes the table of type root watches mirror
    the type roots that are to be watched: afterwards exactly their paths
    have a watch; a path that had one and is still wanted keeps its watcher,
    a path that is no longer wanted has its watcher closed, a path that is
    new gets a watcher the host had not handed out before, and the directory
    watches of the failed lookups are left alone. *)
Theorem updateTypeRootsWatch_mirrors (c : ResolutionCache) :
  exists c',
    updateTypeRootsWatch c = Returns tt c' /\
    (forall p, is_Some (typeRootsWatches c' !! p) <-> p ∈ wantedTypeRoots) /\
    (forall p w, typeRootsWatches c !! p = Some w ->
       if bool_decide (p ∈ wantedTypeRoots)
       then typeRootsWatches c' !! p = Some w
       else w ∈ drop (length (closedWatchers c)) (closedWatchers c')) /\
    (forall p w, typeRootsWatches c !! p = None -> typeRootsWatches c' !! p = Some w ->
       nextWatcher c <= watcherId w < nextWatcher c') /\
    take (length (closedWatchers c)) (closedWatchers c') = closedWatchers c /\
    directoryWatchesOfFailedLookups c' = directoryWatchesOfFailedLookups c.
Proof.
  assert (Hclose : forall c0,
             exists c', closeTypeRootsWatch c0 = Returns tt c' /\
               typeRootsWatches c' = ∅ /\
               closedWatchers c' = closedWatchers c0 ++ (map_to_list (typeRootsWatches c0)).*2 /\
               directoryWatchesOfFailedLookups c' = directoryWatchesOfFailedLookups c0).
  { intros c0. eexists. split; [reflexivity|]. destruct c0; repeat split. }
  assert (Hnone : wantedTypeRoots = [] ->
                  forall c', closeTypeRootsWatch c = Returns tt c' ->
                  typeRootsWatches c' = ∅ ->
                  closedWatchers c' = closedWatchers c ++ (map_to_list (typeRootsWatches c)).*2 ->
                  directoryWatchesOfFailedLookups c' = directoryWatchesOfFailedLookups c ->
                  (forall p, is_Some (typeRootsWatches c' !! p) <-> p ∈ wantedTypeRoots) /\
                  (forall p w, typeRootsWatches c !! p = Some w ->
                     if bool_decide (p ∈ wantedTypeRoots)
                     then typeRootsWatches c' !! p = Some w
                     else w ∈ drop (length (closedWatchers c)) (closedWatchers c')) /\
                  (forall p w, typeRootsWatches c !! p = None ->
                     typeRootsWatches c' !! p = Some w ->
                     nextWatcher c <= watcherId w < nextWatcher c') /\
                  take (length (closedWatchers c)) (closedWatchers c') = closedWatchers c /\
                  directoryWatchesOfFailedLookups c' = directoryWatchesOfFailedLookups c).
  { intros Hwanted c' _ Hroots Hclosed Hwatches. rewrite Hwanted, Hroots, Hclosed.
    rewrite drop_app_length, take_app_length.
    split; [|split; [|split; [|split; [reflexivity | exact Hwatches]]]].
    - intros p. rewrite lookup_empty. split; [intros [? ?]; discriminate|].
      intros Hin. inversion Hin.
    - intros p w Hp. rewrite bool_decide_eq_false_2 by (intros Hin; inversion Hin).
      apply list_elem_of_fmap. exists (p, w). split; [reflexivity|].
      apply elem_of_map_to_list, Hp.
    - intros p w _. rewrite lookup_empty. discriminate. }
  unfold updateTypeRootsWatch, wantedTypeRoots in *.
  destruct compilationSettingsListTypes.
  { destruct (Hclose c) as (c' & Hc' & H1 & H2 & H3). exists c'.
    split; [exact Hc'|]. apply Hnone; auto. }
  destruct effectiveTypeRoots as [typeRoots|]; cbn [fmap option_fmap option_map default] in *.
  2:{ destruct (Hclose c) as (c' & Hc' & H1 & H2 & H3). exists c'.
      split; [exact Hc'|]. apply Hnone; auto. }
  clear Hclose Hnone.
  set (kept := fun kv : Path * FileWatcher =>
                 bool_decide (kv.1 ∈ map toPath typeRoots)).
  set (c1 := withTypeRootsWatches (filter (fun kv => kept kv = true) (typeRootsWatches c))
               (closedWatchers c ++
                  (map_to_list (filter (fun kv => kept kv = false) (typeRootsWatches c))).*2)
               c).
  exists (foldl createTypeRootsWatch c1 typeRoots). split; [reflexivity|].
  destruct (createTypeRootsWatches_outcome typeRoots c1)
    as (Hdom & Hkeep & Hfresh & Hnext & Hclosed & Hwatches).
  assert (Hroots1 : typeRootsWatches c1
                    = filter (fun kv => kept kv = true) (typeRootsWatches c))
    by (destruct c; reflexivity).
  assert (Hclosed1 : closedWatchers c1
                     = closedWatchers c ++
                       (map_to_list (filter (fun kv => kept kv = false)
                                       (typeRootsWatches c))).*2)
    by (destruct c; reflexivity).
  assert (Hnext1 : nextWatcher c1 = nextWatcher c) by (destruct c; reflexivity).
  assert (Hwatches1 : directoryWatchesOfFailedLookups c1 = directoryWatchesOfFailedLookups c)
    by (destruct c; reflexivity).
  rewrite Hclosed, Hclosed1, drop_app_length, take_app_length.
  split; [|split; [|split; [|split; [reflexivity | congruence]]]].
  - intros p. rewrite Hdom, Hroots1. split; [|auto].
    intros [[w Hw]|Hin]; [|exact Hin].
    apply map_lookup_filter_Some in Hw as [_ Hw]. unfold kept in Hw.
    apply bool_decide_eq_true in Hw. exact Hw.
  - intros p w Hp.
    change (id (map toPath typeRoots)) with (map toPath typeRoots).
    destruct (bool_decide_reflect (p ∈ map toPath typeRoots)) as [Hin|Hout].
    + apply Hkeep. rewrite Hroots1. apply map_lookup_filter_Some. split; [exact Hp|].
      unfold kept. apply bool_decide_eq_true. exact Hin.
    + apply list_elem_of_fmap. exists (p, w). split; [reflexivity|].
      apply elem_of_map_to_list, map_lookup_filter_Some. split; [exact Hp|].
      unfold kept. apply bool_decide_eq_false. exact Hout.
  - intros p w Hnone Hsome. rewrite <- Hnext1. apply (Hfresh p w); [|exact Hsome].
    rewrite Hroots1. apply map_lookup_filter_None. left. exact Hnone.
Qed.

End TypeRootsWatch.

(** *** The watchers that the cache was handed *)

Section WatcherAccount.
Context `{!CoreLibrary} `{!ResolutionCacheHost}.

(** The watchers in the two tables of the cache. *)
Definition openWatchers (c : ResolutionCache) : list FileWatcher :=
  (watcher <$> (map_to_list (directoryWatchesOfFailedLookups c)).*2) ++
  (map_to_list (typeRootsWatches c)).*2.

(** Every watcher that the host has handed out is in one of the tables or
    closed, and never both or twice. *)
Definition accounted (c : ResolutionCache) : Prop :=
  watcherId <$> (openWatchers c ++ closedWatchers c) ≡ₚ seq 0 (nextWatcher c).

Definition keepsAccount : relation ResolutionCache := fun c c' =>
  accounted c -> accounted c'.

#[local] Instance keepsAccount_preorder : PreOrder keepsAccount.
Proof. split; [intros c; exact id | intros c1 c2 c3 H1 H2 Hc; exact (H2 (H1 Hc))]. Qed.

Lemma keepsAccount_same (c c' : ResolutionCache) :
  directoryWatchesOfFailedLookups c' = directoryWatchesOfFailedLookups c ->
  typeRootsWatches c' = typeRootsWatches c ->
  closedWatchers c' = closedWatchers c ->
  nextWatcher c' = nextWatcher c ->
  keepsAccount c c'.
Proof.
  intros Hd Ht Hc Hn. unfold keepsAccount, accounted, openWatchers.
  rewrite Hd, Ht, Hc, Hn. exact id.
Qed.

Lemma values_insert_fresh {V} (m : gmap Path V) (i : Path) (x : V) :
  m !! i = None -> (map_to_list (<[i := x]> m)).*2 ≡ₚ x :: (map_to_list m).*2.
Proof. intros Hi. rewrite (map_to_list_insert m i x Hi). reflexivity. Qed.

Lemma values_insert_same {V W} (f : V -> W) (m : gmap Path V) (i : Path) (x y : V) :
  m !! i = Some y -> f x = f y ->
  f <$> (map_to_list (<[i := x]> m)).*2 ≡ₚ f <$> (map_to_list m).*2.
Proof.
  intros Hi Hf. rewrite <- (insert_delete_id m i y Hi) at 2.
  rewrite <- (insert_delete_eq m).
  rewrite !values_insert_fresh by apply lookup_delete_eq.
  cbn [fmap list_fmap]. rewrite Hf. reflexivity.
Qed.

Lemma values_filter_split {V} (P : Path * V -> Prop) `{!forall kv, Decision (P kv)}
    (m : gmap Path V) :
  (map_to_list (filter P m)).*2 ++ (map_to_list (filter (fun kv => ~ P kv) m)).*2
  ≡ₚ (map_to_list m).*2.
Proof.
  induction m as [|i x m Hi _ IH] using map_first_key_ind.
  - rewrite !map_filter_empty, map_to_list_empty. reflexivity.
  - rewrite (values_insert_fresh m i x Hi). destruct (decide (P (i, x))) as [HP|HP].
    + rewrite (map_filter_insert_True P m i x HP).
      rewrite (map_filter_insert_not' (fun kv => ~ P kv) m i x); cycle 1.
      { intros HnP. exact (HnP HP). }
      { intros y Hy. rewrite Hi in Hy. discriminate. }
      rewrite values_insert_fresh by (apply map_lookup_filter_None; left; exact Hi).
      cbn. rewrite IH. reflexivity.
    + rewrite (map_filter_insert_True (fun kv => ~ P kv) m i x HP).
      rewrite (map_filter_insert_not' P m i x); cycle 1.
      { exact HP. }
      { intros y Hy. rewrite Hi in Hy. discriminate. }
      rewrite (values_insert_fresh (filter (fun kv => ~ P kv) m))
        by (apply map_lookup_filter_None; left; exact Hi).
      rewrite <- Permutation_middle, IH. reflexivity.
Qed.

Lemma accounted_createResolutionCache (rootDirForResolution : option string) :
  accounted (createResolutionCache rootDirForResolution).
Proof.
  unfold accounted, openWatchers, createResolutionCache. cbn.
  rewrite !map_to_list_empty. reflexivity.
Qed.

Lemma watchFailedLookupLocation_account (location : string) :
  always keepsAccount (watchFailedLookupLocation location).
Proof.
  intros c. rewrite watchFailedLookupLocation_outcome. cbv zeta.
  destruct (getDirectoryToWatchFailedLookupLocation _ _ _) as [w|]; cbn [stateAfter].
  - destruct (directoryWatchesOfFailedLookups c !! dirPath w) as [dirWatcher|] eqn:Hd;
      cbn [stateAfter]; unfold keepsAccount, accounted, openWatchers; destruct c;
      cbn -[seq] in *.
    + erewrite (values_insert_same watcher); [exact id | exact Hd | reflexivity].
    + intros Hc. rewrite values_insert_fresh by exact Hd. cbn -[seq].
      rewrite Hc, seq_S. cbn -[seq]. apply Permutation_cons_append.
  - apply keepsAccount_same; destruct c; reflexivity.
Qed.

Lemma stopWatchFailedLookupLocation_account (location : string) :
  always keepsAccount (stopWatchFailedLookupLocation location).
Proof.
  intros c. rewrite stopWatchFailedLookupLocation_outcome.
  destruct (customCountIsNegative c location); [exact id|]. cbv zeta.
  destruct (getDirectoryToWatchFailedLookupLocation _ _ _) as [w|]; cbn [stateAfter].
  - destruct (directoryWatchesOfFailedLookups c !! dirPath w) as [dirWatcher|] eqn:Hd;
      cbn [stateAfter].
    + unfold keepsAccount, accounted, openWatchers; destruct c; cbn in *.
      erewrite (values_insert_same watcher); [exact id | exact Hd | reflexivity].
    + apply keepsAccount_same; destruct c; reflexivity.
  - apply keepsAccount_same; destruct c; reflexivity.
Qed.

Lemma watchFailedLookupLocationOfResolution_account (r : Resolution) (index : nat) :
  always keepsAccount (watchFailedLookupLocationOfResolution r index).
Proof.
  apply always_forEach; [apply _|]. intros location.
  apply watchFailedLookupLocation_account.
Qed.

Lemma stopWatchFailedLookupLocationOfResolutionFrom_account (r : Resolution) (index : nat) :
  always keepsAccount (stopWatchFailedLookupLocationOfResolutionFrom r index).
Proof.
  apply always_forEach; [apply _|]. intros location.
  apply stopWatchFailedLookupLocation_account.
Qed.

Lemma watchAndStopWatchDiffFailedLookupLocations_account (r existing : Resolution) :
  always keepsAccount (watchAndStopWatchDiffFailedLookupLocations r existing).
Proof.
  unfold watchAndStopWatchDiffFailedLookupLocations.
  destruct (diffFailedLookupLocations _ _ _).
  - apply watchFailedLookupLocationOfResolution_account.
  - apply always_bind; [apply _ | apply watchFailedLookupLocationOfResolution_account |].
    intros _. apply stopWatchFailedLookupLocationOfResolutionFrom_account.
  - apply stopWatchFailedLookupLocationOfResolutionFrom_account.
Qed.

(** A step that leaves the watchers alone. *)
Lemma account_update (f : ResolutionCache -> ResolutionCache) :
  (forall c, directoryWatchesOfFailedLookups (f c) = directoryWatchesOfFailedLookups c) ->
  (forall c, typeRootsWatches (f c) = typeRootsWatches c) ->
  (forall c, closedWatchers (f c) = closedWatchers c) ->
  (forall c, nextWatcher (f c) = nextWatcher c) ->
  always keepsAccount (update f).
Proof. intros H1 H2 H3 H4. apply always_update. intros c. apply keepsAccount_same; auto. Qed.

Ltac account_step k :=
  idtac;
  match goal with
  | |- always _ (watchAndStopWatchDiffFailedLookupLocations _ _) =>
      apply watchAndStopWatchDiffFailedLookupLocations_account
  | |- always _ (watchFailedLookupLocationOfResolution _ _) =>
      apply watchFailedLookupLocationOfResolution_account
  | |- always _ (stopWatchFailedLookupLocationOfResolutionFrom _ _) =>
      apply stopWatchFailedLookupLocationOfResolutionFrom_account
  | |- always _ (update _) =>
      apply account_update; intros c0;
      repeat match goal with |- context [match ?x with _ => _ end] => destruct x end;
      destruct c0; try destruct k; reflexivity
  | |- always _ (load _ _ _) =>
      intros c0; apply keepsAccount_same; destruct c0; reflexivity
  end.

Lemma resolveNamesWithLocalCache_account k names containingFile reusedNames logChanges :
  always keepsAccount
    (resolveNamesWithLocalCache k names containingFile reusedNames logChanges).
Proof.
  assert (Hname : forall loop name,
             always keepsAccount
               (resolveName k containingFile (toPath containingFile)
                  (getDirectoryPath (toPath containingFile)) loop name)).
  { intros loop name.
    unfold resolveName, setResolutionInFile, setResolutionInDirectory.
    always_go ltac:(account_step k). }
  assert (Heach : forall names loop,
             always keepsAccount
               (resolveEachName k containingFile (toPath containingFile)
                  (getDirectoryPath (toPath containingFile)) loop names)).
  { clear names. intros names. induction names as [|name names IH]; intros loop;
      cbn [resolveEachName].
    - apply always_ret. apply _.
    - apply always_bind; [apply _ | apply Hname | intros loop'; apply IH]. }
  unfold resolveNamesWithLocalCache, deleteResolutionInFile,
    stopWatchFailedLookupLocationOfResolution.
  always_go ltac:(first
    [ match goal with |- always _ (resolveEachName _ _ _ _ _ _) => apply Heach end
    | account_step k ]).
Qed.

Lemma removeResolutionsOfFile_account (filePath : Path) :
  always keepsAccount (removeResolutionsOfFile filePath).
Proof.
  unfold removeResolutionsOfFile, removeResolutionsOfFileFromCache,
    stopWatchFailedLookupLocationOfResolution.
  always_go ltac:(first [ account_step ModuleName | account_step TypeReferenceDirective ]).
Qed.

Lemma invalidateResolutions_account isInvalidatedResolution :
  always keepsAccount (invalidateResolutions isInvalidatedResolution).
Proof.
  intros c.
  destruct (invalidateResolutions_changes isInvalidatedResolution c)
    as (files & flags & all & ->).
  apply keepsAccount_same; destruct c; reflexivity.
Qed.

Lemma invalidateResolutionOfFile_account (filePath : Path) :
  always keepsAccount (invalidateResolutionOfFile filePath).
Proof.
  unfold invalidateResolutionOfFile.
  always_go ltac:(idtac;
                  match goal with
                  | |- always _ (removeResolutionsOfFile _) =>
                      apply removeResolutionsOfFile_account
                  | |- always _ (invalidateResolutions _) =>
                      apply invalidateResolutions_account
                  end).
Qed.

Lemma onDirectoryOfFailedLookupChanged_account (directory : Path) (fileOrDirectory : string) :
  always keepsAccount (onDirectoryOfFailedLookupChanged directory fileOrDirectory).
Proof.
  unfold onDirectoryOfFailedLookupChanged, invalidateResolutionOfFailedLookupLocation.
  always_go ltac:(first
    [ match goal with
      | |- always _ (invalidateResolutions _) => apply invalidateResolutions_account
      end
    | account_step ModuleName ]).
Qed.

Lemma closeTypeRootsWatch_account : always keepsAccount closeTypeRootsWatch.
Proof.
  intros c. unfold closeTypeRootsWatch, update. cbn [stateAfter].
  unfold keepsAccount, accounted, openWatchers.
  destruct c as [? ? ? ? ? ? ? ? ? watches roots ? ? next closed ?]; cbn -[seq].
  rewrite map_to_list_empty. cbn -[seq]. rewrite app_nil_r.
  intros Hc. rewrite <- Hc. rewrite !fmap_app. solve_Permutation.
Qed.

Lemma finishCachingPerDirectoryResolution_account :
  always keepsAccount finishCachingPerDirectoryResolution.
Proof.
  intros c. unfold finishCachingPerDirectoryResolution.
  unfold mbind, CallOn_bind, update. cbn [stateAfter].
  unfold keepsAccount, accounted, openWatchers.
  destruct c as [? ? ? ? ? ? ? ? ? watches roots ? ? next closed ?]; cbn -[seq].
  intros Hc. rewrite <- Hc.
  rewrite <- (values_filter_split (fun kv => refCount kv.2 ≠ 0%Z) watches).
  assert (Hfilter : filter (fun kv : Path * DirectoryWatchesOfFailedLookup =>
                              ~ refCount kv.2 ≠ 0%Z) watches
                    = filter (fun kv => refCount kv.2 = 0%Z) watches).
  { apply map_filter_ext. intros i x _. cbn. lia. }
  rewrite Hfilter, !fmap_app. solve_Permutation.
Qed.

Lemma clear_account : always keepsAccount clear.
Proof.
  unfold clear.
  always_go ltac:(first
    [ match goal with
      | |- always _ closeTypeRootsWatch => apply closeTypeRootsWatch_account
      end
    | match goal with
      | |- always _ (update (fun c => withWatches _ _ _ _ c)) => idtac
      end;
      apply always_update; intros c0;
      unfold keepsAccount, accounted, openWatchers;
      destruct c0 as [? ? ? ? ? ? ? ? ? watches roots ? ? next closed ?]; cbn -[seq];
      rewrite map_to_list_empty; cbn -[seq];
      intros Hc; rewrite <- Hc, !fmap_app; solve_Permutation
    | account_step ModuleName ]).
Qed.

Lemma createTypeRootsWatch_account (c : ResolutionCache) (typeRoot : string) :
  keepsAccount c (createTypeRootsWatch c typeRoot).
Proof.
  unfold createTypeRootsWatch.
  destruct (typeRootsWatches c !! toPath typeRoot) eqn:Hroot; [exact id|].
  unfold keepsAccount, accounted, openWatchers.
  destruct c as [? ? ? ? ? ? ? ? ? watches roots ? ? next closed ?]; cbn -[seq] in *.
  intros Hc. rewrite values_insert_fresh by exact Hroot.
  rewrite seq_S, <- Hc, !fmap_app. cbn -[seq]. solve_Permutation.
Qed.

Lemma updateTypeRootsWatch_account : always keepsAccount updateTypeRootsWatch.
Proof.
  unfold updateTypeRootsWatch.
  destruct compilationSettingsListTypes; [apply closeTypeRootsWatch_account|].
  destruct effectiveTypeRoots as [typeRoots|]; [|apply closeTypeRootsWatch_account].
  apply always_bind; [apply _ | | intros _].
  - apply always_update. intros c.
    unfold keepsAccount, accounted, openWatchers.
    destruct c as [? ? ? ? ? ? ? ? ? watches roots ? ? next closed ?]; cbn -[seq].
    intros Hc. rewrite <- Hc.
    set (kept := fun kv : Path * FileWatcher =>
                   bool_decide (kv.1 ∈ map toPath typeRoots) = true).
    rewrite <- (values_filter_split kept roots).
    assert (Hfilter : filter (fun kv : Path * FileWatcher =>
                                bool_decide (kv.1 ∈ map toPath typeRoots) = false) roots
                      = filter (fun kv => ~ kept kv) roots).
    { apply map_filter_ext. intros i x _. unfold kept. cbn.
      destruct (bool_decide (i ∈ map toPath typeRoots)); split; congruence. }
    rewrite Hfilter, !fmap_app. solve_Permutation.
  - apply always_update. intros c. induction typeRoots as [|typeRoot typeRoots IH]
                                     using rev_ind; [exact id|].
    rewrite foldl_app. cbn [foldl]. etrans; [exact IH|].
    apply createTypeRootsWatch_account.
Qed.

(** X11 - No watcher is lost and none is closed twice: a new cache holds no
    watcher, and when every watcher that the host has handed out so far is
    in exactly one place (the table of the directory watches, the table of
    the type root watches, or closed), the same holds after each operation
    of the cache, whether it returns or throws. *)
Theorem watchers_stay_accounted :
  (forall rootDirForResolution, accounted (createResolutionCache rootDirForResolution)) /\
  (forall k names containingFile reusedNames logChanges,
     always keepsAccount
       (resolveNamesWithLocalCache k names containingFile reusedNames logChanges)) /\
  (forall filePath, always keepsAccount (removeResolutionsOfFile filePath)) /\
  (forall filePath, always keepsAccount (invalidateResolutionOfFile filePath)) /\
  (forall directory fileOrDirectory,
     always keepsAccount (onDirectoryOfFailedLookupChanged directory fileOrDirectory)) /\
  always keepsAccount startCachingPerDirectoryResolution /\
  always keepsAccount finishCachingPerDirectoryResolution /\
  always keepsAccount createHasInvalidatedResolution /\
  always keepsAccount startRecordingFilesWithChangedResolutions /\
  always keepsAccount finishRecordingFilesWithChangedResolutions /\
  always keepsAccount updateTypeRootsWatch /\
  always keepsAccount closeTypeRootsWatch /\
  always keepsAccount clear.
Proof.
  split; [exact accounted_createResolutionCache|].
  split; [exact resolveNamesWithLocalCache_account|].
  split; [exact removeResolutionsOfFile_account|].
  split; [exact invalidateResolutionOfFile_account|].
  split; [exact onDirectoryOfFailedLookupChanged_account|].
  split; [unfold startCachingPerDirectoryResolution;
          always_go ltac:(account_step ModuleName)|].
  split; [exact finishCachingPerDirectoryResolution_account|].
  split; [unfold createHasInvalidatedResolution;
          always_go ltac:(account_step ModuleName)|].
  split; [unfold startRecordingFilesWithChangedResolutions;
          always_go ltac:(account_step ModuleName)|].
  split; [unfold finishRecordingFilesWithChangedResolutions;
          always_go ltac:(account_step ModuleName)|].
  split; [exact updateTypeRootsWatch_account|].
  split; [exact closeTypeRootsWatch_account | exact clear_account].
Qed.

End WatcherAccount.

(** ** The project: roots and state version *)

(** *** The roots of a project *)

Section ProjectRoots.
Context `{!CoreLibrary} `{!ResolutionCacheHost} `{!ProjectService}.
Import JsMapFacts.

Lemma onResolutionCache_returns {A} (m : Call A) (p p' : Project) (a : A) :
  onResolutionCache m p = Returns a p' ->
  exists c c',
    resolutionCache p = Some c /\ m c = Returns a c' /\
    p' = withResolutionCache (Some c') p.
Proof.
  unfold onResolutionCache. destruct (resolutionCache p) as [c|]; [|discriminate].
  destruct (m c) as [a' c'|e c'] eqn:Hm; [|discriminate].
  intros [= <- <-]. eauto.
Qed.

(** X12 - A script info is added as a root once: when [addRoot] returns,
    the info was no root before and is one now, it is the last of the root
    files, the roots at the other paths are as before, and the state version
    of the project is one more; adding it again fails its assertion and
    changes nothing. *)
Theorem addRoot_adds_once (info : ScriptInfo) (p p' : Project) :
  addRoot info p = Returns tt p' ->
  isRoot p info = false /\
  isRoot p' info = true /\
  rootFiles p' = (fun roots => roots ++ [info]) <$> rootFiles p /\
  (forall other, scriptInfoPath other <> scriptInfoPath info ->
                 isRoot p' other = isRoot p other) /\
  projectStateVersion p' = (projectStateVersion p + 1)%Z /\
  addRoot info p' = Throws AssertionFailure p'.
Proof.
  unfold addRoot. erewrite bind_Returns by reflexivity. unfold id.
  destruct (isRoot p info) eqn:Hroot; [discriminate|]. cbn [negb assert].
  erewrite bind_Returns by reflexivity.
  destruct (rootFiles p) as [roots|] eqn:Hroots; [|discriminate].
  erewrite bind_Returns by reflexivity.
  destruct (rootFilesMap p) as [rootsMap|] eqn:Hmap; [|discriminate].
  erewrite bind_Returns by reflexivity.
  erewrite bind_Returns by reflexivity.
  unfold markAsDirty, update. intros [= <-].
  assert (Hafter : forall other,
             isRoot (withProjectStateVersion
                       (projectStateVersion
                          (withRoots (Some (roots ++ [info]))
                             (Some (JsMap.set (scriptInfoPath info) (RootScriptInfo info)
                                      rootsMap)) p) + 1)%Z
                       (withRoots (Some (roots ++ [info]))
                          (Some (JsMap.set (scriptInfoPath info) (RootScriptInfo info)
                                   rootsMap)) p)) other
             = match JsMap.get (scriptInfoPath other)
                       (JsMap.set (scriptInfoPath info) (RootScriptInfo info) rootsMap) with
               | Some (RootScriptInfo info') => bool_decide (info' = other)
               | _ => false
               end).
  { intros other. destruct p; reflexivity. }
  split; [reflexivity|]. split; [|split; [|split; [|split]]].
  - rewrite Hafter, get_set_eq. apply bool_decide_eq_true. reflexivity.
  - destruct p; reflexivity.
  - intros other Hne. rewrite Hafter, get_set_ne by congruence.
    unfold isRoot. rewrite Hmap. reflexivity.
  - destruct p; reflexivity.
  - erewrite bind_Returns by reflexivity. unfold id.
    rewrite Hafter, get_set_eq, bool_decide_eq_true_2 by reflexivity. reflexivity.
Qed.

(** X13 - A file that is removed from the project is gone from it: when
    [removeFile] returns, the info is no root, the roots at the other paths
    are as before, the resolution cache holds no resolutions with the file
    as the containing file, whether the file still exists or not, and the
    state version of the project is one more. *)
Theorem removeFile_forgets_file (info : ScriptInfo) (fileExists detachFromProject : bool)
    (p p' : Project) :
  removeFile info fileExists detachFromProject p = Returns tt p' ->
  isRoot p' info = false /\
  (forall other, scriptInfoPath other <> scriptInfoPath info ->
                 isRoot p' other = isRoot p other) /\
  (exists c',
     resolutionCache p' = Some c' /\
     forall k, JsMap.get (scriptInfoPath info) (perFile k c') = None) /\
  projectStateVersion p' = (projectStateVersion p + 1)%Z.
Proof.
  unfold removeFile. erewrite bind_Returns by reflexivity. unfold id.
  intros ([] & p1 & Hroot & Hrest)%bind_Returns_inv.
  apply bind_Returns_inv in Hrest as ([] & p2 & Hcache & Hdirty).
  unfold markAsDirty, update in Hdirty. injection Hdirty as <-.
  (* the roots *)
  assert (Hroots : isRoot p1 info = false /\
                   (forall other, scriptInfoPath other <> scriptInfoPath info ->
                                  isRoot p1 other = isRoot p other) /\
                   projectStateVersion p1 = projectStateVersion p).
  { destruct (isRoot p info) eqn:His.
    - unfold removeRoot in Hroot. erewrite bind_Returns in Hroot by reflexivity.
      unfold id in Hroot.
      destruct (rootFiles p) as [roots|]; [|discriminate].
      erewrite bind_Returns in Hroot by reflexivity.
      destruct (rootFilesMap p) as [rootsMap|] eqn:Hmap; [|discriminate].
      erewrite bind_Returns in Hroot by reflexivity.
      injection Hroot as <-.
      assert (Hafter : forall other,
                 isRoot (withRoots (Some (orderedRemoveItem roots info))
                           (Some (JsMap.delete (scriptInfoPath info) rootsMap)) p) other
                 = match JsMap.get (scriptInfoPath other)
                           (JsMap.delete (scriptInfoPath info) rootsMap) with
                   | Some (RootScriptInfo info') => bool_decide (info' = other)
                   | _ => false
                   end) by (intros other; destruct p; reflexivity).
      split; [|split].
      + rewrite Hafter, get_delete_eq. reflexivity.
      + intros other Hne. rewrite Hafter, get_delete_ne by congruence.
        unfold isRoot. rewrite Hmap. reflexivity.
      + destruct p; reflexivity.
    - injection Hroot as <-. auto. }
  destruct Hroots as (Hinfo & Hothers & Hversion).
  (* the cache *)
  assert (Hcached : exists c c',
             resolutionCache p1 = Some c /\
             p2 = withResolutionCache (Some c') p1 /\
             forall k, JsMap.get (scriptInfoPath info) (perFile k c') = None).
  { destruct fileExists.
    - apply onResolutionCache_returns in Hcache as (c & c' & Hc & Hremove & ->).
      exists c, c'. split; [exact Hc|]. split; [reflexivity|].
      destruct (removeResolutionsOfFile_returns _ _ _ Hremove) as (_ & Hfile & _).
      intros k. rewrite Hfile. apply get_delete_eq.
    - apply onResolutionCache_returns in Hcache as (c & c' & Hc & Hinvalidate & ->).
      exists c, c'. split; [exact Hc|]. split; [reflexivity|].
      unfold invalidateResolutionOfFile in Hinvalidate.
      apply bind_Returns_inv in Hinvalidate as ([] & c1 & Hremove & Hinvalidate).
      destruct (removeResolutionsOfFile_returns _ _ _ Hremove) as (_ & Hfile & _).
      destruct (invalidateResolutions_changes (resolvesTo (scriptInfoPath info)) c1)
        as (files & flags & all & Hshape).
      rewrite Hshape in Hinvalidate. injection Hinvalidate as <-.
      intros k.
      assert (perFile k (withAllFilesInvalidated all
                           (withInvalidatedFiles files
                              (withIsInvalidated flags (nextResolution c1) c1)))
              = perFile k c1) as -> by (destruct c1, k; reflexivity).
      rewrite Hfile. apply get_delete_eq. }
  destruct Hcached as (c & c' & Hc & -> & Hgone).
  split; [|split; [|split]].
  - rewrite <- Hinfo. destruct p1; reflexivity.
  - intros other Hne. rewrite <- (Hothers other Hne). destruct p1; reflexivity.
  - exists c'. split; [destruct p1; reflexivity | exact Hgone].
  - rewrite <- Hversion. destruct p1; reflexivity.
Qed.

End ProjectRoots.

(** *** The state version of a project *)

Section ProjectStateVersion.
Context `{!CoreLibrary} `{!ResolutionCacheHost} `{!ProjectService}.

Definition stateVersionGrows : relation Project := fun p p' =>
  (projectStateVersion p <= projectStateVersion p')%Z.

#[local] Instance stateVersionGrows_preorder : PreOrder stateVersionGrows.
Proof.
  split; [intros p; unfold stateVersionGrows; lia|].
  intros p1 p2 p3. unfold stateVersionGrows. lia.
Qed.

Lemma onResolutionCache_grows {A} (m : Call A) :
  always stateVersionGrows (onResolutionCache m).
Proof.
  intros p. unfold onResolutionCache, stateVersionGrows.
  destruct (resolutionCache p) as [c|]; [|cbn; lia].
  destruct (m c); destruct p; cbn; lia.
Qed.

Ltac grows_frame :=
  always_go ltac:(first
    [ apply onResolutionCache_grows
    | apply always_update;
        [.. | intros []; unfold stateVersionGrows; cbn; repeat case_match; cbn; lia] ]).

Lemma perform_grows (op : ProjectOperation) : always stateVersionGrows (perform op).
Proof.
  destruct op as [u|u v| |info|fileName|info stillExists detach|fileName|affects| |
                  |file|names file reused|names file| | |path kind|directory changed| ];
    cbn [perform];
    unfold getChangesSinceVersion, updateGraph, updateGraphWorker, setTypings, request,
      detachScriptInfoFromProject, updateMissingFilePathsWatch,
      markAsDirty, addRoot, addMissingFileRoot, removeFile, removeRoot,
      registerFileUpdate, setCompilerOptions, enableLanguageService,
      disableLanguageService, fileExists, isWatchedMissingFile,
      projectResolveModuleNames, projectResolveTypeReferenceDirectives,
      onInvalidatedResolution, onChangedAutomaticTypeDirectiveNames,
      delayUpdateProjectGraph, onMissingFileChanged, close, markAsDirty, defined;
    grows_frame.
Qed.

(** The operations that mark the project as dirty; [setCompilerOptions]
    does when it is given options. *)
Definition marksAsDirty (op : ProjectOperation) : bool :=
  match op with
  | MarkAsDirty | AddRoot _ | AddMissingFileRoot _ | RemoveFile _ _ _
  | SetCompilerOptions (Some _) => true
  | _ => false
  end.

(** X14 - The state version of a project never goes back over a sequence
    of operations, and it is higher after every operation that changes the
    roots or the compiler options and returns ([addRoot],
    [addMissingFileRoot], [removeFile], [setCompilerOptions] with options)
    and after [markAsDirty]; [setCompilerOptions] without options returns
    and leaves the project, and so its state version, as it is. *)
Theorem projectStateVersion_never_goes_back :
  (forall ops p,
     (projectStateVersion p <= projectStateVersion (performAll ops p))%Z) /\
  (forall op p p',
     marksAsDirty op = true -> perform op p = Returns tt p' ->
     (projectStateVersion p < projectStateVersion p')%Z) /\
  (forall p, perform (SetCompilerOptions None) p = Returns tt p).
Proof.
  split; [|split; [|reflexivity]].
  - intros ops. unfold performAll.
    induction ops as [|op ops IH]; intros p; [reflexivity|].
    cbn [foldl]. etrans; [|apply IH]. apply perform_grows.
  - assert (Hdirty : forall {A} (m : CallOn Project A) p p',
               always stateVersionGrows m ->
               (m ;; markAsDirty) p = Returns tt p' ->
               (projectStateVersion p < projectStateVersion p')%Z).
    { intros A m p p' Hm (a & p1 & Hp1 & Hmark)%bind_Returns_inv.
      specialize (Hm p). rewrite Hp1 in Hm. unfold stateVersionGrows in Hm. cbn in Hm.
      unfold markAsDirty, update in Hmark. injection Hmark as <-.
      destruct p1; cbn in *. lia. }
    intros op p p' Hop Hcall.
    destruct op as [u|u v| |info|fileName|info stillExists detach|fileName|[affects|]|
                    | |file|names file reused|names file| | |path kind|directory changed| ];
      try discriminate; cbn [perform] in Hcall.
    + unfold markAsDirty, update in Hcall. injection Hcall as <-. destruct p; cbn. lia.
    + unfold addRoot in Hcall. erewrite bind_Returns in Hcall by reflexivity.
      unfold id in Hcall. destruct (isRoot p info); [discriminate|].
      cbn [negb assert] in Hcall. erewrite bind_Returns in Hcall by reflexivity.
      destruct (rootFiles p) as [roots|]; [|discriminate].
      erewrite bind_Returns in Hcall by reflexivity.
      destruct (rootFilesMap p) as [rootsMap|]; [|discriminate].
      erewrite bind_Returns in Hcall by reflexivity.
      eapply Hdirty; [|exact Hcall].
      apply always_update. intros []. unfold stateVersionGrows. cbn. lia.
    + unfold addMissingFileRoot in Hcall. cbv zeta in Hcall.
      erewrite bind_Returns in Hcall by reflexivity. unfold id in Hcall.
      destruct (rootFilesMap p) as [rootsMap|]; [|discriminate].
      erewrite bind_Returns in Hcall by reflexivity.
      eapply Hdirty; [|exact Hcall].
      apply always_update. intros []. unfold stateVersionGrows. cbn. lia.
    + unfold removeFile in Hcall. erewrite bind_Returns in Hcall by reflexivity.
      unfold id in Hcall.
      apply bind_Returns_inv in Hcall as ([] & p1 & Hroot & Hcall).
      apply Z.le_lt_trans with (projectStateVersion p1); [|eapply Hdirty; [|exact Hcall]].
      * assert (Hm : always stateVersionGrows
                       (if isRoot p info then removeRoot info else mret tt)).
        { unfold removeRoot, defined. grows_frame. }
        specialize (Hm p). rewrite Hroot in Hm. exact Hm.
      * destruct stillExists; apply onResolutionCache_grows.
    + cbn [setCompilerOptions] in Hcall. eapply Hdirty; [|exact Hcall].
      destruct affects; [apply onResolutionCache_grows|].
      apply always_ret. apply _.
Qed.

End ProjectStateVersion.

(** ** The project: the unresolved imports *)

Section PackageNames.
Context `{!CoreLibrary} `{!JavaScriptRuntime}.
Import StringFacts.

(** A string without slash. *)
Definition noSlash (s : string) : Prop := JsString.indexOf s "/" 0 = None.

Lemma indexOf_skip (x y : string) (c : ascii) (k : nat) :
  JsString.indexOf (x +:+ y) c (String.length x + k)
  = (fun i => String.length x + i) <$> JsString.indexOf y c k.
Proof.
  induction x as [|a x IH].
  - change (JsString.indexOf y c k = (fun i => i) <$> JsString.indexOf y c k).
    destruct (JsString.indexOf y c k); reflexivity.
  - rewrite app_cons. cbn [String.length Nat.add JsString.indexOf]. rewrite IH.
    destruct (JsString.indexOf y c k); reflexivity.
Qed.

Lemma indexOf_first (x y : string) :
  noSlash x -> JsString.indexOf (x +:+ String "/" y) "/" 0 = Some (String.length x).
Proof.
  unfold noSlash. induction x as [|a x IH]; [reflexivity|].
  rewrite app_cons. cbn [JsString.indexOf String.length].
  destruct (Ascii.eqb a "/"); [discriminate|].
  destruct (JsString.indexOf x "/" 0) eqn:Hx; [discriminate|].
  intros _. rewrite IH by reflexivity. reflexivity.
Qed.

Lemma substr_prefix (x y : string) : JsString.substr (x +:+ y) 0 (String.length x) = x.
Proof.
  unfold JsString.substr. induction x as [|a x IH].
  - destruct y; reflexivity.
  - rewrite app_cons. cbn. rewrite IH. reflexivity.
Qed.

(** X15 - What is recorded for an unresolved module name is its package:
    a name without slash is kept as it is once trimmed, a name that does not
    start with [@] is cut before its first slash, and a scoped name is cut
    before its second slash and kept whole when it has only one. *)
Theorem packageNameOf_package (name : string) :
  (noSlash (trim name) -> packageNameOf name = trim name) /\
  (forall package rest,
     Js.charAtIs (trim name) 0 "@" = false -> noSlash package ->
     trim name = package +:+ "/" +:+ rest ->
     packageNameOf name = package) /\
  (forall scope package,
     noSlash scope -> noSlash package ->
     trim name = "@" +:+ scope +:+ "/" +:+ package ->
     packageNameOf name = trim name) /\
  (forall scope package rest,
     noSlash scope -> noSlash package ->
     trim name = "@" +:+ scope +:+ "/" +:+ package +:+ "/" +:+ rest ->
     packageNameOf name = "@" +:+ scope +:+ "/" +:+ package).
Proof.
  unfold packageNameOf. cbv zeta. split; [|split; [|split]].
  - intros Hno. unfold noSlash in Hno. rewrite Hno. reflexivity.
  - intros package rest Hat Hno Htrim. rewrite Hat, Htrim.
    change (package +:+ "/" +:+ rest) with (package +:+ String "/" rest).
    rewrite (indexOf_first package rest Hno). apply substr_prefix.
  - intros scope package Hscope Hpackage Htrim. rewrite Htrim.
    assert (Hfirst : JsString.indexOf ("@" +:+ scope +:+ "/" +:+ package) "/" 0
                     = Some (String.length ("@" +:+ scope))).
    { change ("@" +:+ scope +:+ "/" +:+ package)
        with (String "@" (scope +:+ String "/" package)).
      cbn [JsString.indexOf]. change (Ascii.eqb "@" "/") with false. cbv iota.
      rewrite (indexOf_first scope package Hscope). reflexivity. }
    rewrite Hfirst. change (Js.charAtIs ("@" +:+ scope +:+ "/" +:+ package) 0 "@") with true.
    cbv iota.
    assert (Hsecond : JsString.indexOf ("@" +:+ scope +:+ "/" +:+ package) "/"
                        (String.length ("@" +:+ scope) + 1) = None).
    { change ("@" +:+ scope +:+ "/" +:+ package)
        with (("@" +:+ scope) +:+ String "/" package).
      rewrite indexOf_skip. change (JsString.indexOf (String "/" package) "/" 1)
        with (S <$> JsString.indexOf package "/" 0).
      unfold noSlash in Hpackage. rewrite Hpackage. reflexivity. }
    rewrite Hsecond. reflexivity.
  - intros scope package rest Hscope Hpackage Htrim. rewrite Htrim.
    assert (Hfirst : JsString.indexOf ("@" +:+ scope +:+ "/" +:+ package +:+ "/" +:+ rest)
                       "/" 0
                     = Some (String.length ("@" +:+ scope))).
    { change ("@" +:+ scope +:+ "/" +:+ package +:+ "/" +:+ rest)
        with (String "@" (scope +:+ String "/" (package +:+ "/" +:+ rest))).
      cbn [JsString.indexOf]. change (Ascii.eqb "@" "/") with false. cbv iota.
      rewrite (indexOf_first scope _ Hscope). reflexivity. }
    rewrite Hfirst.
    change (Js.charAtIs ("@" +:+ scope +:+ "/" +:+ package +:+ "/" +:+ rest) 0 "@")
      with true.
    cbv iota.
    assert (Hsecond : JsString.indexOf ("@" +:+ scope +:+ "/" +:+ package +:+ "/" +:+ rest)
                        "/" (String.length ("@" +:+ scope) + 1)
                      = Some (String.length ("@" +:+ scope +:+ "/" +:+ package))).
    { change ("@" +:+ scope +:+ "/" +:+ package +:+ "/" +:+ rest)
        with (("@" +:+ scope) +:+ String "/" (package +:+ String "/" rest)).
      rewrite indexOf_skip.
      change (JsString.indexOf (String "/" (package +:+ String "/" rest)) "/" 1)
        with (S <$> JsString.indexOf (package +:+ String "/" rest) "/" 0).
      rewrite (indexOf_first package rest Hpackage). cbn [fmap option_fmap option_map].
      f_equal. change ("@" +:+ scope +:+ "/" +:+ package)
        with (("@" +:+ scope) +:+ String "/" package).
      rewrite !length_app. cbn [String.length]. lia. }
    rewrite Hsecond.
    replace ("@" +:+ scope +:+ "/" +:+ package +:+ "/" +:+ rest)
      with (("@" +:+ scope +:+ "/" +:+ package) +:+ ("/" +:+ rest)).
    + apply substr_prefix.
    + change ("@" +:+ scope +:+ "/" +:+ package) with (String "@" (scope +:+ "/" +:+ package)).
      rewrite app_cons. f_equal. rewrite !app_assoc. reflexivity.
Qed.

End PackageNames.

Section UnresolvedImportsFacts.
Context `{!CoreLibrary} `{!JavaScriptRuntime}.
Import JsMapFacts.

(** X16 - The unresolved imports of a file are computed once per path.
    The first extraction for a path stores what it returns, the package
    names of the unresolved non-relative module names of the file, and adds
    one to the version of the map; every later extraction for that path
    returns the stored names and leaves the map as it is, whatever the
    resolved modules of the file are by then; only after [remove] of the
    path are they computed again. *)
Theorem extractUnresolvedImportsFromSourceFile_once (file : ImportingFile.t)
    (m : UnresolvedImportsMap.t) :
  exists names m',
    extractUnresolvedImportsFromSourceFile file m = Returns names m' /\
    JsMap.get (ImportingFile.path file) (UnresolvedImportsMap.perFileMap m') = Some names /\
    match JsMap.get (ImportingFile.path file) (UnresolvedImportsMap.perFileMap m) with
    | Some cached => names = cached /\ m' = m
    | None =>
        names = unresolvedImportsOf file /\
        UnresolvedImportsMap.version m' = (UnresolvedImportsMap.version m + 1)%Z
    end /\
    (forall later,
       ImportingFile.path later = ImportingFile.path file ->
       extractUnresolvedImportsFromSourceFile later m' = Returns names m') /\
    (forall later m'',
       ImportingFile.path later = ImportingFile.path file ->
       UnresolvedImportsMap.remove (ImportingFile.path file) m' = Returns tt m'' ->
       exists m3,
         extractUnresolvedImportsFromSourceFile later m'' =
         Returns (unresolvedImportsOf later) m3).
Proof.
  assert (Hcached : forall later names m0,
             JsMap.get (ImportingFile.path later) (UnresolvedImportsMap.perFileMap m0)
               = Some names ->
             extractUnresolvedImportsFromSourceFile later m0 = Returns names m0).
  { intros later names m0 Hget. unfold extractUnresolvedImportsFromSourceFile.
    erewrite bind_Returns by reflexivity. rewrite Hget. reflexivity. }
  assert (Hmiss : forall later m0,
             JsMap.get (ImportingFile.path later) (UnresolvedImportsMap.perFileMap m0)
               = None ->
             extractUnresolvedImportsFromSourceFile later m0 =
             Returns (unresolvedImportsOf later)
               {| UnresolvedImportsMap.perFileMap :=
                    JsMap.set (ImportingFile.path later) (unresolvedImportsOf later)
                      (UnresolvedImportsMap.perFileMap m0);
                  UnresolvedImportsMap.version :=
                    (UnresolvedImportsMap.version m0 + 1)%Z |}).
  { intros later m0 Hget. unfold extractUnresolvedImportsFromSourceFile.
    erewrite bind_Returns by reflexivity. rewrite Hget. reflexivity. }
  assert (Hremoved : forall later m' m'',
             ImportingFile.path later = ImportingFile.path file ->
             UnresolvedImportsMap.remove (ImportingFile.path file) m' = Returns tt m'' ->
             exists m3,
               extractUnresolvedImportsFromSourceFile later m'' =
               Returns (unresolvedImportsOf later) m3).
  { intros later m' m'' Hpath [= <-]. eexists. apply Hmiss.
    cbn. rewrite Hpath. apply get_delete_eq. }
  destruct (JsMap.get (ImportingFile.path file) (UnresolvedImportsMap.perFileMap m))
    as [cached|] eqn:Hget.
  - exists cached, m. split; [apply Hcached, Hget|]. split; [exact Hget|].
    split; [auto|]. split; [|intros later m''; apply Hremoved].
    intros later Hpath. apply Hcached. rewrite Hpath. exact Hget.
  - eexists _, _. split; [apply Hmiss, Hget|]. cbn. rewrite get_set_eq.
    split; [reflexivity|]. split; [auto|]. split; [|intros later m''; apply Hremoved].
    intros later Hpath. apply Hcached. cbn. rewrite Hpath. apply get_set_eq.
Qed.

End UnresolvedImportsFacts.

(** ** The project: the kinds of its files *)

Section FileTypesFacts.
Context `{!ScriptInfoMembers}.
Import FileStats.

(** The files that count as TypeScript sources: of kind TS without being a
    declaration file, or of kind TSX. *)
Definition isTypeScriptSource (info : ScriptInfo) : bool :=
  match scriptKind info with
  | ScriptKind.TS => negb (isDeclarationFileName (scriptInfoFileName info))
  | ScriptKind.TSX => true
  | _ => false
  end.

#[local] Instance ScriptKind_eq_dec : EqDecision ScriptKind.t.
Proof. solve_decision. Defined.

Definition hasKind (kind : ScriptKind.t) (info : ScriptInfo) : bool :=
  bool_decide (scriptKind info = kind).

Ltac decide_kinds :=
  repeat first [ rewrite bool_decide_eq_true_2 by reflexivity
               | rewrite bool_decide_eq_false_2 by discriminate ].

(** How many of [infos] pass [test]. *)
Definition numberOf (test : ScriptInfo -> bool) (infos : list ScriptInfo) : nat :=
  length (filter (fun info => test info = true) infos).

Lemma numberOf_cons (test : ScriptInfo -> bool) (info : ScriptInfo) (infos : list ScriptInfo) :
  numberOf test (info :: infos) = (if test info then 1 else 0) + numberOf test infos.
Proof.
  unfold numberOf. rewrite filter_cons. destruct (test info).
  - rewrite decide_True by reflexivity. reflexivity.
  - rewrite decide_False by discriminate. reflexivity.
Qed.

Lemma countEachFileTypes_from (infos : list ScriptInfo) (result : FileStats.t) :
  let counts := foldl countFileType result infos in
  js counts = js result + numberOf (hasKind ScriptKind.JS) infos /\
  jsx counts = jsx result + numberOf (hasKind ScriptKind.JSX) infos /\
  ts counts = ts result +
              numberOf (fun info => hasKind ScriptKind.TS info &&
                                 negb (isDeclarationFileName (scriptInfoFileName info)))
                    infos /\
  tsx counts = tsx result + numberOf (hasKind ScriptKind.TSX) infos /\
  dts counts = dts result +
               numberOf (fun info => hasKind ScriptKind.TS info &&
                                  isDeclarationFileName (scriptInfoFileName info)) infos.
Proof.
  revert result. induction infos as [|info infos IH]; intros result; cbv zeta.
  - cbn. unfold numberOf. cbn. repeat split; lia.
  - cbn [foldl]. specialize (IH (countFileType result info)). cbv zeta in IH.
    destruct IH as (Hjs & Hjsx & Hts & Htsx & Hdts).
    rewrite Hjs, Hjsx, Hts, Htsx, Hdts, !numberOf_cons.
    unfold countFileType, hasKind.
    destruct (scriptKind info); decide_kinds; cbn [andb];
      try destruct (isDeclarationFileName (scriptInfoFileName info)); cbn; repeat split; lia.
Qed.

(** X17 - [countEachFileTypes] counts every script info once, under its
    kind: JS, JSX and TSX files by their kind, files of kind TS as
    declaration files or as TypeScript files by their name, and files of
    the other kinds not at all.  So the roots of a project are all
    JavaScript or declaration files, for [allRootFilesAreJsOrDts], exactly
    when none of them is a TypeScript source; on a closed project the
    question throws. *)
Theorem countEachFileTypes_counts_by_kind :
  (forall infos,
     let counts := countEachFileTypes infos in
     js counts = numberOf (hasKind ScriptKind.JS) infos /\
     jsx counts = numberOf (hasKind ScriptKind.JSX) infos /\
     ts counts =
       numberOf (fun info => hasKind ScriptKind.TS info &&
                          negb (isDeclarationFileName (scriptInfoFileName info))) infos /\
     tsx counts = numberOf (hasKind ScriptKind.TSX) infos /\
     dts counts =
       numberOf (fun info => hasKind ScriptKind.TS info &&
                          isDeclarationFileName (scriptInfoFileName info)) infos /\
     js counts + jsx counts + ts counts + tsx counts + dts counts <= length infos) /\
  (forall p,
     match rootFiles p with
     | Some infos =>
         allRootFilesAreJsOrDts p =
         Returns (forallb (fun info => negb (isTypeScriptSource info)) infos) p
     | None => allRootFilesAreJsOrDts p = Throws TypeError p
     end).
Proof.
  split.
  - intros infos. cbv zeta. unfold countEachFileTypes.
    destruct (countEachFileTypes_from infos
                {| js := 0; jsx := 0; ts := 0; tsx := 0; dts := 0 |})
      as (Hjs & Hjsx & Hts & Htsx & Hdts).
    cbv zeta in *. cbn [js jsx ts tsx dts Nat.add] in *.
    rewrite Hjs, Hjsx, Hts, Htsx, Hdts. repeat split.
    clear. induction infos as [|info infos IH]; [unfold numberOf; cbn; lia|].
    rewrite !numberOf_cons. cbn [length]. unfold hasKind at 1 3 5 7 9.
    destruct (scriptKind info); decide_kinds; cbn [andb];
      try destruct (isDeclarationFileName (scriptInfoFileName info)); cbn; lia.
  - intros p. unfold allRootFilesAreJsOrDts.
    erewrite bind_Returns by reflexivity. unfold id.
    destruct (rootFiles p) as [infos|]; [|reflexivity].
    cbv zeta. unfold mret, CallOn_ret. f_equal. unfold countEachFileTypes.
    destruct (countEachFileTypes_from infos
                {| js := 0; jsx := 0; ts := 0; tsx := 0; dts := 0 |})
      as (_ & _ & Hts & Htsx & _).
    cbv zeta in *. cbn [ts tsx Nat.add] in *. rewrite Hts, Htsx. clear.
    induction infos as [|info infos IH]; [reflexivity|].
    rewrite !numberOf_cons. cbn [forallb]. rewrite <- IH.
    unfold isTypeScriptSource, hasKind.
    destruct (scriptKind info); decide_kinds; cbn [andb negb];
      try destruct (isDeclarationFileName (scriptInfoFileName info)); cbn [andb negb];
      try reflexivity;
      repeat match goal with
             | |- context [(?n =? 0)] => destruct (Nat.eqb_spec n 0)
             end; cbn; try reflexivity; lia.
Qed.

End FileTypesFacts.

(** ** The inferred project *)

Section InferredProjectFacts.
Context `{!CoreLibrary} `{!ResolutionCacheHost} `{!ProjectService}
  `{!ScriptInfoMembers} `{!CompilerOptionsHelpers}.

(** The JavaScript mode of an inferred project is in step with its roots:
    the project counts as a JavaScript project exactly when one of its root
    files is JavaScript, and then [maxNodeModuleJsDepth] is a number. *)
Definition jsModeInStep (ip : InferredProject.t) : Prop :=
  forall roots,
    rootFiles (InferredProject.asProject ip) = Some roots ->
    InferredProject._isJsInferredProject ip = existsb isJavaScript roots /\
    (InferredProject._isJsInferredProject ip = true ->
     is_Some (maxNodeModuleJsDepth (InferredProject.compilerOptions ip))).

(** What a call leaves of the members that the mode depends on. *)
Definition sameRootsAndMode : relation InferredProject.t := fun ip ip' =>
  rootFiles (InferredProject.asProject ip') = rootFiles (InferredProject.asProject ip) /\
  rootFilesMap (InferredProject.asProject ip') = rootFilesMap (InferredProject.asProject ip) /\
  InferredProject._isJsInferredProject ip' = InferredProject._isJsInferredProject ip.

Lemma onProject_returns {A} (m : CallOn Project A) (ip ip' : InferredProject.t) (a : A) :
  InferredProject.onProject m ip = Returns a ip' ->
  exists p',
    m (InferredProject.asProject ip) = Returns a p' /\
    ip' = InferredProject.withProject p' ip.
Proof.
  unfold InferredProject.onProject.
  destruct (m (InferredProject.asProject ip)) as [a' p'|e p']; [|discriminate].
  intros [= <- <-]. eauto.
Qed.

Lemma onResolutionCache_roots {A B} (f : Project -> B) (m : Call A) :
  (forall p c, f (withResolutionCache c p) = f p) ->
  always (unchanged f) (onResolutionCache m).
Proof.
  intros Hf p. unfold onResolutionCache, unchanged.
  destruct (resolutionCache p) as [c|]; [|reflexivity].
  destruct (m c); cbn; apply Hf.
Qed.

Lemma setCompilerOptionsOfProject_outcome (inPlace : bool) (options : CompilerOptions)
    (ip ip' : InferredProject.t) :
  InferredProject.setCompilerOptionsOfProject inPlace options ip = Returns tt ip' ->
  sameRootsAndMode ip ip' /\
  maxNodeModuleJsDepth (InferredProject.compilerOptions ip') = maxNodeModuleJsDepth options /\
  allowJs (InferredProject.compilerOptions ip') = allowJs options /\
  allowNonTsExtensions (InferredProject.compilerOptions ip') = Some true /\
  noEmitForJsFiles (InferredProject.compilerOptions ip') = Some true.
Proof.
  unfold InferredProject.setCompilerOptionsOfProject.
  erewrite bind_Returns by reflexivity. unfold id. cbv zeta.
  intros ([] & ip1 & Hreset & Hrest)%bind_Returns_inv.
  apply bind_Returns_inv in Hrest as ([] & ip2 & [= <-] & Hset).
  apply onProject_returns in Hset as (p' & Hp' & ->).
  assert (Hip1 : sameRootsAndMode ip ip1 /\
                 InferredProject.compilerOptions ip1 = InferredProject.compilerOptions ip).
  { destruct (changesAffectModuleResolution _ _) in Hreset; injection Hreset as <-;
      destruct ip; repeat split. }
  destruct Hip1 as [(Hroots1 & Hmap1 & Hmode1) _].
  assert (Hbase : rootFiles p' = rootFiles (InferredProject.asProject ip1) /\
                  rootFilesMap p' = rootFilesMap (InferredProject.asProject ip1)).
  { match type of Hp' with
    | ?m ?p = _ =>
        assert (Hm1 : always (unchanged rootFiles) m);
        [|assert (Hm2 : always (unchanged rootFilesMap) m)]
    end.
    - unfold setCompilerOptions, markAsDirty.
      always_go ltac:(first
        [ apply onResolutionCache_roots; intros [] ?; reflexivity
        | apply always_update; intros []; reflexivity ]).
    - unfold setCompilerOptions, markAsDirty.
      always_go ltac:(first
        [ apply onResolutionCache_roots; intros [] ?; reflexivity
        | apply always_update; intros []; reflexivity ]).
    - specialize (Hm1 (InferredProject.asProject
                         (InferredProject.withCompilerOptions
                            (InferredProject.withNoEmitForJsFiles (Some true)
                               (InferredProject.withAllowNonTsExtensions (Some true)
                                  options)) ip1))).
      specialize (Hm2 (InferredProject.asProject
                         (InferredProject.withCompilerOptions
                            (InferredProject.withNoEmitForJsFiles (Some true)
                               (InferredProject.withAllowNonTsExtensions (Some true)
                                  options)) ip1))).
      rewrite Hp' in Hm1, Hm2. unfold unchanged in Hm1, Hm2. cbn [stateAfter] in Hm1, Hm2.
      destruct ip1; cbn in *. auto. }
  destruct Hbase as [Hroots' Hmap'].
  split; [|destruct ip1; repeat split].
  unfold sameRootsAndMode. destruct ip1; cbn in *. repeat split; congruence.
Qed.

Lemma setCompilerOptions_outcome (ip ip' : InferredProject.t) :
  InferredProject.setCompilerOptions None ip = Returns tt ip' ->
  sameRootsAndMode ip ip' /\
  (InferredProject._isJsInferredProject ip = true ->
   is_Some (maxNodeModuleJsDepth (InferredProject.compilerOptions ip'))) /\
  (InferredProject._isJsInferredProject ip = false ->
   maxNodeModuleJsDepth (InferredProject.compilerOptions ip') = None) /\
  allowJs (InferredProject.compilerOptions ip') = Some true.
Proof.
  unfold InferredProject.setCompilerOptions.
  erewrite bind_Returns by reflexivity. unfold id. cbv zeta. cbn [default].
  intros (Hsame & Hdepth & Hjs & _)%setCompilerOptionsOfProject_outcome.
  split; [exact Hsame|]. rewrite Hdepth, Hjs.
  destruct (InferredProject._isJsInferredProject ip); cbn [andb negb].
  - split; [|split; [discriminate | reflexivity]]. intros _.
    destruct (maxNodeModuleJsDepth (InferredProject.compilerOptions ip)) as [depth|] eqn:Hd.
    + rewrite bool_decide_eq_true_2 by eauto. cbn. rewrite Hd. eauto.
    + rewrite bool_decide_eq_false_2 by (intros [? ?]; discriminate). cbn. eauto.
  - split; [discriminate|]. split; [|reflexivity]. intros _. reflexivity.
Qed.

Lemma toggleJsInferredProject_outcome (mode : bool) (ip ip' : InferredProject.t) :
  InferredProject.toggleJsInferredProject mode ip = Returns tt ip' ->
  rootFiles (InferredProject.asProject ip') = rootFiles (InferredProject.asProject ip) /\
  rootFilesMap (InferredProject.asProject ip') = rootFilesMap (InferredProject.asProject ip) /\
  InferredProject._isJsInferredProject ip' = mode /\
  (mode = true ->
   is_Some (maxNodeModuleJsDepth (InferredProject.compilerOptions ip)) ->
   is_Some (maxNodeModuleJsDepth (InferredProject.compilerOptions ip'))) /\
  (mode = true -> InferredProject._isJsInferredProject ip = false ->
   is_Some (maxNodeModuleJsDepth (InferredProject.compilerOptions ip'))).
Proof.
  unfold InferredProject.toggleJsInferredProject.
  erewrite bind_Returns by reflexivity. unfold id.
  destruct (Bool.eqb mode (InferredProject._isJsInferredProject ip)) eqn:Hsame; cbn [negb].
  - intros [= <-]. apply Bool.eqb_prop in Hsame.
    repeat split; auto. intros -> Hnot. congruence.
  - intros ([] & ip1 & [= <-] & Hset)%bind_Returns_inv.
    apply setCompilerOptions_outcome in Hset as ((Hroots & Hmap & Hmode) & Hjs & _).
    destruct ip; cbn in *. repeat split; auto.
Qed.

Lemma addRoot_rootFiles (info : ScriptInfo) (p p' : Project) :
  addRoot info p = Returns tt p' ->
  exists roots, rootFiles p = Some roots /\ rootFiles p' = Some (roots ++ [info]).
Proof.
  unfold addRoot. erewrite bind_Returns by reflexivity. unfold id.
  destruct (isRoot p info); [discriminate|]. cbn [negb assert].
  erewrite bind_Returns by reflexivity.
  destruct (rootFiles p) as [roots|] eqn:Hroots; [|discriminate].
  erewrite bind_Returns by reflexivity.
  destruct (rootFilesMap p) as [rootsMap|]; [|discriminate].
  erewrite bind_Returns by reflexivity. erewrite bind_Returns by reflexivity.
  unfold markAsDirty, update. intros [= <-]. exists roots.
  split; [reflexivity | destruct p; reflexivity].
Qed.

Lemma removeRoot_rootFiles (info : ScriptInfo) (p p' : Project) :
  removeRoot info p = Returns tt p' ->
  exists roots,
    rootFiles p = Some roots /\ rootFiles p' = Some (orderedRemoveItem roots info).
Proof.
  unfold removeRoot. erewrite bind_Returns by reflexivity. unfold id.
  destruct (rootFiles p) as [roots|] eqn:Hroots; [|discriminate].
  erewrite bind_Returns by reflexivity.
  destruct (rootFilesMap p) as [rootsMap|]; [|discriminate].
  erewrite bind_Returns by reflexivity.
  unfold update. intros [= <-]. exists roots.
  split; [reflexivity | destruct p; reflexivity].
Qed.

Lemma existsb_orderedRemoveItem (roots : list ScriptInfo) (info : ScriptInfo) :
  existsb isJavaScript roots =
  existsb isJavaScript (orderedRemoveItem roots info) ||
  (bool_decide (info ∈ roots) && isJavaScript info).
Proof.
  induction roots as [|root roots IH]; [reflexivity|].
  cbn [orderedRemoveItem existsb].
  destruct (bool_decide_reflect (root = info)) as [->|Hne].
  - rewrite (bool_decide_eq_true_2 (info ∈ info :: roots)) by left.
    cbn [andb]. apply orb_comm.
  - cbn [existsb]. rewrite IH.
    destruct (bool_decide_reflect (info ∈ roots)) as [Hin|Hout].
    + rewrite (bool_decide_eq_true_2 (info ∈ root :: roots)) by (right; exact Hin).
      rewrite orb_assoc. reflexivity.
    + rewrite (bool_decide_eq_false_2 (info ∈ root :: roots)).
      * rewrite orb_assoc. reflexivity.
      * intros [->|Hin]%elem_of_cons; [congruence | contradiction].
Qed.

Lemma forallb_not_existsb (roots : list ScriptInfo) :
  forallb (fun rootInfo => negb (isJavaScript rootInfo)) roots
  = negb (existsb isJavaScript roots).
Proof.
  induction roots as [|root roots IH]; [reflexivity|].
  cbn [forallb existsb]. rewrite IH, negb_orb. reflexivity.
Qed.

Lemma jsModeInStep_ext (ip ip' : InferredProject.t) :
  rootFiles (InferredProject.asProject ip') = rootFiles (InferredProject.asProject ip) ->
  InferredProject._isJsInferredProject ip' = InferredProject._isJsInferredProject ip ->
  InferredProject.compilerOptions ip' = InferredProject.compilerOptions ip ->
  jsModeInStep ip -> jsModeInStep ip'.
Proof. intros Hroots Hmode Hoptions Hip roots. rewrite Hroots, Hmode, Hoptions. apply Hip. Qed.

Lemma addRoot_inStep (info : ScriptInfo) (ip ip' : InferredProject.t) :
  jsModeInStep ip -> InferredProject.addRoot info ip = Returns tt ip' -> jsModeInStep ip'.
Proof.
  intros Hip. unfold InferredProject.addRoot.
  erewrite bind_Returns by reflexivity. erewrite bind_Returns by reflexivity. unfold id.
  set (ip0 := InferredProject.withConfigFileWatchCalls _ ip).
  assert (Hip0 : jsModeInStep ip0).
  { apply (jsModeInStep_ext ip); [..|exact Hip]; destruct ip; reflexivity. }
  clearbody ip0. clear Hip.
  intros ([] & ip1 & Htoggle & Hadd)%bind_Returns_inv.
  apply onProject_returns in Hadd as (p' & Hadd & ->).
  apply addRoot_rootFiles in Hadd as (roots & Hroots1 & Hroots').
  intros roots' Hroots''.
  assert (roots' = roots ++ [info]) as ->.
  { destruct ip1; cbn in *. congruence. }
  assert (Hmode' : InferredProject._isJsInferredProject
                     (InferredProject.withProject p' ip1)
                   = InferredProject._isJsInferredProject ip1) by (destruct ip1; reflexivity).
  assert (Hoptions' : InferredProject.compilerOptions (InferredProject.withProject p' ip1)
                      = InferredProject.compilerOptions ip1) by (destruct ip1; reflexivity).
  rewrite Hmode', Hoptions', existsb_app. cbn [existsb]. rewrite orb_false_r.
  destruct (negb (InferredProject._isJsInferredProject ip0) && isJavaScript info) eqn:Hcond.
  - apply andb_true_iff in Hcond as [Hmode0%negb_true_iff Hjs].
    apply toggleJsInferredProject_outcome in Htoggle as (_ & _ & Hmode1 & _ & Hdepth).
    rewrite Hmode1, Hjs, orb_true_r. split; [reflexivity|]. intros _. auto.
  - injection Htoggle as <-. destruct (Hip0 roots Hroots1) as [Hmode Hdepth].
    split; [|exact Hdepth]. rewrite Hmode.
    apply andb_false_iff in Hcond as [Hmode0%negb_false_iff | Hjs].
    + rewrite Hmode in Hmode0. rewrite Hmode0. reflexivity.
    + rewrite Hjs, orb_false_r. reflexivity.
Qed.

Lemma removeRoot_inStep (info : ScriptInfo) (ip ip' : InferredProject.t) :
  jsModeInStep ip -> InferredProject.removeRoot info ip = Returns tt ip' -> jsModeInStep ip'.
Proof.
  intros Hip. unfold InferredProject.removeRoot.
  erewrite bind_Returns by reflexivity.
  set (ip0 := InferredProject.withConfigFileWatchCalls _ ip).
  assert (Hip0 : jsModeInStep ip0).
  { apply (jsModeInStep_ext ip); [..|exact Hip]; destruct ip; reflexivity. }
  clearbody ip0. clear Hip.
  intros ([] & ip1 & Hremove & Hrest)%bind_Returns_inv.
  apply onProject_returns in Hremove as (p' & Hremove & ->).
  apply removeRoot_rootFiles in Hremove as (roots & Hroots0 & Hroots').
  destruct (Hip0 roots Hroots0) as [Hmode Hdepth].
  erewrite bind_Returns in Hrest by reflexivity. unfold id in Hrest.
  assert (Hmode1 : InferredProject._isJsInferredProject
                     (InferredProject.withProject p' ip0)
                   = InferredProject._isJsInferredProject ip0) by (destruct ip0; reflexivity).
  assert (Hoptions1 : InferredProject.compilerOptions (InferredProject.withProject p' ip0)
                      = InferredProject.compilerOptions ip0) by (destruct ip0; reflexivity).
  assert (Hroots1 : rootFiles (InferredProject.asProject (InferredProject.withProject p' ip0))
                    = Some (orderedRemoveItem roots info))
    by (destruct ip0; exact Hroots').
  rewrite Hmode1, Hroots1 in Hrest. cbn [default] in Hrest.
  rewrite forallb_not_existsb in Hrest.
  pose proof (existsb_orderedRemoveItem roots info) as Hsplit.
  destruct (InferredProject._isJsInferredProject ip0 && isJavaScript info) eqn:Hcond.
  - apply andb_true_iff in Hcond as [Hmode0 Hjs].
    destruct (existsb isJavaScript (orderedRemoveItem roots info)) eqn:Hleft;
      cbn [negb] in Hrest.
    + injection Hrest as <-. intros roots'. rewrite Hroots1, Hmode1, Hoptions1.
      intros [= <-]. rewrite Hleft. split; [exact Hmode0 | exact Hdepth].
    + apply toggleJsInferredProject_outcome in Hrest as (Hroots2 & _ & Hmode2 & _).
      intros roots'. rewrite Hroots2, Hroots1, Hmode2. intros [= <-].
      rewrite Hleft. split; [reflexivity | discriminate].
  - injection Hrest as <-. intros roots'. rewrite Hroots1, Hmode1, Hoptions1.
    intros [= <-]. split; [|exact Hdepth]. rewrite Hmode, Hsplit.
    apply andb_false_iff in Hcond as [Hmode0 | Hjs].
    + rewrite Hmode, Hsplit in Hmode0. apply orb_false_iff in Hmode0 as [-> ->].
      reflexivity.
    + rewrite Hjs, andb_false_r, orb_false_r. reflexivity.
Qed.

(** X18 - The JavaScript mode of an inferred project follows its roots.
    A new inferred project is in step; adding a root and removing a root or
    a file keep it in step whenever they return: the project counts as a
    JavaScript project exactly when one of its root files is JavaScript, and
    then [maxNodeModuleJsDepth] is a number. *)
Theorem inferredProject_js_mode_follows_roots :
  (forall options rootDirectoryForResolution,
     jsModeInStep (InferredProject.create options rootDirectoryForResolution)) /\
  (forall info ip ip',
     jsModeInStep ip -> InferredProject.addRoot info ip = Returns tt ip' ->
     jsModeInStep ip') /\
  (forall info ip ip',
     jsModeInStep ip -> InferredProject.removeRoot info ip = Returns tt ip' ->
     jsModeInStep ip') /\
  (forall info stillExists detachFromProject ip ip',
     jsModeInStep ip ->
     InferredProject.removeFile info stillExists detachFromProject ip = Returns tt ip' ->
     jsModeInStep ip').
Proof.
  split; [|split; [exact addRoot_inStep | split; [exact removeRoot_inStep|]]].
  - intros options root roots. cbn. intros [= <-]. split; [reflexivity | discriminate].
  - intros info stillExists detach ip ip' Hip. unfold InferredProject.removeFile.
    erewrite bind_Returns by reflexivity. unfold id.
    intros ([] & ip1 & Hroot & Hrest)%bind_Returns_inv.
    assert (Hip1 : jsModeInStep ip1).
    { destruct (isRoot (InferredProject.asProject ip) info).
      - eapply removeRoot_inStep; eassumption.
      - injection Hroot as <-. exact Hip. }
    clear Hip Hroot.
    apply bind_Returns_inv in Hrest as ([] & ip2 & Hcache & Hrest).
    apply bind_Returns_inv in Hrest as ([] & ip3 & [= <-] & Hdirty).
    assert (Hstep : forall {A} (m : CallOn Project A) (a : A) ipa ipb,
               always (unchanged rootFiles) m ->
               InferredProject.onProject m ipa = Returns a ipb ->
               jsModeInStep ipa -> jsModeInStep ipb).
    { intros A m a ipa ipb Hm (p' & Hp' & ->)%onProject_returns.
      specialize (Hm (InferredProject.asProject ipa)). rewrite Hp' in Hm.
      unfold unchanged in Hm. cbn [stateAfter] in Hm.
      apply jsModeInStep_ext; destruct ipa; cbn in *; auto. }
    eapply Hstep; [|exact Hdirty|].
    { unfold markAsDirty. apply always_update. intros []. reflexivity. }
    eapply (jsModeInStep_ext ip2); [destruct ip2; reflexivity..|].
    destruct stillExists; (eapply Hstep; [|exact Hcache|exact Hip1]);
      apply onResolutionCache_roots; intros [] ?; reflexivity.
Qed.

End InferredProjectFacts.

(** * Scenarios *)

(** The properties above at work on a file system with POSIX paths. *)

Module Scenarios.

#[local] Existing Instance Posix.core.

(** A project at [/proj] whose only other source file is [/proj/t.ts]. *)
Definition fileSystem : list Path := ["/proj/t.ts"].

#[local] Instance fileSystemHost : ResolutionCacheHost := Posix.host fileSystem None.

Definition cache : ResolutionCache := createResolutionCache (Some "/proj").

Lemma placementTerminates_posix (c : ResolutionCache) : placementTerminates c.
Proof.
  intros location.
  apply (getDirectoryToWatchFailedLookupLocation_total
           (H := Posix.core) (H0 := fileSystemHost)
           PosixFacts.directoryPath_prefix PosixFacts.directoryPath_segment).
Qed.

Lemma ready_cache (k : ResolutionKind) (containingFile : string) :
  ready k containingFile cache.
Proof.
  split; [apply placementTerminates_posix|]. split; [|split; [|split]].
  - intros path count Hcount.
    change (customFailedLookupPaths cache) with (∅ : gmap Path Z) in Hcount.
    rewrite lookup_empty in Hcount. discriminate.
  - intros name r Hin. unfold entries in Hin. destruct k; inversion Hin.
  - intros name r Hin. unfold inDirectory in Hin. destruct k; inversion Hin.
  - intros i _. change (isInvalidated cache) with (∅ : gset nat). apply not_elem_of_empty.
Qed.

(** [/proj/a.ts] imports [./t], which is there, and [./b], which is not. *)
Lemma resolve_returns_one_result_per_name_witness :
  (exists results c',
     resolveModuleNames ["./t"; "./b"] "/proj/a.ts" None true cache = Returns results c' /\
     oneResultPerName ModuleName "/proj/a.ts" ["./t"; "./b"] results c') /\
  (exists results c',
     resolveTypeReferenceDirectives ["./t"; "./b"] "/proj/a.ts" cache
       = Returns results c' /\
     oneResultPerName TypeReferenceDirective "/proj/a.ts" ["./t"; "./b"] results c').
Proof.
  destruct (resolve_returns_one_result_per_name ["./t"; "./b"] "/proj/a.ts" None true cache)
    as (Hmodules & Htypes & Hmodules_return & Htypes_return).
  split.
  - destruct (Hmodules_return (ready_cache ModuleName "/proj/a.ts"))
      as (results & c' & Hcall).
    exists results, c'. split; [exact Hcall | exact (Hmodules results c' Hcall)].
  - destruct (Htypes_return (ready_cache TypeReferenceDirective "/proj/a.ts"))
      as (results & c' & Hcall).
    exists results, c'. split; [exact Hcall | exact (Htypes results c' Hcall)].
Defined.

(** What the two calls return there. *)
Example resolveModuleNames_results :
  exists c',
    resolveModuleNames ["./t"; "./b"] "/proj/a.ts" None true cache =
    Returns [Some {| resolvedFileName := Some "/proj/t.ts"; hasTypeScriptExtension := true |};
             None] c'.
Proof. eexists. vm_compute. reflexivity. Qed.

(** A failed lookup location below a [node_modules] directory outside the
    project is watched at that directory. *)
Lemma getDirectoryToWatchFailedLookupLocation_priority_witness :
  exists k,
    getDirectoryToWatchFailedLookupLocation (Some ("/proj", "/proj"))
      "/x/node_modules/y/q.ts" "/x/node_modules/y/q.ts"
    = Some {| dir := ancestor k "/x/node_modules/y";
              dirPath := ancestor k "/x/node_modules/y" |} /\
    isNodeModulesDirectory (ancestor k "/x/node_modules/y") = true /\
    forall j, j < k -> isNodeModulesDirectory (ancestor j "/x/node_modules/y") = false.
Proof.
  exact (proj1 (proj2 (getDirectoryToWatchFailedLookupLocation_priority
                         (H := Posix.core) (H0 := fileSystemHost)
                         PosixFacts.directoryPath_prefix PosixFacts.directoryPath_segment
                         (Some ("/proj", "/proj"))
                         "/x/node_modules/y/q.ts" "/x/node_modules/y/q.ts"))
           eq_refl eq_refl).
Defined.

(** *** Resolving again *)

(** The cache while the files with changed resolutions are recorded, and
    once [/proj/a.ts] is resolved. *)
Definition recording : ResolutionCache :=
  stateAfter (startRecordingFilesWithChangedResolutions cache).

Definition resolvedOnce : ResolutionCache :=
  stateAfter (resolveModuleNames ["./t"; "./b"] "/proj/a.ts" None true recording).

(** The pass has finished and every file counts as invalidated, as after an
    invalidation over the ceiling: the names are resolved again, to new
    objects. *)
Definition resolvedLongAgo : ResolutionCache :=
  withAllFilesInvalidated true (stateAfter (finishCachingPerDirectoryResolution resolvedOnce)).

Lemma quietBetween_resolvedLongAgo :
  quietBetween ModuleName "/proj/a.ts" ["./t"; "./b"] resolvedOnce resolvedLongAgo.
Proof.
  split; [vm_compute; reflexivity|]. split; [vm_compute; reflexivity|].
  split; [apply Nat.leb_le; vm_compute; reflexivity|].
  intros _ name r [->|[->|Hname]%elem_of_cons]%elem_of_cons Hr.
  - vm_compute in Hr. injection Hr as <-. vm_compute. reflexivity.
  - vm_compute in Hr. injection Hr as <-. vm_compute. reflexivity.
  - inversion Hname.
Qed.

Lemma resolving_again_records_no_change_witness :
  filesWithChangedSetOfUnresolvedImports
    (stateAfter (resolveModuleNames ["./t"; "./b"] "/proj/a.ts" None true resolvedOnce))
  = filesWithChangedSetOfUnresolvedImports resolvedOnce /\
  filesWithChangedSetOfUnresolvedImports
    (stateAfter (resolveModuleNames ["./t"; "./b"] "/proj/a.ts" None true resolvedLongAgo))
  = filesWithChangedSetOfUnresolvedImports resolvedLongAgo.
Proof.
  assert (Hfresh : fresh recording).
  { intros i _. change (isInvalidated recording) with (∅ : gset nat).
    apply not_elem_of_empty. }
  assert (Hcall : resolveModuleNames ["./t"; "./b"] "/proj/a.ts" None true recording
                  = Returns [Some {| resolvedFileName := Some "/proj/t.ts";
                                     hasTypeScriptExtension := true |}; None]
                      resolvedOnce).
  { vm_compute. reflexivity. }
  destruct (resolving_again_records_no_change ["./t"; "./b"] "/proj/a.ts" None None true
              recording resolvedOnce _ Hfresh Hcall) as (Hsame & Hlater & _).
  split; [exact Hsame | apply Hlater, quietBetween_resolvedLongAgo].
Defined.

(** The first call did record the file, and the second resolution of the
    names made new objects. *)
Example resolving_again_scenario :
  filesWithChangedSetOfUnresolvedImports resolvedOnce = Some ["/proj/a.ts"] /\
  nextResolution resolvedLongAgo = 2 /\
  nextResolution
    (stateAfter (resolveModuleNames ["./t"; "./b"] "/proj/a.ts" None true resolvedLongAgo))
  = 4.
Proof. vm_compute. auto. Qed.

(** *** Watches without reference *)

(** [/proj/a.ts] imports [./b], which is not there: the failed lookup is
    watched at [/proj].  When the file is removed, the watch stays in the
    table with the reference count 0. *)
Lemma removeResolutionsOfFile_leaves_watch_without_reference :
  exists results c c',
    resolveModuleNames ["./b"] "/proj/a.ts" None true cache = Returns results c /\
    removeResolutionsOfFile "/proj/a.ts" c = Returns tt c' /\
    directoryWatchesOfFailedLookups c' !! "/proj"
    = Some {| watcher := {| watcherId := 0; watchedPath := "/proj" |}; refCount := 0 |} /\
    ~ noWatchWithoutReference c'.
Proof.
  eexists _, _, _. split; [vm_compute; reflexivity|]. split; [vm_compute; reflexivity|].
  split; [vm_compute; reflexivity|].
  intros Hnone.
  apply (Hnone "/proj"
           {| watcher := {| watcherId := 0; watchedPath := "/proj" |}; refCount := 0 |});
    [vm_compute; reflexivity | reflexivity].
Qed.

(** *** The ceiling *)

(** A host that allows one containing file: with [/proj/a.ts] and
    [/proj/b.ts] cached, both with a resolution to [/proj/t.ts], the deletion
    of [/proj/t.ts] sets the flag of neither. *)
Definition narrowHost : ResolutionCacheHost := Posix.host fileSystem (Some 1%Z).

Definition twoImporters : ResolutionCache :=
  stateAfter
    (resolveModuleNames (H0 := narrowHost) ["./t"] "/proj/b.ts" None false
       (stateAfter
          (resolveModuleNames (H0 := narrowHost) ["./t"] "/proj/a.ts" None false
             (createResolutionCache (H0 := narrowHost) (Some "/proj"))))).

(** 300 containing files, none with an import, under the default ceiling. *)
Definition sourceFile (i : nat) : Path :=
  "/proj/" +:+ String.concat "" (replicate (S i) "f") +:+ ".ts".

Definition manyFiles : ResolutionCache :=
  foldl (fun c i => stateAfter (resolveModuleNames [] (sourceFile i) None false c))
        cache (seq 0 300).

Definition manyFilesButOne : ResolutionCache :=
  stateAfter (removeResolutionsOfFile (sourceFile 7) manyFiles).

Lemma over_ceiling_every_file_has_invalidated_resolution_witness :
  JsMap.size (resolvedModuleNames manyFiles) = 300 /\
  exists c' hasInvalidatedResolution c'',
    invalidateResolutionOfFile (sourceFile 7) manyFiles = Returns tt c' /\
    isInvalidated c' = isInvalidated manyFiles /\
    createHasInvalidatedResolution c' = Returns hasInvalidatedResolution c'' /\
    forall path, hasInvalidatedResolution path = true.
Proof.
  split; [vm_compute; reflexivity|].
  assert (Hover : overCeiling manyFilesButOne) by (left; vm_compute; reflexivity).
  assert (Hremove : removeResolutionsOfFile (sourceFile 7) manyFiles
                    = Returns tt manyFilesButOne) by (vm_compute; reflexivity).
  exact (proj2 (proj2 (proj2 (over_ceiling_every_file_has_invalidated_resolution
                                manyFilesButOne)) Hover)
           (sourceFile 7) manyFiles Hremove).
Defined.

(** With the two containing files of [twoImporters], the host that allows
    one has more distinct containing files cached than its ceiling. *)
Example twoImporters_over_ceiling :
  size (cachedContainingFiles twoImporters) = 2 /\
  overCeiling (H0 := narrowHost) twoImporters.
Proof.
  split; [vm_compute; reflexivity|].
  apply (overCeiling_cachedContainingFiles (H0 := narrowHost)).
  - apply (bool_decide_unpack _). vm_compute. exact I.
  - apply NoDup_nil_2.
  - right. intros file Hfile. inversion Hfile.
  - vm_compute. reflexivity.
Qed.

(** *** The deletion of a file under the ceiling *)

(** [/proj/a.ts] imports [./t] and [./b], and [/proj/t.ts] imports [./b];
    then [/proj/t.ts] is deleted. *)
Definition importers : ResolutionCache :=
  stateAfter
    (resolveModuleNames ["./b"] "/proj/t.ts" None false
       (stateAfter (resolveModuleNames ["./t"; "./b"] "/proj/a.ts" None false cache))).

(** There the one resolution to [/proj/t.ts] is marked, and the watch at
    [/proj] is left with the reference of the import of [/proj/a.ts]. *)
Example invalidateResolutionOfFile_scenario :
  exists c',
    invalidateResolutionOfFile "/proj/t.ts" importers = Returns tt c' /\
    cachedResolutions (resolvedModuleNames c') =
      [("/proj/a.ts", "./t",
        {| identity := 0; failedLookupLocations := [];
           resolvedFile := Some {| resolvedFileName := Some "/proj/t.ts";
                                   hasTypeScriptExtension := true |} |});
       ("/proj/a.ts", "./b",
        {| identity := 1; failedLookupLocations := ["/proj/b.ts"];
           resolvedFile := None |})] /\
    isInvalidated c' = {[0]} /\
    refCount <$> directoryWatchesOfFailedLookups importers !! "/proj" = Some 2%Z /\
    refCount <$> directoryWatchesOfFailedLookups c' !! "/proj" = Some 1%Z.
Proof. eexists. vm_compute. auto 10. Qed.

(** In one pass [/proj/a.ts] imports [./t] and [./b], [/proj/c.ts] imports
    [./t] and [/proj/t.ts] imports [./b]; then [/proj/t.ts] is deleted, which
    leaves two containing files that share their resolution of [./t]. *)
Definition resolveSiblings : Call unit :=
  startCachingPerDirectoryResolution ;;
  resolveModuleNames ["./t"; "./b"] "/proj/a.ts" None false ;;
  resolveModuleNames ["./t"] "/proj/c.ts" None false ;;
  resolveModuleNames ["./b"] "/proj/t.ts" None false ;;
  finishCachingPerDirectoryResolution.

Definition siblings : ResolutionCache := stateAfter (resolveSiblings cache).

Definition siblingsLeft : ResolutionCache :=
  stateAfter (removeResolutionsOfFile "/proj/t.ts" siblings).

Lemma invalidateResolutionOfFile_marks_resolutions_to_file_witness :
  resolveSiblings cache = Returns tt siblings /\
  hasReachedResolutionIterationLimit siblingsLeft = false /\
  size (cachedContainingFiles siblingsLeft) = 2 /\
  exists c',
    invalidateResolutionOfFile "/proj/t.ts" siblings = Returns tt c' /\
    (forall k, perFile k c' = JsMap.delete "/proj/t.ts" (perFile k siblings)) /\
    (forall k, perDirectory k c' = perDirectory k siblings) /\
    released (purgedLocations "/proj/t.ts" siblings) siblings c' /\
    allFilesHaveInvalidatedResolution c' = allFilesHaveInvalidatedResolution siblings /\
    (forall i,
       i ∈ isInvalidated c' <->
       i ∈ isInvalidated siblings \/
       exists k file name r,
         (file, name, r) ∈ cachedResolutions (perFile k siblings) /\
         file <> "/proj/t.ts" /\ identity r = i /\ resolvesTo "/proj/t.ts" r = true).
Proof.
  assert (Hlimit : hasReachedResolutionIterationLimit siblingsLeft = false)
    by (vm_compute; reflexivity).
  split; [vm_compute; reflexivity|].
  split; [exact Hlimit|]. split; [vm_compute; reflexivity|].
  assert (Hremove : removeResolutionsOfFile "/proj/t.ts" siblings = Returns tt siblingsLeft)
    by (vm_compute; reflexivity).
  destruct (invalidateResolutionOfFile_marks_resolutions_to_file "/proj/t.ts" siblings
              siblingsLeft Hremove)
    as (c' & Hcall & Hfile & Hdir & Hreleased & Hkept & Honly & Hflags).
  rewrite Hlimit in Hflags. destruct Hflags as (Hall & _ & Hshared).
  exists c'. repeat (split; [assumption|]).
  intros i. split; [apply Honly|].
  intros [Hi|(k & file & name & r & Hin & Hne & <- & Hr)]; [apply Hkept, Hi|].
  eapply Hshared; [| |exact Hin|exact Hne|exact Hr];
    apply sharesInDirectory_sound; vm_compute; reflexivity.
Defined.

(** *** Resolutions to a deleted file that stay unmarked *)

(** One pass of the program builder in which [containingFile] resolves
    [names]. *)
Definition pass (names : list string) (containingFile : string) : Call unit :=
  startCachingPerDirectoryResolution ;;
  resolveModuleNames names containingFile None false ;;
  finishCachingPerDirectoryResolution.

(** [/proj/a.ts] and [/proj/b.ts] import [./t] in two passes, so that each
    holds a resolution of its own; then [/proj/t.ts] is deleted. *)
Definition resolvedInOnePass : ResolutionCache :=
  stateAfter (pass ["./t"] "/proj/a.ts" cache).

Definition resolvedInTwoPasses : ResolutionCache :=
  stateAfter (pass ["./t"] "/proj/b.ts" resolvedInOnePass).

Definition deletedAfterTwoPasses : ResolutionCache :=
  stateAfter (invalidateResolutionOfFile "/proj/t.ts" resolvedInTwoPasses).

(** Over the ceiling, with [twoImporters], no resolution to the deleted
    file is marked.  Under the ceiling, after the two passes, the scan meets
    [./t] in [/proj] with [/proj/a.ts] and skips it for [/proj/b.ts]: the
    resolution of [/proj/b.ts] to the deleted file stays valid, and
    [/proj/b.ts] is not among the files with an invalidated resolution. *)
Lemma invalidateResolutionOfFile_leaves_resolutions_unmarked :
  (exists r c',
     JsMap.get "./t" (resolutionsOf (resolvedModuleNames twoImporters) "/proj/a.ts")
       = Some r /\
     resolvesTo (H0 := narrowHost) "/proj/t.ts" r = true /\
     invalidatedIn twoImporters r = false /\
     invalidateResolutionOfFile (H0 := narrowHost) "/proj/t.ts" twoImporters
       = Returns tt c' /\
     invalidatedIn c' r = false /\
     isInvalidated c' = ∅) /\
  (exists r,
     pass ["./t"] "/proj/a.ts" cache = Returns tt resolvedInOnePass /\
     pass ["./t"] "/proj/b.ts" resolvedInOnePass = Returns tt resolvedInTwoPasses /\
     JsMap.get "./t" (resolutionsOf (resolvedModuleNames resolvedInTwoPasses) "/proj/b.ts")
       = Some r /\
     resolvesTo "/proj/t.ts" r = true /\
     invalidatedIn resolvedInTwoPasses r = false /\
     hasReachedResolutionIterationLimit resolvedInTwoPasses = false /\
     invalidateResolutionOfFile "/proj/t.ts" resolvedInTwoPasses
       = Returns tt deletedAfterTwoPasses /\
     invalidatedIn deletedAfterTwoPasses r = false /\
     allFilesHaveInvalidatedResolution deletedAfterTwoPasses = false /\
     exists hasInvalidatedResolution c'',
       createHasInvalidatedResolution deletedAfterTwoPasses
         = Returns hasInvalidatedResolution c'' /\
       hasInvalidatedResolution "/proj/a.ts" = true /\
       hasInvalidatedResolution "/proj/b.ts" = false).
Proof.
  split.
  - eexists _, _. vm_compute. auto 10.
  - exists {| identity := 1; failedLookupLocations := [];
              resolvedFile := Some {| resolvedFileName := Some "/proj/t.ts";
                                      hasTypeScriptExtension := true |} |}.
    do 9 (split; [vm_compute; reflexivity|]).
    eexists _, _. split; [reflexivity|]. split; vm_compute; reflexivity.
Qed.

(** *** A missing file *)

(** A server host on which every file exists. *)
Definition service : ProjectService := {|
  projectKind := Inferred;
  getScriptInfo _ := None;
  hostFileExists _ := true;
  defaultLibFilePath := None
|}.

(** A project that watches for the creation of [/proj/missing.ts]. *)
Definition missingWatch : FileWatcher :=
  {| watcherId := 0; watchedPath := "/proj/missing.ts" |}.

Definition project : Project :=
  withMissingFiles (Some {[ "/proj/missing.ts" := missingWatch ]}) 1 []
    (newProject true (Some "/proj")).

Lemma fileExists_of_watched_missing_file_witness :
  fileExists (H1 := service) "/proj/missing.ts" project = Returns false project /\
  exists p',
    onMissingFileChanged "/proj/missing.ts" Created project = Returns tt p' /\
    missingFilesMap p' = Some (delete "/proj/missing.ts" {[ "/proj/missing.ts" := missingWatch ]}) /\
    fileExists (H1 := service) "/proj/missing.ts" p' =
      Returns true (withFileSystemProbes (fileSystemProbes p' ++ ["/proj/missing.ts"]) p').
Proof.
  assert (Hwatched : is_Some (({[ "/proj/missing.ts" := missingWatch ]}
                                : gmap Path FileWatcher) !! "/proj/missing.ts")).
  { exists missingWatch. apply lookup_singleton_eq. }
  exact (fileExists_of_watched_missing_file (H0 := fileSystemHost) (H1 := service) project
           "/proj/missing.ts" {[ "/proj/missing.ts" := missingWatch ]} eq_refl Hwatched).
Defined.

(** *** The changes since a version *)

#[local] Existing Instance service.

(** The program of [/proj/a.ts], which imports [./t]. *)
Definition firstProgram : Program :=
  {| programIdentity := 1;
     getSourceFiles := [ {| sourceFileName := "/proj/a.ts"; sourceFilePath := "/proj/a.ts" |};
                         {| sourceFileName := "/proj/t.ts"; sourceFilePath := "/proj/t.ts" |} ];
     getMissingFilePaths := [];
     configFile := None |}.

(** The first graph update builds the program; the next ones get it back
    with its structure reused. *)
Definition firstUpdate : GraphUpdate :=
  let build := {| requests := [RequestModuleNames ["./t"] "/proj/a.ts" None];
                  builtProgram := firstProgram;
                  oldStructureIsReused := Not |} in
  {| firstBuild := build; cachedTypings := []; secondBuild := build |}.


Definition openedProject : Project := newProject true (Some "/proj").

Definition reportedProject : Project :=
  stateAfter (getChangesSinceVersion firstUpdate None openedProject).

(** *** A new structure version with the same files *)

(** After the first graph update of [openedProject], the program builder
    makes a new program of the same two files, in which [/proj/a.ts] imports
    [./t] as before, and reports that it reused the structure of the old
    program only in parts. *)
Definition rebuiltProgram : Program :=
  {| programIdentity := 2;
     getSourceFiles := getSourceFiles firstProgram;
     getMissingFilePaths := [];
     configFile := None |}.

Definition rebuildUpdate : GraphUpdate :=
  let build := {| requests := [RequestModuleNames ["./t"] "/proj/a.ts" None];
                  builtProgram := rebuiltProgram;
                  oldStructureIsReused := SafeModules |} in
  {| firstBuild := build; cachedTypings := []; secondBuild := build |}.

Definition rebuiltProject : Project :=
  stateAfter (updateGraph rebuildUpdate reportedProject).

(** This graph update answers that the set of files changed and adds one
    to the structure version, with the files, the typings and the
    resolutions of the project as they were; [getChangesSinceVersion] then
    reports the new version with no file added or removed. *)
Lemma updateGraph_new_version_with_same_files :
  (exists answer,
     getChangesSinceVersion firstUpdate None openedProject
       = Returns answer reportedProject) /\
  updateGraph rebuildUpdate reportedProject = Returns false rebuiltProject /\
  projectStructureVersion reportedProject = 1%Z /\
  projectStructureVersion rebuiltProject = 2%Z /\
  getFileNames reportedProject = ["/proj/a.ts"; "/proj/t.ts"] /\
  getFileNames rebuiltProject = ["/proj/a.ts"; "/proj/t.ts"] /\
  typingFiles reportedProject = Some [] /\
  typingFiles rebuiltProject = Some [] /\
  resolvedModuleNames <$> resolutionCache rebuiltProject
    = resolvedModuleNames <$> resolutionCache reportedProject /\
  exists answer p',
    getChangesSinceVersion rebuildUpdate (Some 1%Z) reportedProject = Returns answer p' /\
    infoVersion answer = 2%Z /\
    changes answer = Some {| added := []; removed := []; updated := [] |}.
Proof.
  split; [eexists; vm_compute; reflexivity|].
  do 8 (split; [vm_compute; reflexivity|]).
  eexists _, _. split; [vm_compute; reflexivity|]. split; reflexivity.
Qed.

End Scenarios.

(** * Scenarios of the watches, the project and the inferred project *)

(** The further properties at work on the file system of the scenarios
    above. *)

Module MoreScenarios.

#[local] Existing Instance Posix.core.
#[local] Existing Instance Scenarios.fileSystemHost.
#[local] Existing Instance Scenarios.service.

(** *** Watching and releasing *)

(** A resolution that failed at [/proj/b.ts], at [/proj/b], a path without
    a default extension, and below a [node_modules] directory outside the
    project. *)
Definition unresolved : Resolution :=
  {| identity := 0;
     failedLookupLocations := ["/proj/b.ts"; "/proj/b"; "/x/node_modules/b/index.ts"];
     resolvedFile := None |}.

Lemma watchFailedLookupLocationOfResolution_counts_witness :
  exists c1,
    watchFailedLookupLocationOfResolution unresolved 0 Scenarios.cache = Returns tt c1 /\
    acquired (drop 0 (failedLookupLocations unresolved)) Scenarios.cache c1 /\
    customAcquired (drop 0 (failedLookupLocations unresolved)) Scenarios.cache c1 /\
    onlyWatchesChange Scenarios.cache c1.
Proof.
  exact (watchFailedLookupLocationOfResolution_counts unresolved 0 Scenarios.cache
           (Scenarios.placementTerminates_posix Scenarios.cache)).
Defined.

(** What the call leaves there: two references at [/proj], one at the
    [node_modules] directory, and the custom path. *)
Example watchFailedLookupLocationOfResolution_scenario :
  exists c1,
    watchFailedLookupLocationOfResolution unresolved 0 Scenarios.cache = Returns tt c1 /\
    refCount <$> directoryWatchesOfFailedLookups c1 !! "/proj" = Some 2%Z /\
    refCount <$> directoryWatchesOfFailedLookups c1 !! "/x/node_modules" = Some 1%Z /\
    customFailedLookupPaths c1 !! "/proj/b" = Some 1%Z /\
    customFailedLookupPaths c1 !! "/proj/b.ts" = None.
Proof. eexists. vm_compute. auto 10. Qed.

Definition watchedOnce : ResolutionCache :=
  stateAfter (watchFailedLookupLocationOfResolution unresolved 0 Scenarios.cache).

Lemma customPathsInOrder_cache : customPathsInOrder Scenarios.cache.
Proof.
  intros path count Hcount.
  change (customFailedLookupPaths Scenarios.cache) with (∅ : gmap Path Z) in Hcount.
  rewrite lookup_empty in Hcount. discriminate.
Qed.

Lemma customPathsInOrder_kept_witness : customPathsInOrder watchedOnce.
Proof.
  apply (customPathsInOrder_kept unresolved 0 Scenarios.cache watchedOnce
           customPathsInOrder_cache).
  left. vm_compute. reflexivity.
Defined.

Lemma watch_then_stop_restores_witness :
  exists c1 c2,
    watchFailedLookupLocationOfResolution unresolved 0 Scenarios.cache = Returns tt c1 /\
    stopWatchFailedLookupLocationOfResolution unresolved c1 = Returns tt c2 /\
    customFailedLookupPaths c2 = customFailedLookupPaths Scenarios.cache /\
    closedWatchers c2 = closedWatchers Scenarios.cache /\
    forall d,
      match directoryWatchesOfFailedLookups Scenarios.cache !! d with
      | Some w => directoryWatchesOfFailedLookups c2 !! d = Some w
      | None =>
          if (releasedAt Scenarios.cache (failedLookupLocations unresolved) d =? 0)%Z
          then directoryWatchesOfFailedLookups c2 !! d = None
          else exists handle,
                 directoryWatchesOfFailedLookups c2 !! d =
                 Some {| watcher := handle; refCount := 0 |} /\
                 nextWatcher Scenarios.cache <= watcherId handle < nextWatcher c1
      end.
Proof.
  exact (watch_then_stop_restores unresolved Scenarios.cache
           (Scenarios.placementTerminates_posix Scenarios.cache) customPathsInOrder_cache).
Defined.

(** The resolution is replaced by one that failed at [/proj/b.ts] and at
    [/proj/c.ts]: the first location is left alone, one is watched and two
    are released. *)
Definition replacement : Resolution :=
  {| identity := 1;
     failedLookupLocations := ["/proj/b.ts"; "/proj/c.ts"];
     resolvedFile := None |}.

Lemma watchAndStopWatchDiffFailedLookupLocations_exchanges_witness :
  exchanged (failedLookupLocations replacement) (failedLookupLocations unresolved)
    watchedOnce
    (stateAfter (watchAndStopWatchDiffFailedLookupLocations replacement unresolved
                   watchedOnce)).
Proof.
  apply watchAndStopWatchDiffFailedLookupLocations_exchanges. vm_compute. reflexivity.
Defined.

(** *** Resolving *)

(** [/proj/a.ts] imported [./t] and [./old]; now it imports [./t] only. *)
Definition importedBefore : ResolutionCache :=
  stateAfter (resolveModuleNames ["./t"; "./old"] "/proj/a.ts" None false Scenarios.cache).

Definition importedAfter : ResolutionCache :=
  stateAfter (resolveModuleNames ["./t"] "/proj/a.ts" None false importedBefore).

Lemma resolveNamesWithLocalCache_forgets_witness :
  resolveModuleNames ["./t"] "/proj/a.ts" None false importedBefore
  = Returns [Some {| resolvedFileName := Some "/proj/t.ts";
                     hasTypeScriptExtension := true |}]
      importedAfter /\
  (entries ModuleName "/proj/a.ts" importedBefore).*1 = ["./t"; "./old"] /\
  (forall name r,
     (name, r) ∈ entries ModuleName "/proj/a.ts" importedAfter ->
     name ∈ ["./t"] \/ contains None name = true).
Proof.
  split; [vm_compute; reflexivity | split; [vm_compute; reflexivity | ]].
  apply (resolveNamesWithLocalCache_forgets ModuleName "/proj/a.ts" ["./t"] None false
           importedBefore
           [Some {| resolvedFileName := Some "/proj/t.ts";
                    hasTypeScriptExtension := true |}]).
  vm_compute. reflexivity.
Defined.
Lemma resolveNamesWithLocalCache_again_same_witness :
  resolveModuleNames ["./t"; "./b"] "/proj/a.ts" None false Scenarios.resolvedOnce
  = Returns [Some {| resolvedFileName := Some "/proj/t.ts";
                     hasTypeScriptExtension := true |}; None]
      Scenarios.resolvedOnce.
Proof.
  apply (resolveNamesWithLocalCache_again_same ModuleName "/proj/a.ts" ["./t"; "./b"]
           None true false Scenarios.recording).
  - vm_compute. reflexivity.
  - reflexivity.
Defined.

(** *** A failed lookup location appears *)

(** [/proj/b.ts], which [/proj/a.ts] and [/proj/t.ts] failed to find, is
    created. *)
Lemma invalidateResolutionOfFailedLookupLocation_marks_witness :
  exists answer c',
    invalidateResolutionOfFailedLookupLocation "/proj/b.ts" false Scenarios.importers
      = Returns answer c' /\
    (concernsFailedLookups Scenarios.importers "/proj/b.ts" false = false ->
     answer = false /\ c' = Scenarios.importers) /\
    (forall i,
       i ∈ isInvalidated c' <->
       i ∈ isInvalidated Scenarios.importers \/
       (concernsFailedLookups Scenarios.importers "/proj/b.ts" false = true /\
        exists k file name r,
          (file, name, r) ∈ cachedResolutions (perFile k Scenarios.importers) /\
          identity r = i /\
          existsb (isChangedFailedLookupLocation "/proj/b.ts" false)
            (failedLookupLocations r) = true)) /\
    (forall k, perFile k c' = perFile k Scenarios.importers /\
               perDirectory k c' = perDirectory k Scenarios.importers) /\
    directoryWatchesOfFailedLookups c' =
      directoryWatchesOfFailedLookups Scenarios.importers /\
    allFilesHaveInvalidatedResolution c' =
      allFilesHaveInvalidatedResolution Scenarios.importers.
Proof.
  apply (invalidateResolutionOfFailedLookupLocation_marks "/proj/b.ts" false
           Scenarios.importers).
  - vm_compute. reflexivity.
  - apply sharesInDirectory_sound. vm_compute. reflexivity.
  - apply sharesInDirectory_sound. vm_compute. reflexivity.
Defined.

(** There the one resolution of [./b], which the two files share, is
    marked, and the call answers that resolutions were invalidated. *)
Example invalidateResolutionOfFailedLookupLocation_scenario :
  exists c',
    invalidateResolutionOfFailedLookupLocation "/proj/b.ts" false Scenarios.importers
      = Returns true c' /\
    isInvalidated c' = {[1]} /\
    invalidateResolutionOfFailedLookupLocation "/proj/b.css" false Scenarios.importers
      = Returns false Scenarios.importers.
Proof. eexists. vm_compute. auto. Qed.

(** *** The roots of a project *)

Definition opened : ScriptInfo :=
  {| scriptInfoFileName := "/proj/a.ts"; scriptInfoPath := "/proj/a.ts";
     isScriptOpen := true |}.

Definition rootedProject : Project :=
  stateAfter (addRoot opened Scenarios.openedProject).

Lemma addRoot_adds_once_witness :
  isRoot Scenarios.openedProject opened = false /\
  isRoot rootedProject opened = true /\
  rootFiles rootedProject
    = (fun roots => roots ++ [opened]) <$> rootFiles Scenarios.openedProject /\
  (forall other, scriptInfoPath other <> scriptInfoPath opened ->
                 isRoot rootedProject other = isRoot Scenarios.openedProject other) /\
  projectStateVersion rootedProject = (projectStateVersion Scenarios.openedProject + 1)%Z /\
  addRoot opened rootedProject = Throws AssertionFailure rootedProject.
Proof.
  apply (addRoot_adds_once opened Scenarios.openedProject rootedProject).
  vm_compute. reflexivity.
Defined.

Lemma removeFile_forgets_file_witness :
  isRoot (stateAfter (removeFile opened true false rootedProject)) opened = false /\
  (forall other, scriptInfoPath other <> scriptInfoPath opened ->
                 isRoot (stateAfter (removeFile opened true false rootedProject)) other
                 = isRoot rootedProject other) /\
  (exists c',
     resolutionCache (stateAfter (removeFile opened true false rootedProject)) = Some c' /\
     forall k, JsMap.get (scriptInfoPath opened) (perFile k c') = None) /\
  projectStateVersion (stateAfter (removeFile opened true false rootedProject))
    = (projectStateVersion rootedProject + 1)%Z.
Proof.
  apply (removeFile_forgets_file opened true false rootedProject).
  vm_compute. reflexivity.
Defined.

(** *** Package names *)

(** A runtime whose [trim] removes the white space of ASCII. *)
Definition isWhiteSpace (c : ascii) : bool :=
  match c with
  | " " | "009" | "010" | "011" | "012" | "013" => true
  | _ => false
  end%char.

Fixpoint trimStart (s : string) : string :=
  match s with
  | String c rest => if isWhiteSpace c then trimStart rest else s
  | EmptyString => s
  end.

Definition reverse (s : string) : string :=
  String.string_of_list_ascii (rev (String.list_ascii_of_string s)).

#[local] Instance asciiRuntime : JavaScriptRuntime := {|
  trim s := reverse (trimStart (reverse (trimStart s)))
|}.

Example packageNameOf_scenario :
  packageNameOf " lodash/fp " = "lodash" /\
  packageNameOf "react" = "react" /\
  packageNameOf "@types/node/fs" = "@types/node" /\
  packageNameOf "@types/node" = "@types/node".
Proof. vm_compute. auto. Qed.

(** [/proj/a.ts] has one unresolved import of a package and one of a
    sibling; its names are computed once. *)
Definition importing : ImportingFile.t :=
  {| ImportingFile.path := "/proj/a.ts";
     ImportingFile.resolvedModules :=
       Some [("lodash/fp", None); ("./b", None);
             ("./t", Some {| resolvedFileName := Some "/proj/t.ts";
                             hasTypeScriptExtension := true |})] |}.

Example extractUnresolvedImportsFromSourceFile_scenario :
  exists m,
    extractUnresolvedImportsFromSourceFile importing UnresolvedImportsMap.create
      = Returns ["lodash"] m /\
    UnresolvedImportsMap.version m = 1%Z /\
    extractUnresolvedImportsFromSourceFile
      {| ImportingFile.path := "/proj/a.ts"; ImportingFile.resolvedModules := None |} m
      = Returns ["lodash"] m.
Proof. eexists. vm_compute. auto. Qed.

(** *** An inferred project *)

(** Script infos that have the kind of their extension. *)
#[local] Instance byExtension : ScriptInfoMembers := {|
  scriptKind info :=
    if Js.endsWith (scriptInfoFileName info) ".js" then ScriptKind.JS
    else if Js.endsWith (scriptInfoFileName info) ".jsx" then ScriptKind.JSX
    else if Js.endsWith (scriptInfoFileName info) ".tsx" then ScriptKind.TSX
    else if Js.endsWith (scriptInfoFileName info) ".ts" then ScriptKind.TS
    else ScriptKind.Unknown;
  isJavaScript info :=
    Js.endsWith (scriptInfoFileName info) ".js" ||
    Js.endsWith (scriptInfoFileName info) ".jsx";
  isDeclarationFileName fileName := Js.endsWith fileName ".d.ts"
|}.

#[local] Instance optionsHelpers : CompilerOptionsHelpers := {|
  getDefaultCompilerOptions :=
    {| maxNodeModuleJsDepth := None; allowJs := None; allowNonTsExtensions := None;
       noEmitForJsFiles := None; otherOptions := [] |};
  changesAffectModuleResolution oldOptions newOptions :=
    negb (bool_decide (otherOptions oldOptions = otherOptions newOptions))
|}.

Definition script : ScriptInfo :=
  {| scriptInfoFileName := "/proj/s.js"; scriptInfoPath := "/proj/s.js";
     isScriptOpen := true |}.

Definition declarations : ScriptInfo :=
  {| scriptInfoFileName := "/proj/t.d.ts"; scriptInfoPath := "/proj/t.d.ts";
     isScriptOpen := false |}.

Definition inferred : InferredProject.t := InferredProject.create None (Some "/proj").

Definition withScript : InferredProject.t :=
  stateAfter (InferredProject.addRoot script
                (stateAfter (InferredProject.addRoot declarations inferred))).

(** The project turns into a JavaScript project with the script and back
    without it. *)
Example inferredProject_scenario :
  InferredProject._isJsInferredProject inferred = false /\
  InferredProject._isJsInferredProject withScript = true /\
  maxNodeModuleJsDepth (InferredProject.compilerOptions withScript) = Some 2%Z /\
  InferredProject.typeAcquisitionIsEnabled withScript = Returns true withScript /\
  exists withoutScript,
    InferredProject.removeFile script true false withScript = Returns tt withoutScript /\
    InferredProject._isJsInferredProject withoutScript = false /\
    maxNodeModuleJsDepth (InferredProject.compilerOptions withoutScript) = None /\
    getRootFiles (InferredProject.asProject withoutScript) = Some ["/proj/t.d.ts"].
Proof.
  split; [reflexivity|]. split; [vm_compute; reflexivity|].
  split; [vm_compute; reflexivity|]. split; [vm_compute; reflexivity|].
  eexists. vm_compute. auto.
Qed.

Example countEachFileTypes_scenario :
  countEachFileTypes [script; declarations; opened]
  = {| FileStats.js := 1; FileStats.jsx := 0; FileStats.ts := 1; FileStats.tsx := 0;
       FileStats.dts := 1 |}.
Proof. vm_compute. reflexivity. Qed.

End MoreScenarios.
